(** * OpenMEEG: head-matrix assembly over packed symmetric storage

    A shallow embedding of the parts of OpenMEEG that assemble the head
    matrix: the packed symmetric matrix ([symmatrix.h]), the operator blocks
    ([operators.h]) and the orchestration and deflation
    ([assembleHeadMat.cpp]).

    Conventions of the embedding.
    - [double] values are exact rationals ([Q]); rounding, infinities and
      NaN are not modelled.  A quotient by zero is the [0] of [Q]; where the
      code divides, the lemmas say when the divisor is not zero or when the
      quotient is not used.
    - [Dimension] and [Index] are declared in [linop.h], which is missing;
      [std::min(nlin(),5U)] in [SymMatrix::info] makes [Dimension] the type
      [unsigned], taken to be 32 bits wide, and [Index] is taken to be the
      same type.  Dimensions and subscripts are natural numbers; the
      arithmetic that [symmatrix.h] does on them ([size()] and the subscript
      of the storage) is reduced modulo 2^32 as the code reduces it.  Where
      the code subtracts two of them, the model fails where the difference
      would wrap around.
    - [om_assert] is a failure: every accessor returns [option], [None]
      standing for a failed assertion (or, with assertions compiled out, an
      access outside the allocated storage).
    - freshly allocated storage is not initialised by the constructors; an
      allocation therefore takes the previous contents of the memory as an
      argument ([junk], [uninit]).
    - loops marked [#pragma omp parallel for] are run in iteration order, in
      the variant compiled when neither [NO_OPENMP] nor [OPENMP_ITERATOR] nor
      [OPENMP_RANGEFOR] is defined.
    - what is printed on [std::cout] is not modelled; the points reported on
      [std::cerr] as dropped are returned with the result. *)

From Stdlib Require Import NArith QArith Qpower Lia List Bool Arith String.
From stdpp Require Import base option list.

Open Scope nat_scope.

(** ** Monadic iteration *)

(** A [for] loop whose body may fail, threading the state left to right. *)
Fixpoint foldlM {S A : Type} (f : S -> A -> option S) (l : list A) (s : S)
  : option S :=
  match l with
  | [] => Some s
  | x :: l' => match f s x with
               | Some s' => foldlM f l' s'
               | None => None
               end
  end.

(** ** Unsigned arithmetic *)

(** The sum and the product of two [unsigned] numbers of 32 bits. *)
Definition wrap (x : N) : N := (x mod 2 ^ 32)%N.
Definition uadd (a b : N) : N := wrap (a + b).
Definition umul (a b : N) : N := wrap (a * b).

(** The [j]-th triangular number: the offset of column [j] in the packed
    storage when nothing wraps around. *)
Definition tri (j : nat) : nat := j * (j + 1) / 2.

(** ** Packed symmetric matrix ([symmatrix.h]) *)

Module SymMatrix.

Record t : Type := Make { nlin : nat; value : list Q }.

(** [size_t size() const { return nlin()*(nlin()+1)/2; }]: the number of
    stored cells; the product is computed in [unsigned], before the
    conversion to [size_t]. *)
Definition size_of (n : nat) : nat :=
  N.to_nat (umul (N.of_nat n) (uadd (N.of_nat n) 1) / 2).
Definition size (M : t) : nat := size_of (nlin M).

(** [SymMatrix(Dimension N)]: [value(size())], left uninitialised. *)
Definition new (n : nat) (junk : nat -> Q) : t :=
  Make n (map junk (seq 0 (size_of n))).

(** The subscript of [data()] in both [operator()]: [i+j*(j+1)/2] when
    [i<=j], and [j+i*(i+1)/2] otherwise. *)
Definition subscript (i j : nat) : nat :=
  if i <=? j
  then N.to_nat (uadd (N.of_nat i)
                      (umul (N.of_nat j) (uadd (N.of_nat j) 1) / 2))
  else N.to_nat (uadd (N.of_nat j)
                      (umul (N.of_nat i) (uadd (N.of_nat i) 1) / 2)).

(** The rank of the entry (i,j) in the packed triangle: the subscript when
    nothing wraps around.  It names the cell of an entry in the
    statements. *)
Definition index (i j : nat) : nat :=
  if i <=? j then i + j * (j + 1) / 2 else j + i * (i + 1) / 2.

(** The dimensions for which [size()] does not wrap around: up to 65535. *)
Definition fits (n : nat) : Prop :=
  (N.of_nat n * (N.of_nat n + 1) < 2 ^ 32)%N.

(** [double operator()(i,j) const]. *)
Definition get (M : t) (i j : nat) : option Q :=
  if (i <? nlin M) && (j <? nlin M) then value M !! subscript i j else None.

(** [double& operator()(i,j)] used as the target of an assignment. *)
Definition put (M : t) (i j : nat) (x : Q) : option t :=
  if (i <? nlin M) && (j <? nlin M)
  then Some (Make (nlin M) (<[subscript i j := x]> (value M)))
  else None.

(** [set(x)]: every stored cell becomes [x]. *)
Definition set (M : t) (x : Q) : t :=
  Make (nlin M)
       (fold_left (fun d i => <[i := x]> d) (seq 0 (size M)) (value M)).

(** The storage has the extent the constructor gave it, and that extent is
    the whole triangle: [size()] did not wrap around. *)
Definition fitsb (n : nat) : bool :=
  (N.of_nat n * (N.of_nat n + 1) <? 2 ^ 32)%N.

Definition wf (M : t) : Prop :=
  (length (value M) =? size M) && fitsb (nlin M) = true.

(** [SymMatrix submat(istart,iend) const]. *)
Definition submat (M : t) (istart iend : nat) (junk : nat -> Q) : option t :=
  if negb (istart <? iend) then None else
  let isize := iend - istart + 1 in
  if negb (istart + isize <=? nlin M) then None else
  foldlM (fun mat i =>
            foldlM (fun mat j => x ← get M i j; put mat i j x)
                   (seq i (iend + 1 - i)) mat)
         (seq istart (iend + 1 - istart))
         (new isize junk).

End SymMatrix.

(** ** Dense matrix *)

(** Modelled from the spec: the dense matrix of [matrix.h], which is missing;
    "general rectangular storage" with explicit index arithmetic, here
    column after column. *)
Module Matrix.

Record t : Type := Make { nlin : nat; ncol : nat; value : list Q }.

Definition size (M : t) : nat := nlin M * ncol M.

(** [Matrix(n,m)], left uninitialised. *)
Definition new (n m : nat) (junk : nat -> Q) : t :=
  Make n m (map junk (seq 0 (n * m))).

Definition index (M : t) (i j : nat) : nat := i + nlin M * j.

Definition get (M : t) (i j : nat) : option Q :=
  if (i <? nlin M) && (j <? ncol M) then value M !! index M i j else None.

Definition put (M : t) (i j : nat) (x : Q) : option t :=
  if (i <? nlin M) && (j <? ncol M)
  then Some (Make (nlin M) (ncol M) (<[index M i j := x]> (value M)))
  else None.

Definition set (M : t) (x : Q) : t :=
  Make (nlin M) (ncol M)
       (fold_left (fun d i => <[i := x]> d) (seq 0 (size M)) (value M)).

Definition wf (M : t) : Prop := length (value M) = size M.

End Matrix.

(** ** Matrix sinks *)

(** The operator blocks are templates over the matrix type [T]; all they use
    is [operator()(i,j)], as a value and as the target of [=] or [+=]. *)
Class Sink (T : Type) : Type := {
  sink_get : T -> nat -> nat -> option Q;
  sink_put : T -> nat -> nat -> Q -> option T
}.

(** [mat(i,j) += x]. *)
Definition sink_add {T : Type} `{Sink T} (mat : T) (i j : nat) (x : Q)
  : option T :=
  old ← sink_get mat i j; sink_put mat i j (old + x)%Q.

#[export] Instance SymMatrix_Sink : Sink SymMatrix.t :=
  {| sink_get := SymMatrix.get; sink_put := SymMatrix.put |}.

#[export] Instance Matrix_Sink : Sink Matrix.t :=
  {| sink_get := Matrix.get; sink_put := Matrix.put |}.

(** ** Geometry *)

(** Modelled from the spec: the classes [Vect3], [Vertex], [Triangle] and
    [Mesh] of [vect3.h], [vertex.h], [triangle.h] and [mesh.h], which are
    missing, as the data model describes them. *)

Record Vect3 : Type := mkVect3 { vx : Q; vy : Q; vz : Q }.

Definition Vect3_sub (a b : Vect3) : Vect3 :=
  mkVect3 (vx a - vx b)%Q (vy a - vy b)%Q (vz a - vz b)%Q.

Definition dotprod (a b : Vect3) : Q :=
  (vx a * vx b + vy a * vy b + vz a * vz b)%Q.

(** [v(i)] for [i < 3]. *)
Definition Vect3_coord (v : Vect3) (i : nat) : Q :=
  match i with 0 => vx v | 1 => vy v | _ => vz v end.

Module Vertex.

Record t : Type := Make { position : Vect3; index : nat }.

(** Modelled from the spec: [V1==V2]; a vertex is a point with a unique
    global index, and is identified by it. *)
Definition eqb (a b : t) : bool := index a =? index b.

End Vertex.

Module Triangle.

Record t : Type :=
  Make { v0 : Vertex.t; v1 : Vertex.t; v2 : Vertex.t; index : nat; area : Q }.

Definition vertex (T : t) (i : nat) : Vertex.t :=
  match i with 0 => v0 T | 1 => v1 T | _ => v2 T end.

Definition contains (T : t) (V : Vertex.t) : bool :=
  Vertex.eqb (v0 T) V || Vertex.eqb (v1 T) V || Vertex.eqb (v2 T) V.

(** Modelled from the spec: [edge(V)], the edge opposite to [V], from the
    vertex that follows [V] to the one after it. *)
Definition edge (T : t) (V : Vertex.t) : Vertex.t * Vertex.t :=
  if Vertex.eqb (v0 T) V then (v1 T, v2 T)
  else if Vertex.eqb (v1 T) V then (v2 T, v0 T)
  else (v0 T, v1 T).

End Triangle.

Module Mesh.

(** [ident] stands for the address of the mesh object. *)
Record t : Type :=
  Make { ident : nat;
         vertices : list Vertex.t;
         triangles : list Triangle.t;
         outermost : bool;
         current_barrier : bool }.

(** Modelled from the spec: [triangles(V)], the triangles incident to [V],
    in the order of the mesh. *)
Definition triangles_of (m : t) (V : Vertex.t) : list Triangle.t :=
  List.filter (fun T => Triangle.contains T V) (triangles m).

(** [&mesh1==&mesh2]. *)
Definition same (a b : t) : bool := ident a =? ident b.

End Mesh.

(** [edge.vertex(0)-edge.vertex(1)] for the edge opposite to [V] in [T]. *)
Definition opposite_edge_vector (T : Triangle.t) (V : Vertex.t) : Vect3 :=
  let edge := Triangle.edge T V in
  Vect3_sub (Vertex.position (fst edge)) (Vertex.position (snd edge)).

(** The quadrature of [integrator.h], which is missing: what [integrate]
    returns for a scalar and for a vector kernel over a triangle. *)
Record Integrator : Type :=
  { integrate : (Vect3 -> Q) -> Triangle.t -> Q;
    integrate3 : (Vect3 -> Vect3) -> Triangle.t -> Vect3 }.

(** Modelled from the spec: oriented meshes, interfaces, boundaries and
    domains ([interface.h], [domain.h], missing).  [dom_ident] stands for the
    address of the domain object. *)
Record OrientedMesh : Type := { om_mesh : Mesh.t; orientation : Z }.
Record Interface : Type := { oriented_meshes : list OrientedMesh }.
Record Boundary : Type := { interface : Interface; inside : bool }.
Record Domain : Type :=
  { dom_ident : nat; conductivity : Q; boundaries : list Boundary }.

(** What the code takes from files that are missing, as parameters: the
    constant [K] of [constants.h] (1/4π), the kernels [analyticS(T).f] and
    [analyticD3(T).f] of [analytics.h], the comparison [mesh1==mesh2] of
    [mesh.h], [Boundary::mesh_orientation], the position and the potential
    of the dipole that [Dipole(i,dipoles)] builds from a row, and the
    contents of storage that was allocated and not yet written. *)
Record Env : Type :=
  { K : Q;
    analyticS : Triangle.t -> Vect3 -> Q;
    analyticD3 : Triangle.t -> Vect3 -> Vect3;
    mesh_eq : Mesh.t -> Mesh.t -> bool;
    mesh_orientation : Boundary -> OrientedMesh -> Z;
    dipole_position : Matrix.t -> nat -> Vect3;
    dipole_potential : Matrix.t -> nat -> Vect3 -> Q;
    uninit : nat -> Q }.

(** ** Operator blocks ([operators.h]) *)

Module BlocksBase.
Section WithSink.

Context (env : Env) (integrator : Integrator) {T : Type} `{Sink T}.

(** [D(T1,T2,mat,coeff)]: the contribution of [T2] on [T1]. *)
Definition D_pair (T1 T2 : Triangle.t) (mat : T) (coeff : Q) : option T :=
  let total := integrate3 integrator (analyticD3 env T2) T1 in
  foldlM (fun mat i =>
            sink_add mat (Triangle.index T1)
                     (Vertex.index (Triangle.vertex T2 i))
                     (Vect3_coord total i * coeff)%Q)
         (seq 0 3) mat.

(** [D(triangles1,triangles2,coeff,mat)]. *)
Definition D (triangles1 triangles2 : list Triangle.t) (coeff : Q) (mat : T)
  : option T :=
  foldlM (fun mat triangle1 =>
            foldlM (fun mat triangle2 => D_pair triangle1 triangle2 mat coeff)
                   triangles2 mat)
         triangles1 mat.

(** The private [N(factor,V1,V2,m1,m2,matrix)]; [matrix] is only read. *)
Definition N (factor : Q) (V1 V2 : Vertex.t) (m1 m2 : Mesh.t)
           (matrix : nat -> nat -> option Q) : option Q :=
  foldlM (fun result tp1 =>
            let CB1 := opposite_edge_vector tp1 V1 in
            foldlM (fun result tp2 =>
                      let CB2 := opposite_edge_vector tp2 V2 in
                      s ← matrix (Triangle.index tp1) (Triangle.index tp2);
                      Some (result - factor * dotprod CB1 CB2 * s
                                     / (Triangle.area tp1 * Triangle.area tp2))%Q)
                   (Mesh.triangles_of m2 V2) result)
         (Mesh.triangles_of m1 V1) 0%Q.

(** [N(V1,V2,m,matrix)]. *)
Definition N_mesh (V1 V2 : Vertex.t) (m : Mesh.t)
           (matrix : nat -> nat -> option Q) : option Q :=
  N (1 # 4) V1 V2 m m matrix.

(** [N(V1,V2,m1,m2,matrix)]: "This function assumes that the two meshes
    are different." *)
Definition N_meshes (V1 V2 : Vertex.t) (m1 m2 : Mesh.t)
           (matrix : nat -> nat -> option Q) : option Q :=
  let coeff := if Vertex.eqb V1 V2 then 1 # 2 else 1 # 4 in
  N coeff V1 V2 m1 m2 matrix.

End WithSink.
End BlocksBase.

Module DiagonalBlock.

(** [SymBloc]: a packed symmetric matrix addressed with an offset.  The
    subtraction [i-offset] is unsigned: below the offset it wraps around to
    a subscript beyond every dimension, which the assertion of the base
    accessor refuses. *)
Record SymBloc : Type := MakeSymBloc { offset : nat; base : SymMatrix.t }.

Definition SymBloc_new (off sz : nat) (junk : nat -> Q) : SymBloc :=
  MakeSymBloc off (SymMatrix.new sz junk).

Definition SymBloc_get (b : SymBloc) (i j : nat) : option Q :=
  if (i <? offset b) || (j <? offset b) then None
  else SymMatrix.get (base b) (i - offset b) (j - offset b).

Definition SymBloc_put (b : SymBloc) (i j : nat) (x : Q) : option SymBloc :=
  if (i <? offset b) || (j <? offset b) then None
  else base' ← SymMatrix.put (base b) (i - offset b) (j - offset b) x;
       Some (MakeSymBloc (offset b) base').

#[global] Instance SymBloc_Sink : Sink SymBloc :=
  {| sink_get := SymBloc_get; sink_put := SymBloc_put |}.

(** The block: its integrator, its mesh and the coefficient of the last S
    block it computed ([Scoeff = 0.0] at construction). *)
Record t : Type :=
  Make { integrator : Integrator; mesh : Mesh.t; Scoeff : Q }.

Definition new (m : Mesh.t) (intg : Integrator) : t := Make intg m 0%Q.

Definition S_block_is_computed (blk : t) : bool :=
  negb (Qeq_bool (Scoeff blk) 0).

Section WithSink.

Context (env : Env) {T : Type} `{Sink T}.

(** The rows of [S] from the triangles [ts] on: the inner loop starts at
    the triangle of the outer one. *)
Fixpoint S_rows (blk : t) (coeff : Q) (ts : list Triangle.t) (matrix : T)
  : option T :=
  match ts with
  | [] => Some matrix
  | triangle1 :: rest =>
      matrix' ← foldlM (fun m triangle2 =>
                          sink_put m (Triangle.index triangle1)
                                   (Triangle.index triangle2)
                                   (integrate (integrator blk)
                                              (analyticS env triangle1)
                                              triangle2 * coeff)%Q)
                       ts matrix;
      S_rows blk coeff rest matrix'
  end.

(** [S(coeff,matrix)]. *)
Definition S (blk : t) (coeff : Q) (matrix : T) : option T :=
  S_rows blk coeff (Mesh.triangles (mesh blk)) matrix.

(** [D(coeff,matrix)] and [Dstar(coeff,matrix)]. *)
Definition D (blk : t) (coeff : Q) (matrix : T) : option T :=
  BlocksBase.D env (integrator blk) (Mesh.triangles (mesh blk))
               (Mesh.triangles (mesh blk)) coeff matrix.

Definition Dstar (blk : t) (coeff : Q) (matrix : T) : option T :=
  BlocksBase.D env (integrator blk) (Mesh.triangles (mesh blk))
               (Mesh.triangles (mesh blk)) coeff matrix.

(** The rows of the private [N(coeff,S,matrix)] for the vertices [todo],
    those of [before] being done: the inner loop runs from the first
    vertex of the mesh to the vertex of the outer loop, included.  [S] is
    a reference: it is given the sink as it stands, so that it can name
    the sink itself. *)
Fixpoint N_rows (blk : t) (coeff : Q) (S : T -> nat -> nat -> option Q)
         (before todo : list Vertex.t) (matrix : T) : option T :=
  match todo with
  | [] => Some matrix
  | V1 :: rest =>
      matrix' ← foldlM (fun m V2 =>
                          n ← BlocksBase.N_mesh V1 V2 (mesh blk) (S m);
                          sink_add m (Vertex.index V1) (Vertex.index V2)
                                   (n * coeff)%Q)
                       (before ++ [V1]) matrix;
      N_rows blk coeff S (before ++ [V1]) rest matrix'
  end.

(** The private [N(coeff,S,matrix)]. *)
Definition N_from (blk : t) (coeff : Q) (S : T -> nat -> nat -> option Q)
           (matrix : T) : option T :=
  N_rows blk coeff S [] (Mesh.vertices (mesh blk)) matrix.

End WithSink.

Section WithSink.

Context (env : Env) {T : Type} `{Sink T}.

(** [N(coeff,matrix)]; [front()] of an empty vector has no value. *)
Definition N (blk : t) (coeff : Q) (matrix : T) : option T :=
  if S_block_is_computed blk then
    N_from blk (coeff / Scoeff blk)%Q sink_get matrix
  else
    match Mesh.triangles (mesh blk) with
    | [] => None
    | front :: _ =>
        let Sbloc := SymBloc_new (Triangle.index front)
                                 (length (Mesh.triangles (mesh blk)))
                                 (uninit env) in
        Sbloc ← S env blk 1 Sbloc;
        N_from blk coeff (fun _ => sink_get Sbloc) matrix
    end.

(** [set_S_block] changes the block as well as the matrix. *)
Definition set_S_block (coeff : Q) (blk : t) (matrix : T)
  : option (t * T) :=
  if negb (Mesh.current_barrier (mesh blk)) then
    matrix ← S env blk coeff matrix;
    Some (Make (integrator blk) (mesh blk) coeff, matrix)
  else Some (blk, matrix).

Definition set_N_block (coeff : Q) (blk : t) (matrix : T) : option T :=
  N blk coeff matrix.

Definition set_D_block (coeff : Q) (blk : t) (matrix : T) : option T :=
  if negb (Mesh.current_barrier (mesh blk)) then D env blk coeff matrix
  else Some matrix.

Definition set_Dstar_block (coeff : Q) (blk : t) (matrix : T) : option T :=
  Some matrix.

(** [Id(T,V)] and [addId(coeff,matrix)]. *)
Definition Id (T0 : Triangle.t) (V : Vertex.t) : Q :=
  if Triangle.contains T0 V then (Triangle.area T0 / 3)%Q else 0%Q.

Definition addId (blk : t) (coeff : Q) (matrix : T) : option T :=
  foldlM (fun m triangle =>
            foldlM (fun m i =>
                      let vertex := Triangle.vertex triangle i in
                      sink_add m (Triangle.index triangle)
                               (Vertex.index vertex)
                               (Id triangle vertex * coeff)%Q)
                   (seq 0 3) m)
         (Mesh.triangles (mesh blk)) matrix.

End WithSink.

End DiagonalBlock.

Module NonDiagonalBlock.

(** [Bloc]: a dense matrix addressed with a row and a column offset; the
    unsigned subtractions behave as in [SymBloc]. *)
Record Bloc : Type := MakeBloc { i0 : nat; j0 : nat; base : Matrix.t }.

Definition Bloc_new (r0 c0 n m : nat) (junk : nat -> Q) : Bloc :=
  MakeBloc r0 c0 (Matrix.new n m junk).

Definition Bloc_get (b : Bloc) (i j : nat) : option Q :=
  if (i <? i0 b) || (j <? j0 b) then None
  else Matrix.get (base b) (i - i0 b) (j - j0 b).

Definition Bloc_put (b : Bloc) (i j : nat) (x : Q) : option Bloc :=
  if (i <? i0 b) || (j <? j0 b) then None
  else base' ← Matrix.put (base b) (i - i0 b) (j - j0 b) x;
       Some (MakeBloc (i0 b) (j0 b) base').

#[global] Instance Bloc_Sink : Sink Bloc :=
  {| sink_get := Bloc_get; sink_put := Bloc_put |}.

Record t : Type :=
  Make { integrator : Integrator; mesh1 : Mesh.t; mesh2 : Mesh.t; Scoeff : Q }.

Definition new (m1 m2 : Mesh.t) (intg : Integrator) : t := Make intg m1 m2 0%Q.

Definition S_block_is_computed (blk : t) : bool :=
  negb (Qeq_bool (Scoeff blk) 0).

Section WithSink.

Context (env : Env) {T : Type} `{Sink T}.

(** [S(coeff,matrix)]. *)
Definition S (blk : t) (coeff : Q) (matrix : T) : option T :=
  foldlM (fun m triangle1 =>
            foldlM (fun m triangle2 =>
                      sink_put m (Triangle.index triangle1)
                               (Triangle.index triangle2)
                               (integrate (integrator blk)
                                          (analyticS env triangle1)
                                          triangle2 * coeff)%Q)
                   (Mesh.triangles (mesh2 blk)) m)
         (Mesh.triangles (mesh1 blk)) matrix.

Definition D (blk : t) (coeff : Q) (matrix : T) : option T :=
  BlocksBase.D env (integrator blk) (Mesh.triangles (mesh1 blk))
               (Mesh.triangles (mesh2 blk)) coeff matrix.

Definition Dstar (blk : t) (coeff : Q) (matrix : T) : option T :=
  BlocksBase.D env (integrator blk) (Mesh.triangles (mesh2 blk))
               (Mesh.triangles (mesh1 blk)) coeff matrix.

(** The private [N(coeff,S,matrix)]; [S] as in [DiagonalBlock.N_rows]. *)
Definition N_from (blk : t) (coeff : Q) (S : T -> nat -> nat -> option Q)
           (matrix : T) : option T :=
  foldlM (fun m vertex1 =>
            foldlM (fun m vertex2 =>
                      n ← BlocksBase.N_meshes vertex1 vertex2
                            (mesh1 blk) (mesh2 blk) (S m);
                      sink_add m (Vertex.index vertex1)
                               (Vertex.index vertex2) (n * coeff)%Q)
                   (Mesh.vertices (mesh2 blk)) m)
         (Mesh.vertices (mesh1 blk)) matrix.

End WithSink.

Section WithSink.

Context (env : Env) {T : Type} `{Sink T}.

(** [N(coeff,matrix)]. *)
Definition N (blk : t) (coeff : Q) (matrix : T) : option T :=
  if S_block_is_computed blk then
    N_from blk (coeff / Scoeff blk)%Q sink_get matrix
  else
    match Mesh.triangles (mesh1 blk), Mesh.triangles (mesh2 blk) with
    | front1 :: _, front2 :: _ =>
        let Sbloc := Bloc_new (Triangle.index front1) (Triangle.index front2)
                              (length (Mesh.triangles (mesh1 blk)))
                              (length (Mesh.triangles (mesh2 blk)))
                              (uninit env) in
        Sbloc ← S env blk 1 Sbloc;
        N_from blk coeff (fun _ => sink_get Sbloc) matrix
    | _, _ => None
    end.

Definition set_S_block (coeff : Q) (blk : t) (matrix : T)
  : option (t * T) :=
  if negb (Mesh.current_barrier (mesh1 blk))
     && negb (Mesh.current_barrier (mesh2 blk)) then
    matrix ← S env blk coeff matrix;
    Some (Make (integrator blk) (mesh1 blk) (mesh2 blk) coeff, matrix)
  else Some (blk, matrix).

Definition set_N_block (coeff : Q) (blk : t) (matrix : T) : option T :=
  N blk coeff matrix.

Definition set_D_block (coeff : Q) (blk : t) (matrix : T) : option T :=
  if negb (Mesh.current_barrier (mesh1 blk)) then D env blk coeff matrix
  else Some matrix.

Definition set_Dstar_block (coeff : Q) (blk : t) (matrix : T) : option T :=
  if negb (mesh_eq env (mesh1 blk) (mesh2 blk))
     && negb (Mesh.current_barrier (mesh2 blk))
  then Dstar env blk coeff matrix
  else Some matrix.

End WithSink.

End NonDiagonalBlock.

(** The interface the orchestrator needs from a block type. *)
Class BlockType (B : Type) : Type := {
  set_S_block : forall {T : Type} `{Sink T}, Env -> Q -> B -> T -> option (B * T);
  set_N_block : forall {T : Type} `{Sink T}, Env -> Q -> B -> T -> option T;
  set_D_block : forall {T : Type} `{Sink T}, Env -> Q -> B -> T -> option T;
  set_Dstar_block : forall {T : Type} `{Sink T}, Env -> Q -> B -> T -> option T
}.

#[export] Instance DiagonalBlock_BlockType : BlockType DiagonalBlock.t :=
  {| set_S_block := fun T _ env => DiagonalBlock.set_S_block env;
     set_N_block := fun T _ env => DiagonalBlock.set_N_block env;
     set_D_block := fun T _ env => DiagonalBlock.set_D_block env;
     set_Dstar_block := fun T _ _ => DiagonalBlock.set_Dstar_block |}.

#[export] Instance NonDiagonalBlock_BlockType : BlockType NonDiagonalBlock.t :=
  {| set_S_block := fun T _ env => NonDiagonalBlock.set_S_block env;
     set_N_block := fun T _ env => NonDiagonalBlock.set_N_block env;
     set_D_block := fun T _ env => NonDiagonalBlock.set_D_block env;
     set_Dstar_block := fun T _ env => NonDiagonalBlock.set_Dstar_block env |}.

Module HeadMatrixBlocks.

(** [init(SymMatrix&)]. *)
Definition init (matrix : SymMatrix.t) : SymMatrix.t :=
  SymMatrix.set matrix 0%Q.

(** [set_blocks(coeffs,matrix)], [coeffs] being an array of three. *)
Definition set_blocks {B : Type} `{BlockType B} {T : Type} `{Sink T}
           (env : Env) (coeffs : list Q) (block : B) (matrix : T)
  : option (B * T) :=
  let SCondCoeff := nth 0 coeffs 0%Q in
  let NCondCoeff := nth 1 coeffs 0%Q in
  let DCondCoeff := nth 2 coeffs 0%Q in
  '(block, matrix) ← set_S_block env SCondCoeff block matrix;
  matrix ← set_N_block env NCondCoeff block matrix;
  matrix ← set_D_block env DCondCoeff block matrix;
  matrix ← set_Dstar_block env DCondCoeff block matrix;
  Some (block, matrix).

End HeadMatrixBlocks.

(** ** Head matrix ([assembleHeadMat.cpp]) *)

(** Modelled from the spec: the geometry ([geometry.h], missing), through
    what the assembly consumes from it. *)
Module Geometry.

Record MeshPair : Type :=
  { first : Mesh.t; second : Mesh.t; relative_orientation : Z }.

Record t : Type :=
  { meshes : list Mesh.t;
    communicating_mesh_pairs : list MeshPair;
    isolated_parts : list (list Mesh.t);
    nb_parameters : nat;
    nb_current_barrier_triangles : nat;
    sigma : Mesh.t -> Mesh.t -> Q;
    sigma_inv : Mesh.t -> Mesh.t -> Q;
    indicator : Mesh.t -> Mesh.t -> Q;
    domain_at : Vect3 -> Domain;
    domain_named : string -> Domain }.

End Geometry.

Module Details.

Section Deflate.

Context {T : Type} `{Sink T}.

(** The first loop over a part: the number of vertices of its outermost
    meshes, and [i_first]. *)
Definition first_loop (part : list Mesh.t) : option (nat * nat) :=
  foldlM (fun '(nb_vertices, i_first) meshptr =>
            if Mesh.outermost meshptr then
              let nb_vertices :=
                nb_vertices + length (Mesh.vertices meshptr) in
              if i_first =? 0 then
                match Mesh.vertices meshptr with
                | [] => None
                | front :: _ => Some (nb_vertices, Vertex.index front)
                end
              else Some (nb_vertices, i_first)
            else Some (nb_vertices, i_first))
         part (0, 0).

(** The two loops over the vertices of one mesh: the inner one starts at
    the vertex of the outer one. *)
Fixpoint deflate_rows (coef : Q) (vs : list Vertex.t) (M : T) : option T :=
  match vs with
  | [] => Some M
  | V1 :: rest =>
      M' ← foldlM (fun M V2 =>
                     sink_add M (Vertex.index V1) (Vertex.index V2) coef)
                  vs M;
      deflate_rows coef rest M'
  end.

(** The body of the loop over the parts.  When the part has no outermost
    vertex the quotient is not used. *)
Definition deflate_part (M : T) (part : list Mesh.t) : option T :=
  '(nb_vertices, i_first) ← first_loop part;
  d ← sink_get M i_first i_first;
  let coef := (d / inject_Z (Z.of_nat nb_vertices))%Q in
  foldlM (fun M meshptr =>
            if Mesh.outermost meshptr
            then deflate_rows coef (Mesh.vertices meshptr) M
            else Some M)
         part M.

Definition deflate (M : T) (geo : Geometry.t) : option T :=
  foldlM deflate_part (Geometry.isolated_parts geo) M.

End Deflate.

Definition AllBlocks : Mesh.t -> Mesh.t -> bool := fun _ _ => false.

Definition AllButBlock (env : Env) (mesh : Mesh.t) : Mesh.t -> Mesh.t -> bool :=
  fun mesh1 mesh2 => mesh_eq env mesh1 mesh2 && mesh_eq env mesh1 mesh.

(** The allocation and initialisation that open [HeadMatrix]. *)
Definition HeadMatrix_alloc (env : Env) (geo : Geometry.t) : SymMatrix.t :=
  let symmatrix :=
    SymMatrix.new (Geometry.nb_parameters geo
                   - Geometry.nb_current_barrier_triangles geo)
                  (uninit env) in
  HeadMatrixBlocks.init symmatrix.

(** The body of the loop over the communicating mesh pairs. *)
Definition HeadMatrix_pair (env : Env) (geo : Geometry.t)
           (integrator : Integrator)
           (disableBlock : Mesh.t -> Mesh.t -> bool)
           (symmatrix : SymMatrix.t) (mp : Geometry.MeshPair)
  : option SymMatrix.t :=
  let mesh1 := Geometry.first mp in
  let mesh2 := Geometry.second mp in
  if disableBlock mesh1 mesh2 then Some symmatrix else
  let factor := (inject_Z (Geometry.relative_orientation mp) * K env)%Q in
  let SCondCoeff := (factor * Geometry.sigma_inv geo mesh1 mesh2)%Q in
  let NCondCoeff := (factor * Geometry.sigma geo mesh1 mesh2)%Q in
  let DCondCoeff := (- factor * Geometry.indicator geo mesh1 mesh2)%Q in
  let coeffs := [SCondCoeff; NCondCoeff; DCondCoeff] in
  if Mesh.same mesh1 mesh2 then
    snd <$> HeadMatrixBlocks.set_blocks env coeffs
              (DiagonalBlock.new mesh1 integrator) symmatrix
  else
    snd <$> HeadMatrixBlocks.set_blocks env coeffs
              (NonDiagonalBlock.new mesh1 mesh2 integrator) symmatrix.

Definition HeadMatrix (env : Env) (geo : Geometry.t) (integrator : Integrator)
           (disableBlock : Mesh.t -> Mesh.t -> bool) : option SymMatrix.t :=
  let symmatrix := HeadMatrix_alloc env geo in
  symmatrix ← foldlM (HeadMatrix_pair env geo integrator disableBlock)
                     (Geometry.communicating_mesh_pairs geo) symmatrix;
  deflate symmatrix geo.

End Details.

Definition HeadMat (env : Env) (geo : Geometry.t) (integrator : Integrator)
  : option SymMatrix.t :=
  Details.HeadMatrix env geo integrator Details.AllBlocks.

(** ** Point-evaluation matrices *)

Module PartialBlock.

(** [addD(coeff,points,matrix)]. *)
Definition addD (env : Env) (mesh : Mesh.t) (coeff : Q)
           (points : list Vertex.t) (matrix : Matrix.t) : option Matrix.t :=
  foldlM (fun m triangle =>
            foldlM (fun m vertex =>
                      let integrals :=
                        analyticD3 env triangle (Vertex.position vertex) in
                      foldlM (fun m i =>
                                sink_add m (Vertex.index vertex)
                                         (Vertex.index (Triangle.vertex triangle i))
                                         (Vect3_coord integrals i * coeff)%Q)
                             (seq 0 3) m)
                   points m)
         (Mesh.triangles mesh) matrix.

(** [S(coeff,points,matrix)]. *)
Definition S (env : Env) (mesh : Mesh.t) (coeff : Q)
           (points : list Vertex.t) (matrix : Matrix.t) : option Matrix.t :=
  foldlM (fun m triangle =>
            foldlM (fun m vertex =>
                      sink_put m (Vertex.index vertex) (Triangle.index triangle)
                               (coeff * analyticS env triangle
                                                  (Vertex.position vertex))%Q)
                   points m)
         (Mesh.triangles mesh) matrix.

End PartialBlock.

(** [Vect3 point(points(i,0),points(i,1),points(i,2))]. *)
Definition point_of_row (points : Matrix.t) (i : nat) : option Vect3 :=
  x ← Matrix.get points i 0;
  y ← Matrix.get points i 1;
  z ← Matrix.get points i 2;
  Some (mkVect3 x y z).

(** [m_points[&domain].push_back(v)] on a [std::map] keyed by the address of
    the domain: an association list kept in the order of the keys. *)
Fixpoint m_points_push (m_points : list (Domain * list Vertex.t))
         (domain : Domain) (v : Vertex.t) : list (Domain * list Vertex.t) :=
  match m_points with
  | [] => [(domain, [v])]
  | (d, pts) :: rest =>
      if dom_ident domain =? dom_ident d then (d, pts ++ [v]) :: rest
      else if dom_ident domain <? dom_ident d
           then (domain, [v]) :: (d, pts) :: rest
           else (d, pts) :: m_points_push rest domain v
  end.

(** What the first loop of [Surf2VolMat] builds: the points per domain, the
    number of points kept, and the rows reported on [std::cerr]. *)
Record Surf2Vol_state : Type :=
  { m_points : list (Domain * list Vertex.t);
    index : nat;
    dropped : list nat }.

Definition Surf2VolMat_points (geo : Geometry.t) (points : Matrix.t)
  : option Surf2Vol_state :=
  foldlM (fun st i =>
            point ← point_of_row points i;
            let domain := Geometry.domain_at geo point in
            if Qeq_bool (conductivity domain) 0 then
              Some {| m_points := m_points st;
                      index := index st;
                      dropped := dropped st ++ [i] |}
            else
              Some {| m_points :=
                        m_points_push (m_points st) domain
                                      (Vertex.Make point (index st));
                      index := index st + 1;
                      dropped := dropped st |})
         (seq 0 (Matrix.nlin points))
         {| m_points := []; index := 0; dropped := [] |}.

(** [Surf2VolMat(geo,points)]: the rows reported as dropped, and the matrix. *)
Definition Surf2VolMat (env : Env) (geo : Geometry.t) (points : Matrix.t)
  : option (list nat * Matrix.t) :=
  st ← Surf2VolMat_points geo points;
  let size := index st in
  let mat :=
    Matrix.set (Matrix.new size
                           (Geometry.nb_parameters geo
                            - Geometry.nb_current_barrier_triangles geo)
                           (uninit env)) 0%Q in
  mat ← foldlM (fun mat '(domainptr, pts) =>
                  foldlM (fun mat boundary =>
                            foldlM (fun mat omesh =>
                                      let mesh := om_mesh omesh in
                                      let coeff :=
                                        (inject_Z (mesh_orientation env boundary omesh)
                                         * K env)%Q in
                                      mat ← PartialBlock.addD env mesh (- coeff)%Q pts mat;
                                      if negb (Mesh.current_barrier mesh)
                                      then PartialBlock.S env mesh
                                             (coeff / conductivity domainptr)%Q
                                             pts mat
                                      else Some mat)
                                   (oriented_meshes (interface boundary)) mat)
                         (boundaries domainptr) mat)
               (m_points st) mat;
  Some (dropped st, mat).

(** What the first loop of [DipSource2InternalPotMat] builds. *)
Record InternalPot_state : Type :=
  { points_domain : list Domain;
    pts : list Vect3;
    outside : list nat }.

Definition DipSource2InternalPotMat_points (geo : Geometry.t) (points : Matrix.t)
  : option InternalPot_state :=
  foldlM (fun st i =>
            point ← point_of_row points i;
            let domain := Geometry.domain_at geo point in
            if negb (Qeq_bool (conductivity domain) 0) then
              Some {| points_domain := points_domain st ++ [domain];
                      pts := pts st ++ [point];
                      outside := outside st |}
            else
              Some {| points_domain := points_domain st;
                      pts := pts st;
                      outside := outside st ++ [i] |})
         (seq 0 (Matrix.nlin points))
         {| points_domain := []; pts := []; outside := [] |}.

(** [DipSource2InternalPotMat(geo,dipoles,points,domain_name)]. *)
Definition DipSource2InternalPotMat (env : Env) (geo : Geometry.t)
           (dipoles points : Matrix.t) (domain_name : string)
  : option (list nat * Matrix.t) :=
  st ← DipSource2InternalPotMat_points geo points;
  let mat :=
    Matrix.set (Matrix.new (length (pts st)) (Matrix.nlin dipoles) (uninit env))
               0%Q in
  mat ← foldlM (fun mat iDIP =>
                  let domain :=
                    if String.eqb domain_name EmptyString
                    then Geometry.domain_at geo (dipole_position env dipoles iDIP)
                    else Geometry.domain_named geo domain_name in
                  let coeff := (K env / conductivity domain)%Q in
                  foldlM (fun mat iPTS =>
                            d ← points_domain st !! iPTS;
                            p ← pts st !! iPTS;
                            if dom_ident d =? dom_ident domain
                            then sink_add mat iPTS iDIP
                                   (coeff * dipole_potential env dipoles iDIP p)%Q
                            else Some mat)
                         (seq 0 (length (pts st))) mat)
               (seq 0 (Matrix.nlin dipoles)) mat;
  Some (outside st, mat).

(** ** Notions used in the statements *)

(** The mesh [m] with its [current_barrier] flag set to [b]. *)
Definition with_current_barrier (b : bool) (m : Mesh.t) : Mesh.t :=
  Mesh.Make (Mesh.ident m) (Mesh.vertices m) (Mesh.triangles m)
            (Mesh.outermost m) b.

(** A loop body that adds to the cell at [pos x] an amount computed from the
    matrix as it stands. *)
Definition add_step {A : Type} (pos : A -> nat * nat)
           (amount : SymMatrix.t -> A -> option Q)
           (M : SymMatrix.t) (x : A) : option SymMatrix.t :=
  d ← amount M x; sink_add M (fst (pos x)) (snd (pos x)) d.

(** The cell of the packed triangle that holds the entry at [p]. *)
Definition cell (p : nat * nat) : nat := SymMatrix.index (fst p) (snd p).

(** The pairs two nested loops visit when the inner loop starts at the
    element of the outer one. *)
Fixpoint upper_pairs {A : Type} (l : list A) : list (A * A) :=
  match l with
  | [] => []
  | x :: rest => map (pair x) (x :: rest) ++ upper_pairs rest
  end.

(** The pairs two nested loops visit when the inner loop runs from the first
    element to the element of the outer one, [before] being the elements
    the outer loop has passed. *)
Fixpoint lower_pairs {A : Type} (before todo : list A) : list (A * A) :=
  match todo with
  | [] => []
  | x :: rest =>
      map (pair x) (before ++ [x]) ++ lower_pairs (before ++ [x]) rest
  end.

(** The storage cell of the entry at the keys of a pair. *)
Definition pair_cell {A : Type} (key : A -> nat) (p : A * A) : nat :=
  cell (key (fst p), key (snd p)).

(** The subscripts of a pair of vertices. *)
Definition vertex_pos (p : Vertex.t * Vertex.t) : nat * nat :=
  (Vertex.index (fst p), Vertex.index (snd p)).

(** The vertices of the outermost meshes of a part, and the pairs of them
    the deflation visits. *)
Definition outermost_vertices (part : list Mesh.t) : list Vertex.t :=
  flat_map Mesh.vertices (List.filter Mesh.outermost part).

Definition deflate_pairs (part : list Mesh.t) : list (Vertex.t * Vertex.t) :=
  flat_map (fun m => upper_pairs (Mesh.vertices m))
           (List.filter Mesh.outermost part).

(** "nb_vertices_in_group counts the outermost meshes' vertices". *)
Definition nb_vertices_in_group (part : list Mesh.t) : nat :=
  length (outermost_vertices part).

(** "the first outermost mesh's first vertex index". *)
Definition i_first_of (part : list Mesh.t) : nat :=
  match List.filter Mesh.outermost part with
  | m :: _ => match Mesh.vertices m with
              | v :: _ => Vertex.index v
              | [] => 0
              end
  | [] => 0
  end.

(** The first outermost mesh of the part, if there is one, has a first
    vertex, and the index of that vertex is not zero unless the mesh is the
    only outermost mesh of the part. *)
Definition i_first_settled (part : list Mesh.t) : Prop :=
  match List.filter Mesh.outermost part with
  | m :: others => match Mesh.vertices m with
                   | v :: _ => Vertex.index v <> 0 \/ others = []
                   | [] => False
                   end
  | [] => True
  end.

(** [a] and [b] are indices of two vertices of one outermost mesh of the
    isolated part [part] of the geometry. *)
Definition in_deflated_block (geo : Geometry.t) (part : list Mesh.t)
           (a b : nat) : Prop :=
  In part (Geometry.isolated_parts geo)
  /\ exists m V1 V2,
      In m part /\ Mesh.outermost m = true
      /\ In V1 (Mesh.vertices m) /\ In V2 (Mesh.vertices m)
      /\ a = Vertex.index V1 /\ b = Vertex.index V2.

(** [a] and [b] are indices of two vertices of the outermost meshes of the
    isolated part [part] of the geometry. *)
Definition in_group (geo : Geometry.t) (part : list Mesh.t) (a b : nat)
  : Prop :=
  In part (Geometry.isolated_parts geo)
  /\ exists V1 V2,
      In V1 (outermost_vertices part) /\ In V2 (outermost_vertices part)
      /\ a = Vertex.index V1 /\ b = Vertex.index V2.

(** The entry at [(a,b)] of [M'] is the one of [M] increased by the
    coefficient of the part: the entry of [M] at [(i_first,i_first)] divided
    by the number of vertices of the group. *)
Definition increased_by_coef (M M' : SymMatrix.t) (part : list Mesh.t)
           (a b : nat) : Prop :=
  exists old d,
    SymMatrix.get M a b = Some old
    /\ SymMatrix.get M (i_first_of part) (i_first_of part) = Some d
    /\ SymMatrix.get M' a b
       = Some (old + d / inject_Z (Z.of_nat (nb_vertices_in_group part)))%Q.

(** The deflation as the specification words it: every entry at two vertices
    of the outermost meshes of a group is increased by the coefficient of
    the group, every entry that involves no such vertex is unchanged, and so
    is the dimension. *)
Definition deflated_as_specified (geo : Geometry.t) (M M' : SymMatrix.t)
  : Prop :=
  SymMatrix.nlin M' = SymMatrix.nlin M
  /\ (forall part a b, in_group geo part a b -> increased_by_coef M M' part a b)
  /\ (forall a b,
         (forall part V, In part (Geometry.isolated_parts geo) ->
                         In V (outermost_vertices part) ->
                         a <> Vertex.index V /\ b <> Vertex.index V) ->
         SymMatrix.get M' a b = SymMatrix.get M a b).

(** The sum of the specification for the vertex pair [(V1,V2)]: over the
    triangles [T1] incident to [V1] and [T2] incident to [V2], of
    dot(CB1,CB2) · S(T1,T2) / (area(T1)·area(T2)). *)
Definition Qsum (l : list Q) : Q := fold_right Qplus 0%Q l.

Definition N_term (V1 V2 : Vertex.t) (S : Triangle.t -> Triangle.t -> Q)
           (T1 T2 : Triangle.t) : Q :=
  (dotprod (opposite_edge_vector T1 V1) (opposite_edge_vector T2 V2)
   * S T1 T2 / (Triangle.area T1 * Triangle.area T2))%Q.

Definition N_sum (V1 V2 : Vertex.t) (m1 m2 : Mesh.t)
           (S : Triangle.t -> Triangle.t -> Q) : Q :=
  Qsum (map (fun T1 => Qsum (map (N_term V1 V2 S T1)
                                 (Mesh.triangles_of m2 V2)))
            (Mesh.triangles_of m1 V1)).

(** The factor as the specification words it: "0.5 when V1==V2 and the two
    meshes coincide, else 0.25". *)
Definition factor_as_specified (meshes_coincide : bool) (V1 V2 : Vertex.t)
  : Q :=
  if Vertex.eqb V1 V2 && meshes_coincide then 1 # 2 else 1 # 4.

Definition N_as_specified (meshes_coincide : bool) (V1 V2 : Vertex.t)
           (m1 m2 : Mesh.t) (S : Triangle.t -> Triangle.t -> Q) : Q :=
  (- factor_as_specified meshes_coincide V1 V2 * N_sum V1 V2 m1 m2 S)%Q.

(** What the N loops add at the visit of a pair of vertices: the value of
    [N] for the pair, read from [S], times the coefficient. *)
Definition diagonal_amount (blk : DiagonalBlock.t) (coeff : Q)
           (S : SymMatrix.t -> nat -> nat -> option Q)
           (M : SymMatrix.t) (p : Vertex.t * Vertex.t) : option Q :=
  n ← BlocksBase.N_mesh (fst p) (snd p) (DiagonalBlock.mesh blk) (S M);
  Some (n * coeff)%Q.

Definition nondiagonal_amount (blk : NonDiagonalBlock.t) (coeff : Q)
           (S : SymMatrix.t -> nat -> nat -> option Q)
           (M : SymMatrix.t) (p : Vertex.t * Vertex.t) : option Q :=
  n ← BlocksBase.N_meshes (fst p) (snd p) (NonDiagonalBlock.mesh1 blk)
        (NonDiagonalBlock.mesh2 blk) (S M);
  Some (n * coeff)%Q.

(** The pairs of vertices the N loop of the different-mesh engine visits. *)
Definition all_pairs {A B : Type} (l1 : list A) (l2 : list B) : list (A * B) :=
  flat_map (fun x => map (pair x) l2) l1.

(** The row [i] of [points] is a point of a domain whose conductivity is
    not zero. *)
Definition kept (geo : Geometry.t) (points : Matrix.t) (i : nat) : bool :=
  match point_of_row points i with
  | Some point =>
      negb (Qeq_bool (conductivity (Geometry.domain_at geo point)) 0)
  | None => false
  end.

Definition kept_rows (geo : Geometry.t) (points : Matrix.t) : list nat :=
  List.filter (kept geo points) (seq 0 (Matrix.nlin points)).

Definition dropped_rows (geo : Geometry.t) (points : Matrix.t) : list nat :=
  List.filter (fun i => negb (kept geo points i)) (seq 0 (Matrix.nlin points)).

(** The indices that the meshes around the domain [d] give to the columns
    of [Surf2VolMat] are below the number [nc] of columns: those of the
    vertices of their triangles, and those of the triangles of the meshes
    that are not current barriers. *)
Definition domain_in_range (nc : nat) (d : Domain) : Prop :=
  forall b om T,
    In b (boundaries d) -> In om (oriented_meshes (interface b)) ->
    In T (Mesh.triangles (om_mesh om)) ->
    (forall i, Vertex.index (Triangle.vertex T i) < nc)
    /\ (Mesh.current_barrier (om_mesh om) = false -> Triangle.index T < nc).

(** The points per domain of [Surf2VolMat] are points of domains in range,
    and the indices they were given are below [n]. *)
Definition m_points_in_range (nc n : nat)
           (m_points : list (Domain * list Vertex.t)) : Prop :=
  Forall (fun e => domain_in_range nc (fst e)
                   /\ Forall (fun v => Vertex.index v < n) (snd e))
         m_points.

(** A dense matrix of [n] rows and [nc] columns with its storage. *)
Definition Matrix_shape (n nc : nat) (mat : Matrix.t) : Prop :=
  Matrix.nlin mat = n /\ Matrix.ncol mat = nc /\ Matrix.wf mat.

(** The indices of the triangles lie in the block of [length ts] indices
    that starts at the index of the first triangle. *)
Definition triangles_in_block (ts : list Triangle.t) : Prop :=
  match ts with
  | [] => False
  | front :: _ =>
      forall T, In T ts ->
                Triangle.index front <= Triangle.index T
                < Triangle.index front + length ts
  end.

(** ** Concrete inputs *)

Module Examples.

(** The 3×3 packed matrix with rows (1 2 4), (2 3 5), (4 5 6). *)
Definition M3 : SymMatrix.t :=
  SymMatrix.Make 3 [1; 2; 3; 4; 5; 6]%Q.

Definition zeros : nat -> Q := fun _ => 0%Q.

Definition origin : Vect3 := mkVect3 0 0 0.

Definition nowhere : Domain :=
  {| dom_ident := 0; conductivity := 0; boundaries := [] |}.

(** A geometry given by its isolated parts alone. *)
Definition geometry_of_parts (parts : list (list Mesh.t)) : Geometry.t :=
  {| Geometry.meshes := concat parts;
     Geometry.communicating_mesh_pairs := [];
     Geometry.isolated_parts := parts;
     Geometry.nb_parameters := 3;
     Geometry.nb_current_barrier_triangles := 0;
     Geometry.sigma := fun _ _ => 1%Q;
     Geometry.sigma_inv := fun _ _ => 1%Q;
     Geometry.indicator := fun _ _ => 1%Q;
     Geometry.domain_at := fun _ => nowhere;
     Geometry.domain_named := fun _ => nowhere |}.

(** Two outermost meshes of one vertex each, of indices 1 and 2, in one
    isolated part. *)
Definition vA : Vertex.t := Vertex.Make origin 1.
Definition vB : Vertex.t := Vertex.Make origin 2.
Definition meshA : Mesh.t := Mesh.Make 1 [vA] [] true true.
Definition meshB : Mesh.t := Mesh.Make 2 [vB] [] true true.
Definition two_outermost : Geometry.t := geometry_of_parts [[meshA; meshB]].

(** An outermost mesh whose first vertex has index 0, before [meshB]. *)
Definition vO : Vertex.t := Vertex.Make origin 0.
Definition meshO : Mesh.t := Mesh.Make 3 [vO] [] true true.

(** A mesh of one triangle, of area 1/2, on the vertices of indices 0, 1
    and 2; the index of the triangle is 3. *)
Definition p0 : Vertex.t := Vertex.Make (mkVect3 0 0 0) 0.
Definition p1 : Vertex.t := Vertex.Make (mkVect3 1 0 0) 1.
Definition p2 : Vertex.t := Vertex.Make (mkVect3 0 1 0) 2.
Definition t0 : Triangle.t := Triangle.Make p0 p1 p2 3 (1 # 2).
Definition mesh0 : Mesh.t := Mesh.Make 0 [p0; p1; p2] [t0] true false.

(** Kernels and a quadrature that make every S integral equal to 1. *)
Definition env0 : Env :=
  {| K := 1;
     analyticS := fun _ _ => 1%Q;
     analyticD3 := fun _ _ => origin;
     mesh_eq := fun a b => Mesh.ident a =? Mesh.ident b;
     mesh_orientation := fun _ _ => 1%Z;
     dipole_position := fun _ _ => origin;
     dipole_potential := fun _ _ _ => 1%Q;
     uninit := zeros |}.

Definition integrator0 : Integrator :=
  {| integrate := fun f _ => f origin; integrate3 := fun f _ => f origin |}.

Definition ones : Triangle.t -> Triangle.t -> Q := fun _ _ => 1%Q.

(** The zero matrix of dimension 4. *)
Definition Z4 : SymMatrix.t := SymMatrix.set (SymMatrix.new 4 zeros) 0.

(** A conductive domain bounded by [mesh0], and a geometry in which the
    points of first coordinate zero lie outside it, in a domain of zero
    conductivity. *)
Definition inside0 : Domain :=
  {| dom_ident := 1;
     conductivity := 1;
     boundaries :=
       [ {| interface :=
              {| oriented_meshes := [ {| om_mesh := mesh0;
                                         orientation := 1 |} ] |};
            inside := true |} ] |}.

Definition head0 : Geometry.t :=
  {| Geometry.meshes := [mesh0];
     Geometry.communicating_mesh_pairs :=
       [ {| Geometry.first := mesh0; Geometry.second := mesh0;
            Geometry.relative_orientation := 1 |} ];
     Geometry.isolated_parts := [[mesh0]];
     Geometry.nb_parameters := 4;
     Geometry.nb_current_barrier_triangles := 0;
     Geometry.sigma := fun _ _ => 1%Q;
     Geometry.sigma_inv := fun _ _ => 1%Q;
     Geometry.indicator := fun _ _ => 1%Q;
     Geometry.domain_at :=
       fun p => if Qeq_bool (vx p) 0 then nowhere else inside0;
     Geometry.domain_named := fun _ => inside0 |}.

(** Two points, (0,0,0) and (1,0,0), as the rows of a matrix. *)
Definition two_points : Matrix.t := Matrix.Make 2 3 [0; 1; 0; 0; 0; 0]%Q.

End Examples.

(** ** Vector *)

(** Modelled from the spec: the vector of [vector.h], which is missing, as
    far as the packed symmetric matrix uses it: [size()], the allocation
    [Vector(n)], left uninitialised, and [v(i)], whose subscript lies below
    the size. *)
Module Vector.

Record t : Type := Make { value : list Q }.

Definition size (v : t) : nat := length (value v).

Definition new (n : nat) (junk : nat -> Q) : t := Make (map junk (seq 0 n)).

Definition get (v : t) (i : nat) : option Q := value v !! i.

Definition put (v : t) (i : nat) (x : Q) : option t :=
  if i <? size v then Some (Make (<[i := x]> (value v))) else None.

End Vector.

(** ** Algebra of the packed symmetric matrix ([symmatrix.h]) *)

(** The operations are those compiled when [HAVE_BLAS] is not defined: the
    loops of the source, and not the calls to the BLAS. *)
Module SymMatrixOps.

(** Modelled from the spec: [SymMatrix(S,DEEP_COPY)], whose
    [value(S.size(),S.data())] is built by [linop.h], which is missing: a
    copy of the [S.size()] stored cells. *)
Definition deep_copy (S : SymMatrix.t) : SymMatrix.t :=
  SymMatrix.Make (SymMatrix.nlin S)
                 (take (SymMatrix.size S) (SymMatrix.value S)).

(** [data()[i]] as a value: a cell of the storage. *)
Definition cell_get (d : list Q) (i : nat) : option Q := d !! i.

(** [operator+=(B)]. *)
Definition add_assign (A B : SymMatrix.t) : option SymMatrix.t :=
  if negb (SymMatrix.nlin A =? SymMatrix.nlin B) then None else
  value ← foldlM (fun d i =>
                    a ← cell_get d i;
                    b ← cell_get (SymMatrix.value B) i;
                    Some (<[i := (a + b)%Q]> d))
                 (seq 0 (SymMatrix.size A)) (SymMatrix.value A);
  Some (SymMatrix.Make (SymMatrix.nlin A) value).

(** [operator-=(B)]. *)
Definition sub_assign (A B : SymMatrix.t) : option SymMatrix.t :=
  if negb (SymMatrix.nlin A =? SymMatrix.nlin B) then None else
  value ← foldlM (fun d i =>
                    a ← cell_get d i;
                    b ← cell_get (SymMatrix.value B) i;
                    Some (<[i := (a - b)%Q]> d))
                 (seq 0 (SymMatrix.size A)) (SymMatrix.value A);
  Some (SymMatrix.Make (SymMatrix.nlin A) value).

(** [operator+(B)] and [operator-(B)]. *)
Definition add (A B : SymMatrix.t) : option SymMatrix.t :=
  if negb (SymMatrix.nlin A =? SymMatrix.nlin B) then None else
  let C := deep_copy A in
  add_assign C B.

Definition sub (A B : SymMatrix.t) : option SymMatrix.t :=
  if negb (SymMatrix.nlin A =? SymMatrix.nlin B) then None else
  let C := deep_copy A in
  sub_assign C B.

(** [operator*(x)]: the result is allocated, and every cell of it written. *)
Definition scale (M : SymMatrix.t) (x : Q) (junk : nat -> Q)
  : option SymMatrix.t :=
  let C := SymMatrix.new (SymMatrix.nlin M) junk in
  value ← foldlM (fun c i =>
                    d ← cell_get (SymMatrix.value M) i;
                    Some (<[i := (d * x)%Q]> c))
                 (seq 0 (SymMatrix.size M)) (SymMatrix.value C);
  Some (SymMatrix.Make (SymMatrix.nlin M) value).

(** [operator*=(x)]. *)
Definition scale_assign (M : SymMatrix.t) (x : Q) : option SymMatrix.t :=
  value ← foldlM (fun d i =>
                    a ← cell_get d i;
                    Some (<[i := (a * x)%Q]> d))
                 (seq 0 (SymMatrix.size M)) (SymMatrix.value M);
  Some (SymMatrix.Make (SymMatrix.nlin M) value).

(** [operator/(x)] and [operator/=(x)]: products by [1/x]. *)
Definition div (M : SymMatrix.t) (x : Q) (junk : nat -> Q)
  : option SymMatrix.t :=
  scale M (1 / x)%Q junk.

Definition div_assign (M : SymMatrix.t) (x : Q) : option SymMatrix.t :=
  scale_assign M (1 / x)%Q.

(** [SymMatrix(const Matrix& M)]: the dimension is the number of lines of
    [M], and the loops read [M] at and above its diagonal. *)
Definition of_Matrix (A : Matrix.t) (junk : nat -> Q) : option SymMatrix.t :=
  foldlM (fun S i =>
            foldlM (fun S j => x ← Matrix.get A i j; SymMatrix.put S i j x)
                   (seq i (Matrix.nlin A - i)) S)
         (seq 0 (Matrix.nlin A))
         (SymMatrix.new (Matrix.nlin A) junk).

(** [operator()(i_start,i_end,j_start,j_end)].  The differences are
    unsigned: when an end lies before its start they wrap around, and the
    loop they bound does not stop before the matrix is read at a line or
    a column beyond its dimension. *)
Definition block (M : SymMatrix.t) (i_start i_end j_start j_end : nat)
           (junk : nat -> Q) : option Matrix.t :=
  if (i_end <? i_start) || (j_end <? j_start) then None else
  let retMat := Matrix.new (i_end - i_start + 1) (j_end - j_start + 1) junk in
  foldlM (fun retMat i =>
            foldlM (fun retMat j =>
                      x ← SymMatrix.get M (i_start + i) (j_start + j);
                      Matrix.put retMat i j x)
                   (seq 0 (j_end - j_start + 1)) retMat)
         (seq 0 (i_end - i_start + 1)) retMat.

(** [submat(istart,isize,jstart,jsize)].  With a size of zero the unsigned
    [istart+isize-1] is the subscript before [istart], or the largest
    unsigned number when [istart] is zero: an end before its start in the
    first case, a loop over every unsigned number in the second, which
    likewise runs beyond the dimension. *)
Definition submat_block (M : SymMatrix.t) (istart isize jstart jsize : nat)
           (junk : nat -> Q) : option Matrix.t :=
  if negb (istart + isize <=? SymMatrix.nlin M) then None else
  if negb (jstart + jsize <=? SymMatrix.nlin M) then None else
  if (isize =? 0) || (jsize =? 0) then None else
  block M istart (istart + isize - 1) jstart (jstart + jsize - 1) junk.

(** [getlin(i)]. *)
Definition getlin (M : SymMatrix.t) (i : nat) (junk : nat -> Q)
  : option Vector.t :=
  if negb (i <? SymMatrix.nlin M) then None else
  foldlM (fun v j => x ← SymMatrix.get M i j; Vector.put v j x)
         (seq 0 (SymMatrix.nlin M))
         (Vector.new (SymMatrix.nlin M) junk).

(** [setlin(i,v)]. *)
Definition setlin (M : SymMatrix.t) (i : nat) (v : Vector.t)
  : option SymMatrix.t :=
  if negb (Vector.size v =? SymMatrix.nlin M) then None else
  if negb (i <? SymMatrix.nlin M) then None else
  foldlM (fun M j => x ← Vector.get v j; SymMatrix.put M i j x)
         (seq 0 (SymMatrix.nlin M)) M.

(** [operator*(const Vector& v)]. *)
Definition mult_Vector (M : SymMatrix.t) (v : Vector.t) (junk : nat -> Q)
  : option Vector.t :=
  if negb (SymMatrix.nlin M =? Vector.size v) then None else
  foldlM (fun y i =>
            y ← Vector.put y i 0%Q;
            foldlM (fun y j =>
                      m ← SymMatrix.get M i j;
                      x ← Vector.get v j;
                      old ← Vector.get y i;
                      Vector.put y i (old + m * x)%Q)
                   (seq 0 (SymMatrix.nlin M)) y)
         (seq 0 (SymMatrix.nlin M))
         (Vector.new (SymMatrix.nlin M) junk).

(** [operator*(const Matrix& B)]: [C] is allocated and not initialised;
    the line [i] of a column is assigned at the iteration [i], and added to
    at the iterations that follow. *)
Definition mult_Matrix (M : SymMatrix.t) (B : Matrix.t) (junk : nat -> Q)
  : option Matrix.t :=
  if negb (SymMatrix.nlin M =? Matrix.nlin B) then None else
  let C := Matrix.new (SymMatrix.nlin M) (Matrix.ncol B) junk in
  foldlM (fun C j =>
            foldlM (fun C i =>
                      '(C, sum) ← foldlM (fun '(C, sum) k =>
                                            mik ← SymMatrix.get M i k;
                                            bij ← Matrix.get B i j;
                                            C ← sink_add C k j (mik * bij)%Q;
                                            bkj ← Matrix.get B k j;
                                            Some (C, (sum + mik * bkj)%Q))
                                         (seq 0 i) (C, 0%Q);
                      mii ← SymMatrix.get M i i;
                      bij ← Matrix.get B i j;
                      Matrix.put C i j (mii * bij + sum)%Q)
                   (seq 0 (SymMatrix.nlin M)) C)
         (seq 0 (Matrix.ncol B)) C.

(** What [info()] prints of a matrix that is not empty: the least and the
    greatest value it found with their places, and the first values, line
    after line. *)
Record Report : Type :=
  { minv : Q; mini : nat; minj : nat;
    maxv : Q; maxi : nat; maxj : nat;
    first_values : list (list Q) }.

(** [a > b] on values. *)
Definition Qgt_bool (a b : Q) : bool := negb (Qle_bool a b).

(** [info()]; [Some None] stands for "Matrix Empty". *)
Definition info (M : SymMatrix.t) : option (option Report) :=
  if SymMatrix.nlin M =? 0 then Some None else
  first ← SymMatrix.get M 0 0;
  r ← foldlM (fun r i =>
                foldlM (fun r j =>
                          value ← SymMatrix.get M i j;
                          if Qgt_bool (minv r) value then
                            Some {| minv := value; mini := i; minj := j;
                                    maxv := maxv r; maxi := maxi r;
                                    maxj := maxj r;
                                    first_values := first_values r |}
                          else if Qgt_bool value (maxv r) then
                            Some {| minv := minv r; mini := mini r;
                                    minj := minj r;
                                    maxv := value; maxi := i; maxj := j;
                                    first_values := first_values r |}
                          else Some r)
                       (seq i (SymMatrix.nlin M - i)) r)
             (seq 0 (SymMatrix.nlin M))
             {| minv := first; mini := 0; minj := 0;
                maxv := first; maxi := 0; maxj := 0;
                first_values := [] |};
  lines ← foldlM (fun lines i =>
                    line ← foldlM (fun line j =>
                                     x ← SymMatrix.get M i j;
                                     Some (line ++ [x]))
                                  (seq i (Nat.min (SymMatrix.nlin M) 5 - i))
                                  [];
                    Some (lines ++ [line]))
                 (seq 0 (Nat.min (SymMatrix.nlin M) 5)) [];
  Some (Some {| minv := minv r; mini := mini r; minj := minj r;
                maxv := maxv r; maxi := maxi r; maxj := maxj r;
                first_values := lines |}).

End SymMatrixOps.

(** The entry of a packed symmetric matrix, of a dense matrix and of a
    vector where the statements need a value: [0] outside. *)
Definition entry (M : SymMatrix.t) (i j : nat) : Q :=
  default 0%Q (SymMatrix.get M i j).

Definition Matrix_entry (B : Matrix.t) (i j : nat) : Q :=
  default 0%Q (Matrix.get B i j).

Definition Vector_entry (v : Vector.t) (i : nat) : Q :=
  default 0%Q (Vector.get v i).

(** Two matrices of one dimension whose entries are equal as numbers. *)
Definition same_entries (A B : SymMatrix.t) : Prop :=
  SymMatrix.nlin A = SymMatrix.nlin B
  /\ forall i j, i < SymMatrix.nlin A -> j < SymMatrix.nlin A ->
                 exists a b, SymMatrix.get A i j = Some a
                             /\ SymMatrix.get B i j = Some b
                             /\ (a == b)%Q.

(** A loop body that writes at [pos x] a value computed from [x], into a
    packed symmetric matrix and into a dense one. *)
Definition put_step {A : Type} (pos : A -> nat * nat) (val : A -> option Q)
           (M : SymMatrix.t) (x : A) : option SymMatrix.t :=
  v ← val x; SymMatrix.put M (fst (pos x)) (snd (pos x)) v.

Definition Matrix_put_step {A : Type} (pos : A -> nat * nat)
           (val : A -> option Q) (M : Matrix.t) (x : A) : option Matrix.t :=
  v ← val x; Matrix.put M (fst (pos x)) (snd (pos x)) v.

(** The least and the greatest value of a report are in order, and they are
    entries of the matrix at the places reported. *)
Definition attained (M : SymMatrix.t) (r : SymMatrixOps.Report) : Prop :=
  (SymMatrixOps.minv r <= SymMatrixOps.maxv r)%Q
  /\ SymMatrix.get M (SymMatrixOps.mini r) (SymMatrixOps.minj r)
     = Some (SymMatrixOps.minv r)
  /\ SymMatrix.get M (SymMatrixOps.maxi r) (SymMatrixOps.maxj r)
     = Some (SymMatrixOps.maxv r).

(** ** Notions used in the statements on the operator blocks *)

(** The subscripts of a pair of triangles, and the value that the S loops
    write for it: the integral over the second triangle of the kernel of
    the first, times the coefficient. *)
Definition triangle_pos (p : Triangle.t * Triangle.t) : nat * nat :=
  (Triangle.index (fst p), Triangle.index (snd p)).

Definition S_value (env : Env) (intg : Integrator) (coeff : Q)
           (p : Triangle.t * Triangle.t) : Q :=
  (integrate intg (analyticS env (fst p)) (snd p) * coeff)%Q.

(** The visits of [addId]: a triangle and the rank of one of its vertices;
    the place and the amount of a visit. *)
Definition Id_visits (ts : list Triangle.t) : list (Triangle.t * nat) :=
  flat_map (fun T => map (pair T) (seq 0 3)) ts.

Definition Id_pos (p : Triangle.t * nat) : nat * nat :=
  (Triangle.index (fst p), Vertex.index (Triangle.vertex (fst p) (snd p))).

(** ** The scaling loop of [CorticalMat2] ([assembleHeadMat.cpp]) *)

(** The loop of [CorticalMat2] headed "Multiply by gamma the submat of
    current gradient norm2", on the matrix [G] as the loops before it left
    it.  The steps before and after it in [CorticalMat2] (the gradient norms
    of the meshes, the inversions, the files) call functions declared in
    other files and are not modelled. *)
Definition CorticalMat2_scale (geo : Geometry.t) (gamma : Q)
           (G : SymMatrix.t) : option SymMatrix.t :=
  foldlM (fun G mesh =>
            if negb (Mesh.current_barrier mesh) then
              foldlM (fun G triangle1 =>
                        foldlM (fun G triangle2 =>
                                  g ← SymMatrix.get G
                                        (Triangle.index triangle1)
                                        (Triangle.index triangle1);
                                  SymMatrix.put G
                                    (Triangle.index triangle1)
                                    (Triangle.index triangle1)
                                    (g * gamma)%Q)
                               (Mesh.triangles mesh) G)
                     (Mesh.triangles mesh) G
            else Some G)
         (Geometry.meshes geo) G.

(** The triangles of the meshes of the geometry that are not current
    barriers. *)
Definition current_triangles (geo : Geometry.t) : list Triangle.t :=
  flat_map Mesh.triangles
           (List.filter (fun m => negb (Mesh.current_barrier m))
                        (Geometry.meshes geo)).

(** The visits of [D]: a triangle of the first list, a triangle of the
    second and the rank of one of its vertices; the place and the amount
    of a visit. *)
Definition D_visits (ts1 ts2 : list Triangle.t)
  : list (Triangle.t * (Triangle.t * nat)) :=
  flat_map (fun T1 => map (pair T1) (Id_visits ts2)) ts1.

Definition D_pos (v : Triangle.t * (Triangle.t * nat)) : nat * nat :=
  (Triangle.index (fst v),
   Vertex.index (Triangle.vertex (fst (snd v)) (snd (snd v)))).

Definition D_amount (env : Env) (intg : Integrator) (coeff : Q)
           (v : Triangle.t * (Triangle.t * nat)) : Q :=
  (Vect3_coord (integrate3 intg (analyticD3 env (fst (snd v))) (fst v))
               (snd (snd v)) * coeff)%Q.

(** The part of the integral over [T1] of the kernel of [T2] that goes to
    the vertex of index [v]: the components of the ranks at which [T2] has
    that vertex. *)
Definition D_share (env : Env) (intg : Integrator) (T1 T2 : Triangle.t)
           (v : nat) : Q :=
  Qsum (map (fun i =>
               if Vertex.index (Triangle.vertex T2 i) =? v
               then Vect3_coord (integrate3 intg (analyticD3 env T2) T1) i
               else 0%Q)
            (seq 0 3)).

(** ** The N block and the S values it is derived from ([operators.h]) *)

(** The entries of [M'] at the pairs of vertices [pairs] are those of [M]
    increased by [amount], and every other entry of [M'] is the one of
    [M]. *)
Definition N_block_added (pairs : list (Vertex.t * Vertex.t))
           (amount : Vertex.t * Vertex.t -> Q) (M M' : SymMatrix.t) : Prop :=
  SymMatrix.nlin M' = SymMatrix.nlin M
  /\ (forall p, In p pairs ->
        exists old d,
          SymMatrix.get M (Vertex.index (fst p)) (Vertex.index (snd p))
          = Some old
          /\ SymMatrix.get M' (Vertex.index (fst p)) (Vertex.index (snd p))
             = Some (old + d)%Q
          /\ (d == amount p)%Q)
  /\ forall a b,
      (forall p, In p pairs ->
                 SymMatrix.index a b
                 <> SymMatrix.index (Vertex.index (fst p))
                                    (Vertex.index (snd p))) ->
      SymMatrix.get M' a b = SymMatrix.get M a b.

(** The S values that a matrix holds, and the S values at coefficient 1:
    the integral over the second triangle of the kernel of the first. *)
Definition stored_S (M : SymMatrix.t) (T1 T2 : Triangle.t) : Q :=
  entry M (Triangle.index T1) (Triangle.index T2).

Definition unit_S (env : Env) (intg : Integrator) (T1 T2 : Triangle.t) : Q :=
  (integrate intg (analyticS env T1) T2 * 1)%Q.

(** [s] gives the values of the S block that the same-mesh engine computes
    at coefficient 1 for the triangles [ts]: for a triangle and one that
    does not come before it, the integral, at both orders of the pair. *)
Definition unit_S_block (env : Env) (intg : Integrator)
           (ts : list Triangle.t) (s : Triangle.t -> Triangle.t -> Q) : Prop :=
  forall T1 T2, In (T1, T2) (upper_pairs ts) ->
                s T1 T2 = unit_S env intg T1 T2
                /\ s T2 T1 = unit_S env intg T1 T2.

(** What the N loops add at a pair of vertices, from the S values [s]. *)
Definition Diagonal_N_amount (coeff : Q) (mesh : Mesh.t)
           (s : Triangle.t -> Triangle.t -> Q) (p : Vertex.t * Vertex.t) : Q :=
  (coeff * (- (1 # 4) * N_sum (fst p) (snd p) mesh mesh s))%Q.

Definition NonDiagonal_N_amount (coeff : Q) (mesh1 mesh2 : Mesh.t)
           (s : Triangle.t -> Triangle.t -> Q) (p : Vertex.t * Vertex.t) : Q :=
  (coeff * (- (if Vertex.eqb (fst p) (snd p) then 1 # 2 else 1 # 4)
            * N_sum (fst p) (snd p) mesh1 mesh2 s))%Q.

(** The matrix and the mesh that the N block of the same-mesh engine is
    computed for: the matrix covers the vertices, whose indices are
    pairwise different; when the S block of the matrix is used, the matrix
    covers the triangles and no triangle has the index of a vertex; when an
    S block is computed apart, the triangles, of pairwise different indices,
    fill the block of indices that starts at the first, and their number is
    a dimension that fits. *)
Definition Diagonal_N_inputs (blk : DiagonalBlock.t) (M : SymMatrix.t)
  : Prop :=
  let vs := Mesh.vertices (DiagonalBlock.mesh blk) in
  let ts := Mesh.triangles (DiagonalBlock.mesh blk) in
  SymMatrix.wf M
  /\ (forall V, In V vs -> Vertex.index V < SymMatrix.nlin M)
  /\ List.NoDup (map Vertex.index vs)
  /\ if DiagonalBlock.S_block_is_computed blk
     then (forall T, In T ts -> Triangle.index T < SymMatrix.nlin M)
          /\ (forall T V, In T ts -> In V vs ->
                          Triangle.index T <> Vertex.index V)
     else triangles_in_block ts
          /\ List.NoDup (map Triangle.index ts)
          /\ SymMatrix.fits (length ts).

(** The N block of the same-mesh engine is added to the matrix: from the S
    values of the matrix, with the coefficient coeff/Scoeff, when the block
    holds the coefficient of an S block; from the S values at coefficient 1,
    with the coefficient coeff, otherwise. *)
Definition Diagonal_N_accumulated (env : Env) (blk : DiagonalBlock.t)
           (coeff : Q) (M M' : SymMatrix.t) : Prop :=
  let mesh := DiagonalBlock.mesh blk in
  let pairs := lower_pairs [] (Mesh.vertices mesh) in
  if DiagonalBlock.S_block_is_computed blk
  then N_block_added pairs
         (Diagonal_N_amount (coeff / DiagonalBlock.Scoeff blk) mesh
                            (stored_S M)) M M'
  else exists s,
      unit_S_block env (DiagonalBlock.integrator blk) (Mesh.triangles mesh) s
      /\ N_block_added pairs (Diagonal_N_amount coeff mesh s) M M'.

(** The same for the different-mesh engine: the vertices of the two meshes
    have pairwise different indices; an S block computed apart is a dense
    block, of any size. *)
Definition NonDiagonal_N_inputs (blk : NonDiagonalBlock.t) (M : SymMatrix.t)
  : Prop :=
  let vs1 := Mesh.vertices (NonDiagonalBlock.mesh1 blk) in
  let vs2 := Mesh.vertices (NonDiagonalBlock.mesh2 blk) in
  let ts1 := Mesh.triangles (NonDiagonalBlock.mesh1 blk) in
  let ts2 := Mesh.triangles (NonDiagonalBlock.mesh2 blk) in
  SymMatrix.wf M
  /\ (forall V, In V (vs1 ++ vs2) -> Vertex.index V < SymMatrix.nlin M)
  /\ List.NoDup (map Vertex.index (vs1 ++ vs2))
  /\ if NonDiagonalBlock.S_block_is_computed blk
     then (forall T, In T (ts1 ++ ts2) ->
                     Triangle.index T < SymMatrix.nlin M)
          /\ (forall T V, In T (ts1 ++ ts2) -> In V (vs1 ++ vs2) ->
                          Triangle.index T <> Vertex.index V)
     else triangles_in_block ts1 /\ triangles_in_block ts2
          /\ List.NoDup (map Triangle.index ts1)
          /\ List.NoDup (map Triangle.index ts2).

Definition NonDiagonal_N_accumulated (env : Env) (blk : NonDiagonalBlock.t)
           (coeff : Q) (M M' : SymMatrix.t) : Prop :=
  let mesh1 := NonDiagonalBlock.mesh1 blk in
  let mesh2 := NonDiagonalBlock.mesh2 blk in
  let pairs := all_pairs (Mesh.vertices mesh1) (Mesh.vertices mesh2) in
  if NonDiagonalBlock.S_block_is_computed blk
  then N_block_added pairs
         (NonDiagonal_N_amount (coeff / NonDiagonalBlock.Scoeff blk)
                               mesh1 mesh2 (stored_S M)) M M'
  else N_block_added pairs
         (NonDiagonal_N_amount coeff mesh1 mesh2
            (unit_S env (NonDiagonalBlock.integrator blk))) M M'.

(** ** The selector of [HeadMatrix] ([assembleHeadMat.cpp]) *)

(** The communicating mesh pairs that a selector does not disable, and a
    geometry with other communicating mesh pairs. *)
Definition enabled_pairs (disableBlock : Mesh.t -> Mesh.t -> bool)
           (pairs : list Geometry.MeshPair) : list Geometry.MeshPair :=
  List.filter (fun mp => negb (disableBlock (Geometry.first mp)
                                            (Geometry.second mp)))
              pairs.

Definition with_pairs (geo : Geometry.t) (pairs : list Geometry.MeshPair)
  : Geometry.t :=
  {| Geometry.meshes := Geometry.meshes geo;
     Geometry.communicating_mesh_pairs := pairs;
     Geometry.isolated_parts := Geometry.isolated_parts geo;
     Geometry.nb_parameters := Geometry.nb_parameters geo;
     Geometry.nb_current_barrier_triangles :=
       Geometry.nb_current_barrier_triangles geo;
     Geometry.sigma := Geometry.sigma geo;
     Geometry.sigma_inv := Geometry.sigma_inv geo;
     Geometry.indicator := Geometry.indicator geo;
     Geometry.domain_at := Geometry.domain_at geo;
     Geometry.domain_named := Geometry.domain_named geo |}.

(** ** The entries of [Surf2VolMat] ([assembleHeadMat.cpp]) *)

(** The meshes around a domain, each with the boundary it belongs to, in
    the order of the two inner loops of [Surf2VolMat]. *)
Definition meshes_around (d : Domain) : list (Boundary * OrientedMesh) :=
  flat_map (fun b => map (pair b) (oriented_meshes (interface b)))
           (boundaries d).

(** [coeff = boundary.mesh_orientation(omesh)*K]. *)
Definition Surf2Vol_coeff (env : Env) (bm : Boundary * OrientedMesh) : Q :=
  (inject_Z (mesh_orientation env (fst bm) (snd bm)) * K env)%Q.

(** What [addD] adds on the line of a point [p] of the domain [d]: for
    every mesh around the domain, every triangle of it and [i < 3], the
    column of the vertex [i] of the triangle and the amount. *)
Definition Surf2Vol_D_entries (env : Env) (d : Domain) (p : Vect3)
  : list (nat * Q) :=
  flat_map (fun bm =>
              flat_map (fun T =>
                          map (fun i =>
                                 (Vertex.index (Triangle.vertex T i),
                                  (Vect3_coord (analyticD3 env T p) i
                                   * - Surf2Vol_coeff env bm)%Q))
                              (seq 0 3))
                       (Mesh.triangles (om_mesh (snd bm))))
           (meshes_around d).

(** What [S] writes on the line of a point [p] of the domain [d]: for
    every mesh around the domain that is no current barrier and every
    triangle of it, the column of the triangle and the value. *)
Definition Surf2Vol_S_entries (env : Env) (d : Domain) (p : Vect3)
  : list (nat * Q) :=
  flat_map (fun bm =>
              if negb (Mesh.current_barrier (om_mesh (snd bm)))
              then map (fun T =>
                          (Triangle.index T,
                           (Surf2Vol_coeff env bm / conductivity d
                            * analyticS env T p)%Q))
                       (Mesh.triangles (om_mesh (snd bm)))
              else [])
           (meshes_around d).

(** The sum of what a list of entries holds for the column [c]. *)
Definition column_sum (c : nat) (l : list (nat * Q)) : Q :=
  Qsum (map snd (List.filter (fun e => fst e =? c) l)).

(** The assignments and the increments of the entries of a dense matrix,
    as a list: the line, the column, the value, and whether the value is
    assigned ([=]) or added ([+=]). *)
Record cell_op : Type :=
  { op_row : nat; op_col : nat; op_val : Q; op_put : bool }.

Definition run_op (mat : Matrix.t) (o : cell_op) : option Matrix.t :=
  if op_put o then sink_put mat (op_row o) (op_col o) (op_val o)
  else sink_add mat (op_row o) (op_col o) (op_val o).

(** What a list of operations leaves in the cell (a,b) that held [x]. *)
Definition replay (a b : nat) (ops : list cell_op) (x : Q) : Q :=
  fold_left (fun acc o =>
               if (op_row o =? a) && (op_col o =? b)
               then (if op_put o then op_val o else acc + op_val o)%Q
               else acc)
            ops x.

(** The operations of [PartialBlock::addD] and [PartialBlock::S], and of
    the second loop of [Surf2VolMat]. *)
Definition addD_ops (env : Env) (mesh : Mesh.t) (coeff : Q)
           (points : list Vertex.t) : list cell_op :=
  flat_map (fun triangle =>
              flat_map (fun vertex =>
                          map (fun i =>
                                 {| op_row := Vertex.index vertex;
                                    op_col := Vertex.index
                                                (Triangle.vertex triangle i);
                                    op_val :=
                                      (Vect3_coord
                                         (analyticD3 env triangle
                                            (Vertex.position vertex)) i
                                       * coeff)%Q;
                                    op_put := false |})
                              (seq 0 3))
                       points)
           (Mesh.triangles mesh).

Definition S_ops (env : Env) (mesh : Mesh.t) (coeff : Q)
           (points : list Vertex.t) : list cell_op :=
  flat_map (fun triangle =>
              map (fun vertex =>
                     {| op_row := Vertex.index vertex;
                        op_col := Triangle.index triangle;
                        op_val := (coeff * analyticS env triangle
                                             (Vertex.position vertex))%Q;
                        op_put := true |})
                  points)
           (Mesh.triangles mesh).

Definition mesh_ops (env : Env) (d : Domain) (points : list Vertex.t)
           (bm : Boundary * OrientedMesh) : list cell_op :=
  addD_ops env (om_mesh (snd bm)) (- Surf2Vol_coeff env bm)%Q points
  ++ (if negb (Mesh.current_barrier (om_mesh (snd bm)))
      then S_ops env (om_mesh (snd bm))
                 (Surf2Vol_coeff env bm / conductivity d)%Q points
      else []).

Definition domain_ops (env : Env) (e : Domain * list Vertex.t)
  : list cell_op :=
  flat_map (mesh_ops env (fst e) (snd e)) (meshes_around (fst e)).

(** The points that [m_points] holds with the index [k], each with the
    domain it is filed under. *)
Definition points_of_index (k : nat)
           (m_points : list (Domain * list Vertex.t))
  : list (Domain * Vertex.t) :=
  flat_map (fun e => map (pair (fst e))
                         (List.filter (fun v => Vertex.index v =? k) (snd e)))
           m_points.

(** ** More concrete inputs *)

Module Samples.

(** The identity of dimension 3, packed. *)
Definition I3 : SymMatrix.t := SymMatrix.Make 3 [1; 0; 1; 0; 0; 1]%Q.

(** [Examples.M3] after [M3(0,1) = 7]. *)
Definition M3_put : SymMatrix.t := SymMatrix.Make 3 [1; 7; 3; 4; 5; 6]%Q.

Definition u3 : Vector.t := Vector.Make [1; 0; 2]%Q.
Definition v3 : Vector.t := Vector.Make [0; 1; 1]%Q.

(** A 3×2 and a 3×3 dense matrix, stored by columns. *)
Definition A32 : Matrix.t := Matrix.Make 3 2 [1; 0; 0; 0; 1; 0]%Q.
Definition A33 : Matrix.t := Matrix.Make 3 3 [1; 2; 3; 4; 5; 6; 7; 8; 9]%Q.

(** A second mesh of one triangle, of index 4, on the vertices of
    [Examples.mesh0]. *)
Definition t1 : Triangle.t :=
  Triangle.Make Examples.p0 Examples.p1 Examples.p2 4 (1 # 2).
Definition mesh1 : Mesh.t :=
  Mesh.Make 1 [Examples.p0; Examples.p1; Examples.p2] [t1] true false.

(** The zero matrix of dimension 5. *)
Definition Z5 : SymMatrix.t := SymMatrix.set (SymMatrix.new 5 Examples.zeros) 0.

(** A geometry of one isolated part whose only mesh is not outermost. *)
Definition inner : Mesh.t := Mesh.Make 5 [Examples.vA] [] false false.
Definition no_outermost : Geometry.t := Examples.geometry_of_parts [[inner]].

(** A geometry of 65536 parameters and no mesh. *)
Definition parameters_65536 : Geometry.t :=
  {| Geometry.meshes := [];
     Geometry.communicating_mesh_pairs := [];
     Geometry.isolated_parts := [];
     Geometry.nb_parameters := N.to_nat 65536;
     Geometry.nb_current_barrier_triangles := 0;
     Geometry.sigma := fun _ _ => 1%Q;
     Geometry.sigma_inv := fun _ _ => 1%Q;
     Geometry.indicator := fun _ _ => 1%Q;
     Geometry.domain_at := fun _ => Examples.nowhere;
     Geometry.domain_named := fun _ => Examples.nowhere |}.

(** A mesh of one triangle, of index 7, on three vertices of indices 4, 5
    and 6, and the zero matrix of dimension 8. *)
Definition q0 : Vertex.t := Vertex.Make (mkVect3 0 0 1) 4.
Definition q1 : Vertex.t := Vertex.Make (mkVect3 1 0 1) 5.
Definition q2 : Vertex.t := Vertex.Make (mkVect3 0 1 1) 6.
Definition t2 : Triangle.t := Triangle.Make q0 q1 q2 7 (1 # 2).
Definition mesh2 : Mesh.t := Mesh.Make 2 [q0; q1; q2] [t2] false false.
Definition Z8 : SymMatrix.t := SymMatrix.set (SymMatrix.new 8 Examples.zeros) 0.

(** One dipole, at the origin and along the third axis. *)
Definition one_dipole : Matrix.t := Matrix.Make 1 6 [0; 0; 0; 0; 0; 1]%Q.

End Samples.
(** * Properties *)

(** ** Monadic iteration *)

Section FoldlM.

Context {S A : Type}.
Implicit Types (f : S -> A -> option S) (l : list A) (s : S).

Lemma foldlM_app f l1 l2 s :
  foldlM f (l1 ++ l2) s = foldlM f l1 s ≫= foldlM f l2.
Proof.
  revert s. induction l1 as [|x l1 IH]; intros s; simpl; [reflexivity|].
  destruct (f s x); simpl; [apply IH | reflexivity].
Qed.

(** An invariant that every iteration maintains, and under which no
    iteration fails, makes the loop succeed. *)
Lemma foldlM_total (P : S -> Prop) f l s :
  P s ->
  (forall s x, In x l -> P s -> exists s', f s x = Some s' /\ P s') ->
  exists s', foldlM f l s = Some s' /\ P s'.
Proof.
  revert s. induction l as [|x l IH]; intros s Hs Hf; simpl.
  - exists s. split; [reflexivity | exact Hs].
  - destruct (Hf s x (or_introl eq_refl) Hs) as (s1 & E1 & H1). rewrite E1.
    apply IH; [exact H1|]. intros s0 y Hy. apply Hf. right. exact Hy.
Qed.

(** An invariant that every successful iteration maintains holds of the
    result of the loop. *)
Lemma foldlM_invariant (P : S -> Prop) f l s s' :
  P s ->
  (forall s x s', In x l -> P s -> f s x = Some s' -> P s') ->
  foldlM f l s = Some s' -> P s'.
Proof.
  revert s. induction l as [|x l IH]; intros s Hs Hf; simpl.
  - intros [= <-]. exact Hs.
  - destruct (f s x) as [s1|] eqn:E1; [|discriminate].
    apply IH.
    + apply (Hf s x s1); [left; reflexivity | exact Hs | exact E1].
    + intros s0 y s0' Hy. apply Hf. right. exact Hy.
Qed.

(** An iteration that fails in every state the loop can be in makes the
    loop fail. *)
Lemma foldlM_fails (P : S -> Prop) f l s x :
  In x l -> P s ->
  (forall s y s', P s -> f s y = Some s' -> P s') ->
  (forall s, P s -> f s x = None) ->
  foldlM f l s = None.
Proof.
  revert s. induction l as [|y l IH]; intros s Hx Hs Hp Hn; simpl.
  - destruct Hx.
  - destruct Hx as [->|Hx].
    + rewrite (Hn s Hs). reflexivity.
    + destruct (f s y) as [s1|] eqn:E1; [|reflexivity].
      apply IH; [exact Hx | exact (Hp s y s1 Hs E1) | exact Hp | exact Hn].
Qed.

Lemma foldlM_ext f g l s :
  (forall s x, In x l -> f s x = g s x) -> foldlM f l s = foldlM g l s.
Proof.
  revert s. induction l as [|x l IH]; intros s Hfg; simpl; [reflexivity|].
  rewrite (Hfg s x (or_introl eq_refl)).
  destruct (g s x) as [t|]; [|reflexivity].
  apply IH. intros s0 y Hy. apply Hfg. right. exact Hy.
Qed.

End FoldlM.

(** Two nested loops are one loop over the pairs they visit. *)
Lemma foldlM_nested {S A B : Type} (f : S -> A * B -> option S)
      (inner : A -> list B) (outer : list A) (s : S) :
  foldlM (fun s x => foldlM (fun s y => f s (x, y)) (inner x) s) outer s
  = foldlM f (flat_map (fun x => map (pair x) (inner x)) outer) s.
Proof.
  revert s. induction outer as [|x outer IH]; intros s; simpl; [reflexivity|].
  rewrite foldlM_app.
  assert (E : forall l s,
             foldlM (fun s y => f s (x, y)) l s = foldlM f (map (pair x) l) s).
  { induction l as [|y l IHl]; intros t; simpl; [reflexivity|].
    destruct (f t (x, y)); [apply IHl | reflexivity]. }
  rewrite E. destruct (foldlM f (map (pair x) (inner x)) s); simpl;
    [apply IH | reflexivity].
Qed.

(** ** Facts on the packed index *)

Section PackedIndex.

Lemma tri_succ (j : nat) : tri (S j) = tri j + S j.
Proof.
  unfold tri.
  replace (S j * (S j + 1)) with (j * (j + 1) + S j * 2) by lia.
  rewrite Nat.div_add by lia. reflexivity.
Qed.

Lemma tri_mono (a b : nat) : a <= b -> tri a <= tri b.
Proof.
  induction 1 as [|b Hab IH]; [lia|]. rewrite tri_succ. lia.
Qed.

Lemma tri_step (a b : nat) : a < b -> tri a + a < tri b.
Proof.
  intros H. assert (Hm := tri_mono (S a) b H). rewrite tri_succ in Hm. lia.
Qed.

Lemma index_upper (i j : nat) : i <= j -> SymMatrix.index i j = i + tri j.
Proof.
  intros H. unfold SymMatrix.index, tri.
  destruct (Nat.leb_spec i j); [reflexivity | lia].
Qed.

Lemma index_lower (i j : nat) : j <= i -> SymMatrix.index i j = j + tri i.
Proof.
  intros H. unfold SymMatrix.index, tri.
  destruct (Nat.leb_spec i j); [|reflexivity].
  assert (i = j) by lia. subst. reflexivity.
Qed.

Lemma index_sym (i j : nat) : SymMatrix.index i j = SymMatrix.index j i.
Proof.
  destruct (Nat.le_ge_cases i j) as [H|H].
  - rewrite (index_upper i j H), (index_lower j i H). reflexivity.
  - rewrite (index_lower i j H), (index_upper j i H). reflexivity.
Qed.

Lemma index_min_max (i j : nat) :
  SymMatrix.index i j = Nat.min i j + tri (Nat.max i j).
Proof.
  destruct (Nat.le_ge_cases i j) as [H|H].
  - rewrite (index_upper i j H), Nat.min_l, Nat.max_r by lia. reflexivity.
  - rewrite (index_lower i j H), Nat.min_r, Nat.max_l by lia. reflexivity.
Qed.

Lemma index_bound (n i j : nat) :
  i < n -> j < n -> SymMatrix.index i j < tri n.
Proof.
  intros Hi Hj. rewrite index_min_max.
  assert (Hm : Nat.max i j < n) by lia.
  assert (Hs := tri_step _ _ Hm). lia.
Qed.

Lemma index_upper_inj (i j i' j' : nat) :
  i <= j -> i' <= j' -> i + tri j = i' + tri j' -> i = i' /\ j = j'.
Proof.
  intros H H' E.
  assert (j = j').
  { destruct (Nat.lt_trichotomy j j') as [L|[L|L]]; [|exact L|].
    - pose proof (tri_step _ _ L). lia.
    - pose proof (tri_step _ _ L). lia. }
  subst. lia.
Qed.

(** Two subscripts share a cell exactly when they are equal up to
    transposition. *)
Lemma index_eq_iff (i j a b : nat) :
  SymMatrix.index i j = SymMatrix.index a b <->
  (i = a /\ j = b) \/ (i = b /\ j = a).
Proof.
  split.
  - rewrite !index_min_max. intros E.
    apply index_upper_inj in E; lia.
  - intros [[-> ->]|[-> ->]]; [reflexivity | apply index_sym].
Qed.

(** *** The unsigned arithmetic of the subscripts *)

Lemma wrap_small (x : N) : (x < 2 ^ 32)%N -> wrap x = x.
Proof. intros H. unfold wrap. apply N.mod_small. exact H. Qed.

Lemma fits_lt (n : nat) : SymMatrix.fits n -> (N.of_nat n < 65536)%N.
Proof.
  unfold SymMatrix.fits. intros H.
  destruct (N.lt_ge_cases (N.of_nat n) 65536) as [L|G]; [exact L|].
  exfalso.
  assert (65536 * 65536 <= N.of_nat n * N.of_nat n)%N
    by (apply N.mul_le_mono; assumption).
  lia.
Qed.

Lemma fits_le (n j : nat) :
  SymMatrix.fits n -> j <= n ->
  (N.of_nat j * (N.of_nat j + 1) < 2 ^ 32)%N.
Proof.
  unfold SymMatrix.fits. intros H Hj.
  assert (N.of_nat j * (N.of_nat j + 1) <= N.of_nat n * (N.of_nat n + 1))%N
    by (apply N.mul_le_mono; lia).
  lia.
Qed.

Lemma tri_le (n : nat) : tri n <= n * (n + 1).
Proof. unfold tri. apply Nat.Div0.div_le_upper_bound. lia. Qed.

(** The offset of a column, of a dimension that fits, as the code computes
    it. *)
Lemma column_exact (n j : nat) :
  SymMatrix.fits n -> j <= n ->
  (umul (N.of_nat j) (uadd (N.of_nat j) 1) / 2)%N = N.of_nat (tri j).
Proof.
  intros Hn Hj. assert (Hl := fits_lt n Hn). assert (Hp := fits_le n j Hn Hj).
  unfold umul, uadd.
  rewrite (wrap_small (N.of_nat j + 1)) by lia.
  rewrite wrap_small by exact Hp.
  replace (N.of_nat j * (N.of_nat j + 1))%N with (N.of_nat (j * (j + 1)))
    by lia.
  change 2%N with (N.of_nat 2). rewrite <- Nat2N.inj_div. reflexivity.
Qed.

(** For a dimension that fits, [size()] is the number of cells of the
    triangle. *)
Lemma size_exact (n : nat) : SymMatrix.fits n -> SymMatrix.size_of n = tri n.
Proof.
  intros Hn. unfold SymMatrix.size_of.
  rewrite (column_exact n n Hn) by lia. apply Nat2N.id.
Qed.

(** For a dimension that fits, the subscript of an entry is its rank in the
    triangle. *)
Lemma subscript_exact (n i j : nat) :
  SymMatrix.fits n -> i < n -> j < n ->
  SymMatrix.subscript i j = SymMatrix.index i j.
Proof.
  intros Hn Hi Hj.
  assert (Hb := index_bound n i j Hi Hj). assert (Ht := tri_le n).
  unfold SymMatrix.subscript, SymMatrix.index in *.
  fold (tri j) in *. fold (tri i) in *.
  destruct (i <=? j).
  - rewrite (column_exact n j Hn) by lia.
    unfold SymMatrix.fits in Hn.
    unfold uadd. rewrite wrap_small by lia.
    rewrite <- Nat2N.inj_add. apply Nat2N.id.
  - rewrite (column_exact n i Hn) by lia.
    unfold SymMatrix.fits in Hn.
    unfold uadd. rewrite wrap_small by lia.
    rewrite <- Nat2N.inj_add. apply Nat2N.id.
Qed.

Lemma subscript_sym (i j : nat) :
  SymMatrix.subscript i j = SymMatrix.subscript j i.
Proof.
  unfold SymMatrix.subscript.
  destruct (Nat.leb_spec i j), (Nat.leb_spec j i); try reflexivity; try lia.
  assert (i = j) by lia. subst. reflexivity.
Qed.

End PackedIndex.

(** ** Storage of the packed symmetric matrix *)

Section SymMatrixFacts.

Implicit Types (M : SymMatrix.t) (i j a b : nat) (x : Q).

Lemma fill_spec x n : forall a0 (l : list Q),
  let l' := fold_left (fun d i => <[i := x]> d) (seq a0 n) l in
  length l' = length l
  /\ forall k, (a0 <= k < a0 + n -> k < length l -> l' !! k = Some x)
            /\ (~ a0 <= k < a0 + n -> l' !! k = l !! k).
Proof.
  induction n as [|n IH]; intros a0 l; simpl.
  - split; [reflexivity|]. intros k. split; [lia | reflexivity].
  - destruct (IH (Datatypes.S a0) (<[a0 := x]> l)) as [Hlen Hk].
    rewrite length_insert in Hlen. split; [exact Hlen|].
    intros k. destruct (Hk k) as [Hin Hout]. split.
    + intros Hr Hl. destruct (Nat.eq_dec k a0) as [->|Hne].
      * rewrite Hout by lia. apply list_lookup_insert_eq. exact Hl.
      * apply Hin; [lia | rewrite length_insert; exact Hl].
    + intros Hr. rewrite Hout by lia.
      apply list_lookup_insert_ne. lia.
Qed.

Lemma wf_iff M :
  SymMatrix.wf M
  <-> length (SymMatrix.value M) = SymMatrix.size M
      /\ SymMatrix.fits (SymMatrix.nlin M).
Proof.
  unfold SymMatrix.wf, SymMatrix.fits, SymMatrix.fitsb.
  rewrite andb_true_iff, Nat.eqb_eq, N.ltb_lt. reflexivity.
Qed.

Lemma wf_fits M : SymMatrix.wf M -> SymMatrix.fits (SymMatrix.nlin M).
Proof. intros H. apply wf_iff in H. tauto. Qed.

Lemma wf_size M : SymMatrix.wf M -> SymMatrix.size M = tri (SymMatrix.nlin M).
Proof. intros H. apply size_exact, wf_fits, H. Qed.

Lemma wf_length M :
  SymMatrix.wf M -> length (SymMatrix.value M) = tri (SymMatrix.nlin M).
Proof.
  intros H. rewrite <- (wf_size M H). apply wf_iff in H. tauto.
Qed.

Lemma wf_intro n d :
  SymMatrix.fits n -> length d = tri n -> SymMatrix.wf (SymMatrix.Make n d).
Proof.
  intros Hfit Hlen. apply wf_iff. split; [|exact Hfit].
  unfold SymMatrix.size. simpl. rewrite (size_exact n Hfit). exact Hlen.
Qed.

(** The accessors of a matrix whose dimension fits, with the rank of the
    entry for subscript. *)
Lemma get_index M i j :
  SymMatrix.fits (SymMatrix.nlin M) ->
  SymMatrix.get M i j
  = if (i <? SymMatrix.nlin M) && (j <? SymMatrix.nlin M)
    then SymMatrix.value M !! SymMatrix.index i j else None.
Proof.
  intros Hfit. unfold SymMatrix.get.
  destruct (Nat.ltb_spec i (SymMatrix.nlin M)); [|reflexivity].
  destruct (Nat.ltb_spec j (SymMatrix.nlin M)); [|reflexivity]. simpl.
  rewrite (subscript_exact _ i j Hfit) by assumption. reflexivity.
Qed.

Lemma put_index M i j x :
  SymMatrix.fits (SymMatrix.nlin M) ->
  SymMatrix.put M i j x
  = if (i <? SymMatrix.nlin M) && (j <? SymMatrix.nlin M)
    then Some (SymMatrix.Make (SymMatrix.nlin M)
                 (<[SymMatrix.index i j := x]> (SymMatrix.value M)))
    else None.
Proof.
  intros Hfit. unfold SymMatrix.put.
  destruct (Nat.ltb_spec i (SymMatrix.nlin M)); [|reflexivity].
  destruct (Nat.ltb_spec j (SymMatrix.nlin M)); [|reflexivity]. simpl.
  rewrite (subscript_exact _ i j Hfit) by assumption. reflexivity.
Qed.

Lemma get_sym M i j : SymMatrix.get M i j = SymMatrix.get M j i.
Proof.
  unfold SymMatrix.get. rewrite (subscript_sym i j), andb_comm. reflexivity.
Qed.

Lemma get_range M i j x :
  SymMatrix.get M i j = Some x -> i < SymMatrix.nlin M /\ j < SymMatrix.nlin M.
Proof.
  unfold SymMatrix.get.
  destruct (Nat.ltb_spec i (SymMatrix.nlin M)),
           (Nat.ltb_spec j (SymMatrix.nlin M)); simpl;
    try discriminate. intros _. split; assumption.
Qed.

Lemma get_total M i j :
  SymMatrix.wf M -> i < SymMatrix.nlin M -> j < SymMatrix.nlin M ->
  exists x, SymMatrix.get M i j = Some x.
Proof.
  intros Hwf Hi Hj. rewrite (get_index M i j (wf_fits M Hwf)).
  destruct (Nat.ltb_spec i (SymMatrix.nlin M)); [|lia].
  destruct (Nat.ltb_spec j (SymMatrix.nlin M)); [|lia]. simpl.
  apply lookup_lt_is_Some_2. rewrite (wf_length M Hwf).
  apply index_bound; assumption.
Qed.

Lemma put_total M i j x :
  SymMatrix.wf M -> i < SymMatrix.nlin M -> j < SymMatrix.nlin M ->
  SymMatrix.put M i j x
  = Some (SymMatrix.Make (SymMatrix.nlin M)
                         (<[SymMatrix.index i j := x]> (SymMatrix.value M))).
Proof.
  intros Hwf Hi Hj. rewrite (put_index M i j x (wf_fits M Hwf)).
  destruct (Nat.ltb_spec i (SymMatrix.nlin M)); [|lia].
  destruct (Nat.ltb_spec j (SymMatrix.nlin M)); [|lia]. reflexivity.
Qed.

Lemma put_range M i j x M' :
  SymMatrix.put M i j x = Some M' ->
  i < SymMatrix.nlin M /\ j < SymMatrix.nlin M.
Proof.
  unfold SymMatrix.put.
  destruct (Nat.ltb_spec i (SymMatrix.nlin M)),
           (Nat.ltb_spec j (SymMatrix.nlin M)); simpl;
    try discriminate. intros _. split; assumption.
Qed.

Lemma put_inv M i j x M' :
  SymMatrix.wf M -> SymMatrix.put M i j x = Some M' ->
  i < SymMatrix.nlin M /\ j < SymMatrix.nlin M
  /\ M' = SymMatrix.Make (SymMatrix.nlin M)
                         (<[SymMatrix.index i j := x]> (SymMatrix.value M)).
Proof.
  intros Hwf H. destruct (put_range _ _ _ _ _ H) as [Hi Hj].
  rewrite (put_total M i j x Hwf Hi Hj) in H. injection H as <-.
  repeat split; assumption.
Qed.

Lemma put_nlin M i j x M' :
  SymMatrix.put M i j x = Some M' -> SymMatrix.nlin M' = SymMatrix.nlin M.
Proof.
  unfold SymMatrix.put. destruct (_ && _); [|discriminate].
  intros [= <-]. reflexivity.
Qed.

Lemma put_wf M i j x M' :
  SymMatrix.put M i j x = Some M' -> SymMatrix.wf M -> SymMatrix.wf M'.
Proof.
  intros H Hwf. apply (put_inv M i j x M' Hwf) in H as (_ & _ & ->).
  apply wf_intro; [exact (wf_fits M Hwf)|].
  rewrite length_insert. exact (wf_length M Hwf).
Qed.

Lemma get_put_eq M i j x M' a b :
  SymMatrix.wf M -> SymMatrix.put M i j x = Some M' ->
  SymMatrix.index a b = SymMatrix.index i j ->
  a < SymMatrix.nlin M -> b < SymMatrix.nlin M ->
  SymMatrix.get M' a b = Some x.
Proof.
  intros Hwf H E Ha Hb. apply (put_inv M i j x M' Hwf) in H as (Hi & Hj & ->).
  rewrite get_index by exact (wf_fits M Hwf). simpl.
  destruct (Nat.ltb_spec a (SymMatrix.nlin M)); [|lia].
  destruct (Nat.ltb_spec b (SymMatrix.nlin M)); [|lia]. simpl.
  rewrite E. apply list_lookup_insert_eq.
  rewrite (wf_length M Hwf). apply index_bound; assumption.
Qed.

Lemma get_put_ne M i j x M' a b :
  SymMatrix.wf M -> SymMatrix.put M i j x = Some M' ->
  SymMatrix.index a b <> SymMatrix.index i j ->
  SymMatrix.get M' a b = SymMatrix.get M a b.
Proof.
  intros Hwf H Hne. apply (put_inv M i j x M' Hwf) in H as (Hi & Hj & ->).
  rewrite !get_index by exact (wf_fits M Hwf). simpl.
  destruct (_ && _); [|reflexivity].
  apply list_lookup_insert_ne. congruence.
Qed.

Lemma set_nlin M x : SymMatrix.nlin (SymMatrix.set M x) = SymMatrix.nlin M.
Proof. reflexivity. Qed.

Lemma set_wf M x : SymMatrix.wf M -> SymMatrix.wf (SymMatrix.set M x).
Proof.
  intros Hwf. unfold SymMatrix.set.
  apply wf_intro; [exact (wf_fits M Hwf)|].
  destruct (fill_spec x (SymMatrix.size M) 0 (SymMatrix.value M)) as [-> _].
  exact (wf_length M Hwf).
Qed.

Lemma get_set M x i j :
  SymMatrix.wf M -> i < SymMatrix.nlin M -> j < SymMatrix.nlin M ->
  SymMatrix.get (SymMatrix.set M x) i j = Some x.
Proof.
  intros Hwf Hi Hj. rewrite get_index by exact (wf_fits M Hwf).
  unfold SymMatrix.set. simpl.
  destruct (Nat.ltb_spec i (SymMatrix.nlin M)); [|lia].
  destruct (Nat.ltb_spec j (SymMatrix.nlin M)); [|lia]. simpl.
  destruct (fill_spec x (SymMatrix.size M) 0 (SymMatrix.value M)) as [_ Hk].
  assert (Hb := index_bound _ _ _ Hi Hj).
  destruct (Hk (SymMatrix.index i j)) as [Hin _].
  apply Hin; [rewrite (wf_size M Hwf); lia
             | rewrite (wf_length M Hwf); exact Hb].
Qed.

Lemma new_nlin n junk : SymMatrix.nlin (SymMatrix.new n junk) = n.
Proof. reflexivity. Qed.

Lemma new_wf n junk : SymMatrix.fits n -> SymMatrix.wf (SymMatrix.new n junk).
Proof.
  intros Hfit. apply wf_iff. split; [|exact Hfit].
  unfold SymMatrix.new, SymMatrix.size. simpl.
  rewrite length_map, length_seq. reflexivity.
Qed.

(** [mat(i,j) += d] on a packed symmetric matrix. *)
Lemma add_inv M i j d M' :
  sink_add M i j d = Some M' ->
  exists old, SymMatrix.get M i j = Some old
              /\ SymMatrix.put M i j (old + d)%Q = Some M'.
Proof.
  unfold sink_add. simpl.
  destruct (SymMatrix.get M i j) as [old|]; simpl; [|discriminate].
  intros H. exists old. split; [reflexivity | exact H].
Qed.

Lemma add_total M i j d :
  SymMatrix.wf M -> i < SymMatrix.nlin M -> j < SymMatrix.nlin M ->
  exists M', sink_add M i j d = Some M'.
Proof.
  intros Hwf Hi Hj. unfold sink_add. simpl.
  destruct (get_total M i j Hwf Hi Hj) as [old ->]. simpl.
  rewrite put_total by assumption. eexists. reflexivity.
Qed.

End SymMatrixFacts.

(** ** The accessors of the packed symmetric matrix *)

(** In a packed symmetric matrix whose dimension N fits (N(N+1) < 2^32, so
    N is at most 65535), for all i,j < N, the accessors at (i,j) and at
    (j,i) use the same subscript of the storage, the smaller index added to
    the triangular number of the larger, which lies among the N(N+1)/2
    stored cells; reading either way returns the same value, and a value
    written one way is read back both ways. *)
Lemma accessors_share_cell_when_fits (M : SymMatrix.t) (i j : nat) :
  SymMatrix.wf M -> i < SymMatrix.nlin M -> j < SymMatrix.nlin M ->
  SymMatrix.subscript i j = SymMatrix.subscript j i
  /\ SymMatrix.subscript i j = Nat.min i j + tri (Nat.max i j)
  /\ SymMatrix.subscript i j < SymMatrix.size M
  /\ SymMatrix.size M = SymMatrix.nlin M * (SymMatrix.nlin M + 1) / 2
  /\ (exists x, SymMatrix.get M i j = Some x /\ SymMatrix.get M j i = Some x)
  /\ (forall x, exists M',
         SymMatrix.put M i j x = Some M'
         /\ SymMatrix.put M j i x = Some M'
         /\ SymMatrix.get M' i j = Some x
         /\ SymMatrix.get M' j i = Some x).
Proof.
  intros Hwf Hi Hj. assert (Hfit := wf_fits M Hwf).
  split; [apply subscript_sym|].
  rewrite (subscript_exact _ i j Hfit Hi Hj).
  split; [apply index_min_max|].
  split; [rewrite (wf_size M Hwf); apply index_bound; assumption|].
  split; [exact (wf_size M Hwf)|].
  split.
  - destruct (get_total M i j Hwf Hi Hj) as [x Hx]. exists x.
    split; [exact Hx | rewrite get_sym; exact Hx].
  - intros x. eexists. split; [apply put_total; assumption|].
    split; [rewrite (index_sym i j); apply put_total; assumption|].
    split.
    + eapply get_put_eq; [exact Hwf | apply put_total; assumption
                         | reflexivity | assumption | assumption].
    + eapply get_put_eq; [exact Hwf | apply put_total; assumption
                         | apply index_sym | assumption | assumption].
Qed.

(** Whatever the dimension, the entries at (i,j) and at (j,i) of a head
    matrix read the same. *)
Lemma HeadMatrix_symmetric (env : Env) (geo : Geometry.t)
      (integrator : Integrator) (disableBlock : Mesh.t -> Mesh.t -> bool)
      (H : SymMatrix.t) (i j : nat) :
  Details.HeadMatrix env geo integrator disableBlock = Some H ->
  SymMatrix.get H i j = SymMatrix.get H j i.
Proof. intros _. apply get_sym. Qed.

(** C3 (the code departs from the claim). [size()] returns
    [nlin()*(nlin()+1)/2] computed on 32 bits: from the dimension 65536 on
    the product wraps around, the storage is shorter than the triangle and
    two entries that are not transposed share a cell.  In a matrix of
    dimension 65537 the storage has 98305 cells and not 65537·65538/2; the
    entries (0,65536) and (128,255) both have the subscript 32768, so that
    a write at the first is read back at the second. *)
Theorem symmatrix_cells_alias_at_65537 :
  let M := SymMatrix.new (N.to_nat 65537) Examples.zeros in
  N.of_nat (SymMatrix.size M) = 98305%N
  /\ N.of_nat (length (SymMatrix.value M)) = 98305%N
  /\ N.of_nat (SymMatrix.subscript 0 (N.to_nat 65536)) = 32768%N
  /\ N.of_nat (SymMatrix.subscript 128 255) = 32768%N
  /\ SymMatrix.get M 128 255 = Some 0%Q
  /\ (M' ← SymMatrix.put M 0 (N.to_nat 65536) 7; SymMatrix.get M' 128 255)
     = Some 7%Q.
Proof. repeat split; vm_compute; reflexivity. Qed.

(** ** Allocation of the head matrix *)

(** The matrix that [HeadMatrix] allocates and initialises has dimension
    nb_parameters − nb_current_barrier_triangles; when that dimension fits,
    whatever the storage held before, every entry of it is zero. *)
Lemma HeadMatrix_alloc_zero_when_fits (env : Env) (geo : Geometry.t) :
  let M := Details.HeadMatrix_alloc env geo in
  SymMatrix.nlin M
  = Geometry.nb_parameters geo - Geometry.nb_current_barrier_triangles geo
  /\ (SymMatrix.fits (SymMatrix.nlin M) ->
      SymMatrix.wf M
      /\ forall i j, i < SymMatrix.nlin M -> j < SymMatrix.nlin M ->
                     SymMatrix.get M i j = Some 0%Q).
Proof.
  intros M. split; [reflexivity|]. intros Hfit.
  assert (Hnew : SymMatrix.wf
                   (SymMatrix.new (Geometry.nb_parameters geo
                                   - Geometry.nb_current_barrier_triangles geo)
                                  (uninit env)))
    by (apply new_wf; exact Hfit).
  split; [apply set_wf; exact Hnew|].
  intros i j Hi Hj. apply get_set; [exact Hnew | exact Hi | exact Hj].
Qed.

(** C4 (the code departs from the claim). [HeadMatrix] allocates a matrix
    of dimension nb_parameters − nb_current_barrier_triangles, but its
    storage has [size()] cells, computed on 32 bits, and
    [HeadMatrixBlocks::init] sets those cells only.  For 65536 parameters
    the storage has 32768 cells; the entry (0,256), of subscript 32896,
    lies outside it and is not zero: it is no cell of the matrix. *)
Theorem HeadMatrix_alloc_short_at_65536 :
  let M := Details.HeadMatrix_alloc Examples.env0 Samples.parameters_65536 in
  N.of_nat (SymMatrix.nlin M) = 65536%N
  /\ N.of_nat (SymMatrix.size M) = 32768%N
  /\ N.of_nat (length (SymMatrix.value M)) = 32768%N
  /\ N.of_nat (SymMatrix.subscript 0 255) = 32640%N
  /\ N.of_nat (SymMatrix.subscript 0 256) = 32896%N
  /\ SymMatrix.get M 0 255 = Some 0%Q
  /\ SymMatrix.get M 0 256 = None.
Proof.
  intros M.
  set (n := N.to_nat 65536).
  set (M0 := SymMatrix.new n (uninit Examples.env0)).
  assert (Hn : SymMatrix.nlin M = n) by reflexivity.
  assert (Hs : N.of_nat (SymMatrix.size_of n) = 32768%N)
    by (vm_compute; reflexivity).
  assert (H255 : N.of_nat (SymMatrix.subscript 0 255) = 32640%N)
    by (vm_compute; reflexivity).
  assert (H256 : N.of_nat (SymMatrix.subscript 0 256) = 32896%N)
    by (vm_compute; reflexivity).
  assert (Hfill := fill_spec 0%Q (SymMatrix.size M0) 0 (SymMatrix.value M0)).
  cbv zeta in Hfill. destruct Hfill as [Hlen Hk].
  assert (Hl0 : length (SymMatrix.value M0) = SymMatrix.size_of n).
  { unfold M0, SymMatrix.new. cbn [SymMatrix.value].
    rewrite length_map, length_seq. reflexivity. }
  assert (Hval : SymMatrix.value M
                 = fold_left (fun d i => <[i := 0%Q]> d)
                             (seq 0 (SymMatrix.size M0)) (SymMatrix.value M0))
    by reflexivity.
  assert (Hin : forall i j, Nat.ltb i n = true -> Nat.ltb j n = true ->
                            SymMatrix.get M i j
                            = SymMatrix.value M !! SymMatrix.subscript i j).
  { intros i j Hi Hj. unfold SymMatrix.get. rewrite Hn, Hi, Hj. reflexivity. }
  split; [rewrite Hn; apply N2Nat.id|].
  split; [exact Hs|].
  split; [rewrite Hval, Hlen, Hl0; exact Hs|].
  split; [exact H255|]. split; [exact H256|].
  split.
  - rewrite Hin by (vm_compute; reflexivity). rewrite Hval.
    destruct (Hk (SymMatrix.subscript 0 255)) as [Hset _].
    apply Hset.
    + change (SymMatrix.size M0) with (SymMatrix.size_of n). lia.
    + rewrite Hl0. lia.
  - rewrite Hin by (vm_compute; reflexivity).
    apply lookup_ge_None_2. rewrite Hval, Hlen, Hl0. lia.
Qed.

(** ** The principal sub-block *)

(** C8 (the code departs from the claim). [submat(istart,iend)] writes the
    copy at the subscripts of the source, (i,j), and not at (i−istart,
    j−istart): as soon as istart > 0 the write at column iend falls outside
    the iend−istart+1 rows of the copy, and no sub-block is returned. *)
Theorem submat_off_origin_fails (M : SymMatrix.t) (istart iend : nat)
        (junk : nat -> Q) :
  0 < istart -> SymMatrix.submat M istart iend junk = None.
Proof.
  intros Hpos. unfold SymMatrix.submat.
  destruct (Nat.ltb_spec istart iend) as [Hlt|]; simpl; [|reflexivity].
  destruct (_ <=? _); simpl; [|reflexivity].
  replace (iend + 1 - istart) with (Datatypes.S (iend - istart)) by lia.
  simpl.
  rewrite (foldlM_fails
             (fun mat => SymMatrix.nlin mat = iend - istart + 1) _ _ _ iend).
  - reflexivity.
  - apply in_seq. lia.
  - reflexivity.
  - intros mat y mat' Hn H.
    destruct (SymMatrix.get M istart y); simpl in H; [|discriminate].
    rewrite (put_nlin _ _ _ _ _ H). exact Hn.
  - intros mat Hn. destruct (SymMatrix.get M istart iend); simpl; [|reflexivity].
    unfold SymMatrix.put. rewrite Hn.
    destruct (Nat.ltb_spec iend (iend - istart + 1)); [lia|].
    rewrite andb_false_r. reflexivity.
Qed.


(** ** The guards on [current_barrier] *)

Section BarrierGuards.

Context (env : Env) {T : Type} `{Sink T}.

Lemma N_mesh_triangles V1 V2 m m' rd :
  Mesh.triangles m = Mesh.triangles m' ->
  BlocksBase.N_mesh V1 V2 m rd = BlocksBase.N_mesh V1 V2 m' rd.
Proof.
  intros E. unfold BlocksBase.N_mesh, BlocksBase.N, Mesh.triangles_of.
  rewrite E. reflexivity.
Qed.

Lemma N_meshes_triangles V1 V2 m1 m2 m1' m2' rd :
  Mesh.triangles m1 = Mesh.triangles m1' ->
  Mesh.triangles m2 = Mesh.triangles m2' ->
  BlocksBase.N_meshes V1 V2 m1 m2 rd = BlocksBase.N_meshes V1 V2 m1' m2' rd.
Proof.
  intros E1 E2. unfold BlocksBase.N_meshes, BlocksBase.N, Mesh.triangles_of.
  rewrite E1, E2. reflexivity.
Qed.

Lemma Diagonal_S_rows_integrator {U : Type} `{Sink U}
      (blk blk' : DiagonalBlock.t) coeff ts (matrix : U) :
  DiagonalBlock.integrator blk = DiagonalBlock.integrator blk' ->
  DiagonalBlock.S_rows env blk coeff ts matrix
  = DiagonalBlock.S_rows env blk' coeff ts matrix.
Proof.
  intros E. revert matrix. induction ts as [|t ts IH]; intros matrix;
    [reflexivity|].
  cbn [DiagonalBlock.S_rows]. rewrite E.
  destruct (foldlM _ _ _); simpl; [apply IH | reflexivity].
Qed.

Lemma Diagonal_N_rows_mesh (blk blk' : DiagonalBlock.t) coeff S before todo
      (matrix : T) :
  Mesh.triangles (DiagonalBlock.mesh blk)
  = Mesh.triangles (DiagonalBlock.mesh blk') ->
  DiagonalBlock.N_rows blk coeff S before todo matrix
  = DiagonalBlock.N_rows blk' coeff S before todo matrix.
Proof.
  intros E. revert before matrix.
  induction todo as [|V1 todo IH]; intros before matrix; [reflexivity|].
  cbn [DiagonalBlock.N_rows].
  rewrite (foldlM_ext _
             (fun m V2 =>
                n ← BlocksBase.N_mesh V1 V2 (DiagonalBlock.mesh blk') (S m);
                sink_add m (Vertex.index V1) (Vertex.index V2) (n * coeff)%Q)).
  - destruct (foldlM _ _ _); simpl; [apply IH | reflexivity].
  - intros m V2 _. rewrite (N_mesh_triangles _ _ _ _ _ E). reflexivity.
Qed.

(** The N block of a mesh does not read its [current_barrier] flag. *)
Lemma Diagonal_N_ignores_barrier (blk : DiagonalBlock.t) (b : bool) coeff
      (matrix : T) :
  DiagonalBlock.N env
    (DiagonalBlock.Make (DiagonalBlock.integrator blk)
                        (with_current_barrier b (DiagonalBlock.mesh blk))
                        (DiagonalBlock.Scoeff blk)) coeff matrix
  = DiagonalBlock.N env blk coeff matrix.
Proof.
  unfold DiagonalBlock.N, DiagonalBlock.S_block_is_computed,
    DiagonalBlock.N_from, DiagonalBlock.S.
  cbn [DiagonalBlock.Scoeff DiagonalBlock.mesh with_current_barrier
       Mesh.triangles Mesh.vertices].
  destruct (negb _).
  - apply Diagonal_N_rows_mesh. reflexivity.
  - destruct (Mesh.triangles (DiagonalBlock.mesh blk)) as [|front ts];
      [reflexivity|].
    rewrite (Diagonal_S_rows_integrator _ blk) by reflexivity.
    destruct (DiagonalBlock.S_rows _ _ _ _ _); simpl; [|reflexivity].
    apply Diagonal_N_rows_mesh. reflexivity.
Qed.

Lemma NonDiagonal_S_integrator {U : Type} `{Sink U}
      (blk blk' : NonDiagonalBlock.t) coeff (matrix : U) :
  NonDiagonalBlock.integrator blk = NonDiagonalBlock.integrator blk' ->
  Mesh.triangles (NonDiagonalBlock.mesh1 blk)
  = Mesh.triangles (NonDiagonalBlock.mesh1 blk') ->
  Mesh.triangles (NonDiagonalBlock.mesh2 blk)
  = Mesh.triangles (NonDiagonalBlock.mesh2 blk') ->
  NonDiagonalBlock.S env blk coeff matrix
  = NonDiagonalBlock.S env blk' coeff matrix.
Proof.
  intros E E1 E2. unfold NonDiagonalBlock.S. rewrite E, E1, E2. reflexivity.
Qed.

Lemma NonDiagonal_N_from_mesh (blk blk' : NonDiagonalBlock.t) coeff S
      (matrix : T) :
  Mesh.triangles (NonDiagonalBlock.mesh1 blk)
  = Mesh.triangles (NonDiagonalBlock.mesh1 blk') ->
  Mesh.triangles (NonDiagonalBlock.mesh2 blk)
  = Mesh.triangles (NonDiagonalBlock.mesh2 blk') ->
  Mesh.vertices (NonDiagonalBlock.mesh1 blk)
  = Mesh.vertices (NonDiagonalBlock.mesh1 blk') ->
  Mesh.vertices (NonDiagonalBlock.mesh2 blk)
  = Mesh.vertices (NonDiagonalBlock.mesh2 blk') ->
  NonDiagonalBlock.N_from blk coeff S matrix
  = NonDiagonalBlock.N_from blk' coeff S matrix.
Proof.
  intros E1 E2 F1 F2. unfold NonDiagonalBlock.N_from. rewrite F1, F2.
  apply foldlM_ext. intros m V1 _. apply foldlM_ext. intros m' V2 _.
  rewrite (N_meshes_triangles _ _ _ _ _ _ _ E1 E2). reflexivity.
Qed.

Lemma NonDiagonal_N_ignores_barrier (blk : NonDiagonalBlock.t) (b1 b2 : bool)
      coeff (matrix : T) :
  NonDiagonalBlock.N env
    (NonDiagonalBlock.Make (NonDiagonalBlock.integrator blk)
       (with_current_barrier b1 (NonDiagonalBlock.mesh1 blk))
       (with_current_barrier b2 (NonDiagonalBlock.mesh2 blk))
       (NonDiagonalBlock.Scoeff blk)) coeff matrix
  = NonDiagonalBlock.N env blk coeff matrix.
Proof.
  unfold NonDiagonalBlock.N, NonDiagonalBlock.S_block_is_computed.
  cbn [NonDiagonalBlock.Scoeff NonDiagonalBlock.mesh1 NonDiagonalBlock.mesh2
       with_current_barrier Mesh.triangles].
  destruct (negb _).
  - apply NonDiagonal_N_from_mesh; reflexivity.
  - destruct (Mesh.triangles (NonDiagonalBlock.mesh1 blk)) as [|f1 ts1];
      [reflexivity|].
    destruct (Mesh.triangles (NonDiagonalBlock.mesh2 blk)) as [|f2 ts2];
      [reflexivity|].
    rewrite (NonDiagonal_S_integrator _ blk) by reflexivity.
    destruct (NonDiagonalBlock.S _ _ _ _); simpl; [|reflexivity].
    apply NonDiagonal_N_from_mesh; reflexivity.
Qed.

End BarrierGuards.

(** ** The pair loop of the orchestrator *)

Lemma Qopp_mult_l (a b : Q) : (- a * b)%Q = (- (a * b))%Q.
Proof.
  unfold Qmult, Qopp. cbn [Qnum Qden]. f_equal. apply Z.mul_opp_l.
Qed.

(** C5. The orchestrator allocates the matrix, visits the communicating
    mesh pairs of the geometry in their order, each on the matrix that the
    pair before it left, and deflates the result.  A pair that the selector
    disables leaves the matrix as it is.  For any other pair, with factor =
    relative_orientation · K, it calls [set_S_block] with factor·sigma_inv,
    then [set_N_block] with factor·sigma on the block that [set_S_block]
    left, then [set_D_block] and [set_Dstar_block], both with
    −(factor·indicator), each on the matrix the call before it returned;
    the block is the same-mesh engine when the two meshes are one object
    and the different-mesh engine otherwise.  A call that fails makes the
    assembly fail. *)
Theorem HeadMatrix_pair_dispatch (env : Env) (geo : Geometry.t)
        (integrator : Integrator) (disableBlock : Mesh.t -> Mesh.t -> bool) :
  let blocks_of_pair :=
    fun (symmatrix : SymMatrix.t) (mp : Geometry.MeshPair) =>
      let mesh1 := Geometry.first mp in
      let mesh2 := Geometry.second mp in
      let factor := (inject_Z (Geometry.relative_orientation mp) * K env)%Q in
      let SCondCoeff := (factor * Geometry.sigma_inv geo mesh1 mesh2)%Q in
      let NCondCoeff := (factor * Geometry.sigma geo mesh1 mesh2)%Q in
      let DCondCoeff := (- (factor * Geometry.indicator geo mesh1 mesh2))%Q in
      if disableBlock mesh1 mesh2 then Some symmatrix
      else if Mesh.same mesh1 mesh2 then
        '(block, M1) ← DiagonalBlock.set_S_block env SCondCoeff
                          (DiagonalBlock.new mesh1 integrator) symmatrix;
        M2 ← DiagonalBlock.set_N_block env NCondCoeff block M1;
        M3 ← DiagonalBlock.set_D_block env DCondCoeff block M2;
        DiagonalBlock.set_Dstar_block DCondCoeff block M3
      else
        '(block, M1) ← NonDiagonalBlock.set_S_block env SCondCoeff
                          (NonDiagonalBlock.new mesh1 mesh2 integrator)
                          symmatrix;
        M2 ← NonDiagonalBlock.set_N_block env NCondCoeff block M1;
        M3 ← NonDiagonalBlock.set_D_block env DCondCoeff block M2;
        NonDiagonalBlock.set_Dstar_block env DCondCoeff block M3 in
  Details.HeadMatrix env geo integrator disableBlock
  = (symmatrix ← foldlM blocks_of_pair
                   (Geometry.communicating_mesh_pairs geo)
                   (Details.HeadMatrix_alloc env geo);
     Details.deflate symmatrix geo).
Proof.
  intros blocks_of_pair. unfold Details.HeadMatrix. cbv zeta.
  rewrite (foldlM_ext (Details.HeadMatrix_pair env geo integrator disableBlock)
                      blocks_of_pair); [reflexivity|].
  intros symmatrix mp _.
  unfold Details.HeadMatrix_pair, blocks_of_pair. cbv zeta.
  destruct (disableBlock (Geometry.first mp) (Geometry.second mp));
    [reflexivity|].
  rewrite Qopp_mult_l.
  unfold HeadMatrixBlocks.set_blocks.
  cbn [nth set_S_block set_N_block set_D_block set_Dstar_block
       DiagonalBlock_BlockType NonDiagonalBlock_BlockType].
  destruct (Mesh.same (Geometry.first mp) (Geometry.second mp)).
  - destruct (DiagonalBlock.set_S_block _ _ _ _) as [[block M1]|]; simpl;
      [|reflexivity].
    destruct (DiagonalBlock.set_N_block _ _ _ _) as [M2|]; simpl;
      [|reflexivity].
    destruct (DiagonalBlock.set_D_block _ _ _ _) as [M3|]; simpl; reflexivity.
  - destruct (NonDiagonalBlock.set_S_block _ _ _ _) as [[block M1]|]; simpl;
      [|reflexivity].
    destruct (NonDiagonalBlock.set_N_block _ _ _ _) as [M2|]; simpl;
      [|reflexivity].
    destruct (NonDiagonalBlock.set_D_block _ _ _ _) as [M3|]; simpl;
      [|reflexivity].
    destruct (NonDiagonalBlock.set_Dstar_block _ _ _ _); reflexivity.
Qed.

(** ** The cached coefficient of the S block *)

Section CachedCoefficient.

Context (env : Env) {T : Type} `{Sink T}.

(** C10. In both engines the N computation divides by [Scoeff] only in the
    branch taken when [S_block_is_computed] holds, that is when [Scoeff]
    is not zero; otherwise it is the computation on a fresh S block, in
    which [Scoeff] does not occur.  [Scoeff] is zero in a new block and is
    changed by [set_S_block] only, to the coefficient of a call that was
    not skipped: after a call on a new block that was skipped for a
    current barrier, or that recorded a zero coefficient,
    [S_block_is_computed] does not hold. *)
Theorem rescaling_never_divides_by_zero (coeff : Q) (matrix : T) :
  (forall blk : DiagonalBlock.t,
      (DiagonalBlock.S_block_is_computed blk = true
       <-> ~ (DiagonalBlock.Scoeff blk == 0)%Q)
      /\ (DiagonalBlock.S_block_is_computed blk = true ->
          DiagonalBlock.N env blk coeff matrix
          = DiagonalBlock.N_from blk (coeff / DiagonalBlock.Scoeff blk)%Q
                                 sink_get matrix)
      /\ (DiagonalBlock.S_block_is_computed blk = false ->
          DiagonalBlock.N env blk coeff matrix
          = match Mesh.triangles (DiagonalBlock.mesh blk) with
            | [] => None
            | front :: _ =>
                Sbloc ← DiagonalBlock.S env blk 1
                        (DiagonalBlock.SymBloc_new (Triangle.index front)
                           (length (Mesh.triangles (DiagonalBlock.mesh blk)))
                           (uninit env));
                DiagonalBlock.N_from blk coeff (fun _ => sink_get Sbloc) matrix
            end)
      /\ DiagonalBlock.S_block_is_computed
           (DiagonalBlock.new (DiagonalBlock.mesh blk)
                              (DiagonalBlock.integrator blk)) = false
      /\ forall c blk' matrix',
          DiagonalBlock.set_S_block env c blk matrix = Some (blk', matrix') ->
          (Mesh.current_barrier (DiagonalBlock.mesh blk) = true ->
           blk' = blk)
          /\ (Mesh.current_barrier (DiagonalBlock.mesh blk) = false ->
              DiagonalBlock.Scoeff blk' = c)
          /\ (DiagonalBlock.S_block_is_computed blk = false ->
              Mesh.current_barrier (DiagonalBlock.mesh blk) = true
              \/ (c == 0)%Q ->
              DiagonalBlock.S_block_is_computed blk' = false))
  /\ (forall blk : NonDiagonalBlock.t,
         (NonDiagonalBlock.S_block_is_computed blk = true
          <-> ~ (NonDiagonalBlock.Scoeff blk == 0)%Q)
         /\ (NonDiagonalBlock.S_block_is_computed blk = true ->
             NonDiagonalBlock.N env blk coeff matrix
             = NonDiagonalBlock.N_from blk
                 (coeff / NonDiagonalBlock.Scoeff blk)%Q sink_get matrix)
         /\ (NonDiagonalBlock.S_block_is_computed blk = false ->
             NonDiagonalBlock.N env blk coeff matrix
             = match Mesh.triangles (NonDiagonalBlock.mesh1 blk),
                     Mesh.triangles (NonDiagonalBlock.mesh2 blk) with
               | front1 :: _, front2 :: _ =>
                   Sbloc ← NonDiagonalBlock.S env blk 1
                           (NonDiagonalBlock.Bloc_new
                              (Triangle.index front1) (Triangle.index front2)
                              (length (Mesh.triangles (NonDiagonalBlock.mesh1 blk)))
                              (length (Mesh.triangles (NonDiagonalBlock.mesh2 blk)))
                              (uninit env));
                   NonDiagonalBlock.N_from blk coeff
                                           (fun _ => sink_get Sbloc) matrix
               | _, _ => None
               end)
         /\ NonDiagonalBlock.S_block_is_computed
              (NonDiagonalBlock.new (NonDiagonalBlock.mesh1 blk)
                                    (NonDiagonalBlock.mesh2 blk)
                                    (NonDiagonalBlock.integrator blk)) = false
         /\ forall c blk' matrix',
             NonDiagonalBlock.set_S_block env c blk matrix
             = Some (blk', matrix') ->
             (Mesh.current_barrier (NonDiagonalBlock.mesh1 blk) = true
              \/ Mesh.current_barrier (NonDiagonalBlock.mesh2 blk) = true ->
              blk' = blk)
             /\ (Mesh.current_barrier (NonDiagonalBlock.mesh1 blk) = false ->
                 Mesh.current_barrier (NonDiagonalBlock.mesh2 blk) = false ->
                 NonDiagonalBlock.Scoeff blk' = c)
             /\ (NonDiagonalBlock.S_block_is_computed blk = false ->
                 Mesh.current_barrier (NonDiagonalBlock.mesh1 blk) = true
                 \/ Mesh.current_barrier (NonDiagonalBlock.mesh2 blk) = true
                 \/ (c == 0)%Q ->
                 NonDiagonalBlock.S_block_is_computed blk' = false)).
Proof.
  assert (Hcomp : forall q : Q,
             negb (Qeq_bool q 0) = true <-> ~ (q == 0)%Q).
  { intros q. rewrite negb_true_iff. split.
    - intros E Hq. apply Qeq_bool_iff in Hq. congruence.
    - intros Hq. destruct (Qeq_bool q 0) eqn:E; [|reflexivity].
      apply Qeq_bool_iff in E. contradiction. }
  assert (Hzero : forall q : Q, (q == 0)%Q -> negb (Qeq_bool q 0) = false).
  { intros q Hq. apply negb_false_iff, Qeq_bool_iff. exact Hq. }
  split.
  - intros blk. split; [apply Hcomp|].
    split; [intros E; unfold DiagonalBlock.N; rewrite E; reflexivity|].
    split; [intros E; unfold DiagonalBlock.N; rewrite E; reflexivity|].
    split; [reflexivity|].
    intros c blk' matrix'. unfold DiagonalBlock.set_S_block.
    destruct (Mesh.current_barrier (DiagonalBlock.mesh blk)); simpl.
    + intros [= <- <-]. split; [reflexivity|]. split; [discriminate|].
      intros E _. exact E.
    + destruct (DiagonalBlock.S env blk c matrix); simpl; [|discriminate].
      intros [= <- <-]. split; [discriminate|]. split; [reflexivity|].
      intros _ [Hc|Hc]; [discriminate|].
      unfold DiagonalBlock.S_block_is_computed. simpl. apply Hzero, Hc.
  - intros blk. split; [apply Hcomp|].
    split; [intros E; unfold NonDiagonalBlock.N; rewrite E; reflexivity|].
    split; [intros E; unfold NonDiagonalBlock.N; rewrite E; reflexivity|].
    split; [reflexivity|].
    intros c blk' matrix'. unfold NonDiagonalBlock.set_S_block.
    destruct (Mesh.current_barrier (NonDiagonalBlock.mesh1 blk)),
             (Mesh.current_barrier (NonDiagonalBlock.mesh2 blk)); simpl;
      try (intros [= <- <-]; split; [reflexivity|]; split;
           [discriminate|]; intros E _; exact E).
    destruct (NonDiagonalBlock.S env blk c matrix); simpl; [|discriminate].
    intros [= <- <-]. split; [intros [?|?]; discriminate|].
    split; [reflexivity|].
    intros _ [Hc|[Hc|Hc]]; try discriminate.
    unfold NonDiagonalBlock.S_block_is_computed. simpl. apply Hzero, Hc.
Qed.

End CachedCoefficient.

(** ** Loops that add to cells of a packed symmetric matrix *)

Section Accumulate.

Context {A : Type} (pos : A -> nat * nat)
        (amount : SymMatrix.t -> A -> option Q).

Lemma add_step_inv M x M' :
  add_step pos amount M x = Some M' ->
  exists d old,
    amount M x = Some d
    /\ SymMatrix.get M (fst (pos x)) (snd (pos x)) = Some old
    /\ SymMatrix.put M (fst (pos x)) (snd (pos x)) (old + d)%Q = Some M'.
Proof.
  unfold add_step. destruct (amount M x) as [d|]; simpl; [|discriminate].
  intros H. apply add_inv in H as (old & Hget & Hput).
  exists d, old. repeat split; assumption.
Qed.

Lemma add_step_frame M x M' :
  SymMatrix.wf M ->
  add_step pos amount M x = Some M' ->
  SymMatrix.nlin M' = SymMatrix.nlin M
  /\ SymMatrix.wf M'
  /\ forall a b, SymMatrix.index a b <> cell (pos x) ->
                 SymMatrix.get M' a b = SymMatrix.get M a b.
Proof.
  intros Hwf H. apply add_step_inv in H as (d & old & _ & _ & Hput).
  split; [eapply put_nlin; exact Hput|].
  split; [eapply put_wf; [exact Hput | exact Hwf]|].
  intros a b Hne. eapply get_put_ne; [exact Hwf | exact Hput | exact Hne].
Qed.

(** A loop of additions changes no cell but those it visits. *)
Lemma add_loop_frame l : forall M M',
  SymMatrix.wf M ->
  foldlM (add_step pos amount) l M = Some M' ->
  SymMatrix.nlin M' = SymMatrix.nlin M
  /\ SymMatrix.wf M'
  /\ forall a b, (forall x, In x l -> SymMatrix.index a b <> cell (pos x)) ->
                 SymMatrix.get M' a b = SymMatrix.get M a b.
Proof.
  induction l as [|x l IH]; intros M M' Hwf; simpl.
  - intros [= <-]. repeat split; auto.
  - destruct (add_step pos amount M x) as [M1|] eqn:E1; [|discriminate].
    intros H. apply (add_step_frame _ _ _ Hwf) in E1 as (Hn1 & Hwf1 & Hf1).
    apply (IH _ _ Hwf1) in H as (Hn & Hwf' & Hf).
    split; [congruence|]. split; [exact Hwf'|].
    intros a b Hab. rewrite Hf by (intros y Hy; apply Hab; right; exact Hy).
    apply Hf1. apply Hab. left. reflexivity.
Qed.

(** A cell that the loop visits once is increased by the amount computed
    when it is visited. *)
Lemma add_loop_hit l x M M' :
  SymMatrix.wf M ->
  List.NoDup (map (fun y => cell (pos y)) l) -> In x l ->
  foldlM (add_step pos amount) l M = Some M' ->
  exists pre post M1 d old,
    l = pre ++ x :: post
    /\ foldlM (add_step pos amount) pre M = Some M1
    /\ amount M1 x = Some d
    /\ SymMatrix.get M (fst (pos x)) (snd (pos x)) = Some old
    /\ SymMatrix.get M' (fst (pos x)) (snd (pos x)) = Some (old + d)%Q.
Proof.
  intros Hwf Hnd Hin H.
  destruct (in_split _ _ Hin) as (pre & post & ->).
  rewrite map_app in Hnd. simpl in Hnd.
  apply List.NoDup_remove_2 in Hnd.
  assert (Hpre : forall y, In y pre -> cell (pos x) <> cell (pos y)).
  { intros y Hy E. apply Hnd, in_or_app. left. rewrite E.
    apply (in_map (fun y => cell (pos y))). exact Hy. }
  assert (Hpost : forall y, In y post -> cell (pos x) <> cell (pos y)).
  { intros y Hy E. apply Hnd, in_or_app. right. rewrite E.
    apply (in_map (fun y => cell (pos y))). exact Hy. }
  rewrite foldlM_app in H.
  destruct (foldlM (add_step pos amount) pre M) as [M1|] eqn:E1;
    [|discriminate].
  simpl in H.
  destruct (add_step pos amount M1 x) as [M2|] eqn:E2; [|discriminate].
  destruct (add_loop_frame _ _ _ Hwf E1) as (Hn1 & Hwf1 & Hf1).
  assert (Hwf2 : SymMatrix.wf M2)
    by (apply (add_step_frame _ _ _ Hwf1 E2)).
  apply (add_loop_frame _ _ _ Hwf2) in H as (Hn2 & _ & Hf2).
  apply add_step_inv in E2 as (d & old & Hd & Hold & Hput).
  exists pre, post, M1, d, old. split; [reflexivity|].
  split; [exact E1|]. split; [exact Hd|]. split.
  - rewrite <- Hold. symmetry. apply Hf1. exact Hpre.
  - rewrite (Hf2 _ _ Hpost).
    destruct (put_range _ _ _ _ _ Hput) as (Hi & Hj).
    eapply get_put_eq; [exact Hwf1 | exact Hput | reflexivity
                       | exact Hi | exact Hj].
Qed.

(** A loop of additions at valid subscripts, whose amounts are defined in
    every state that keeps an invariant the additions maintain, succeeds. *)
Lemma add_loop_total (P : SymMatrix.t -> Prop) l M :
  SymMatrix.wf M -> P M ->
  (forall x, In x l -> fst (pos x) < SymMatrix.nlin M
                       /\ snd (pos x) < SymMatrix.nlin M) ->
  (forall M1 x, In x l -> P M1 -> exists d, amount M1 x = Some d) ->
  (forall M1 x M2, In x l -> P M1 -> add_step pos amount M1 x = Some M2 ->
                   P M2) ->
  exists M', foldlM (add_step pos amount) l M = Some M'.
Proof.
  intros Hwf HP Hr Hd Hp.
  destruct (foldlM_total
              (fun M1 => SymMatrix.nlin M1 = SymMatrix.nlin M
                         /\ SymMatrix.wf M1 /\ P M1)
              (add_step pos amount) l M) as (M' & E & _).
  - repeat split; assumption.
  - intros M1 x Hx (Hn1 & Hwf1 & HP1).
    destruct (Hd M1 x Hx HP1) as [d Ed].
    destruct (Hr x Hx) as [Hi Hj]. rewrite <- Hn1 in Hi, Hj.
    destruct (add_total M1 _ _ d Hwf1 Hi Hj) as [M2 E2].
    assert (E : add_step pos amount M1 x = Some M2).
    { unfold add_step. rewrite Ed. exact E2. }
    exists M2. split; [exact E|].
    destruct (add_step_frame _ _ _ Hwf1 E) as (Hn2 & Hwf2 & _).
    split; [congruence|]. split; [exact Hwf2|]. eapply Hp; eauto.
  - exists M'. exact E.
Qed.

End Accumulate.

(** ** The pairs that nested loops visit *)

Lemma foldlM_map {S A B : Type} (f : S -> B -> option S) (g : A -> B)
      (l : list A) (s : S) :
  foldlM f (map g l) s = foldlM (fun s x => f s (g x)) l s.
Proof.
  revert s. induction l as [|x l IH]; intros s; simpl; [reflexivity|].
  destruct (f s (g x)); [apply IH | reflexivity].
Qed.

Lemma cell_eq_iff (a b c d : nat) :
  cell (a, b) = cell (c, d) <-> (a = c /\ b = d) \/ (a = d /\ b = c).
Proof. unfold cell. simpl. apply index_eq_iff. Qed.

Lemma NoDup_map_injective {A B : Type} (f : A -> B) (l : list A) :
  (forall a b, f a = f b -> a = b) -> List.NoDup l -> List.NoDup (map f l).
Proof.
  intros Hinj. induction 1 as [|x l Hx Hnd IH]; simpl; constructor.
  - intros Hin. apply in_map_iff in Hin as (y & E & Hy).
    apply Hinj in E. subst. contradiction.
  - exact IH.
Qed.

Section Pairs.

Context {A : Type} (key : A -> nat).

Lemma row_cells_NoDup (x : A) (l : list A) :
  List.NoDup (map key l) ->
  List.NoDup (map (pair_cell key) (map (pair x) l)).
Proof.
  intros Hnd. rewrite map_map. unfold pair_cell. simpl.
  rewrite <- (map_map key (fun k => cell (key x, k))).
  apply NoDup_map_injective; [|exact Hnd].
  intros a b E. apply cell_eq_iff in E. lia.
Qed.

Lemma in_row (x : A) (l : list A) (p : A * A) :
  In p (map (pair x) l) <-> fst p = x /\ In (snd p) l.
Proof.
  rewrite in_map_iff. split.
  - intros (y & <- & Hy). simpl. split; [reflexivity | exact Hy].
  - intros [<- Hy]. exists (snd p). split; [destruct p; reflexivity | exact Hy].
Qed.

Lemma in_upper_pairs (l : list A) (p : A * A) :
  In p (upper_pairs l) -> In (fst p) l /\ In (snd p) l.
Proof.
  induction l as [|x l IH]; simpl; [intros []|].
  intros [<-|H]; [simpl; auto|].
  apply in_app_or in H as [H|H].
  - apply in_row in H as [-> H]. auto.
  - apply IH in H as [H1 H2]. auto.
Qed.

Lemma upper_pairs_cover (l : list A) (x y : A) :
  In x l -> In y l -> In (x, y) (upper_pairs l) \/ In (y, x) (upper_pairs l).
Proof.
  induction l as [|z l IH]; simpl; [intros []|].
  intros [->|Hx] [->|Hy].
  - left. left. reflexivity.
  - left. right. apply in_or_app. left. apply in_row. simpl. auto.
  - right. right. apply in_or_app. left. apply in_row. simpl. auto.
  - destruct (IH Hx Hy) as [H|H]; [left | right]; right; apply in_or_app;
      right; exact H.
Qed.

Lemma upper_pairs_NoDup (l : list A) :
  List.NoDup (map key l) ->
  List.NoDup (map (pair_cell key) (upper_pairs l)).
Proof.
  induction l as [|x l IH]; intros Hnd; [constructor|].
  cbn [upper_pairs]. rewrite map_app. apply List.NoDup_app.
  - apply row_cells_NoDup. exact Hnd.
  - apply IH. simpl in Hnd. apply List.NoDup_cons_iff in Hnd. tauto.
  - intros c Hc Hc'. simpl in Hnd. apply List.NoDup_cons_iff in Hnd as [Hx _].
    apply in_map_iff in Hc as (p & <- & Hp).
    apply in_map_iff in Hc' as (q & E & Hq).
    apply in_row in Hp as [Hp1 _].
    apply in_upper_pairs in Hq as [Hq1 Hq2].
    unfold pair_cell in E. apply cell_eq_iff in E. rewrite Hp1 in E.
    apply Hx. destruct E as [[E _]|[_ E]]; rewrite <- E; apply in_map;
      assumption.
Qed.

Lemma in_lower_pairs (todo before : list A) (p : A * A) :
  In p (lower_pairs before todo) ->
  In (fst p) todo /\ In (snd p) (before ++ todo).
Proof.
  revert before. induction todo as [|x todo IH]; intros before; simpl;
    [intros []|].
  intros H. apply in_app_or in H as [H|H].
  - apply in_row in H as [-> H]. split; [left; reflexivity|].
    apply in_app_or in H as [H|[<-|[]]]; apply in_or_app; simpl; auto.
  - apply IH in H as [H1 H2]. split; [right; exact H1|].
    rewrite <- app_assoc in H2. exact H2.
Qed.

Lemma lower_pairs_cover (todo : list A) : forall (before : list A) (x y : A),
  In x todo -> In y (before ++ todo) ->
  In (x, y) (lower_pairs before todo) \/ In (y, x) (lower_pairs before todo).
Proof.
  induction todo as [|z todo IH]; intros before x y; simpl; [intros []|].
  assert (Hz : In z ((before ++ [z]) ++ todo)).
  { apply in_or_app. left. apply in_or_app. simpl. auto. }
  intros [->|Hx] Hy.
  - apply in_app_or in Hy as [Hy|[->|Hy]].
    + left. apply in_or_app. left. apply in_row. simpl.
      split; [reflexivity | apply in_or_app; auto].
    + left. apply in_or_app. left. apply in_row. simpl.
      split; [reflexivity | apply in_or_app; simpl; auto].
    + destruct (IH (before ++ [x]) y x Hy Hz) as [H|H];
        [right | left]; apply in_or_app; right; exact H.
  - assert (Hy' : In y ((before ++ [z]) ++ todo)).
    { rewrite <- app_assoc. exact Hy. }
    destruct (IH (before ++ [z]) x y Hx Hy') as [H|H];
      [left | right]; apply in_or_app; right; exact H.
Qed.

Lemma lower_pairs_NoDup (todo : list A) : forall before : list A,
  List.NoDup (map key (before ++ todo)) ->
  List.NoDup (map (pair_cell key) (lower_pairs before todo)).
Proof.
  induction todo as [|x todo IH]; intros before Hnd; [constructor|].
  cbn [lower_pairs]. rewrite map_app.
  assert (Hnd' : List.NoDup (map key ((before ++ [x]) ++ todo))).
  { rewrite <- app_assoc. exact Hnd. }
  apply List.NoDup_app.
  - apply row_cells_NoDup. rewrite map_app in Hnd'.
    apply List.NoDup_app_remove_r in Hnd'. exact Hnd'.
  - apply IH. exact Hnd'.
  - intros c Hc Hc'.
    apply in_map_iff in Hc as (p & <- & Hp).
    apply in_map_iff in Hc' as (q & E & Hq).
    apply in_row in Hp as [Hp1 Hp2].
    apply in_lower_pairs in Hq as [Hq1 Hq2].
    unfold pair_cell in E. apply cell_eq_iff in E.
    rewrite map_app in Hnd'.
    assert (Hdis : forall a b, In a (before ++ [x]) -> In b todo ->
                               key a <> key b).
    { intros a b Ha Hb Eab.
      assert (Hsplit := in_split _ _ Ha). destruct Hsplit as (l1 & l2 & El).
      rewrite El in Hnd'. rewrite map_app in Hnd'. simpl in Hnd'.
      rewrite <- app_assoc in Hnd'. simpl in Hnd'.
      apply List.NoDup_remove_2 in Hnd'. apply Hnd'.
      apply in_or_app. right. apply in_or_app. right.
      rewrite Eab. apply in_map. exact Hb. }
    assert (Hx : In x (before ++ [x])) by (apply in_or_app; simpl; auto).
    destruct E as [[E _]|[E _]].
    + apply (Hdis x (fst q) Hx Hq1). rewrite <- Hp1. symmetry. exact E.
    + apply (Hdis (snd p) (fst q) Hp2 Hq1). symmetry. exact E.
Qed.

Lemma all_pairs_NoDup (l1 l2 : list A) :
  List.NoDup (map key l1) -> List.NoDup (map key l2) ->
  (forall a b, In a l1 -> In b l2 -> key a <> key b) ->
  List.NoDup (map (pair_cell key) (all_pairs l1 l2)).
Proof.
  intros Hnd1 Hnd2 Hdis. unfold all_pairs.
  induction l1 as [|x l1 IH]; [constructor|].
  simpl. rewrite map_app. apply List.NoDup_app.
  - apply row_cells_NoDup. exact Hnd2.
  - apply IH.
    + simpl in Hnd1. apply List.NoDup_cons_iff in Hnd1. tauto.
    + intros a b Ha Hb. apply Hdis; [right|]; assumption.
  - intros c Hc Hc'. simpl in Hnd1.
    apply List.NoDup_cons_iff in Hnd1 as [Hx _].
    apply in_map_iff in Hc as (p & <- & Hp).
    apply in_map_iff in Hc' as (q & E & Hq).
    apply in_row in Hp as [Hp1 Hp2].
    apply in_flat_map in Hq as (x' & Hx' & Hq).
    apply in_row in Hq as [Hq1 Hq2].
    unfold pair_cell in E. apply cell_eq_iff in E.
    destruct E as [[E _]|[E _]].
    + apply Hx. rewrite <- Hp1, <- E, Hq1. apply in_map. exact Hx'.
    + apply (Hdis (fst q) (snd p)).
      * rewrite Hq1. right. exact Hx'.
      * exact Hp2.
      * exact E.
Qed.

(** The cells of the pairs of two lists whose keys are apart are apart. *)
Lemma upper_pairs_apart (l1 l2 : list A) (p q : A * A) :
  (forall a b, In a l1 -> In b l2 -> key a <> key b) ->
  In p (upper_pairs l1) -> In q (upper_pairs l2) ->
  pair_cell key p <> pair_cell key q.
Proof.
  intros Hdis Hp Hq E. apply in_upper_pairs in Hp as [Hp1 _].
  apply in_upper_pairs in Hq as [Hq1 Hq2].
  unfold pair_cell in E. apply cell_eq_iff in E.
  destruct E as [[E _]|[E _]].
  - exact (Hdis _ _ Hp1 Hq1 E).
  - exact (Hdis _ _ Hp1 Hq2 E).
Qed.

End Pairs.

(** ** Deflation *)

Lemma keys_apart {A : Type} (key : A -> nat) (l1 l2 : list A) (a b : A) :
  List.NoDup (map key (l1 ++ l2)) -> In a l1 -> In b l2 -> key a <> key b.
Proof.
  intros Hnd Ha Hb E. destruct (in_split _ _ Ha) as (l & l' & ->).
  rewrite <- app_assoc in Hnd. simpl in Hnd.
  rewrite map_app in Hnd. simpl in Hnd.
  apply List.NoDup_remove_2 in Hnd. apply Hnd.
  apply in_or_app. right. rewrite E. apply in_map.
  apply in_or_app. right. exact Hb.
Qed.

Lemma grouped_pairs_NoDup {A B : Type} (key : A -> nat) (f : B -> list A)
      (ms : list B) :
  List.NoDup (map key (flat_map f ms)) ->
  List.NoDup (map (pair_cell key) (flat_map (fun m => upper_pairs (f m)) ms)).
Proof.
  induction ms as [|m ms IH]; intros Hnd; [constructor|].
  simpl in *. rewrite map_app. apply List.NoDup_app.
  - apply upper_pairs_NoDup. rewrite map_app in Hnd.
    apply List.NoDup_app_remove_r in Hnd. exact Hnd.
  - apply IH. rewrite map_app in Hnd.
    apply List.NoDup_app_remove_l in Hnd. exact Hnd.
  - intros c Hc Hc'.
    apply in_map_iff in Hc as (p & <- & Hp).
    apply in_map_iff in Hc' as (q & E & Hq).
    apply in_flat_map in Hq as (m' & Hm' & Hq).
    symmetry in E. revert E.
    apply (upper_pairs_apart key (f m) (f m')); [|exact Hp | exact Hq].
    intros a b Ha Hb. apply (keys_apart key _ _ a b Hnd Ha).
    apply in_flat_map. exists m'. split; assumption.
Qed.

Section Deflation.

Implicit Types (M : SymMatrix.t) (part : list Mesh.t) (coef : Q).

Lemma deflate_rows_pairs coef (vs : list Vertex.t) : forall M,
  Details.deflate_rows coef vs M
  = foldlM (add_step vertex_pos (fun _ _ => Some coef)) (upper_pairs vs) M.
Proof.
  induction vs as [|V1 vs IH]; intros M; [reflexivity|].
  cbn [Details.deflate_rows upper_pairs]. rewrite foldlM_app, foldlM_map.
  rewrite (foldlM_ext _
             (fun s x => add_step vertex_pos (fun _ _ => Some coef) s (V1, x)))
    by reflexivity.
  destruct (foldlM _ (V1 :: vs) M); simpl; [apply IH | reflexivity].
Qed.

Lemma deflate_meshes_pairs coef part : forall M,
  foldlM (fun M meshptr =>
            if Mesh.outermost meshptr
            then Details.deflate_rows coef (Mesh.vertices meshptr) M
            else Some M) part M
  = foldlM (add_step vertex_pos (fun _ _ => Some coef)) (deflate_pairs part) M.
Proof.
  induction part as [|m part IH]; intros M; [reflexivity|].
  unfold deflate_pairs in *. simpl.
  destruct (Mesh.outermost m); simpl; [|apply IH].
  rewrite foldlM_app, deflate_rows_pairs.
  destruct (foldlM _ _ M); simpl; [apply IH | reflexivity].
Qed.

Lemma in_deflate_pairs part (p : Vertex.t * Vertex.t) :
  In p (deflate_pairs part) <->
  exists m, In m part /\ Mesh.outermost m = true
            /\ In p (upper_pairs (Mesh.vertices m)).
Proof.
  unfold deflate_pairs. rewrite in_flat_map. split.
  - intros (m & Hm & Hp). apply filter_In in Hm as [Hm Ho]. eauto.
  - intros (m & Hm & Ho & Hp). exists m. split; [|exact Hp].
    apply filter_In. auto.
Qed.

Lemma in_outermost_vertices part (V : Vertex.t) :
  In V (outermost_vertices part) <->
  exists m, In m part /\ Mesh.outermost m = true /\ In V (Mesh.vertices m).
Proof.
  unfold outermost_vertices. rewrite in_flat_map. split.
  - intros (m & Hm & Hp). apply filter_In in Hm as [Hm Ho]. eauto.
  - intros (m & Hm & Ho & Hp). exists m. split; [|exact Hp].
    apply filter_In. auto.
Qed.

Lemma deflate_pairs_NoDup part :
  List.NoDup (map Vertex.index (outermost_vertices part)) ->
  List.NoDup (map (fun p => cell (vertex_pos p)) (deflate_pairs part)).
Proof.
  intros Hnd.
  apply (grouped_pairs_NoDup Vertex.index Mesh.vertices). exact Hnd.
Qed.

Local Abbreviation first_loop_body :=
  (fun '(nb_vertices, i_first) meshptr =>
     if Mesh.outermost meshptr then
       let nb_vertices := nb_vertices + length (Mesh.vertices meshptr) in
       if i_first =? 0 then
         match Mesh.vertices meshptr with
         | [] => None
         | front :: _ => Some (nb_vertices, Vertex.index front)
         end
       else Some (nb_vertices, i_first)
     else Some (nb_vertices, i_first)).

(** Once [i_first] is not zero the first loop only counts. *)
Lemma first_loop_counts part : forall nb i_first,
  i_first <> 0 ->
  foldlM first_loop_body part (nb, i_first)
  = Some (nb + nb_vertices_in_group part, i_first).
Proof.
  unfold nb_vertices_in_group, outermost_vertices.
  induction part as [|m part IH]; intros nb i_first Hi; simpl.
  - f_equal. f_equal. lia.
  - destruct (Mesh.outermost m); simpl.
    + destruct (Nat.eqb_spec i_first 0); [contradiction|].
      rewrite IH by exact Hi. rewrite length_app. f_equal. f_equal. lia.
    + apply IH. exact Hi.
Qed.

(** Without an outermost mesh the first loop changes nothing. *)
Lemma first_loop_idle part : forall acc : nat * nat,
  List.filter Mesh.outermost part = [] ->
  foldlM first_loop_body part acc = Some acc.
Proof.
  induction part as [|m part IH]; intros acc Hf; simpl; [reflexivity|].
  simpl in Hf. destruct acc as [nb i_first].
  destruct (Mesh.outermost m); [discriminate|]. apply IH. exact Hf.
Qed.

Lemma first_loop_from_zero part : forall nb,
  i_first_settled part ->
  foldlM first_loop_body part (nb, 0)
  = Some (nb + nb_vertices_in_group part, i_first_of part).
Proof.
  unfold i_first_settled, i_first_of, nb_vertices_in_group,
    outermost_vertices.
  induction part as [|m part IH]; intros nb Hfirst; simpl.
  - f_equal. f_equal. lia.
  - simpl in Hfirst. destruct (Mesh.outermost m); simpl in *.
    + destruct (Mesh.vertices m) as [|front vs] eqn:Ev; [contradiction|].
      rewrite length_app. destruct Hfirst as [Hnz|Hlast].
      * pose proof (first_loop_counts part (nb + length (front :: vs))
                                      (Vertex.index front) Hnz) as Hc.
        simpl in Hc |- *. rewrite Hc.
        unfold nb_vertices_in_group, outermost_vertices.
        f_equal. f_equal. lia.
      * rewrite (first_loop_idle part _ Hlast). rewrite Hlast. simpl.
        f_equal. f_equal. lia.
    + apply IH. exact Hfirst.
Qed.

Lemma first_loop_spec part :
  i_first_settled part ->
  Details.first_loop part = Some (nb_vertices_in_group part, i_first_of part).
Proof.
  intros Hfirst. exact (first_loop_from_zero part 0 Hfirst).
Qed.

Lemma i_first_in_range M part :
  0 < SymMatrix.nlin M -> i_first_settled part ->
  (forall V, In V (outermost_vertices part) ->
             Vertex.index V < SymMatrix.nlin M) ->
  i_first_of part < SymMatrix.nlin M.
Proof.
  unfold i_first_settled, i_first_of, outermost_vertices.
  intros Hpos Hfirst Hr.
  destruct (List.filter Mesh.outermost part) as [|m ms]; [exact Hpos|].
  destruct (Mesh.vertices m) as [|v vs] eqn:Ev; [contradiction|].
  apply Hr. simpl. rewrite Ev. left. reflexivity.
Qed.

(** The vertex whose index is [i_first] is one of the outermost vertices of
    the part, when the part has an outermost mesh. *)
Lemma i_first_is_outermost part m :
  i_first_settled part -> In m part -> Mesh.outermost m = true ->
  exists V, In V (outermost_vertices part) /\ Vertex.index V = i_first_of part.
Proof.
  unfold i_first_settled, i_first_of, outermost_vertices.
  intros Hfirst Hm Ho.
  assert (Hin : In m (List.filter Mesh.outermost part))
    by (apply filter_In; auto).
  destruct (List.filter Mesh.outermost part) as [|m0 ms]; [destruct Hin|].
  destruct (Mesh.vertices m0) as [|v vs] eqn:Ev; [contradiction|].
  exists v. split; [|reflexivity]. simpl. rewrite Ev. left. reflexivity.
Qed.

(** The deflation of one part. *)
Lemma deflate_part_spec M part :
  SymMatrix.wf M -> 0 < SymMatrix.nlin M -> i_first_settled part ->
  (forall V, In V (outermost_vertices part) ->
             Vertex.index V < SymMatrix.nlin M) ->
  List.NoDup (map Vertex.index (outermost_vertices part)) ->
  exists M' d,
    SymMatrix.get M (i_first_of part) (i_first_of part) = Some d
    /\ Details.deflate_part M part = Some M'
    /\ SymMatrix.nlin M' = SymMatrix.nlin M
    /\ SymMatrix.wf M'
    /\ (forall m V1 V2,
           In m part -> Mesh.outermost m = true ->
           In V1 (Mesh.vertices m) -> In V2 (Mesh.vertices m) ->
           exists old,
             SymMatrix.get M (Vertex.index V1) (Vertex.index V2) = Some old
             /\ SymMatrix.get M' (Vertex.index V1) (Vertex.index V2)
                = Some (old + d / inject_Z (Z.of_nat (nb_vertices_in_group part)))%Q)
    /\ (forall a b,
           (forall p, In p (deflate_pairs part) ->
                      SymMatrix.index a b <> cell (vertex_pos p)) ->
           SymMatrix.get M' a b = SymMatrix.get M a b).
Proof.
  intros Hwf Hpos Hfirst Hr Hnd.
  assert (Hi := i_first_in_range M part Hpos Hfirst Hr).
  destruct (get_total M _ _ Hwf Hi Hi) as [d Hd].
  set (coef := (d / inject_Z (Z.of_nat (nb_vertices_in_group part)))%Q).
  assert (Hrange : forall p, In p (deflate_pairs part) ->
                             fst (vertex_pos p) < SymMatrix.nlin M
                             /\ snd (vertex_pos p) < SymMatrix.nlin M).
  { intros p Hp. apply in_deflate_pairs in Hp as (m & Hm & Ho & Hp).
    apply in_upper_pairs in Hp as [H1 H2].
    split; apply Hr, in_outermost_vertices; eauto. }
  destruct (add_loop_total vertex_pos (fun _ _ => Some coef) (fun _ => True)
                           (deflate_pairs part) M Hwf I Hrange)
    as [M' E]; [eauto | auto |].
  assert (Epart : Details.deflate_part M part = Some M').
  { unfold Details.deflate_part. rewrite (first_loop_spec part Hfirst).
    simpl. rewrite Hd. simpl. fold coef.
    rewrite <- E. apply deflate_meshes_pairs. }
  destruct (add_loop_frame _ _ _ _ _ Hwf E) as (Hn & Hwf' & Hf).
  exists M', d. split; [exact Hd|]. split; [exact Epart|].
  split; [exact Hn|]. split; [auto|]. split; [|exact Hf].
  intros m V1 V2 Hm Ho H1 H2.
  assert (Hhit : forall p, In p (deflate_pairs part) ->
            exists old,
              SymMatrix.get M (fst (vertex_pos p)) (snd (vertex_pos p))
              = Some old
              /\ SymMatrix.get M' (fst (vertex_pos p)) (snd (vertex_pos p))
                 = Some (old + coef)%Q).
  { intros p Hp.
    destruct (add_loop_hit vertex_pos (fun _ _ => Some coef) _ p M M' Hwf
                           (deflate_pairs_NoDup part Hnd) Hp E)
      as (_ & _ & _ & d' & old & _ & _ & [= <-] & Hold & Hnew).
    exists old. split; assumption. }
  destruct (upper_pairs_cover (Mesh.vertices m) V1 V2 H1 H2) as [Hp|Hp].
  - apply (Hhit (V1, V2)). apply in_deflate_pairs. eauto.
  - destruct (Hhit (V2, V1)) as (old & Hold & Hnew);
      [apply in_deflate_pairs; eauto|].
    exists old. simpl in Hold, Hnew. rewrite get_sym, Hold, get_sym, Hnew.
    split; reflexivity.
Qed.

(** The cells of two parts whose outermost vertices bear different indices
    are apart. *)
Lemma parts_apart part part' (p q : Vertex.t * Vertex.t) :
  (forall V V', In V (outermost_vertices part) ->
                In V' (outermost_vertices part') ->
                Vertex.index V <> Vertex.index V') ->
  In p (deflate_pairs part) -> In q (deflate_pairs part') ->
  cell (vertex_pos p) <> cell (vertex_pos q).
Proof.
  intros Hdis Hp Hq.
  apply in_deflate_pairs in Hp as (m & Hm & Ho & Hp).
  apply in_deflate_pairs in Hq as (m' & Hm' & Ho' & Hq).
  apply (upper_pairs_apart Vertex.index (Mesh.vertices m) (Mesh.vertices m'));
    [|exact Hp | exact Hq].
  intros a b Ha Hb. apply Hdis; apply in_outermost_vertices; eauto.
Qed.

(** The deflation of the parts, one after the other. *)
Lemma deflate_parts_spec (parts : list (list Mesh.t)) : forall M,
  SymMatrix.wf M -> 0 < SymMatrix.nlin M ->
  (forall part, In part parts -> i_first_settled part) ->
  (forall part V, In part parts -> In V (outermost_vertices part) ->
                  Vertex.index V < SymMatrix.nlin M) ->
  List.NoDup (map Vertex.index (flat_map outermost_vertices parts)) ->
  exists M',
    foldlM Details.deflate_part parts M = Some M'
    /\ SymMatrix.nlin M' = SymMatrix.nlin M
    /\ SymMatrix.wf M'
    /\ (forall part m V1 V2,
           In part parts -> In m part -> Mesh.outermost m = true ->
           In V1 (Mesh.vertices m) -> In V2 (Mesh.vertices m) ->
           increased_by_coef M M' part (Vertex.index V1) (Vertex.index V2))
    /\ (forall a b,
           (forall part p, In part parts -> In p (deflate_pairs part) ->
                           SymMatrix.index a b <> cell (vertex_pos p)) ->
           SymMatrix.get M' a b = SymMatrix.get M a b).
Proof.
  induction parts as [|part parts IH]; intros M Hwf Hpos Hfirst Hr Hnd.
  - exists M. split; [reflexivity|]. split; [reflexivity|].
    split; [exact Hwf|]. split; [intros ? ? ? ? []|]. reflexivity.
  - simpl in Hnd. rewrite map_app in Hnd.
    assert (Hnd1 := List.NoDup_app_remove_r _ _ Hnd).
    assert (Hnd2 := List.NoDup_app_remove_l _ _ Hnd).
    rewrite <- map_app in Hnd.
    destruct (deflate_part_spec M part Hwf Hpos
                (Hfirst part (or_introl eq_refl))
                (fun V => Hr part V (or_introl eq_refl)) Hnd1)
      as (M1 & d & Hd & E1 & Hn1 & Hwf1 & Hin1 & Hf1).
    destruct (IH M1 Hwf1) as (M' & E' & Hn' & Hwf' & Hin' & Hf').
    { rewrite Hn1. exact Hpos. }
    { intros p Hp. apply Hfirst. right. exact Hp. }
    { intros p V Hp HV. rewrite Hn1. apply (Hr p V); [right|]; assumption. }
    { exact Hnd2. }
    assert (Hapart : forall part' V V',
               In part' parts -> In V (outermost_vertices part) ->
               In V' (outermost_vertices part') ->
               Vertex.index V <> Vertex.index V').
    { intros part' V V' Hp HV HV'.
      apply (keys_apart Vertex.index _ _ V V' Hnd HV).
      apply in_flat_map. exists part'. split; assumption. }
    exists M'. split; [simpl; rewrite E1; exact E'|].
    split; [congruence|]. split; [exact Hwf'|]. split.
    + intros part' m V1 V2 [<-|Hp] Hm Ho H1 H2.
      * destruct (Hin1 m V1 V2 Hm Ho H1 H2) as (old & Hold & Hnew).
        exists old, d. split; [exact Hold|]. split; [exact Hd|].
        rewrite <- Hnew. apply Hf'.
        intros part' q Hp' Hq E.
        destruct (upper_pairs_cover (Mesh.vertices m) V1 V2 H1 H2) as [Hc|Hc].
        -- apply (parts_apart part part' (V1, V2) q
                    (fun V V' => Hapart part' V V' Hp'));
             [apply in_deflate_pairs; eauto | exact Hq | exact E].
        -- apply (parts_apart part part' (V2, V1) q
                    (fun V V' => Hapart part' V V' Hp'));
             [apply in_deflate_pairs; eauto | exact Hq |].
           rewrite <- E. unfold cell, vertex_pos. simpl. apply index_sym.
      * destruct (Hin' part' m V1 V2 Hp Hm Ho H1 H2)
          as (old & d' & Hold & Hd' & Hnew).
        exists old, d'. split; [|split; [|exact Hnew]].
        -- rewrite <- Hold. symmetry. apply Hf1. intros q Hq E.
           destruct (upper_pairs_cover (Mesh.vertices m) V1 V2 H1 H2)
             as [Hc|Hc].
           ++ apply (parts_apart part part' q (V1, V2)
                       (fun V V' => Hapart part' V V' Hp));
                [exact Hq | apply in_deflate_pairs; eauto
                | symmetry; exact E].
           ++ apply (parts_apart part part' q (V2, V1)
                       (fun V V' => Hapart part' V V' Hp));
                [exact Hq | apply in_deflate_pairs; eauto|].
              rewrite <- E. unfold cell, vertex_pos. simpl. apply index_sym.
        -- rewrite <- Hd'. symmetry. apply Hf1. intros q Hq E.
           destruct (i_first_is_outermost part' m
                       (Hfirst part' (or_intror Hp)) Hm Ho) as (V0 & HV0 & E0).
           apply in_deflate_pairs in Hq as (mq & Hmq & Hoq & Hq).
           apply in_upper_pairs in Hq as [Hq1 Hq2].
           unfold vertex_pos in E. rewrite <- E0 in E.
           apply index_eq_iff in E. simpl in E.
           assert (Hne : Vertex.index (fst q) <> Vertex.index V0).
           { apply (Hapart part' (fst q) V0 Hp); [|exact HV0].
             apply in_outermost_vertices. eauto. }
           lia.
    + intros a b Hab. rewrite Hf'.
      * apply Hf1. intros p Hp. apply (Hab part p); [left; reflexivity|].
        exact Hp.
      * intros part' p Hp' Hp. apply (Hab part' p); [right|]; assumption.
Qed.

End Deflation.

(** C2 (amended). Let the matrix have a positive dimension that covers the
    indices of the vertices of the outermost meshes of the isolated parts,
    let those indices be pairwise different, and let the first outermost mesh
    of every part have a first vertex, of nonzero index unless the mesh is
    the only outermost mesh of the part.  Then deflation
    returns a matrix of the same dimension in which, for every isolated part
    and every outermost mesh of it, every entry at two vertices of that mesh
    is the entry before increased by exactly
    coef = M(i_first,i_first)/nb_vertices_in_group, and every other entry,
    also one at two vertices of two different outermost meshes, is
    unchanged. *)
Theorem deflate_increases_outermost_blocks (geo : Geometry.t)
        (M : SymMatrix.t) :
  SymMatrix.wf M -> 0 < SymMatrix.nlin M ->
  (forall part, In part (Geometry.isolated_parts geo) ->
                i_first_settled part) ->
  (forall part V, In part (Geometry.isolated_parts geo) ->
                  In V (outermost_vertices part) ->
                  Vertex.index V < SymMatrix.nlin M) ->
  List.NoDup (map Vertex.index
                  (flat_map outermost_vertices (Geometry.isolated_parts geo))) ->
  exists M',
    Details.deflate M geo = Some M'
    /\ SymMatrix.nlin M' = SymMatrix.nlin M
    /\ (forall part a b, in_deflated_block geo part a b ->
                         increased_by_coef M M' part a b)
    /\ (forall a b, (forall part, ~ in_deflated_block geo part a b) ->
                    SymMatrix.get M' a b = SymMatrix.get M a b).
Proof.
  intros Hwf Hpos Hfirst Hr Hnd.
  destruct (deflate_parts_spec (Geometry.isolated_parts geo) M Hwf Hpos
                               Hfirst Hr Hnd)
    as (M' & E & Hn & _ & Hin & Hf).
  exists M'. split; [exact E|]. split; [exact Hn|]. split.
  - intros part a b (Hp & m & V1 & V2 & Hm & Ho & H1 & H2 & -> & ->).
    apply (Hin part m); assumption.
  - intros a b Hab. apply Hf. intros part p Hp Hq E'.
    apply in_deflate_pairs in Hq as (m & Hm & Ho & Hq).
    apply in_upper_pairs in Hq as [H1 H2].
    unfold cell, vertex_pos in E'. simpl in E'. apply index_eq_iff in E'.
    destruct E' as [[-> ->]|[-> ->]]; apply (Hab part); split; try exact Hp.
    + exists m, (fst p), (snd p). auto 10.
    + exists m, (snd p), (fst p). auto 10.
Qed.

(** ** The hypersingular operator *)

Section Hypersingular.

Implicit Types (V : Vertex.t) (m : Mesh.t) (T : Triangle.t)
         (rd : nat -> nat -> option Q) (s : Triangle.t -> Triangle.t -> Q).

(** The inner loop of [N] subtracts factor times the terms of its row. *)
Lemma N_inner_loop (factor : Q) V1 V2 T1 rd s (l : list Triangle.t) :
  forall result : Q,
  (forall T2, In T2 l ->
              rd (Triangle.index T1) (Triangle.index T2) = Some (s T1 T2)) ->
  exists r,
    foldlM (fun result tp2 =>
              let CB2 := opposite_edge_vector tp2 V2 in
              x ← rd (Triangle.index T1) (Triangle.index tp2);
              Some (result
                    - factor * dotprod (opposite_edge_vector T1 V1) CB2 * x
                      / (Triangle.area T1 * Triangle.area tp2))%Q)
           l result = Some r
    /\ (r == result - factor * Qsum (map (N_term V1 V2 s T1) l))%Q.
Proof.
  induction l as [|T2 l IH]; intros result Hrd; simpl.
  - exists result. split; [reflexivity | ring].
  - rewrite (Hrd T2 (or_introl eq_refl)). simpl.
    destruct (IH (result
                  - factor * dotprod (opposite_edge_vector T1 V1)
                                     (opposite_edge_vector T2 V2) * s T1 T2
                    / (Triangle.area T1 * Triangle.area T2))%Q)
      as (r & E & Hr).
    { intros T2' H'. apply Hrd. right. exact H'. }
    exists r. split; [exact E|]. rewrite Hr. unfold N_term, Qdiv. ring.
Qed.

(** The private [N] returns minus factor times the sum of the
    specification. *)
Lemma N_value (factor : Q) V1 V2 (m1 m2 : Mesh.t) rd s :
  (forall T1 T2, In T1 (Mesh.triangles_of m1 V1) ->
                 In T2 (Mesh.triangles_of m2 V2) ->
                 rd (Triangle.index T1) (Triangle.index T2) = Some (s T1 T2)) ->
  exists n, BlocksBase.N factor V1 V2 m1 m2 rd = Some n
            /\ (n == - factor * N_sum V1 V2 m1 m2 s)%Q.
Proof.
  intros Hrd. unfold BlocksBase.N, N_sum.
  assert (H : forall l result,
             (forall T1, In T1 l -> In T1 (Mesh.triangles_of m1 V1)) ->
             exists r,
               foldlM (fun result tp1 =>
                         let CB1 := opposite_edge_vector tp1 V1 in
                         foldlM (fun result tp2 =>
                                   let CB2 := opposite_edge_vector tp2 V2 in
                                   x ← rd (Triangle.index tp1)
                                          (Triangle.index tp2);
                                   Some (result
                                         - factor * dotprod CB1 CB2 * x
                                           / (Triangle.area tp1
                                              * Triangle.area tp2))%Q)
                                (Mesh.triangles_of m2 V2) result)
                      l result = Some r
               /\ (r == result
                        - factor
                          * Qsum (map (fun T1 =>
                                         Qsum (map (N_term V1 V2 s T1)
                                                   (Mesh.triangles_of m2 V2)))
                                      l))%Q).
  { induction l as [|T1 l IH]; intros result Hl; simpl.
    - exists result. split; [reflexivity | ring].
    - destruct (N_inner_loop factor V1 V2 T1 rd s
                             (Mesh.triangles_of m2 V2) result)
        as (r1 & E1 & Hr1).
      { intros T2 H2. apply Hrd; [apply Hl; left; reflexivity | exact H2]. }
      match goal with
      | |- exists r, match ?X with _ => _ end = _ /\ _ =>
          replace X with (Some r1) by (symmetry; exact E1)
      end.
      destruct (IH r1) as (r & E & Hr).
      { intros T1' H'. apply Hl. right. exact H'. }
      exists r. split; [exact E|]. rewrite Hr, Hr1. ring. }
  destruct (H (Mesh.triangles_of m1 V1) 0%Q) as (n & E & Hn); [auto|].
  exists n. split; [exact E|]. rewrite Hn. ring.
Qed.

(** The N loop of the same-mesh engine as one loop of additions. *)
Lemma Diagonal_N_rows_pairs (blk : DiagonalBlock.t) (coeff : Q)
      (S : SymMatrix.t -> nat -> nat -> option Q) (todo : list Vertex.t) :
  forall (before : list Vertex.t) (M : SymMatrix.t),
  DiagonalBlock.N_rows blk coeff S before todo M
  = foldlM (add_step vertex_pos (diagonal_amount blk coeff S))
           (lower_pairs before todo) M.
Proof.
  induction todo as [|V1 todo IH]; intros before M; [reflexivity|].
  cbn [DiagonalBlock.N_rows lower_pairs].
  rewrite (foldlM_app _ (map _ _)), foldlM_map.
  rewrite (foldlM_ext _
             (fun M0 x => add_step vertex_pos (diagonal_amount blk coeff S)
                                   M0 (V1, x))).
  - destruct (foldlM _ (before ++ [V1]) M); simpl; [apply IH | reflexivity].
  - intros m V2 _. unfold add_step, diagonal_amount. simpl.
    destruct (BlocksBase.N_mesh V1 V2 (DiagonalBlock.mesh blk) (S m));
      reflexivity.
Qed.

(** The N loop of the different-mesh engine as one loop of additions. *)
Lemma NonDiagonal_N_from_pairs (blk : NonDiagonalBlock.t) (coeff : Q)
      (S : SymMatrix.t -> nat -> nat -> option Q) (M : SymMatrix.t) :
  NonDiagonalBlock.N_from blk coeff S M
  = foldlM (add_step vertex_pos (nondiagonal_amount blk coeff S))
           (all_pairs (Mesh.vertices (NonDiagonalBlock.mesh1 blk))
                      (Mesh.vertices (NonDiagonalBlock.mesh2 blk))) M.
Proof.
  unfold NonDiagonalBlock.N_from, all_pairs.
  rewrite <- (foldlM_nested (add_step vertex_pos
                                      (nondiagonal_amount blk coeff S))).
  apply foldlM_ext. intros m V1 _. apply foldlM_ext. intros m' V2 _.
  unfold add_step, nondiagonal_amount. simpl.
  destruct (BlocksBase.N_meshes V1 V2 _ _ (S m')); reflexivity.
Qed.

End Hypersingular.


(** ** Storage of the dense matrix *)

Section MatrixFacts.

Implicit Types (M : Matrix.t) (i j : nat) (x d : Q).

Lemma Matrix_index_bound M i j :
  i < Matrix.nlin M -> j < Matrix.ncol M -> Matrix.index M i j < Matrix.size M.
Proof. unfold Matrix.index, Matrix.size. nia. Qed.

Lemma Matrix_get_total M i j :
  Matrix.wf M -> i < Matrix.nlin M -> j < Matrix.ncol M ->
  exists x, Matrix.get M i j = Some x.
Proof.
  intros Hwf Hi Hj. unfold Matrix.get.
  destruct (Nat.ltb_spec i (Matrix.nlin M)); [|lia].
  destruct (Nat.ltb_spec j (Matrix.ncol M)); [|lia]. simpl.
  apply lookup_lt_is_Some_2. rewrite Hwf.
  apply Matrix_index_bound; assumption.
Qed.

Lemma Matrix_put_total M i j x :
  i < Matrix.nlin M -> j < Matrix.ncol M ->
  exists M', Matrix.put M i j x = Some M'
             /\ Matrix.nlin M' = Matrix.nlin M
             /\ Matrix.ncol M' = Matrix.ncol M
             /\ (Matrix.wf M -> Matrix.wf M').
Proof.
  intros Hi Hj. unfold Matrix.put.
  destruct (Nat.ltb_spec i (Matrix.nlin M)); [|lia].
  destruct (Nat.ltb_spec j (Matrix.ncol M)); [|lia]. simpl.
  eexists. split; [reflexivity|]. repeat split.
  unfold Matrix.wf, Matrix.size. simpl. rewrite length_insert. auto.
Qed.

Lemma Matrix_add_total M i j d :
  Matrix.wf M -> i < Matrix.nlin M -> j < Matrix.ncol M ->
  exists M', sink_add M i j d = Some M'
             /\ Matrix.nlin M' = Matrix.nlin M
             /\ Matrix.ncol M' = Matrix.ncol M
             /\ Matrix.wf M'.
Proof.
  intros Hwf Hi Hj. unfold sink_add. simpl.
  destruct (Matrix_get_total M i j Hwf Hi Hj) as [old ->]. simpl.
  destruct (Matrix_put_total M i j (old + d)%Q Hi Hj)
    as (M' & E & Hn & Hc & Hw).
  exists M'. auto.
Qed.

Lemma Matrix_set_new n m junk x :
  let M := Matrix.set (Matrix.new n m junk) x in
  Matrix.nlin M = n /\ Matrix.ncol M = m /\ Matrix.wf M.
Proof.
  simpl. split; [reflexivity|]. split; [reflexivity|].
  unfold Matrix.wf, Matrix.set, Matrix.size. simpl.
  destruct (fill_spec x (n * m) 0 (map junk (seq 0 (n * m)))) as [-> _].
  rewrite length_map, length_seq. reflexivity.
Qed.

(** A fresh matrix has its shape whatever the storage held. *)
Lemma Matrix_set_new_shape n m junk :
  Matrix_shape n m (Matrix.new n m junk).
Proof.
  unfold Matrix_shape, Matrix.wf, Matrix.size. simpl.
  rewrite length_map, length_seq. auto.
Qed.

Lemma point_of_row_total M i :
  Matrix.wf M -> 3 <= Matrix.ncol M -> i < Matrix.nlin M ->
  exists p, point_of_row M i = Some p.
Proof.
  intros Hwf Hc Hi. unfold point_of_row.
  destruct (Matrix_get_total M i 0 Hwf Hi) as [x ->]; [lia|].
  destruct (Matrix_get_total M i 1 Hwf Hi) as [y ->]; [lia|].
  destruct (Matrix_get_total M i 2 Hwf Hi) as [z ->]; [lia|].
  simpl. eexists. reflexivity.
Qed.

End MatrixFacts.

(** ** The S values behind the N block *)

Section ReuseOrRecompute.

Context (env : Env).

(** The N loop of the same-mesh engine writes at pairs of vertices of the
    mesh only, whatever it reads the S values from. *)
Lemma Diagonal_N_from_frame (blk : DiagonalBlock.t) (coeff : Q)
      (S : SymMatrix.t -> nat -> nat -> option Q) (M M' : SymMatrix.t) :
  SymMatrix.wf M ->
  DiagonalBlock.N_from blk coeff S M = Some M' ->
  SymMatrix.nlin M' = SymMatrix.nlin M
  /\ SymMatrix.wf M'
  /\ forall a b,
      (forall V1 V2, In V1 (Mesh.vertices (DiagonalBlock.mesh blk)) ->
                     In V2 (Mesh.vertices (DiagonalBlock.mesh blk)) ->
                     SymMatrix.index a b
                     <> SymMatrix.index (Vertex.index V1) (Vertex.index V2)) ->
      SymMatrix.get M' a b = SymMatrix.get M a b.
Proof.
  unfold DiagonalBlock.N_from. rewrite Diagonal_N_rows_pairs. intros Hwf0 H.
  apply (add_loop_frame _ _ _ _ _ Hwf0) in H as (Hn & Hwf & Hf).
  split; [exact Hn|]. split; [exact Hwf|].
  intros a b Hab. apply Hf. intros p Hp.
  apply in_lower_pairs in Hp as [H1 H2]. apply Hab; assumption.
Qed.

Lemma NonDiagonal_N_from_frame (blk : NonDiagonalBlock.t) (coeff : Q)
      (S : SymMatrix.t -> nat -> nat -> option Q) (M M' : SymMatrix.t) :
  SymMatrix.wf M ->
  NonDiagonalBlock.N_from blk coeff S M = Some M' ->
  SymMatrix.nlin M' = SymMatrix.nlin M
  /\ SymMatrix.wf M'
  /\ forall a b,
      (forall V1 V2, In V1 (Mesh.vertices (NonDiagonalBlock.mesh1 blk)) ->
                     In V2 (Mesh.vertices (NonDiagonalBlock.mesh2 blk)) ->
                     SymMatrix.index a b
                     <> SymMatrix.index (Vertex.index V1) (Vertex.index V2)) ->
      SymMatrix.get M' a b = SymMatrix.get M a b.
Proof.
  rewrite NonDiagonal_N_from_pairs. intros Hwf0 H.
  apply (add_loop_frame _ _ _ _ _ Hwf0) in H as (Hn & Hwf & Hf).
  split; [exact Hn|]. split; [exact Hwf|].
  intros a b Hab. apply Hf. intros p Hp.
  unfold all_pairs in Hp. apply in_flat_map in Hp as (V1 & H1 & Hp).
  apply in_map_iff in Hp as (V2 & <- & H2). apply Hab; assumption.
Qed.

(** With S values read from a block of its own, and vertices of pairwise
    different indices, the N loop of the same-mesh engine increases the
    entry of every pair it visits by the amount of that pair, once. *)
Lemma Diagonal_N_from_entry (blk : DiagonalBlock.t) (coeff : Q)
      (rd : nat -> nat -> option Q) (M M' : SymMatrix.t)
      (p : Vertex.t * Vertex.t) :
  SymMatrix.wf M ->
  List.NoDup (map Vertex.index (Mesh.vertices (DiagonalBlock.mesh blk))) ->
  DiagonalBlock.N_from blk coeff (fun _ => rd) M = Some M' ->
  In p (lower_pairs [] (Mesh.vertices (DiagonalBlock.mesh blk))) ->
  exists old d,
    SymMatrix.get M (fst (vertex_pos p)) (snd (vertex_pos p)) = Some old
    /\ diagonal_amount blk coeff (fun _ => rd) M p = Some d
    /\ SymMatrix.get M' (fst (vertex_pos p)) (snd (vertex_pos p))
       = Some (old + d)%Q.
Proof.
  intros Hwf Hnd H Hp. unfold DiagonalBlock.N_from in H.
  rewrite Diagonal_N_rows_pairs in H.
  destruct (add_loop_hit _ _ _ p M M' Hwf
              (lower_pairs_NoDup Vertex.index _ [] Hnd) Hp H)
    as (_ & _ & M1 & d & old & _ & _ & Hd & Hold & Hnew).
  exists old, d. split; [exact Hold|]. split; [exact Hd | exact Hnew].
Qed.

(** The same for the different-mesh engine, when the two meshes share no
    vertex index. *)
Lemma NonDiagonal_N_from_entry (blk : NonDiagonalBlock.t) (coeff : Q)
      (rd : nat -> nat -> option Q) (M M' : SymMatrix.t)
      (p : Vertex.t * Vertex.t) :
  SymMatrix.wf M ->
  List.NoDup (map Vertex.index (Mesh.vertices (NonDiagonalBlock.mesh1 blk))) ->
  List.NoDup (map Vertex.index (Mesh.vertices (NonDiagonalBlock.mesh2 blk))) ->
  (forall V1 V2, In V1 (Mesh.vertices (NonDiagonalBlock.mesh1 blk)) ->
                 In V2 (Mesh.vertices (NonDiagonalBlock.mesh2 blk)) ->
                 Vertex.index V1 <> Vertex.index V2) ->
  NonDiagonalBlock.N_from blk coeff (fun _ => rd) M = Some M' ->
  In p (all_pairs (Mesh.vertices (NonDiagonalBlock.mesh1 blk))
                  (Mesh.vertices (NonDiagonalBlock.mesh2 blk))) ->
  exists old d,
    SymMatrix.get M (fst (vertex_pos p)) (snd (vertex_pos p)) = Some old
    /\ nondiagonal_amount blk coeff (fun _ => rd) M p = Some d
    /\ SymMatrix.get M' (fst (vertex_pos p)) (snd (vertex_pos p))
       = Some (old + d)%Q.
Proof.
  intros Hwf Hnd1 Hnd2 Hdis H Hp.
  rewrite NonDiagonal_N_from_pairs in H.
  destruct (add_loop_hit _ _ _ p M M' Hwf
              (all_pairs_NoDup Vertex.index _ _ Hnd1 Hnd2 Hdis) Hp H)
    as (_ & _ & M1 & d & old & _ & _ & Hd & Hold & Hnew).
  exists old, d. split; [exact Hold|]. split; [exact Hd | exact Hnew].
Qed.

(** [N] returns a value as soon as the S values it reads exist. *)
Lemma N_total (factor : Q) (V1 V2 : Vertex.t) (m1 m2 : Mesh.t)
      (rd : nat -> nat -> option Q) :
  (forall T1 T2, In T1 (Mesh.triangles m1) -> In T2 (Mesh.triangles m2) ->
                 exists x, rd (Triangle.index T1) (Triangle.index T2) = Some x) ->
  exists n, BlocksBase.N factor V1 V2 m1 m2 rd = Some n.
Proof.
  intros Hrd.
  destruct (N_value factor V1 V2 m1 m2 rd
              (fun T1 T2 =>
                 match rd (Triangle.index T1) (Triangle.index T2) with
                 | Some x => x
                 | None => 0%Q
                 end)) as (n & E & _).
  - intros T1 T2 H1 H2. unfold Mesh.triangles_of in H1, H2.
    apply filter_In in H1 as [H1 _]. apply filter_In in H2 as [H2 _].
    destruct (Hrd T1 T2 H1 H2) as [x ->]. reflexivity.
  - exists n. exact E.
Qed.

(** The accessors of the offset blocks. *)
Lemma SymBloc_get_total (b : DiagonalBlock.SymBloc) (i j : nat) :
  SymMatrix.wf (DiagonalBlock.base b) ->
  DiagonalBlock.offset b <= i
  < DiagonalBlock.offset b + SymMatrix.nlin (DiagonalBlock.base b) ->
  DiagonalBlock.offset b <= j
  < DiagonalBlock.offset b + SymMatrix.nlin (DiagonalBlock.base b) ->
  exists x, DiagonalBlock.SymBloc_get b i j = Some x.
Proof.
  intros Hwf Hi Hj. unfold DiagonalBlock.SymBloc_get.
  destruct (Nat.ltb_spec i (DiagonalBlock.offset b)); [lia|].
  destruct (Nat.ltb_spec j (DiagonalBlock.offset b)); [lia|]. simpl.
  apply get_total; [exact Hwf | lia | lia].
Qed.

Lemma SymBloc_put_total (b : DiagonalBlock.SymBloc) (i j : nat) (x : Q) :
  SymMatrix.wf (DiagonalBlock.base b) ->
  DiagonalBlock.offset b <= i
  < DiagonalBlock.offset b + SymMatrix.nlin (DiagonalBlock.base b) ->
  DiagonalBlock.offset b <= j
  < DiagonalBlock.offset b + SymMatrix.nlin (DiagonalBlock.base b) ->
  exists b',
    DiagonalBlock.SymBloc_put b i j x = Some b'
    /\ DiagonalBlock.offset b' = DiagonalBlock.offset b
    /\ SymMatrix.nlin (DiagonalBlock.base b')
       = SymMatrix.nlin (DiagonalBlock.base b)
    /\ SymMatrix.wf (DiagonalBlock.base b').
Proof.
  intros Hwf Hi Hj. unfold DiagonalBlock.SymBloc_put.
  destruct (Nat.ltb_spec i (DiagonalBlock.offset b)); [lia|].
  destruct (Nat.ltb_spec j (DiagonalBlock.offset b)); [lia|]. simpl.
  destruct (SymMatrix.put (DiagonalBlock.base b) (i - DiagonalBlock.offset b)
                          (j - DiagonalBlock.offset b) x) as [base'|] eqn:E.
  - simpl. eexists. split; [reflexivity|]. simpl.
    split; [reflexivity|].
    split; [exact (put_nlin _ _ _ _ _ E) | exact (put_wf _ _ _ _ _ E Hwf)].
  - rewrite put_total in E by (assumption || lia). discriminate.
Qed.

Lemma Bloc_get_total (b : NonDiagonalBlock.Bloc) (i j : nat) :
  Matrix.wf (NonDiagonalBlock.base b) ->
  NonDiagonalBlock.i0 b <= i
  < NonDiagonalBlock.i0 b + Matrix.nlin (NonDiagonalBlock.base b) ->
  NonDiagonalBlock.j0 b <= j
  < NonDiagonalBlock.j0 b + Matrix.ncol (NonDiagonalBlock.base b) ->
  exists x, NonDiagonalBlock.Bloc_get b i j = Some x.
Proof.
  intros Hwf Hi Hj. unfold NonDiagonalBlock.Bloc_get.
  destruct (Nat.ltb_spec i (NonDiagonalBlock.i0 b)); [lia|].
  destruct (Nat.ltb_spec j (NonDiagonalBlock.j0 b)); [lia|]. simpl.
  apply Matrix_get_total; [exact Hwf | lia | lia].
Qed.

Lemma Bloc_put_total (b : NonDiagonalBlock.Bloc) (i j : nat) (x : Q) :
  NonDiagonalBlock.i0 b <= i
  < NonDiagonalBlock.i0 b + Matrix.nlin (NonDiagonalBlock.base b) ->
  NonDiagonalBlock.j0 b <= j
  < NonDiagonalBlock.j0 b + Matrix.ncol (NonDiagonalBlock.base b) ->
  exists b',
    NonDiagonalBlock.Bloc_put b i j x = Some b'
    /\ NonDiagonalBlock.i0 b' = NonDiagonalBlock.i0 b
    /\ NonDiagonalBlock.j0 b' = NonDiagonalBlock.j0 b
    /\ Matrix.nlin (NonDiagonalBlock.base b')
       = Matrix.nlin (NonDiagonalBlock.base b)
    /\ Matrix.ncol (NonDiagonalBlock.base b')
       = Matrix.ncol (NonDiagonalBlock.base b)
    /\ (Matrix.wf (NonDiagonalBlock.base b) ->
        Matrix.wf (NonDiagonalBlock.base b')).
Proof.
  intros Hi Hj. unfold NonDiagonalBlock.Bloc_put.
  destruct (Nat.ltb_spec i (NonDiagonalBlock.i0 b)); [lia|].
  destruct (Nat.ltb_spec j (NonDiagonalBlock.j0 b)); [lia|]. simpl.
  destruct (Matrix_put_total (NonDiagonalBlock.base b)
              (i - NonDiagonalBlock.i0 b) (j - NonDiagonalBlock.j0 b) x)
    as (M' & E & Hn & Hc & Hw); [lia | lia |].
  rewrite E. simpl. eexists. split; [reflexivity|]. simpl. auto.
Qed.

(** An S block at coefficient 1 in a block of its own. *)
Lemma Diagonal_S_fresh_total (blk : DiagonalBlock.t) (coeff : Q)
      (front : Triangle.t) (rest : list Triangle.t) (junk : nat -> Q) :
  Mesh.triangles (DiagonalBlock.mesh blk) = front :: rest ->
  triangles_in_block (front :: rest) ->
  SymMatrix.fits (length (front :: rest)) ->
  exists Sbloc,
    DiagonalBlock.S env blk coeff
      (DiagonalBlock.SymBloc_new (Triangle.index front)
                                 (length (front :: rest)) junk)
    = Some Sbloc
    /\ DiagonalBlock.offset Sbloc = Triangle.index front
    /\ SymMatrix.nlin (DiagonalBlock.base Sbloc) = length (front :: rest)
    /\ SymMatrix.wf (DiagonalBlock.base Sbloc).
Proof.
  intros Ets Hblock Hfit. unfold DiagonalBlock.S. rewrite Ets.
  set (off := Triangle.index front). set (n := length (front :: rest)).
  set (shape := fun b : DiagonalBlock.SymBloc =>
                  DiagonalBlock.offset b = off
                  /\ SymMatrix.nlin (DiagonalBlock.base b) = n
                  /\ SymMatrix.wf (DiagonalBlock.base b)).
  assert (G : forall ts b,
             (forall T, In T ts -> off <= Triangle.index T < off + n) ->
             shape b ->
             exists b', DiagonalBlock.S_rows env blk coeff ts b = Some b'
                        /\ shape b').
  { induction ts as [|t1 ts IH]; intros b Hts Hb.
    - exists b. split; [reflexivity | exact Hb].
    - cbn [DiagonalBlock.S_rows].
      destruct (foldlM_total shape
                  (fun m triangle2 =>
                     sink_put m (Triangle.index t1) (Triangle.index triangle2)
                       (integrate (DiagonalBlock.integrator blk)
                                  (analyticS env t1) triangle2 * coeff)%Q)
                  (t1 :: ts) b Hb) as (b1 & E1 & Hb1).
      + intros m t2 Ht2 (Ho & Hn & Hw).
        destruct (SymBloc_put_total m (Triangle.index t1) (Triangle.index t2)
                    (integrate (DiagonalBlock.integrator blk)
                               (analyticS env t1) t2 * coeff)%Q Hw)
          as (m' & E & Ho' & Hn' & Hw').
        * rewrite Ho, Hn. apply Hts. left. reflexivity.
        * rewrite Ho, Hn. apply Hts. exact Ht2.
        * exists m'. split; [exact E|]. unfold shape.
          repeat split; [congruence | congruence | auto].
      + rewrite E1. simpl. apply IH; [|exact Hb1].
        intros T HT. apply Hts. right. exact HT. }
  destruct (G (front :: rest)
              (DiagonalBlock.SymBloc_new off n junk)) as (b' & E & Hb').
  - exact Hblock.
  - unfold shape. simpl. split; [reflexivity|]. split; [reflexivity|].
    apply new_wf. exact Hfit.
  - exists b'. split; [exact E | exact Hb'].
Qed.

Lemma NonDiagonal_S_fresh_total (blk : NonDiagonalBlock.t) (coeff : Q)
      (front1 front2 : Triangle.t) (rest1 rest2 : list Triangle.t)
      (junk : nat -> Q) :
  Mesh.triangles (NonDiagonalBlock.mesh1 blk) = front1 :: rest1 ->
  Mesh.triangles (NonDiagonalBlock.mesh2 blk) = front2 :: rest2 ->
  triangles_in_block (front1 :: rest1) ->
  triangles_in_block (front2 :: rest2) ->
  exists Sbloc,
    NonDiagonalBlock.S env blk coeff
      (NonDiagonalBlock.Bloc_new (Triangle.index front1)
         (Triangle.index front2) (length (front1 :: rest1))
         (length (front2 :: rest2)) junk)
    = Some Sbloc
    /\ NonDiagonalBlock.i0 Sbloc = Triangle.index front1
    /\ NonDiagonalBlock.j0 Sbloc = Triangle.index front2
    /\ Matrix_shape (length (front1 :: rest1)) (length (front2 :: rest2))
                    (NonDiagonalBlock.base Sbloc).
Proof.
  intros E1 E2 Hb1 Hb2. unfold NonDiagonalBlock.S. rewrite E1, E2.
  set (n1 := length (front1 :: rest1)). set (n2 := length (front2 :: rest2)).
  set (shape := fun b : NonDiagonalBlock.Bloc =>
                  NonDiagonalBlock.i0 b = Triangle.index front1
                  /\ NonDiagonalBlock.j0 b = Triangle.index front2
                  /\ Matrix_shape n1 n2 (NonDiagonalBlock.base b)).
  apply (foldlM_total shape).
  - unfold shape. simpl. split; [reflexivity|]. split; [reflexivity|].
    apply Matrix_set_new_shape.
  - intros m t1 Ht1 Hm. apply (foldlM_total shape); [exact Hm|].
    intros m' t2 Ht2 (Hi & Hj & Hn & Hc & Hw).
    destruct (Bloc_put_total m' (Triangle.index t1) (Triangle.index t2)
                (integrate (NonDiagonalBlock.integrator blk)
                           (analyticS env t1) t2 * coeff)%Q)
      as (m'' & E & Hi' & Hj' & Hn' & Hc' & Hw').
    + rewrite Hi, Hn. apply Hb1. exact Ht1.
    + rewrite Hj, Hc. apply Hb2. exact Ht2.
    + exists m''. split; [exact E|]. unfold shape, Matrix_shape.
      repeat split; [congruence | congruence | congruence | congruence
                    | auto].
Qed.

(** The N block is computed when the matrix covers the vertices of the
    mesh and, according to the branch, either the triangles as well or the
    triangles fill the block of indices that starts at the first. *)
Lemma Diagonal_N_total (blk : DiagonalBlock.t) (coeff : Q) (M : SymMatrix.t) :
  SymMatrix.wf M ->
  (forall V, In V (Mesh.vertices (DiagonalBlock.mesh blk)) ->
             Vertex.index V < SymMatrix.nlin M) ->
  (if DiagonalBlock.S_block_is_computed blk
   then forall T, In T (Mesh.triangles (DiagonalBlock.mesh blk)) ->
                  Triangle.index T < SymMatrix.nlin M
   else triangles_in_block (Mesh.triangles (DiagonalBlock.mesh blk))
        /\ SymMatrix.fits
             (length (Mesh.triangles (DiagonalBlock.mesh blk)))) ->
  exists M', DiagonalBlock.N env blk coeff M = Some M'.
Proof.
  intros Hwf Hv Ht.
  assert (Hpos : forall p,
             In p (lower_pairs [] (Mesh.vertices (DiagonalBlock.mesh blk))) ->
             fst (vertex_pos p) < SymMatrix.nlin M
             /\ snd (vertex_pos p) < SymMatrix.nlin M).
  { intros p Hp. apply in_lower_pairs in Hp as [H1 H2]. simpl in H2.
    split; apply Hv; assumption. }
  unfold DiagonalBlock.N.
  destruct (DiagonalBlock.S_block_is_computed blk).
  - unfold DiagonalBlock.N_from. rewrite Diagonal_N_rows_pairs.
    apply (add_loop_total _ _
             (fun M1 => SymMatrix.nlin M1 = SymMatrix.nlin M
                        /\ SymMatrix.wf M1)); auto.
    + intros M1 p _ (Hn1 & Hw1). unfold diagonal_amount.
      destruct (N_total (1 # 4) (fst p) (snd p) (DiagonalBlock.mesh blk)
                        (DiagonalBlock.mesh blk) (sink_get M1))
        as [n E].
      * intros T1 T2 H1 H2. apply get_total; [exact Hw1 | |];
          rewrite Hn1; apply Ht; assumption.
      * unfold BlocksBase.N_mesh. rewrite E. simpl. eauto.
    + intros M1 p M2 _ (Hn1 & Hw1) E.
      apply (add_step_frame _ _ _ _ _ Hw1) in E as (Hn2 & Hw2 & _).
      split; [congruence | auto].
  - destruct Ht as [Ht Hfit].
    destruct (Mesh.triangles (DiagonalBlock.mesh blk)) as [|front rest] eqn:Ets;
      [destruct Ht|].
    destruct (Diagonal_S_fresh_total blk 1 front rest (uninit env) Ets Ht Hfit)
      as (Sbloc & ES & Ho & Hn & Hw).
    rewrite ES. simpl.
    unfold DiagonalBlock.N_from. rewrite Diagonal_N_rows_pairs.
    apply (add_loop_total _ _ (fun _ => True)); auto.
    intros M1 p _ _. unfold diagonal_amount.
    destruct (N_total (1 # 4) (fst p) (snd p) (DiagonalBlock.mesh blk)
                      (DiagonalBlock.mesh blk)
                      (DiagonalBlock.SymBloc_get Sbloc))
      as [n E].
    + intros T1 T2 H1 H2. rewrite Ets in H1, H2.
      apply SymBloc_get_total; [exact Hw | |]; rewrite Ho, Hn;
        apply Ht; assumption.
    + unfold BlocksBase.N_mesh. cbv beta. rewrite E. simpl. eauto.
Qed.

Lemma NonDiagonal_N_total (blk : NonDiagonalBlock.t) (coeff : Q)
      (M : SymMatrix.t) :
  SymMatrix.wf M ->
  (forall V, In V (Mesh.vertices (NonDiagonalBlock.mesh1 blk)) ->
             Vertex.index V < SymMatrix.nlin M) ->
  (forall V, In V (Mesh.vertices (NonDiagonalBlock.mesh2 blk)) ->
             Vertex.index V < SymMatrix.nlin M) ->
  (if NonDiagonalBlock.S_block_is_computed blk
   then (forall T, In T (Mesh.triangles (NonDiagonalBlock.mesh1 blk)) ->
                   Triangle.index T < SymMatrix.nlin M)
        /\ (forall T, In T (Mesh.triangles (NonDiagonalBlock.mesh2 blk)) ->
                      Triangle.index T < SymMatrix.nlin M)
   else triangles_in_block (Mesh.triangles (NonDiagonalBlock.mesh1 blk))
        /\ triangles_in_block (Mesh.triangles (NonDiagonalBlock.mesh2 blk))) ->
  exists M', NonDiagonalBlock.N env blk coeff M = Some M'.
Proof.
  intros Hwf Hv1 Hv2 Ht.
  assert (Hpos : forall p,
             In p (all_pairs (Mesh.vertices (NonDiagonalBlock.mesh1 blk))
                             (Mesh.vertices (NonDiagonalBlock.mesh2 blk))) ->
             fst (vertex_pos p) < SymMatrix.nlin M
             /\ snd (vertex_pos p) < SymMatrix.nlin M).
  { intros p Hp. unfold all_pairs in Hp.
    apply in_flat_map in Hp as (V1 & H1 & Hp).
    apply in_map_iff in Hp as (V2 & <- & H2). simpl. auto. }
  unfold NonDiagonalBlock.N.
  destruct (NonDiagonalBlock.S_block_is_computed blk).
  - destruct Ht as [Ht1 Ht2]. rewrite NonDiagonal_N_from_pairs.
    apply (add_loop_total _ _
             (fun M1 => SymMatrix.nlin M1 = SymMatrix.nlin M
                        /\ SymMatrix.wf M1)); auto.
    + intros M1 p _ (Hn1 & Hw1). unfold nondiagonal_amount.
      destruct (N_total (if Vertex.eqb (fst p) (snd p) then 1 # 2 else 1 # 4)
                        (fst p) (snd p) (NonDiagonalBlock.mesh1 blk)
                        (NonDiagonalBlock.mesh2 blk) (sink_get M1))
        as [n E].
      * intros T1 T2 H1 H2. apply get_total; [exact Hw1 | |];
          rewrite Hn1; auto.
      * unfold BlocksBase.N_meshes. rewrite E. simpl. eauto.
    + intros M1 p M2 _ (Hn1 & Hw1) E.
      apply (add_step_frame _ _ _ _ _ Hw1) in E as (Hn2 & Hw2 & _).
      split; [congruence | auto].
  - destruct Ht as [Ht1 Ht2].
    destruct (Mesh.triangles (NonDiagonalBlock.mesh1 blk))
      as [|front1 rest1] eqn:E1; [destruct Ht1|].
    destruct (Mesh.triangles (NonDiagonalBlock.mesh2 blk))
      as [|front2 rest2] eqn:E2; [destruct Ht2|].
    destruct (NonDiagonal_S_fresh_total blk 1 front1 front2 rest1 rest2
                (uninit env) E1 E2 Ht1 Ht2)
      as (Sbloc & ES & Hi & Hj & Hn & Hc & Hw).
    rewrite ES. simpl. rewrite NonDiagonal_N_from_pairs.
    apply (add_loop_total _ _ (fun _ => True)); auto.
    intros M1 p _ _. unfold nondiagonal_amount.
    destruct (N_total (if Vertex.eqb (fst p) (snd p) then 1 # 2 else 1 # 4)
                      (fst p) (snd p) (NonDiagonalBlock.mesh1 blk)
                      (NonDiagonalBlock.mesh2 blk)
                      (NonDiagonalBlock.Bloc_get Sbloc))
      as [n E].
    + intros T1 T2 H1 H2. rewrite E1 in H1. rewrite E2 in H2.
      apply Bloc_get_total; [exact Hw | |].
      * rewrite Hi, Hn. apply Ht1. exact H1.
      * rewrite Hj, Hc. apply Ht2. exact H2.
    + unfold BlocksBase.N_meshes. cbv beta. rewrite E. simpl. eauto.
Qed.

End ReuseOrRecompute.

(** C1 (amended). In the same-mesh engine the N loop visits the pairs of
    vertices (V1,V2) with V2 not after V1 in the mesh, and in the
    different-mesh engine all the pairs of a vertex of the first mesh and a
    vertex of the second; at each visit it adds to the entry at
    (V1.index,V2.index) the coefficient times the value of N, and when S is
    read from a block of its own and no two visits share an entry (vertices
    of pairwise different indices) the entry after the loop is the entry
    before plus that amount.  Where the S values read for the incident
    triangles are S(T1,T2), the amount equals coeff times
    −factor · Σ dot(CB1,CB2) · S(T1,T2) / (area(T1)·area(T2)), the sum over
    the triangles T1 incident to V1 and T2 incident to V2, with factor 0.25
    for every pair of the same-mesh engine, and in the different-mesh engine
    0.5 when V1==V2 and 0.25 otherwise. *)
Theorem N_contribution (coeff : Q) (V1 V2 : Vertex.t) (m1 m2 : Mesh.t)
        (rd : nat -> nat -> option Q) (s : Triangle.t -> Triangle.t -> Q) :
  (forall T1 T2, In T1 (Mesh.triangles m1) -> In T2 (Mesh.triangles m1) ->
                 rd (Triangle.index T1) (Triangle.index T2) = Some (s T1 T2)) ->
  (forall T1 T2, In T1 (Mesh.triangles m1) -> In T2 (Mesh.triangles m2) ->
                 rd (Triangle.index T1) (Triangle.index T2) = Some (s T1 T2)) ->
  (forall (blk : DiagonalBlock.t) S M,
      DiagonalBlock.N_from blk coeff S M
      = foldlM (add_step vertex_pos (diagonal_amount blk coeff S))
               (lower_pairs [] (Mesh.vertices (DiagonalBlock.mesh blk))) M)
  /\ (forall (blk : NonDiagonalBlock.t) S M,
         NonDiagonalBlock.N_from blk coeff S M
         = foldlM (add_step vertex_pos (nondiagonal_amount blk coeff S))
                  (all_pairs (Mesh.vertices (NonDiagonalBlock.mesh1 blk))
                             (Mesh.vertices (NonDiagonalBlock.mesh2 blk))) M)
  /\ (forall (blk : DiagonalBlock.t) rd' M M' p,
         SymMatrix.wf M ->
         List.NoDup (map Vertex.index
                         (Mesh.vertices (DiagonalBlock.mesh blk))) ->
         DiagonalBlock.N_from blk coeff (fun _ => rd') M = Some M' ->
         In p (lower_pairs [] (Mesh.vertices (DiagonalBlock.mesh blk))) ->
         exists old d,
           SymMatrix.get M (fst (vertex_pos p)) (snd (vertex_pos p))
           = Some old
           /\ diagonal_amount blk coeff (fun _ => rd') M p = Some d
           /\ SymMatrix.get M' (fst (vertex_pos p)) (snd (vertex_pos p))
              = Some (old + d)%Q)
  /\ (forall (blk : NonDiagonalBlock.t) rd' M M' p,
         SymMatrix.wf M ->
         List.NoDup (map Vertex.index
                         (Mesh.vertices (NonDiagonalBlock.mesh1 blk))) ->
         List.NoDup (map Vertex.index
                         (Mesh.vertices (NonDiagonalBlock.mesh2 blk))) ->
         (forall V V', In V (Mesh.vertices (NonDiagonalBlock.mesh1 blk)) ->
                       In V' (Mesh.vertices (NonDiagonalBlock.mesh2 blk)) ->
                       Vertex.index V <> Vertex.index V') ->
         NonDiagonalBlock.N_from blk coeff (fun _ => rd') M = Some M' ->
         In p (all_pairs (Mesh.vertices (NonDiagonalBlock.mesh1 blk))
                         (Mesh.vertices (NonDiagonalBlock.mesh2 blk))) ->
         exists old d,
           SymMatrix.get M (fst (vertex_pos p)) (snd (vertex_pos p))
           = Some old
           /\ nondiagonal_amount blk coeff (fun _ => rd') M p = Some d
           /\ SymMatrix.get M' (fst (vertex_pos p)) (snd (vertex_pos p))
              = Some (old + d)%Q)
  /\ (forall (intg : Integrator) (sc : Q) M,
         exists d,
           diagonal_amount (DiagonalBlock.Make intg m1 sc) coeff
                           (fun _ => rd) M (V1, V2) = Some d
           /\ (d == coeff * (- (1 # 4) * N_sum V1 V2 m1 m1 s))%Q)
  /\ (forall (intg : Integrator) (sc : Q) M,
         exists d,
           nondiagonal_amount (NonDiagonalBlock.Make intg m1 m2 sc) coeff
                              (fun _ => rd) M (V1, V2) = Some d
           /\ (d == coeff * (- (if Vertex.eqb V1 V2 then 1 # 2 else 1 # 4)
                             * N_sum V1 V2 m1 m2 s))%Q).
Proof.
  intros Hrd1 Hrd2.
  assert (Hin : forall m V T, In T (Mesh.triangles_of m V) ->
                              In T (Mesh.triangles m)).
  { intros m V T H. unfold Mesh.triangles_of in H.
    apply filter_In in H. tauto. }
  split; [intros blk S M; apply Diagonal_N_rows_pairs|].
  split; [intros blk S M; apply NonDiagonal_N_from_pairs|].
  split; [intros blk rd' M M' p; apply Diagonal_N_from_entry|].
  split; [intros blk rd' M M' p; apply NonDiagonal_N_from_entry|].
  split.
  - intros intg sc M. unfold diagonal_amount, BlocksBase.N_mesh. simpl.
    destruct (N_value (1 # 4) V1 V2 m1 m1 rd s) as (n & E & Hn).
    { intros T1 T2 H1 H2. apply Hrd1; eapply Hin; eassumption. }
    rewrite E. simpl. eexists. split; [reflexivity|]. rewrite Hn. ring.
  - intros intg sc M. unfold nondiagonal_amount, BlocksBase.N_meshes. simpl.
    destruct (N_value (if Vertex.eqb V1 V2 then 1 # 2 else 1 # 4)
                      V1 V2 m1 m2 rd s) as (n & E & Hn).
    { intros T1 T2 H1 H2. apply Hrd2; eapply Hin; eassumption. }
    rewrite E. simpl. eexists. split; [reflexivity|]. rewrite Hn. ring.
Qed.

(** ** Points outside the conductive domains *)

Section DroppedPoints.

Context (env : Env) (geo : Geometry.t).

Lemma m_points_push_in_range nc n (m_points : list (Domain * list Vertex.t))
      (d : Domain) (v : Vertex.t) :
  m_points_in_range nc n m_points -> domain_in_range nc d ->
  Vertex.index v < n ->
  m_points_in_range nc n (m_points_push m_points d v).
Proof.
  unfold m_points_in_range. intros Hm Hd Hv.
  induction Hm as [|[d' pts'] rest [Hd' Hpts'] Hrest IH]; simpl.
  - constructor; [|constructor]. simpl. split; [exact Hd|].
    constructor; [exact Hv | constructor].
  - destruct (dom_ident d =? dom_ident d').
    + constructor; [|exact Hrest]. simpl. split; [exact Hd'|].
      apply Forall_app. split; [exact Hpts'|].
      constructor; [exact Hv | constructor].
    + destruct (dom_ident d <? dom_ident d').
      * constructor; [|constructor; [split; assumption | exact Hrest]].
        simpl. split; [exact Hd|]. constructor; [exact Hv | constructor].
      * constructor; [split; assumption | exact IH].
Qed.

Lemma m_points_in_range_mono nc n n' m_points :
  n <= n' -> m_points_in_range nc n m_points ->
  m_points_in_range nc n' m_points.
Proof.
  unfold m_points_in_range. intros Hle Hm.
  eapply List.Forall_impl; [|exact Hm]. intros [d pts] [Hd Hpts]. simpl in *.
  split; [exact Hd|]. eapply List.Forall_impl; [|exact Hpts].
  intros v Hv. simpl in Hv. lia.
Qed.

(** The first loop of [Surf2VolMat]. *)
Lemma Surf2VolMat_points_spec (points : Matrix.t) (nc : nat) :
  Matrix.wf points -> 3 <= Matrix.ncol points ->
  (forall p, domain_in_range nc (Geometry.domain_at geo p)) ->
  exists st,
    Surf2VolMat_points geo points = Some st
    /\ index st = length (kept_rows geo points)
    /\ dropped st = dropped_rows geo points
    /\ m_points_in_range nc (index st) (m_points st).
Proof.
  intros Hwf Hc Hgeo. unfold Surf2VolMat_points, kept_rows, dropped_rows.
  match goal with |- context [foldlM ?f _ _] => set (body := f) end.
  assert (G : forall rows st,
             (forall i, In i rows -> i < Matrix.nlin points) ->
             m_points_in_range nc (index st) (m_points st) ->
             exists st',
               foldlM body rows st = Some st'
               /\ index st' = index st
                              + length (List.filter (kept geo points) rows)
               /\ dropped st'
                  = dropped st
                    ++ List.filter (fun i => negb (kept geo points i)) rows
               /\ m_points_in_range nc (index st') (m_points st')).
  { induction rows as [|i rows IH]; intros st Hr Hok; simpl.
    - exists st. rewrite Nat.add_0_r, app_nil_r. auto.
    - destruct (point_of_row_total points i Hwf Hc (Hr i (or_introl eq_refl)))
        as [p Ep].
      assert (Hk : kept geo points i
                   = negb (Qeq_bool
                             (conductivity (Geometry.domain_at geo p)) 0))
        by (unfold kept; rewrite Ep; reflexivity).
      rewrite !Hk. unfold body at 1. rewrite Ep. simpl.
      destruct (Qeq_bool (conductivity (Geometry.domain_at geo p)) 0); simpl.
      + destruct (IH {| m_points := m_points st; index := index st;
                        dropped := dropped st ++ [i] |})
          as (st' & E & Hi & Hd & Hok').
        { intros j Hj. apply Hr. right. exact Hj. }
        { exact Hok. }
        exists st'. split; [exact E|]. simpl in Hi, Hd.
        split; [exact Hi|]. split; [|exact Hok'].
        rewrite Hd, <- app_assoc. reflexivity.
      + destruct (IH {| m_points :=
                          m_points_push (m_points st)
                                        (Geometry.domain_at geo p)
                                        (Vertex.Make p (index st));
                        index := index st + 1;
                        dropped := dropped st |})
          as (st' & E & Hi & Hd & Hok').
        { intros j Hj. apply Hr. right. exact Hj. }
        { simpl. apply m_points_push_in_range; [|apply Hgeo | simpl; lia].
          eapply m_points_in_range_mono; [|exact Hok]. lia. }
        exists st'. split; [exact E|]. simpl in Hi, Hd.
        split; [lia|]. split; [exact Hd | exact Hok']. }
  destruct (G (seq 0 (Matrix.nlin points))
              {| m_points := []; index := 0; dropped := [] |})
    as (st & E & Hi & Hd & Hok).
  - intros i Hi. apply in_seq in Hi. lia.
  - constructor.
  - exists st. auto.
Qed.

(** [addD] and [S] of the partial block keep the shape of the matrix and do
    not fail when the indices they use are in range. *)
Lemma PartialBlock_addD_total (mesh : Mesh.t) (coeff : Q)
      (points : list Vertex.t) (n nc : nat) (mat : Matrix.t) :
  Matrix_shape n nc mat ->
  Forall (fun v => Vertex.index v < n) points ->
  (forall T i, In T (Mesh.triangles mesh) ->
               Vertex.index (Triangle.vertex T i) < nc) ->
  exists mat', PartialBlock.addD env mesh coeff points mat = Some mat'
               /\ Matrix_shape n nc mat'.
Proof.
  intros Hs Hp Ht. unfold PartialBlock.addD.
  apply (foldlM_total (Matrix_shape n nc)); [exact Hs|].
  intros m1 T HT H1. apply (foldlM_total (Matrix_shape n nc)); [exact H1|].
  intros m2 v Hv H2. apply (foldlM_total (Matrix_shape n nc)); [exact H2|].
  intros m3 i _ (Hn & Hc & Hw).
  destruct (Matrix_add_total m3 (Vertex.index v)
              (Vertex.index (Triangle.vertex T i))
              (Vect3_coord (analyticD3 env T (Vertex.position v)) i * coeff)%Q
              Hw) as (m4 & E & Hn4 & Hc4 & Hw4).
  - rewrite Hn. rewrite List.Forall_forall in Hp. apply Hp. exact Hv.
  - rewrite Hc. apply Ht. exact HT.
  - exists m4. split; [exact E|]. unfold Matrix_shape.
    repeat split; congruence.
Qed.

Lemma PartialBlock_S_total (mesh : Mesh.t) (coeff : Q)
      (points : list Vertex.t) (n nc : nat) (mat : Matrix.t) :
  Matrix_shape n nc mat ->
  Forall (fun v => Vertex.index v < n) points ->
  (forall T, In T (Mesh.triangles mesh) -> Triangle.index T < nc) ->
  exists mat', PartialBlock.S env mesh coeff points mat = Some mat'
               /\ Matrix_shape n nc mat'.
Proof.
  intros Hs Hp Ht. unfold PartialBlock.S.
  apply (foldlM_total (Matrix_shape n nc)); [exact Hs|].
  intros m1 T HT H1. apply (foldlM_total (Matrix_shape n nc)); [exact H1|].
  intros m2 v Hv (Hn & Hc & Hw).
  destruct (Matrix_put_total m2 (Vertex.index v) (Triangle.index T)
              (coeff * analyticS env T (Vertex.position v))%Q)
    as (m3 & E & Hn3 & Hc3 & Hw3).
  - rewrite Hn. rewrite List.Forall_forall in Hp. apply Hp. exact Hv.
  - rewrite Hc. apply Ht. exact HT.
  - exists m3. split; [exact E|]. unfold Matrix_shape.
    repeat split; [congruence | congruence | auto].
Qed.

(** The first loop of [DipSource2InternalPotMat]. *)
Lemma DipSource2InternalPotMat_points_spec (points : Matrix.t) :
  Matrix.wf points -> 3 <= Matrix.ncol points ->
  exists st,
    DipSource2InternalPotMat_points geo points = Some st
    /\ length (pts st) = length (kept_rows geo points)
    /\ length (points_domain st) = length (pts st)
    /\ outside st = dropped_rows geo points.
Proof.
  intros Hwf Hc.
  unfold DipSource2InternalPotMat_points, kept_rows, dropped_rows.
  match goal with |- context [foldlM ?f _ _] => set (body := f) end.
  assert (G : forall rows st,
             (forall i, In i rows -> i < Matrix.nlin points) ->
             length (points_domain st) = length (pts st) ->
             exists st',
               foldlM body rows st = Some st'
               /\ length (pts st')
                  = length (pts st)
                    + length (List.filter (kept geo points) rows)
               /\ length (points_domain st') = length (pts st')
               /\ outside st'
                  = outside st
                    ++ List.filter (fun i => negb (kept geo points i)) rows).
  { induction rows as [|i rows IH]; intros st Hr Hlen; simpl.
    - exists st. rewrite Nat.add_0_r, app_nil_r. auto.
    - destruct (point_of_row_total points i Hwf Hc (Hr i (or_introl eq_refl)))
        as [p Ep].
      assert (Hk : kept geo points i
                   = negb (Qeq_bool
                             (conductivity (Geometry.domain_at geo p)) 0))
        by (unfold kept; rewrite Ep; reflexivity).
      rewrite !Hk. unfold body at 1. rewrite Ep. simpl.
      destruct (Qeq_bool (conductivity (Geometry.domain_at geo p)) 0); simpl.
      + destruct (IH {| points_domain := points_domain st; pts := pts st;
                        outside := outside st ++ [i] |})
          as (st' & E & Hp & Hl & Ho).
        { intros j Hj. apply Hr. right. exact Hj. }
        { exact Hlen. }
        exists st'. split; [exact E|]. simpl in Hp, Ho.
        split; [exact Hp|]. split; [exact Hl|].
        rewrite Ho, <- app_assoc. reflexivity.
      + destruct (IH {| points_domain :=
                          points_domain st ++ [Geometry.domain_at geo p];
                        pts := pts st ++ [p];
                        outside := outside st |})
          as (st' & E & Hp & Hl & Ho).
        { intros j Hj. apply Hr. right. exact Hj. }
        { simpl. rewrite !length_app. simpl. lia. }
        exists st'. split; [exact E|]. simpl in Hp, Ho.
        rewrite length_app in Hp. simpl in Hp.
        split; [lia|]. split; [exact Hl | exact Ho]. }
  destruct (G (seq 0 (Matrix.nlin points))
              {| points_domain := []; pts := []; outside := [] |})
    as (st & E & Hp & Hl & Ho).
  - intros i Hi. apply in_seq in Hi. lia.
  - reflexivity.
  - exists st. auto.
Qed.

Lemma kept_or_dropped (points : Matrix.t) :
  length (kept_rows geo points) + length (dropped_rows geo points)
  = Matrix.nlin points.
Proof.
  unfold kept_rows, dropped_rows.
  assert (G : forall rows,
             length (List.filter (kept geo points) rows)
             + length (List.filter (fun i => negb (kept geo points i)) rows)
             = length rows).
  { induction rows as [|i rows IH]; simpl; [reflexivity|].
    destruct (kept geo points i); simpl; lia. }
  rewrite G. apply length_seq.
Qed.

End DroppedPoints.

(** ** Instances on concrete inputs *)

(** The assembly of the head matrix of a geometry of one mesh of one
    triangle: dimension 4, the S entry of the triangle at (3,3). *)
Lemma HeadMat_example :
  exists H,
    HeadMat Examples.env0 Examples.head0 Examples.integrator0 = Some H
    /\ SymMatrix.nlin H = 4
    /\ SymMatrix.get H 3 3 = Some 1%Q.
Proof. eexists. split; [vm_compute; reflexivity|]. split; reflexivity. Qed.

(** From the origin the copy lands where the source has it. *)
Lemma submat_at_origin_example :
  SymMatrix.submat Examples.M3 0 1 Examples.zeros
  = Some (SymMatrix.Make 2 [1; 2; 3]%Q).
Proof. reflexivity. Qed.

Lemma submat_off_origin_fails_witness :
  0 < 1 /\ SymMatrix.submat Examples.M3 1 2 Examples.zeros = None.
Proof.
  split; [lia|]. apply (submat_off_origin_fails Examples.M3 1 2); lia.
Defined.

(** When the first vertex of the first outermost mesh has index 0, the test
    [i_first==0] holds again at the next outermost mesh, and [i_first]
    becomes the index of the first vertex of that mesh. *)
Lemma first_loop_sentinel_example :
  Details.first_loop [Examples.meshO; Examples.meshB] = Some (2, 2)
  /\ i_first_of [Examples.meshO; Examples.meshB] = 0.
Proof. split; reflexivity. Qed.

(** With two outermost meshes in one part the entry at a vertex of the one
    and a vertex of the other is not increased: the deflation is not the one
    the specification words. *)
Lemma deflate_not_as_specified :
  exists M',
    Details.deflate Examples.M3 Examples.two_outermost = Some M'
    /\ ~ deflated_as_specified Examples.two_outermost Examples.M3 M'.
Proof.
  eexists. split; [vm_compute; reflexivity|].
  intros (_ & Hinc & _).
  destruct (Hinc [Examples.meshA; Examples.meshB] 1 2)
    as (old & d & Hold & Hd & Hnew).
  - split; [left; reflexivity|].
    exists Examples.vA, Examples.vB. simpl. auto 6.
  - vm_compute in Hold, Hd, Hnew.
    injection Hold as <-. injection Hd as <-. discriminate Hnew.
Qed.

Lemma deflate_increases_outermost_blocks_witness :
  exists M',
    Details.deflate Examples.M3 Examples.two_outermost = Some M'
    /\ increased_by_coef Examples.M3 M' [Examples.meshA; Examples.meshB] 1 1
    /\ SymMatrix.get M' 1 2 = SymMatrix.get Examples.M3 1 2.
Proof.
  destruct (deflate_increases_outermost_blocks
              Examples.two_outermost Examples.M3)
    as (M' & E & _ & Hin & Hf).
  - reflexivity.
  - simpl. lia.
  - intros part [<-|[]]. simpl. left. discriminate.
  - intros part V [<-|[]] [<-|[<-|[]]]; simpl; lia.
  - simpl. repeat constructor; simpl; intuition discriminate.
  - exists M'. split; [exact E|]. split.
    + apply Hin. split; [left; reflexivity|].
      exists Examples.meshA, Examples.vA, Examples.vA. simpl. auto 8.
    + apply Hf. intros part (Hp & m & V1 & V2 & Hm & _ & H1 & H2 & E1 & E2).
      destruct Hp as [<-|[]].
      destruct Hm as [<-|[<-|[]]]; destruct H1 as [<-|[]];
        destruct H2 as [<-|[]]; simpl in E1, E2; discriminate.
Defined.

(** In the same-mesh engine the entry at a vertex against itself receives
    the sum with the factor 0.25, not 0.5. *)
Lemma N_factor_not_as_specified :
  exists M' old new,
    DiagonalBlock.set_N_block Examples.env0 1
      (DiagonalBlock.new Examples.mesh0 Examples.integrator0) Examples.Z4
    = Some M'
    /\ SymMatrix.get Examples.Z4 0 0 = Some old
    /\ SymMatrix.get M' 0 0 = Some new
    /\ ~ (new - old
          == 1 * N_as_specified true Examples.p0 Examples.p0 Examples.mesh0
                                Examples.mesh0 Examples.ones)%Q
    /\ (new - old
        == 1 * (- (1 # 4) * N_sum Examples.p0 Examples.p0 Examples.mesh0
                                  Examples.mesh0 Examples.ones))%Q.
Proof.
  eexists. eexists. eexists.
  split; [vm_compute; reflexivity|].
  split; [vm_compute; reflexivity|].
  split; [vm_compute; reflexivity|].
  split; [vm_compute; discriminate | vm_compute; reflexivity].
Qed.

Lemma N_contribution_witness :
  exists d,
    diagonal_amount (DiagonalBlock.new Examples.mesh0 Examples.integrator0) 1
                    (fun _ => fun _ _ => Some 1%Q) Examples.Z4
                    (Examples.p0, Examples.p0) = Some d
    /\ (d == 1 * (- (1 # 4) * N_sum Examples.p0 Examples.p0 Examples.mesh0
                                    Examples.mesh0 Examples.ones))%Q.
Proof.
  destruct (N_contribution 1 Examples.p0 Examples.p0 Examples.mesh0
                           Examples.mesh0 (fun _ _ => Some 1%Q) Examples.ones)
    as (_ & _ & _ & _ & Hd & _).
  - intros T1 T2 _ _. reflexivity.
  - intros T1 T2 _ _. reflexivity.
  - exact (Hd Examples.integrator0 0%Q Examples.Z4).
Defined.

(** * Further properties of the code *)

(** ** Entries and cells of the packed symmetric matrix *)

Section PackedCells.

Implicit Types (M A B : SymMatrix.t) (i j a b : nat) (x : Q) (d : list Q).

Lemma get_value M i j :
  SymMatrix.fits (SymMatrix.nlin M) ->
  i < SymMatrix.nlin M -> j < SymMatrix.nlin M ->
  SymMatrix.get M i j = SymMatrix.value M !! SymMatrix.index i j.
Proof.
  intros Hfit Hi Hj. rewrite (get_index M i j Hfit).
  destruct (Nat.ltb_spec i (SymMatrix.nlin M)); [|lia].
  destruct (Nat.ltb_spec j (SymMatrix.nlin M)); [|lia]. reflexivity.
Qed.

Lemma get_Make n d i j :
  SymMatrix.fits n -> i < n -> j < n ->
  SymMatrix.get (SymMatrix.Make n d) i j = d !! SymMatrix.index i j.
Proof. intros Hfit Hi Hj. apply get_value; assumption. Qed.

(** A loop that replaces every cell of a range by a function of the cell
    and of its subscript. *)
Lemma cells_loop (f : nat -> Q -> option Q) (n : nat) : forall a0 d,
  (forall i, a0 <= i < a0 + n ->
             exists u w, d !! i = Some u /\ f i u = Some w) ->
  exists d',
    foldlM (fun d i => u ← SymMatrixOps.cell_get d i;
                       w ← f i u; Some (<[i := w]> d))
           (seq a0 n) d = Some d'
    /\ length d' = length d
    /\ forall i,
        (a0 <= i < a0 + n ->
         exists u w, d !! i = Some u /\ f i u = Some w /\ d' !! i = Some w)
        /\ (~ a0 <= i < a0 + n -> d' !! i = d !! i).
Proof.
  induction n as [|n IH]; intros a0 d Hd; simpl.
  - exists d. split; [reflexivity|]. split; [reflexivity|].
    intros i. split; [lia | reflexivity].
  - destruct (Hd a0) as (u & w & Eu & Ew); [lia|].
    unfold SymMatrixOps.cell_get at 1. rewrite Eu. simpl. rewrite Ew. simpl.
    destruct (IH (Datatypes.S a0) (<[a0 := w]> d)) as (d' & E & Hlen & Hk).
    { intros i Hi. destruct (Hd i) as (u' & w' & Eu' & Ew'); [lia|].
      exists u', w'. split; [|exact Ew'].
      rewrite list_lookup_insert_ne by lia. exact Eu'. }
    exists d'. split; [exact E|].
    rewrite length_insert in Hlen. split; [exact Hlen|].
    intros i. destruct (Hk i) as [Hin Hout]. split.
    + intros Hi. destruct (Nat.eq_dec i a0) as [->|Hne].
      * exists u, w. split; [exact Eu|]. split; [exact Ew|].
        rewrite Hout by lia. apply list_lookup_insert_eq.
        apply lookup_lt_Some in Eu. exact Eu.
      * destruct Hin as (u' & w' & Eu' & Ew' & E'); [lia|].
        rewrite list_lookup_insert_ne in Eu' by lia.
        exists u', w'. auto.
    + intros Hi. rewrite Hout by lia. apply list_lookup_insert_ne. lia.
Qed.

(** A loop that writes into every cell of a range a function of the cell
    of the same subscript in another storage. *)
Lemma copy_loop (g : Q -> Q) (src : list Q) (n : nat) : forall a0 d,
  a0 + n <= length src -> a0 + n <= length d ->
  exists d',
    foldlM (fun c i => u ← SymMatrixOps.cell_get src i;
                       Some (<[i := g u]> c))
           (seq a0 n) d = Some d'
    /\ length d' = length d
    /\ forall i,
        (a0 <= i < a0 + n ->
         exists u, src !! i = Some u /\ d' !! i = Some (g u))
        /\ (~ a0 <= i < a0 + n -> d' !! i = d !! i).
Proof.
  induction n as [|n IH]; intros a0 d Hs Hd; simpl.
  - exists d. split; [reflexivity|]. split; [reflexivity|].
    intros i. split; [lia | reflexivity].
  - destruct (lookup_lt_is_Some_2 src a0) as [u Eu]; [lia|].
    unfold SymMatrixOps.cell_get at 1. rewrite Eu. simpl.
    destruct (IH (Datatypes.S a0) (<[a0 := g u]> d)) as (d' & E & Hlen & Hk).
    { lia. }
    { rewrite length_insert. lia. }
    exists d'. split; [exact E|].
    rewrite length_insert in Hlen. split; [exact Hlen|].
    intros i. destruct (Hk i) as [Hin Hout]. split.
    + intros Hi. destruct (Nat.eq_dec i a0) as [->|Hne].
      * exists u. split; [exact Eu|].
        rewrite Hout by lia. apply list_lookup_insert_eq. lia.
      * apply Hin. lia.
    + intros Hi. rewrite Hout by lia. apply list_lookup_insert_ne. lia.
Qed.

Lemma deep_copy_wf A :
  SymMatrix.wf A -> SymMatrixOps.deep_copy A = A.
Proof.
  intros Hwf. unfold SymMatrixOps.deep_copy.
  rewrite (wf_size A Hwf), <- (wf_length A Hwf), firstn_all.
  destruct A. reflexivity.
Qed.

(** The loops of [+=] and [-=], for an operation [op] on values. *)
Lemma combine_loop (op : Q -> Q -> Q) A B :
  SymMatrix.wf A -> SymMatrix.wf B -> SymMatrix.nlin A = SymMatrix.nlin B ->
  exists d',
    foldlM (fun d i => u ← SymMatrixOps.cell_get d i;
                       w ← SymMatrixOps.cell_get (SymMatrix.value B) i;
                       Some (<[i := op u w]> d))
           (seq 0 (SymMatrix.size A)) (SymMatrix.value A) = Some d'
    /\ SymMatrix.wf (SymMatrix.Make (SymMatrix.nlin A) d')
    /\ forall i j, i < SymMatrix.nlin A -> j < SymMatrix.nlin A ->
         exists u w, SymMatrix.get A i j = Some u
                     /\ SymMatrix.get B i j = Some w
                     /\ SymMatrix.get (SymMatrix.Make (SymMatrix.nlin A) d') i j
                        = Some (op u w).
Proof.
  intros HA HB Hn.
  assert (HfA := wf_fits A HA).
  assert (HlA := wf_length A HA). assert (HsA := wf_size A HA).
  assert (HlB := wf_length B HB).
  destruct (cells_loop
              (fun i u => w ← SymMatrixOps.cell_get (SymMatrix.value B) i;
                          Some (op u w))
              (SymMatrix.size A) 0 (SymMatrix.value A))
    as (d' & E & Hlen & Hk).
  { intros i Hi.
    destruct (lookup_lt_is_Some_2 (SymMatrix.value A) i) as [u Eu];
      [rewrite HlA, <- HsA; lia|].
    destruct (lookup_lt_is_Some_2 (SymMatrix.value B) i) as [w Ew].
    { rewrite HlB, <- Hn, <- HsA. lia. }
    exists u, (op u w). split; [exact Eu|].
    unfold SymMatrixOps.cell_get. rewrite Ew. reflexivity. }
  exists d'. split.
  - rewrite <- E. apply foldlM_ext. intros d i _.
    destruct (SymMatrixOps.cell_get d i); simpl; [|reflexivity].
    destruct (SymMatrixOps.cell_get (SymMatrix.value B) i); reflexivity.
  - split; [apply wf_intro; [exact HfA | rewrite Hlen; exact HlA]|].
    intros i j Hi Hj. rewrite get_Make by assumption.
    assert (Hb := index_bound _ _ _ Hi Hj).
    destruct (Hk (SymMatrix.index i j)) as [Hin _].
    destruct Hin as (u & r & Eu & Er & E'); [rewrite HsA; lia|].
    unfold SymMatrixOps.cell_get in Er.
    destruct (SymMatrix.value B !! SymMatrix.index i j) as [w|] eqn:Ew;
      simpl in Er; [|discriminate].
    injection Er as <-.
    exists u, w.
    rewrite (get_value A) by assumption.
    rewrite (get_value B) by (rewrite <- ?Hn; assumption).
    auto.
Qed.

End PackedCells.

(** ** What a write changes *)

(** X1. In a matrix whose storage is the whole triangle, a write at (i,j)
    leaves the dimension as it is, is read back at (i,j) and at (j,i), and
    changes no other entry: two pairs of subscripts share a cell only when
    they are the same pair up to order. *)
Theorem put_changes_one_entry (M M' : SymMatrix.t) (i j : nat) (x : Q)
        (a b : nat) :
  SymMatrix.wf M ->
  SymMatrix.put M i j x = Some M' ->
  ~ (a = i /\ b = j) -> ~ (a = j /\ b = i) ->
  SymMatrix.nlin M' = SymMatrix.nlin M
  /\ SymMatrix.wf M'
  /\ SymMatrix.get M' i j = Some x
  /\ SymMatrix.get M' j i = Some x
  /\ SymMatrix.get M' a b = SymMatrix.get M a b.
Proof.
  intros Hwf H H1 H2. destruct (put_range _ _ _ _ _ H) as [Hi Hj].
  split; [eapply put_nlin; exact H|].
  split; [eapply put_wf; [exact H | exact Hwf]|].
  split; [eapply get_put_eq; [exact Hwf | exact H | reflexivity
                             | exact Hi | exact Hj]|].
  split; [eapply get_put_eq; [exact Hwf | exact H | apply index_sym
                             | exact Hj | exact Hi]|].
  eapply get_put_ne; [exact Hwf | exact H|].
  intros E. apply index_eq_iff in E. tauto.
Qed.

(** ** Sums and differences *)

(** X2. [A += B] and [A -= B] fail when the dimensions differ; otherwise
    they return a matrix of the same dimension whose entry at (i,j) is the
    sum, or the difference, of the entries of [A] and [B] at (i,j). *)
Theorem add_assign_entrywise (A B : SymMatrix.t) :
  SymMatrix.wf A -> SymMatrix.wf B ->
  (SymMatrix.nlin A <> SymMatrix.nlin B ->
   SymMatrixOps.add_assign A B = None /\ SymMatrixOps.sub_assign A B = None)
  /\ (SymMatrix.nlin A = SymMatrix.nlin B ->
      exists C D,
        SymMatrixOps.add_assign A B = Some C
        /\ SymMatrixOps.sub_assign A B = Some D
        /\ SymMatrix.nlin C = SymMatrix.nlin A /\ SymMatrix.wf C
        /\ SymMatrix.nlin D = SymMatrix.nlin A /\ SymMatrix.wf D
        /\ forall i j, i < SymMatrix.nlin A -> j < SymMatrix.nlin A ->
             exists u w,
               SymMatrix.get A i j = Some u /\ SymMatrix.get B i j = Some w
               /\ SymMatrix.get C i j = Some (u + w)%Q
               /\ SymMatrix.get D i j = Some (u - w)%Q).
Proof.
  intros HA HB. split.
  - intros Hne. unfold SymMatrixOps.add_assign, SymMatrixOps.sub_assign.
    destruct (Nat.eqb_spec (SymMatrix.nlin A) (SymMatrix.nlin B));
      [contradiction|]. split; reflexivity.
  - intros Hn.
    destruct (combine_loop Qplus A B HA HB Hn) as (c & Ec & Hwc & Hc).
    destruct (combine_loop Qminus A B HA HB Hn) as (d & Ed & Hwd & Hd).
    exists (SymMatrix.Make (SymMatrix.nlin A) c),
           (SymMatrix.Make (SymMatrix.nlin A) d).
    unfold SymMatrixOps.add_assign, SymMatrixOps.sub_assign.
    destruct (Nat.eqb_spec (SymMatrix.nlin A) (SymMatrix.nlin B)); [|lia].
    simpl. rewrite Ec, Ed. simpl.
    split; [reflexivity|]. split; [reflexivity|].
    split; [reflexivity|]. split; [exact Hwc|].
    split; [reflexivity|]. split; [exact Hwd|].
    intros i j Hi Hj.
    destruct (Hc i j Hi Hj) as (u & w & Eu & Ew & E1).
    destruct (Hd i j Hi Hj) as (u' & w' & Eu' & Ew' & E2).
    rewrite Eu in Eu'. rewrite Ew in Ew'.
    injection Eu' as <-. injection Ew' as <-.
    exists u, w. auto.
Qed.

Lemma add_entries (A B : SymMatrix.t) :
  SymMatrix.wf A -> SymMatrix.wf B -> SymMatrix.nlin A = SymMatrix.nlin B ->
  exists C,
    SymMatrixOps.add A B = Some C
    /\ SymMatrix.nlin C = SymMatrix.nlin A /\ SymMatrix.wf C
    /\ forall i j, i < SymMatrix.nlin A -> j < SymMatrix.nlin A ->
         exists u w,
           SymMatrix.get A i j = Some u /\ SymMatrix.get B i j = Some w
           /\ SymMatrix.get C i j = Some (u + w)%Q.
Proof.
  intros HA HB Hn.
  destruct (combine_loop Qplus A B HA HB Hn) as (c & Ec & Hwc & Hc).
  exists (SymMatrix.Make (SymMatrix.nlin A) c).
  unfold SymMatrixOps.add, SymMatrixOps.add_assign.
  rewrite (deep_copy_wf A HA).
  destruct (Nat.eqb_spec (SymMatrix.nlin A) (SymMatrix.nlin B)); [|lia].
  simpl. rewrite Ec. simpl. auto.
Qed.

Lemma sub_entries (A B : SymMatrix.t) :
  SymMatrix.wf A -> SymMatrix.wf B -> SymMatrix.nlin A = SymMatrix.nlin B ->
  exists C,
    SymMatrixOps.sub A B = Some C
    /\ SymMatrix.nlin C = SymMatrix.nlin A /\ SymMatrix.wf C
    /\ forall i j, i < SymMatrix.nlin A -> j < SymMatrix.nlin A ->
         exists u w,
           SymMatrix.get A i j = Some u /\ SymMatrix.get B i j = Some w
           /\ SymMatrix.get C i j = Some (u - w)%Q.
Proof.
  intros HA HB Hn.
  destruct (combine_loop Qminus A B HA HB Hn) as (c & Ec & Hwc & Hc).
  exists (SymMatrix.Make (SymMatrix.nlin A) c).
  unfold SymMatrixOps.sub, SymMatrixOps.sub_assign.
  rewrite (deep_copy_wf A HA).
  destruct (Nat.eqb_spec (SymMatrix.nlin A) (SymMatrix.nlin B)); [|lia].
  simpl. rewrite Ec. simpl. auto.
Qed.

(** X3. [A + B] and [A - B] fail when the dimensions differ; otherwise
    they return a matrix of the same dimension, made from a copy of [A],
    whose entry at (i,j) is the sum, or the difference, of the entries of
    [A] and [B] at (i,j), in that order. *)
Theorem add_and_sub_entrywise (A B : SymMatrix.t) :
  SymMatrix.wf A -> SymMatrix.wf B ->
  (SymMatrix.nlin A <> SymMatrix.nlin B ->
   SymMatrixOps.add A B = None /\ SymMatrixOps.sub A B = None)
  /\ (SymMatrix.nlin A = SymMatrix.nlin B ->
      exists C D,
        SymMatrixOps.add A B = Some C
        /\ SymMatrixOps.sub A B = Some D
        /\ SymMatrix.nlin C = SymMatrix.nlin A /\ SymMatrix.wf C
        /\ SymMatrix.nlin D = SymMatrix.nlin A /\ SymMatrix.wf D
        /\ forall i j, i < SymMatrix.nlin A -> j < SymMatrix.nlin A ->
             exists u w,
               SymMatrix.get A i j = Some u /\ SymMatrix.get B i j = Some w
               /\ SymMatrix.get C i j = Some (u + w)%Q
               /\ SymMatrix.get D i j = Some (u - w)%Q).
Proof.
  intros HA HB. split.
  - intros Hne. unfold SymMatrixOps.add, SymMatrixOps.sub.
    destruct (Nat.eqb_spec (SymMatrix.nlin A) (SymMatrix.nlin B));
      [contradiction|]. split; reflexivity.
  - intros Hn.
    destruct (add_entries A B HA HB Hn) as (C & EC & HnC & HwC & HC).
    destruct (sub_entries A B HA HB Hn) as (D & ED & HnD & HwD & HD).
    exists C, D. split; [exact EC|]. split; [exact ED|].
    split; [exact HnC|]. split; [exact HwC|].
    split; [exact HnD|]. split; [exact HwD|].
    intros i j Hi Hj.
    destruct (HC i j Hi Hj) as (u & w & Eu & Ew & E1).
    destruct (HD i j Hi Hj) as (u' & w' & Eu' & Ew' & E2).
    rewrite Eu in Eu'. rewrite Ew in Ew'.
    injection Eu' as <-. injection Ew' as <-.
    exists u, w. auto.
Qed.

(** ** Products by a number *)

Lemma scale_entries (M : SymMatrix.t) (x : Q) (junk : nat -> Q) :
  SymMatrix.wf M ->
  exists C,
    SymMatrixOps.scale M x junk = Some C
    /\ SymMatrixOps.scale_assign M x = Some C
    /\ SymMatrix.nlin C = SymMatrix.nlin M /\ SymMatrix.wf C
    /\ forall i j, i < SymMatrix.nlin M -> j < SymMatrix.nlin M ->
         exists u, SymMatrix.get M i j = Some u
                   /\ SymMatrix.get C i j = Some (u * x)%Q.
Proof.
  intros Hwf. assert (Hfit := wf_fits M Hwf).
  assert (Hnew : SymMatrix.wf (SymMatrix.new (SymMatrix.nlin M) junk))
    by (apply new_wf; exact Hfit).
  destruct (copy_loop (fun u => (u * x)%Q) (SymMatrix.value M)
                      (SymMatrix.size M) 0
                      (SymMatrix.value
                         (SymMatrix.new (SymMatrix.nlin M) junk)))
    as (c & Ec & Hlc & Hc).
  { rewrite (wf_length M Hwf), (wf_size M Hwf). lia. }
  { rewrite (wf_length _ Hnew), (wf_size M Hwf). simpl. lia. }
  destruct (cells_loop (fun _ u => Some (u * x)%Q) (SymMatrix.size M) 0
                       (SymMatrix.value M)) as (d & Ed & Hld & Hd).
  { intros i Hi.
    destruct (lookup_lt_is_Some_2 (SymMatrix.value M) i) as [u Eu];
      [rewrite (wf_length M Hwf), <- (wf_size M Hwf); lia|].
    exists u, (u * x)%Q. auto. }
  assert (Hcd : c = d).
  { apply list_eq. intros k.
    destruct (Hc k) as [Hin Hout], (Hd k) as [Hin' Hout'].
    destruct (Nat.lt_ge_cases k (SymMatrix.size M)) as [Hk|Hk].
    - destruct Hin as (u & Eu & E1); [lia|].
      destruct Hin' as (u' & w & Eu' & Ew & E2); [lia|].
      rewrite Eu in Eu'. injection Eu' as <-. injection Ew as <-.
      congruence.
    - rewrite !lookup_ge_None_2; [reflexivity | |].
      + rewrite Hld, (wf_length M Hwf), <- (wf_size M Hwf). exact Hk.
      + rewrite Hlc, (wf_length _ Hnew). simpl.
        rewrite <- (wf_size M Hwf). exact Hk. }
  exists (SymMatrix.Make (SymMatrix.nlin M) c).
  unfold SymMatrixOps.scale, SymMatrixOps.scale_assign.
  cbv zeta. rewrite Ec. simpl.
  split; [reflexivity|]. split.
  - assert (Ed' : foldlM (fun d0 i => a ← SymMatrixOps.cell_get d0 i;
                                       Some (<[i := (a * x)%Q]> d0))
                         (seq 0 (SymMatrix.size M)) (SymMatrix.value M)
                  = Some d).
    { rewrite <- Ed. apply foldlM_ext. intros l i _.
      destruct (SymMatrixOps.cell_get l i); reflexivity. }
    rewrite Ed', Hcd. reflexivity.
  - split; [reflexivity|]. split.
    + apply wf_intro; [exact Hfit|]. rewrite Hlc.
      exact (wf_length _ Hnew).
    + intros i j Hi Hj. rewrite get_Make by assumption.
      assert (Hb := index_bound _ _ _ Hi Hj).
      destruct (Hc (SymMatrix.index i j)) as [Hin _].
      destruct Hin as (u & Eu & E1); [rewrite (wf_size M Hwf); lia|].
      exists u. rewrite get_value by assumption. auto.
Qed.

(** X4. The product of a matrix by a number has the entries of the matrix
    times the number, whatever the storage allocated for it held; [M * x]
    and [M *= x] return the same matrix. *)
Theorem scale_entrywise (M : SymMatrix.t) (x : Q) (junk : nat -> Q) :
  SymMatrix.wf M ->
  exists C,
    SymMatrixOps.scale M x junk = Some C
    /\ SymMatrixOps.scale_assign M x = Some C
    /\ SymMatrix.nlin C = SymMatrix.nlin M /\ SymMatrix.wf C
    /\ forall i j, i < SymMatrix.nlin M -> j < SymMatrix.nlin M ->
         exists u, SymMatrix.get M i j = Some u
                   /\ SymMatrix.get C i j = Some (u * x)%Q.
Proof. apply scale_entries. Qed.

(** X5. The quotient by a number is the product by its inverse, computed
    once: for x other than zero, [M / x] and [M /= x] return the same
    matrix, whose entry at (i,j) is the entry of [M] times [1/x]. *)
Theorem div_multiplies_by_inverse (M : SymMatrix.t) (x : Q)
        (junk : nat -> Q) :
  SymMatrix.wf M -> ~ (x == 0)%Q ->
  exists D,
    SymMatrixOps.div M x junk = Some D
    /\ SymMatrixOps.div_assign M x = Some D
    /\ SymMatrix.nlin D = SymMatrix.nlin M /\ SymMatrix.wf D
    /\ forall i j, i < SymMatrix.nlin M -> j < SymMatrix.nlin M ->
         exists u, SymMatrix.get M i j = Some u
                   /\ SymMatrix.get D i j = Some (u * (1 / x))%Q.
Proof.
  intros Hwf _. unfold SymMatrixOps.div, SymMatrixOps.div_assign.
  apply scale_entries. exact Hwf.
Qed.

(** ** Loops that write into a packed symmetric matrix *)

Section PutLoop.

Context {A : Type} (pos : A -> nat * nat) (val : A -> option Q).

Implicit Types (M : SymMatrix.t) (l : list A).

Lemma put_step_inv M x M' :
  put_step pos val M x = Some M' ->
  exists v, val x = Some v
            /\ SymMatrix.put M (fst (pos x)) (snd (pos x)) v = Some M'.
Proof.
  unfold put_step. destruct (val x) as [v|]; simpl; [|discriminate].
  intros H. exists v. auto.
Qed.

(** A loop of writes changes no cell but those it visits, and it visits
    cells of the matrix only. *)
Lemma put_loop_frame l : forall M M',
  SymMatrix.wf M ->
  foldlM (put_step pos val) l M = Some M' ->
  SymMatrix.nlin M' = SymMatrix.nlin M
  /\ SymMatrix.wf M'
  /\ (forall x, In x l -> fst (pos x) < SymMatrix.nlin M
                          /\ snd (pos x) < SymMatrix.nlin M)
  /\ forall a b, (forall x, In x l -> SymMatrix.index a b <> cell (pos x)) ->
                 SymMatrix.get M' a b = SymMatrix.get M a b.
Proof.
  induction l as [|x l IH]; intros M M' Hwf; simpl.
  - intros [= <-]. split; [reflexivity|]. split; [exact Hwf|].
    split; [intros x []|]. reflexivity.
  - destruct (put_step pos val M x) as [M1|] eqn:E1; [|discriminate].
    intros H. apply put_step_inv in E1 as (v & Ev & E1).
    assert (Hwf1 : SymMatrix.wf M1) by (eapply put_wf; eauto).
    apply (IH _ _ Hwf1) in H as (Hn & Hwf' & Hr & Hf).
    assert (Hn1 := put_nlin _ _ _ _ _ E1).
    split; [congruence|]. split; [exact Hwf'|].
    split.
    + intros y [<-|Hy].
      * apply put_range in E1 as (Hi & Hj). auto.
      * rewrite <- Hn1. apply Hr. exact Hy.
    + intros a b Hab. rewrite Hf by (intros y Hy; apply Hab; right; exact Hy).
      eapply get_put_ne; [exact Hwf | exact E1|]. apply Hab. left.
      reflexivity.
Qed.

(** When the visits of one cell write one value, every cell visited holds
    at the end the value of its visits. *)
Lemma put_loop_value l : forall M M',
  SymMatrix.wf M ->
  (forall x y, In x l -> In y l -> cell (pos x) = cell (pos y) ->
               val x = val y) ->
  foldlM (put_step pos val) l M = Some M' ->
  forall x, In x l ->
            SymMatrix.get M' (fst (pos x)) (snd (pos x)) = val x.
Proof.
  induction l as [|x0 l IH]; intros M M' Hwf Hc H x Hx; [destruct Hx|].
  destruct (put_loop_frame _ _ _ Hwf H) as (Hn & Hwf' & Hr & _).
  simpl in H.
  destruct (put_step pos val M x0) as [M1|] eqn:E1; [|discriminate].
  apply put_step_inv in E1 as (v & Ev & E1).
  assert (Hwf1 : SymMatrix.wf M1) by (eapply put_wf; eauto).
  destruct (in_dec Nat.eq_dec (cell (pos x))
                   (map (fun y => cell (pos y)) l)) as [Hin|Hout].
  - apply in_map_iff in Hin as (y & Ey & Hy).
    assert (IHy := IH M1 M' Hwf1
                      (fun a b Ha Hb => Hc a b (or_intror Ha) (or_intror Hb))
                      H y Hy).
    destruct (Hr x Hx) as [Hi Hj].
    destruct (Hr y (or_intror Hy)) as [Hi' Hj'].
    rewrite <- Hn in Hi, Hj, Hi', Hj'.
    assert (Hfit' := wf_fits M' Hwf').
    rewrite get_value in IHy |- * by assumption.
    unfold cell in Ey. rewrite <- Ey, IHy. symmetry.
    apply Hc; [exact Hx | right; exact Hy | symmetry; exact Ey].
  - destruct Hx as [<-|Hx].
    + destruct (put_loop_frame _ _ _ Hwf1 H) as (_ & _ & _ & Hf).
      rewrite Hf.
      * rewrite Ev. destruct (put_range _ _ _ _ _ E1) as (Hi & Hj).
        eapply get_put_eq; [exact Hwf | exact E1 | reflexivity | | ];
          assumption.
      * intros y Hy E. apply Hout. apply in_map_iff. exists y.
        split; [symmetry; exact E | exact Hy].
    + exfalso. apply Hout. apply in_map_iff. exists x. auto.
Qed.

Lemma put_loop_total l : forall M,
  SymMatrix.wf M ->
  (forall x, In x l -> fst (pos x) < SymMatrix.nlin M
                       /\ snd (pos x) < SymMatrix.nlin M
                       /\ exists v, val x = Some v) ->
  exists M', foldlM (put_step pos val) l M = Some M'.
Proof.
  induction l as [|x l IH]; intros M Hwf Hl; simpl; [eauto|].
  destruct (Hl x (or_introl eq_refl)) as (Hi & Hj & v & Ev).
  unfold put_step at 1. rewrite Ev. simpl.
  rewrite put_total by assumption. apply IH.
  - apply wf_intro; [exact (wf_fits M Hwf)|].
    rewrite length_insert. exact (wf_length M Hwf).
  - intros y Hy. simpl. apply Hl. right. exact Hy.
Qed.

End PutLoop.

(** ** Loops that write into a dense matrix *)

Section MatrixPutLoop.

Context {A : Type} (pos : A -> nat * nat) (val : A -> option Q).

Implicit Types (M : Matrix.t) (l : list A).

Lemma Matrix_put_inv M i j x M' :
  Matrix.put M i j x = Some M' ->
  i < Matrix.nlin M /\ j < Matrix.ncol M
  /\ M' = Matrix.Make (Matrix.nlin M) (Matrix.ncol M)
                      (<[Matrix.index M i j := x]> (Matrix.value M)).
Proof.
  unfold Matrix.put.
  destruct (Nat.ltb_spec i (Matrix.nlin M)),
           (Nat.ltb_spec j (Matrix.ncol M)); simpl;
    try discriminate. intros [= <-]. repeat split; assumption.
Qed.

Lemma Matrix_put_shape M i j x M' :
  Matrix.put M i j x = Some M' ->
  Matrix.nlin M' = Matrix.nlin M /\ Matrix.ncol M' = Matrix.ncol M
  /\ (Matrix.wf M -> Matrix.wf M').
Proof.
  intros H. apply Matrix_put_inv in H as (_ & _ & ->). simpl.
  repeat split. unfold Matrix.wf, Matrix.size. simpl.
  rewrite length_insert. auto.
Qed.

Lemma Matrix_get_put_eq M i j x M' :
  Matrix.wf M -> Matrix.put M i j x = Some M' ->
  Matrix.get M' i j = Some x.
Proof.
  intros Hwf H. apply Matrix_put_inv in H as (Hi & Hj & ->).
  unfold Matrix.get. simpl.
  destruct (Nat.ltb_spec i (Matrix.nlin M)); [|lia].
  destruct (Nat.ltb_spec j (Matrix.ncol M)); [|lia]. simpl.
  unfold Matrix.index at 1. simpl. fold (Matrix.index M i j).
  apply list_lookup_insert_eq. rewrite Hwf.
  apply Matrix_index_bound; assumption.
Qed.

Lemma Matrix_get_put_ne M i j x M' a b :
  Matrix.put M i j x = Some M' -> (a, b) <> (i, j) ->
  Matrix.get M' a b = Matrix.get M a b.
Proof.
  intros H Hne. apply Matrix_put_inv in H as (Hi & Hj & ->).
  unfold Matrix.get. simpl.
  destruct (Nat.ltb_spec a (Matrix.nlin M)); [|reflexivity].
  destruct (Nat.ltb_spec b (Matrix.ncol M)); [|reflexivity]. simpl.
  unfold Matrix.index at 1. simpl. fold (Matrix.index M a b).
  apply list_lookup_insert_ne. unfold Matrix.index. intros E.
  apply Hne.
  assert (b = j) by nia. subst b. f_equal. lia.
Qed.

Lemma Matrix_put_step_inv M x M' :
  Matrix_put_step pos val M x = Some M' ->
  exists v, val x = Some v
            /\ Matrix.put M (fst (pos x)) (snd (pos x)) v = Some M'.
Proof.
  unfold Matrix_put_step. destruct (val x) as [v|]; simpl; [|discriminate].
  intros H. exists v. auto.
Qed.

Lemma Matrix_put_loop_frame l : forall M M',
  foldlM (Matrix_put_step pos val) l M = Some M' ->
  Matrix.nlin M' = Matrix.nlin M /\ Matrix.ncol M' = Matrix.ncol M
  /\ (Matrix.wf M -> Matrix.wf M')
  /\ forall a b, (forall x, In x l -> (a, b) <> pos x) ->
                 Matrix.get M' a b = Matrix.get M a b.
Proof.
  induction l as [|x l IH]; intros M M'; simpl.
  - intros [= <-]. repeat split; auto.
  - destruct (Matrix_put_step pos val M x) as [M1|] eqn:E1; [|discriminate].
    intros H. apply Matrix_put_step_inv in E1 as (v & Ev & E1).
    apply IH in H as (Hn & Hc & Hwf & Hf).
    destruct (Matrix_put_shape _ _ _ _ _ E1) as (Hn1 & Hc1 & Hwf1).
    split; [congruence|]. split; [congruence|]. split; [auto|].
    intros a b Hab. rewrite Hf by (intros y Hy; apply Hab; right; exact Hy).
    eapply Matrix_get_put_ne; [exact E1|].
    rewrite <- surjective_pairing. apply Hab. left. reflexivity.
Qed.

(** When the visits of one place write one value, every place visited
    holds at the end the value of its visits. *)
Lemma Matrix_put_loop_value l : forall M M',
  Matrix.wf M ->
  (forall x y, In x l -> In y l -> pos x = pos y -> val x = val y) ->
  foldlM (Matrix_put_step pos val) l M = Some M' ->
  forall x, In x l -> Matrix.get M' (fst (pos x)) (snd (pos x)) = val x.
Proof.
  assert (Hdec : forall p q : nat * nat, {p = q} + {p <> q})
    by (decide equality; apply Nat.eq_dec).
  induction l as [|x0 l IH]; intros M M' Hwf Hc H x Hx; [destruct Hx|].
  simpl in H.
  destruct (Matrix_put_step pos val M x0) as [M1|] eqn:E1; [|discriminate].
  apply Matrix_put_step_inv in E1 as (v & Ev & E1).
  destruct (Matrix_put_shape _ _ _ _ _ E1) as (_ & _ & Hwf1).
  destruct (in_dec Hdec (pos x) (map pos l)) as [Hin|Hout].
  - apply in_map_iff in Hin as (y & Ey & Hy).
    rewrite <- Ey.
    rewrite (IH M1 M' (Hwf1 Hwf)
                (fun a b Ha Hb => Hc a b (or_intror Ha) (or_intror Hb))
                H y Hy).
    symmetry. apply Hc; [exact Hx | right; exact Hy | symmetry; exact Ey].
  - destruct Hx as [<-|Hx].
    + destruct (Matrix_put_loop_frame _ _ _ H) as (_ & _ & _ & Hf).
      rewrite Hf.
      * rewrite Ev. eapply Matrix_get_put_eq; eauto.
      * intros y Hy E. apply Hout. rewrite <- surjective_pairing in E.
        rewrite E. apply in_map. exact Hy.
    + exfalso. apply Hout. apply in_map. exact Hx.
Qed.

Lemma Matrix_put_loop_total l : forall M,
  (forall x, In x l -> fst (pos x) < Matrix.nlin M
                       /\ snd (pos x) < Matrix.ncol M
                       /\ exists v, val x = Some v) ->
  exists M', foldlM (Matrix_put_step pos val) l M = Some M'.
Proof.
  induction l as [|x l IH]; intros M Hl; simpl; [eauto|].
  destruct (Hl x (or_introl eq_refl)) as (Hi & Hj & v & Ev).
  unfold Matrix_put_step at 1. rewrite Ev. simpl.
  destruct (Matrix_put_total M _ _ v Hi Hj) as (M1 & E1 & Hn1 & Hc1 & _).
  rewrite E1. apply IH.
  intros y Hy. rewrite Hn1, Hc1. apply Hl. right. exact Hy.
Qed.

End MatrixPutLoop.

(** ** Loops that write into a vector *)

Lemma Vector_fill (g : nat -> option Q) (n : nat) : forall a0 (v : Vector.t),
  a0 + n <= Vector.size v ->
  (forall j, a0 <= j < a0 + n -> exists x, g j = Some x) ->
  exists v',
    foldlM (fun v j => x ← g j; Vector.put v j x) (seq a0 n) v = Some v'
    /\ Vector.size v' = Vector.size v
    /\ forall j, (a0 <= j < a0 + n -> Vector.get v' j = g j)
                 /\ (~ a0 <= j < a0 + n -> Vector.get v' j = Vector.get v j).
Proof.
  induction n as [|n IH]; intros a0 v Hs Hg; simpl.
  - exists v. split; [reflexivity|]. split; [reflexivity|].
    intros j. split; [lia | reflexivity].
  - destruct (Hg a0) as [x Ex]; [lia|]. rewrite Ex. simpl.
    unfold Vector.put at 1.
    destruct (Nat.ltb_spec a0 (Vector.size v)); [|lia].
    destruct (IH (Datatypes.S a0) (Vector.Make (<[a0 := x]> (Vector.value v))))
      as (v' & E & Hlen & Hk).
    { unfold Vector.size. simpl. rewrite length_insert.
      unfold Vector.size in Hs. lia. }
    { intros j Hj. apply Hg. lia. }
    exists v'. split; [exact E|].
    unfold Vector.size in Hlen |- *. simpl in Hlen.
    rewrite length_insert in Hlen. split; [exact Hlen|].
    intros j. destruct (Hk j) as [Hin Hout]. split.
    + intros Hj. destruct (Nat.eq_dec j a0) as [->|Hne].
      * rewrite Hout by lia. rewrite Ex. unfold Vector.get. simpl.
        apply list_lookup_insert_eq. unfold Vector.size in *. lia.
      * apply Hin. lia.
    + intros Hj. rewrite Hout by lia. unfold Vector.get. simpl.
      apply list_lookup_insert_ne. lia.
Qed.

(** ** Conversions and extractions *)

Lemma in_pairs_from (n : nat) (p : nat * nat) :
  In p (flat_map (fun i => map (pair i) (seq i (n - i))) (seq 0 n))
  <-> fst p <= snd p < n.
Proof.
  rewrite in_flat_map. split.
  - intros (i & Hi & Hp). apply in_map_iff in Hp as (j & <- & Hj).
    apply in_seq in Hi, Hj. simpl. lia.
  - intros Hp. exists (fst p). split; [apply in_seq; lia|].
    apply in_map_iff. exists (snd p).
    split; [symmetry; apply surjective_pairing | apply in_seq; lia].
Qed.

Lemma in_all_pairs_seq (n m : nat) (p : nat * nat) :
  In p (flat_map (fun i => map (pair i) (seq 0 m)) (seq 0 n))
  <-> fst p < n /\ snd p < m.
Proof.
  rewrite in_flat_map. split.
  - intros (i & Hi & Hp). apply in_map_iff in Hp as (j & <- & Hj).
    apply in_seq in Hi, Hj. simpl. lia.
  - intros Hp. exists (fst p). split; [apply in_seq; lia|].
    apply in_map_iff. exists (snd p).
    split; [symmetry; apply surjective_pairing | apply in_seq; lia].
Qed.

(** X6. The packed symmetric matrix built from a dense matrix [A] of n
    lines, n being a dimension that fits (at most 65535), and at least n
    columns has dimension n and holds, at (i,j) and at (j,i) for i <= j,
    the entry of [A] at (i,j): what [A] holds below its diagonal is not
    read.  With fewer columns than lines no matrix is built. *)
Theorem of_Matrix_takes_upper_triangle (A : Matrix.t) (junk : nat -> Q) :
  Matrix.wf A -> SymMatrix.fits (Matrix.nlin A) ->
  (Matrix.ncol A < Matrix.nlin A -> SymMatrixOps.of_Matrix A junk = None)
  /\ (Matrix.nlin A <= Matrix.ncol A ->
      exists S,
        SymMatrixOps.of_Matrix A junk = Some S
        /\ SymMatrix.nlin S = Matrix.nlin A /\ SymMatrix.wf S
        /\ forall i j, i <= j -> j < Matrix.nlin A ->
             exists x, Matrix.get A i j = Some x
                       /\ SymMatrix.get S i j = Some x
                       /\ SymMatrix.get S j i = Some x).
Proof.
  intros Hwf Hfit.
  assert (Hnew : SymMatrix.wf (SymMatrix.new (Matrix.nlin A) junk))
    by (apply new_wf; exact Hfit).
  split.
  - intros Hlt. unfold SymMatrixOps.of_Matrix. clear Hnew Hfit.
    destruct (Matrix.nlin A) as [|n] eqn:En; [lia|].
    cbn [seq foldlM]. rewrite Nat.sub_0_r.
    rewrite (foldlM_fails (fun _ => True) _ _ _ (Matrix.ncol A)).
    + reflexivity.
    + apply in_seq. lia.
    + exact I.
    + auto.
    + intros S _. unfold Matrix.get.
      destruct (Nat.ltb_spec (Matrix.ncol A) (Matrix.ncol A)); [lia|].
      rewrite andb_false_r. reflexivity.
  - intros Hle. set (n := Matrix.nlin A).
    set (valA := fun p : nat * nat => Matrix.get A (fst p) (snd p)).
    set (l := flat_map (fun i => map (pair i) (seq i (n - i))) (seq 0 n)).
    assert (E : SymMatrixOps.of_Matrix A junk
                = foldlM (put_step (fun p => p) valA) l
                         (SymMatrix.new n junk))
      by exact (foldlM_nested (put_step (fun p => p) valA)
                              (fun i => seq i (n - i)) (seq 0 n)
                              (SymMatrix.new n junk)).
    assert (Hval : forall p, In p l -> exists x, valA p = Some x).
    { intros p Hp. apply in_pairs_from in Hp.
      apply Matrix_get_total; [exact Hwf | fold n; lia | fold n in Hle; lia]. }
    destruct (put_loop_total (fun p => p) valA l (SymMatrix.new n junk) Hnew)
      as [S ES].
    { intros p Hp. split; [|split; [|apply Hval; exact Hp]];
        apply in_pairs_from in Hp; simpl; lia. }
    destruct (put_loop_frame _ _ _ _ _ Hnew ES) as (Hn & Hw & _ & _).
    exists S. rewrite E. split; [exact ES|]. split; [exact Hn|].
    split; [exact Hw|].
    intros i j Hij Hj.
    assert (Hin : In (i, j) l) by (apply in_pairs_from; simpl; fold n; lia).
    destruct (Hval _ Hin) as [x Ex]. exists x. split; [exact Ex|].
    assert (G : SymMatrix.get S i j = Some x).
    { rewrite <- Ex.
      refine (put_loop_value (fun p => p) valA l (SymMatrix.new n junk) S
                             Hnew _ ES (i, j) Hin).
      intros [a b] [c d] Hp Hq Ec. apply in_pairs_from in Hp, Hq.
      simpl in Hp, Hq. apply cell_eq_iff in Ec.
      assert (a = c /\ b = d) as [-> ->] by lia. reflexivity. }
    split; [exact G | rewrite get_sym; exact G].
Qed.

Lemma block_entries (M : SymMatrix.t) (i_start i_end j_start j_end : nat)
      (junk : nat -> Q) :
  SymMatrix.wf M ->
  i_start <= i_end -> i_end < SymMatrix.nlin M ->
  j_start <= j_end -> j_end < SymMatrix.nlin M ->
  exists R,
    SymMatrixOps.block M i_start i_end j_start j_end junk = Some R
    /\ Matrix.nlin R = i_end - i_start + 1
    /\ Matrix.ncol R = j_end - j_start + 1
    /\ Matrix.wf R
    /\ forall i j, i <= i_end - i_start -> j <= j_end - j_start ->
         exists x, SymMatrix.get M (i_start + i) (j_start + j) = Some x
                   /\ Matrix.get R i j = Some x.
Proof.
  intros Hwf Hi1 Hi2 Hj1 Hj2. unfold SymMatrixOps.block.
  destruct (Nat.ltb_spec i_end i_start); [lia|].
  destruct (Nat.ltb_spec j_end j_start); [lia|]. cbn [orb]. cbv zeta.
  set (n := i_end - i_start + 1). set (m := j_end - j_start + 1).
  set (valM := fun p : nat * nat =>
                 SymMatrix.get M (i_start + fst p) (j_start + snd p)).
  set (l := flat_map (fun i => map (pair i) (seq 0 m)) (seq 0 n)).
  assert (E : forall R0,
             foldlM (fun retMat i =>
                       foldlM (fun retMat j =>
                                 x ← SymMatrix.get M (i_start + i)
                                                   (j_start + j);
                                 Matrix.put retMat i j x)
                              (seq 0 m) retMat)
                    (seq 0 n) R0
             = foldlM (Matrix_put_step (fun p => p) valM) l R0)
    by (intros R0;
        exact (foldlM_nested (Matrix_put_step (fun p => p) valM)
                             (fun _ => seq 0 m) (seq 0 n) R0)).
  rewrite E.
  assert (Hval : forall p, In p l -> exists x, valM p = Some x).
  { intros p Hp. apply in_all_pairs_seq in Hp.
    apply get_total; [exact Hwf | unfold n, m in Hp; lia
                     | unfold n, m in Hp; lia]. }
  destruct (Matrix_put_loop_total (fun p => p) valM l (Matrix.new n m junk))
    as [R ER].
  { intros p Hp. split; [|split; [|apply Hval; exact Hp]];
      apply in_all_pairs_seq in Hp; simpl; lia. }
  destruct (Matrix_put_loop_frame _ _ _ _ _ ER) as (Hn & Hc & Hw & _).
  exists R. split; [exact ER|]. split; [exact Hn|]. split; [exact Hc|].
  split; [apply Hw; apply (Matrix_set_new_shape n m junk)|].
  intros i j Hi Hj.
  assert (Hin : In (i, j) l)
    by (apply in_all_pairs_seq; simpl; unfold n, m; lia).
  destruct (Hval _ Hin) as [x Ex]. exists x. split; [exact Ex|].
  rewrite <- Ex.
  refine (Matrix_put_loop_value (fun p => p) valM l (Matrix.new n m junk) R
                                _ _ ER (i, j) Hin).
  - apply (Matrix_set_new_shape n m junk).
  - intros p q _ _ ->. reflexivity.
Qed.

(** X7. For sizes other than zero and a block that lies within the
    dimension, [submat(istart,isize,jstart,jsize)] returns the dense
    isize × jsize matrix whose entry at (i,j) is the entry of the matrix at
    (istart+i, jstart+j); it is the matrix that
    [operator()(istart,istart+isize-1,jstart,jstart+jsize-1)] returns. *)
Theorem submat_block_entries (M : SymMatrix.t)
        (istart isize jstart jsize : nat) (junk : nat -> Q) :
  SymMatrix.wf M -> 0 < isize -> 0 < jsize ->
  istart + isize <= SymMatrix.nlin M -> jstart + jsize <= SymMatrix.nlin M ->
  exists R,
    SymMatrixOps.submat_block M istart isize jstart jsize junk = Some R
    /\ SymMatrixOps.block M istart (istart + isize - 1)
                          jstart (jstart + jsize - 1) junk = Some R
    /\ Matrix.nlin R = isize /\ Matrix.ncol R = jsize /\ Matrix.wf R
    /\ forall i j, i < isize -> j < jsize ->
         exists x, SymMatrix.get M (istart + i) (jstart + j) = Some x
                   /\ Matrix.get R i j = Some x.
Proof.
  intros Hwf Hi Hj Hir Hjr.
  destruct (block_entries M istart (istart + isize - 1)
                          jstart (jstart + jsize - 1) junk Hwf)
    as (R & ER & Hn & Hc & Hw & He); try lia.
  exists R. unfold SymMatrixOps.submat_block.
  destruct (Nat.leb_spec (istart + isize) (SymMatrix.nlin M)); [|lia].
  destruct (Nat.leb_spec (jstart + jsize) (SymMatrix.nlin M)); [|lia].
  destruct (Nat.eqb_spec isize 0); [lia|].
  destruct (Nat.eqb_spec jsize 0); [lia|]. simpl.
  split; [exact ER|]. split; [exact ER|].
  split; [lia|]. split; [lia|]. split; [exact Hw|].
  intros i j Hi' Hj'. apply He; lia.
Qed.

(** ** Lines *)

Lemma getlin_entries (M : SymMatrix.t) (i : nat) (junk : nat -> Q) :
  SymMatrix.wf M -> i < SymMatrix.nlin M ->
  exists v,
    SymMatrixOps.getlin M i junk = Some v
    /\ Vector.size v = SymMatrix.nlin M
    /\ forall j, j < SymMatrix.nlin M ->
                 Vector.get v j = SymMatrix.get M i j.
Proof.
  intros Hwf Hi. unfold SymMatrixOps.getlin.
  destruct (Nat.ltb_spec i (SymMatrix.nlin M)); [|lia]. simpl.
  destruct (Vector_fill (fun j => SymMatrix.get M i j) (SymMatrix.nlin M) 0
                        (Vector.new (SymMatrix.nlin M) junk))
    as (v & E & Hs & Hk).
  { unfold Vector.size. simpl. rewrite length_map, length_seq. lia. }
  { intros j Hj. apply get_total; [exact Hwf | exact Hi | lia]. }
  exists v. split; [exact E|]. split.
  - rewrite Hs. unfold Vector.size. simpl.
    rewrite length_map, length_seq. reflexivity.
  - intros j Hj. apply Hk. lia.
Qed.

(** X8. For a line i of the matrix, [getlin(i)] returns a vector of the
    dimension of the matrix whose entry j is the entry of the matrix at
    (i,j), which is also the entry at (j,i): a line and the column of the
    same number are one vector.  Beyond the dimension it fails. *)
Theorem getlin_reads_line_and_column (M : SymMatrix.t) (i : nat)
        (junk : nat -> Q) :
  SymMatrix.wf M ->
  (SymMatrix.nlin M <= i -> SymMatrixOps.getlin M i junk = None)
  /\ (i < SymMatrix.nlin M ->
      exists v,
        SymMatrixOps.getlin M i junk = Some v
        /\ Vector.size v = SymMatrix.nlin M
        /\ forall j, j < SymMatrix.nlin M ->
             exists x, Vector.get v j = Some x
                       /\ SymMatrix.get M i j = Some x
                       /\ SymMatrix.get M j i = Some x).
Proof.
  intros Hwf. split.
  - intros Hi. unfold SymMatrixOps.getlin.
    destruct (Nat.ltb_spec i (SymMatrix.nlin M)); [lia | reflexivity].
  - intros Hi. destruct (getlin_entries M i junk Hwf Hi) as (v & E & Hs & Hv).
    exists v. split; [exact E|]. split; [exact Hs|].
    intros j Hj. destruct (get_total M i j Hwf Hi Hj) as [x Ex].
    exists x. rewrite Hv by exact Hj. split; [exact Ex|].
    split; [exact Ex | rewrite get_sym; exact Ex].
Qed.

(** X9. [setlin(i,v)], for a vector of the dimension of the matrix and a
    line i of it, writes the vector into the line i and, the storage being
    shared, into the column i as well; the entries off that line and that
    column are unchanged, and [getlin(i)] then returns the vector.  With a
    vector of another size, or a line beyond the dimension, it fails. *)
Theorem setlin_writes_line_and_column (M : SymMatrix.t) (i : nat)
        (v : Vector.t) :
  SymMatrix.wf M ->
  (Vector.size v <> SymMatrix.nlin M \/ SymMatrix.nlin M <= i ->
   SymMatrixOps.setlin M i v = None)
  /\ (Vector.size v = SymMatrix.nlin M -> i < SymMatrix.nlin M ->
      exists M',
        SymMatrixOps.setlin M i v = Some M'
        /\ SymMatrix.nlin M' = SymMatrix.nlin M /\ SymMatrix.wf M'
        /\ (forall j, j < SymMatrix.nlin M ->
              exists x, Vector.get v j = Some x
                        /\ SymMatrix.get M' i j = Some x
                        /\ SymMatrix.get M' j i = Some x)
        /\ (forall a b, a <> i -> b <> i ->
                        SymMatrix.get M' a b = SymMatrix.get M a b)
        /\ forall junk, SymMatrixOps.getlin M' i junk = Some v).
Proof.
  intros Hwf. split.
  - intros H. unfold SymMatrixOps.setlin.
    destruct (Nat.eqb_spec (Vector.size v) (SymMatrix.nlin M));
      [|reflexivity].
    destruct (Nat.ltb_spec i (SymMatrix.nlin M)); [lia | reflexivity].
  - intros Hs Hi. unfold SymMatrixOps.setlin.
    destruct (Nat.eqb_spec (Vector.size v) (SymMatrix.nlin M)); [|lia].
    destruct (Nat.ltb_spec i (SymMatrix.nlin M)); [|lia]. simpl.
    set (n := SymMatrix.nlin M).
    assert (E : forall M0,
               foldlM (fun M1 j => x ← Vector.get v j; SymMatrix.put M1 i j x)
                      (seq 0 n) M0
               = foldlM (put_step (fun j => (i, j)) (Vector.get v))
                        (seq 0 n) M0) by reflexivity.
    rewrite E.
    assert (Hval : forall j, j < n -> exists x, Vector.get v j = Some x).
    { intros j Hj. apply lookup_lt_is_Some_2. fold (Vector.size v). lia. }
    destruct (put_loop_total (fun j => (i, j)) (Vector.get v) (seq 0 n) M
                             Hwf)
      as [M' EM].
    { intros j Hj. apply in_seq in Hj. simpl. fold n.
      split; [lia|]. split; [lia|]. apply Hval. lia. }
    destruct (put_loop_frame _ _ _ _ _ Hwf EM) as (Hn & Hw & _ & Hf).
    assert (Hrow : forall j, j < n -> SymMatrix.get M' i j = Vector.get v j).
    { intros j Hj.
      refine (put_loop_value (fun j => (i, j)) (Vector.get v) (seq 0 n) M M'
                             Hwf _ EM j _); [|apply in_seq; lia].
      intros a b _ _ Ec. apply cell_eq_iff in Ec.
      assert (a = b) as -> by lia. reflexivity. }
    exists M'. split; [exact EM|]. split; [exact Hn|].
    split; [exact Hw|]. split; [|split].
    + intros j Hj. destruct (Hval j Hj) as [x Ex]. exists x.
      split; [exact Ex|]. rewrite <- Ex.
      split; [apply Hrow; exact Hj | rewrite get_sym; apply Hrow; exact Hj].
    + intros a b Ha Hb. apply Hf. intros j _ Ec.
      change (cell (a, b) = cell (i, j)) in Ec. apply cell_eq_iff in Ec. lia.
    + intros junk.
      destruct (getlin_entries M' i junk Hw) as (v' & E' & Hs' & Hv');
        [rewrite Hn; exact Hi|].
      rewrite E'. f_equal. destruct v as [d], v' as [d']. f_equal.
      apply list_eq. intros k. unfold Vector.size in Hs, Hs'. simpl in *.
      destruct (Nat.lt_ge_cases k n) as [Hk|Hk].
      * rewrite Hn in Hv'. specialize (Hv' k Hk).
        unfold Vector.get in Hv'. simpl in Hv'. rewrite Hv'.
        rewrite (Hrow k Hk). reflexivity.
      * rewrite !lookup_ge_None_2; [reflexivity | lia | rewrite Hs', Hn; exact Hk].
Qed.

(** ** Sums of values *)

Section Sums.

Lemma Qsum_app (l1 l2 : list Q) : (Qsum (l1 ++ l2) == Qsum l1 + Qsum l2)%Q.
Proof.
  induction l1 as [|x l1 IH]; simpl; [ring|]. rewrite IH. ring.
Qed.

Lemma Qsum_seq_snoc (f : nat -> Q) (a n : nat) :
  (Qsum (map f (seq a (S n))) == Qsum (map f (seq a n)) + f (a + n)%nat)%Q.
Proof.
  rewrite seq_S, map_app, Qsum_app. simpl. ring.
Qed.

Lemma Qsum_map_ext {A : Type} (f g : A -> Q) (l : list A) :
  (forall x, In x l -> (f x == g x)%Q) ->
  (Qsum (map f l) == Qsum (map g l))%Q.
Proof.
  induction l as [|x l IH]; intros H; simpl; [reflexivity|].
  rewrite (H x (or_introl eq_refl)), IH; [reflexivity|].
  intros y Hy. apply H. right. exact Hy.
Qed.

Lemma Qsum_map_scale {A : Type} (c : Q) (f : A -> Q) (l : list A) :
  (Qsum (map (fun x => c * f x) l) == c * Qsum (map f l))%Q.
Proof.
  induction l as [|x l IH]; simpl; [ring|]. rewrite IH. ring.
Qed.

Lemma Qsum_map_plus {A : Type} (f g : A -> Q) (l : list A) :
  (Qsum (map (fun x => f x + g x) l)
   == Qsum (map f l) + Qsum (map g l))%Q.
Proof.
  induction l as [|x l IH]; simpl; [ring|]. rewrite IH. ring.
Qed.

Lemma Qsum_map_zero {A : Type} (l : list A) :
  (Qsum (map (fun _ => 0) l) == 0)%Q.
Proof.
  induction l as [|x l IH]; simpl; [reflexivity|]. rewrite IH. ring.
Qed.

(** Two nested sums may be taken in either order. *)
Lemma Qsum_swap {A B : Type} (f : A -> B -> Q) (l1 : list A) (l2 : list B) :
  (Qsum (map (fun x => Qsum (map (fun y => f x y) l2)) l1)
   == Qsum (map (fun y => Qsum (map (fun x => f x y) l1)) l2))%Q.
Proof.
  induction l1 as [|x l1 IH]; simpl.
  - rewrite Qsum_map_zero. reflexivity.
  - rewrite IH, <- Qsum_map_plus. reflexivity.
Qed.

End Sums.

(** ** Entries of a vector *)

Section VectorFacts.

Implicit Types (v y : Vector.t) (i j : nat) (x : Q).

Lemma Vector_get_total v i :
  i < Vector.size v -> exists x, Vector.get v i = Some x.
Proof. intros Hi. apply lookup_lt_is_Some_2. exact Hi. Qed.

Lemma Vector_put_spec v i x :
  i < Vector.size v ->
  exists v',
    Vector.put v i x = Some v'
    /\ Vector.size v' = Vector.size v
    /\ Vector.get v' i = Some x
    /\ forall j, j <> i -> Vector.get v' j = Vector.get v j.
Proof.
  intros Hi. unfold Vector.put.
  destruct (Nat.ltb_spec i (Vector.size v)); [|lia].
  eexists. split; [reflexivity|]. unfold Vector.size, Vector.get. simpl.
  split; [apply length_insert|].
  split; [apply list_lookup_insert_eq; exact Hi|].
  intros j Hj. apply list_lookup_insert_ne. lia.
Qed.

Lemma Vector_new_size n (junk : nat -> Q) :
  Vector.size (Vector.new n junk) = n.
Proof.
  unfold Vector.size. simpl. rewrite length_map, length_seq. reflexivity.
Qed.

Lemma Vector_entry_get v i x :
  Vector.get v i = Some x -> Vector_entry v i = x.
Proof. unfold Vector_entry. intros ->. reflexivity. Qed.

Lemma entry_get (M : SymMatrix.t) i j x :
  SymMatrix.get M i j = Some x -> entry M i j = x.
Proof. unfold entry. intros ->. reflexivity. Qed.

Lemma entry_sym (M : SymMatrix.t) i j : entry M i j = entry M j i.
Proof. unfold entry. rewrite get_sym. reflexivity. Qed.

Lemma Matrix_entry_get (B : Matrix.t) i j x :
  Matrix.get B i j = Some x -> Matrix_entry B i j = x.
Proof. unfold Matrix_entry. intros ->. reflexivity. Qed.

End VectorFacts.

(** ** The product by a vector *)

Section MultVector.

Context (M : SymMatrix.t) (v : Vector.t).
Context (Hwf : SymMatrix.wf M) (Hsize : SymMatrix.nlin M = Vector.size v).

Local Abbreviation term i j := (entry M i j * Vector_entry v j)%Q.

Lemma mult_Vector_inner (i : nat) (Hi : i < SymMatrix.nlin M) (l : list nat) :
  forall (y : Vector.t) (acc : Q),
  Vector.size y = SymMatrix.nlin M ->
  Vector.get y i = Some acc ->
  (forall j, In j l -> j < SymMatrix.nlin M) ->
  exists y' s,
    foldlM (fun y j =>
              m ← SymMatrix.get M i j;
              x ← Vector.get v j;
              old ← Vector.get y i;
              Vector.put y i (old + m * x)%Q) l y = Some y'
    /\ Vector.size y' = SymMatrix.nlin M
    /\ Vector.get y' i = Some s
    /\ (s == acc + Qsum (map (fun j => term i j) l))%Q
    /\ forall k, k <> i -> Vector.get y' k = Vector.get y k.
Proof.
  induction l as [|j l IH]; intros y acc Hs Hacc Hl; simpl.
  - exists y, acc. split; [reflexivity|]. split; [exact Hs|].
    split; [exact Hacc|]. split; [ring | reflexivity].
  - assert (Hj : j < SymMatrix.nlin M) by (apply Hl; left; reflexivity).
    destruct (get_total M i j Hwf Hi Hj) as [m Em].
    destruct (Vector_get_total v j) as [x Ex]; [lia|].
    rewrite Em, Ex, Hacc. simpl.
    destruct (Vector_put_spec y i (acc + m * x)%Q) as (y1 & E1 & Hs1 & Hg1 & Hf1);
      [lia|].
    rewrite E1.
    destruct (IH y1 (acc + m * x)%Q) as (y' & s & E & Hs' & Hg & Hsum & Hf).
    { congruence. }
    { exact Hg1. }
    { intros k Hk. apply Hl. right. exact Hk. }
    exists y', s. split; [exact E|]. split; [exact Hs'|].
    split; [exact Hg|]. split.
    + rewrite Hsum. rewrite (entry_get _ _ _ _ Em), (Vector_entry_get _ _ _ Ex).
      ring.
    + intros k Hk. rewrite Hf by exact Hk. apply Hf1. exact Hk.
Qed.

Lemma mult_Vector_outer (n : nat) : forall (a0 : nat) (y : Vector.t),
  a0 + n <= SymMatrix.nlin M ->
  Vector.size y = SymMatrix.nlin M ->
  exists y',
    foldlM (fun y i =>
              y ← Vector.put y i 0%Q;
              foldlM (fun y j =>
                        m ← SymMatrix.get M i j;
                        x ← Vector.get v j;
                        old ← Vector.get y i;
                        Vector.put y i (old + m * x)%Q)
                     (seq 0 (SymMatrix.nlin M)) y)
           (seq a0 n) y = Some y'
    /\ Vector.size y' = SymMatrix.nlin M
    /\ (forall i, a0 <= i < a0 + n ->
          exists s, Vector.get y' i = Some s
                    /\ (s == Qsum (map (fun j => term i j)
                                       (seq 0 (SymMatrix.nlin M))))%Q)
    /\ forall i, ~ a0 <= i < a0 + n -> Vector.get y' i = Vector.get y i.
Proof.
  induction n as [|n IH]; intros a0 y Ha Hs; simpl.
  - exists y. split; [reflexivity|]. split; [exact Hs|].
    split; [intros i; lia | reflexivity].
  - destruct (Vector_put_spec y a0 0%Q) as (y1 & E1 & Hs1 & Hg1 & Hf1); [lia|].
    rewrite E1. simpl.
    destruct (mult_Vector_inner a0 ltac:(lia) (seq 0 (SymMatrix.nlin M))
                                y1 0%Q)
      as (y2 & s & E2 & Hs2 & Hg2 & Hsum & Hf2).
    { congruence. }
    { exact Hg1. }
    { intros j Hj. apply in_seq in Hj. lia. }
    rewrite E2.
    destruct (IH (Datatypes.S a0) y2) as (y' & E & Hs' & Hin & Hout);
      [lia | exact Hs2 |].
    exists y'. split; [exact E|]. split; [exact Hs'|]. split.
    + intros i Hi. destruct (Nat.eq_dec i a0) as [->|Hne].
      * exists s. rewrite Hout by lia. split; [exact Hg2|].
        rewrite Hsum. ring.
      * apply Hin. lia.
    + intros i Hi. rewrite Hout by lia. rewrite Hf2 by lia. apply Hf1. lia.
Qed.

Lemma mult_Vector_entries (junk : nat -> Q) :
  exists y,
    SymMatrixOps.mult_Vector M v junk = Some y
    /\ Vector.size y = SymMatrix.nlin M
    /\ forall i, i < SymMatrix.nlin M ->
         exists s, Vector.get y i = Some s
                   /\ (s == Qsum (map (fun j => term i j)
                                      (seq 0 (SymMatrix.nlin M))))%Q.
Proof.
  unfold SymMatrixOps.mult_Vector.
  destruct (Nat.eqb_spec (SymMatrix.nlin M) (Vector.size v)); [|lia]. simpl.
  destruct (mult_Vector_outer (SymMatrix.nlin M) 0
                              (Vector.new (SymMatrix.nlin M) junk))
    as (y & E & Hs & Hin & _); [lia | apply Vector_new_size |].
  exists y. split; [exact E|]. split; [exact Hs|].
  intros i Hi. apply Hin. lia.
Qed.

End MultVector.

(** X10. The product of a packed symmetric matrix by a vector fails when
    the size of the vector is not the dimension of the matrix; otherwise it
    is the vector of that size whose entry i is the sum over j of the
    entry (i,j) of the matrix times the entry j of the vector, whatever the
    storage allocated for it held. *)
Theorem mult_Vector_is_the_product (M : SymMatrix.t) (v : Vector.t)
        (junk : nat -> Q) :
  SymMatrix.wf M ->
  (SymMatrix.nlin M <> Vector.size v ->
   SymMatrixOps.mult_Vector M v junk = None)
  /\ (SymMatrix.nlin M = Vector.size v ->
      exists y,
        SymMatrixOps.mult_Vector M v junk = Some y
        /\ Vector.size y = SymMatrix.nlin M
        /\ forall i, i < SymMatrix.nlin M ->
             exists s,
               Vector.get y i = Some s
               /\ (s == Qsum (map (fun j => entry M i j * Vector_entry v j)
                                  (seq 0 (SymMatrix.nlin M))))%Q).
Proof.
  intros Hwf. split.
  - intros Hne. unfold SymMatrixOps.mult_Vector.
    destruct (Nat.eqb_spec (SymMatrix.nlin M) (Vector.size v));
      [contradiction | reflexivity].
  - intros Hs. apply mult_Vector_entries; assumption.
Qed.

(** ** The product by a dense matrix *)

Lemma Matrix_add_spec (C : Matrix.t) (i j : nat) (d : Q) :
  Matrix.wf C -> i < Matrix.nlin C -> j < Matrix.ncol C ->
  exists old C',
    Matrix.get C i j = Some old
    /\ sink_add C i j d = Some C'
    /\ Matrix.nlin C' = Matrix.nlin C /\ Matrix.ncol C' = Matrix.ncol C
    /\ Matrix.wf C'
    /\ Matrix.get C' i j = Some (old + d)%Q
    /\ forall a b, (a, b) <> (i, j) -> Matrix.get C' a b = Matrix.get C a b.
Proof.
  intros Hwf Hi Hj.
  destruct (Matrix_get_total C i j Hwf Hi Hj) as [old Eold].
  destruct (Matrix_put_total C i j (old + d)%Q Hi Hj)
    as (C' & E & Hn & Hc & Hw).
  exists old, C'. split; [exact Eold|]. split.
  - unfold sink_add. simpl. rewrite Eold. exact E.
  - split; [exact Hn|]. split; [exact Hc|]. split; [auto|]. split.
    + eapply Matrix_get_put_eq; eauto.
    + intros a b Hab. eapply Matrix_get_put_ne; eauto.
Qed.

Section MultMatrix.

Context (M : SymMatrix.t) (B : Matrix.t).
Context (Hwf : SymMatrix.wf M) (HwB : Matrix.wf B)
        (Hn : SymMatrix.nlin M = Matrix.nlin B).

Local Abbreviation shape C :=
  (Matrix_shape (SymMatrix.nlin M) (Matrix.ncol B) C).

Local Abbreviation prod i j t :=
  (Qsum (map (fun k => entry M i k * Matrix_entry B k j)%Q (seq 0 t))).

(** The loop over [k] of the line [i] of the column [j]. *)
Lemma mult_Matrix_k (i j : nat) (Hi : i < SymMatrix.nlin M)
      (Hj : j < Matrix.ncol B) (t : nat) :
  forall (a0 : nat) (C : Matrix.t) (sum : Q),
  a0 + t <= i -> shape C ->
  exists C' sum',
    foldlM (fun '(C, sum) k =>
              mik ← SymMatrix.get M i k;
              bij ← Matrix.get B i j;
              C ← sink_add C k j (mik * bij)%Q;
              bkj ← Matrix.get B k j;
              Some (C, (sum + mik * bkj)%Q))
           (seq a0 t) (C, sum) = Some (C', sum')
    /\ shape C'
    /\ (sum' == sum + Qsum (map (fun k => entry M i k * Matrix_entry B k j)
                                (seq a0 t)))%Q
    /\ (forall k, a0 <= k < a0 + t ->
          exists c, Matrix.get C k j = Some c
                    /\ Matrix.get C' k j
                       = Some (c + entry M i k * Matrix_entry B i j)%Q)
    /\ forall a b, ~ (b = j /\ a0 <= a < a0 + t) ->
                   Matrix.get C' a b = Matrix.get C a b.
Proof.
  induction t as [|t IH]; intros a0 C sum Ha (HnC & HcC & HwC).
  - exists C, sum. split; [reflexivity|]. split; [repeat split; assumption|].
    split; [simpl; ring|]. split; [intros k; lia | reflexivity].
  - destruct (get_total M i a0 Hwf Hi) as [mik Emik]; [lia|].
    destruct (Matrix_get_total B i j HwB) as [bij Ebij]; [lia | exact Hj |].
    destruct (Matrix_get_total B a0 j HwB) as [bkj Ebkj]; [lia | exact Hj |].
    destruct (Matrix_add_spec C a0 j (mik * bij)%Q HwC)
      as (c & C1 & Ec & E1 & Hn1 & Hc1 & Hw1 & Hg1 & Hf1); [lia | lia |].
    destruct (IH (Datatypes.S a0) C1 (sum + mik * bkj)%Q)
      as (C' & sum' & E & Hs' & Hsum & Hin & Hout).
    { lia. }
    { repeat split; [congruence | congruence | exact Hw1]. }
    exists C', sum'. split.
    { match goal with |- foldlM ?f _ _ = _ => set (F := f) in * end.
      assert (EF : F (C, sum) a0 = Some (C1, (sum + mik * bkj)%Q)).
      { unfold F. rewrite Emik. simpl. rewrite Ebij. simpl. rewrite E1.
        simpl. rewrite Ebkj. reflexivity. }
      cbn [seq foldlM]. rewrite EF. exact E. }
    split; [exact Hs'|]. split; [|split].
    + rewrite Hsum. simpl.
      rewrite (entry_get _ _ _ _ Emik), (Matrix_entry_get _ _ _ _ Ebkj). ring.
    + intros k Hk. destruct (Nat.eq_dec k a0) as [->|Hne].
      * exists c. split; [exact Ec|]. rewrite Hout by lia. rewrite Hg1.
        rewrite (entry_get _ _ _ _ Emik), (Matrix_entry_get _ _ _ _ Ebij).
        reflexivity.
      * destruct (Hin k) as (c' & Ec' & E'); [lia|].
        exists c'. split; [|exact E'].
        rewrite <- Ec'. symmetry. apply Hf1. intros [= ->]. lia.
    + intros a b Hab. rewrite Hout by lia. apply Hf1.
      intros [= -> ->]. lia.
Qed.

(** The loop over the lines of the column [j]: when the lines before [a0]
    are done, the entries of the column above the line [a0] hold the
    products restricted to the columns of [M] before [a0]. *)
Lemma mult_Matrix_rows (j : nat) (Hj : j < Matrix.ncol B) (t : nat) :
  forall (a0 : nat) (C : Matrix.t),
  a0 + t <= SymMatrix.nlin M -> shape C ->
  (forall r, r < a0 ->
             exists c, Matrix.get C r j = Some c /\ (c == prod r j a0)%Q) ->
  exists C',
    foldlM (fun C i =>
              '(C, sum) ← foldlM (fun '(C, sum) k =>
                                    mik ← SymMatrix.get M i k;
                                    bij ← Matrix.get B i j;
                                    C ← sink_add C k j (mik * bij)%Q;
                                    bkj ← Matrix.get B k j;
                                    Some (C, (sum + mik * bkj)%Q))
                                 (seq 0 i) (C, 0%Q);
              mii ← SymMatrix.get M i i;
              bij ← Matrix.get B i j;
              Matrix.put C i j (mii * bij + sum)%Q)
           (seq a0 t) C = Some C'
    /\ shape C'
    /\ (forall r, r < a0 + t ->
          exists c, Matrix.get C' r j = Some c
                    /\ (c == prod r j (a0 + t))%Q)
    /\ forall a b, b <> j -> Matrix.get C' a b = Matrix.get C a b.
Proof.
  induction t as [|t IH]; intros a0 C Ha Hs Hdone.
  - exists C. split; [reflexivity|]. split; [exact Hs|]. split.
    + intros r Hr. rewrite Nat.add_0_r in Hr |- *. apply Hdone. exact Hr.
    + reflexivity.
  - destruct (mult_Matrix_k a0 j ltac:(lia) Hj a0 0 C 0%Q ltac:(lia) Hs)
      as (C1 & sum1 & E1 & (Hn1 & Hc1 & Hw1) & Hsum & Hin1 & Hout1).
    destruct (get_total M a0 a0 Hwf) as [mii Emii]; [lia | lia |].
    destruct (Matrix_get_total B a0 j HwB) as [bij Ebij]; [lia | exact Hj |].
    destruct (Matrix_put_total C1 a0 j (mii * bij + sum1)%Q)
      as (C2 & E2 & Hn2 & Hc2 & Hw2); [lia | lia |].
    match goal with |- exists C', foldlM ?f _ _ = _ /\ _ =>
      set (F := f) in *
    end.
    assert (EF : F C a0 = Some C2).
    { unfold F. rewrite E1. simpl. rewrite Emii. simpl. rewrite Ebij.
      simpl. exact E2. }
    cbn [seq foldlM]. rewrite EF.
    destruct (IH (Datatypes.S a0) C2) as (C' & E & Hs' & Hin & Hout).
    { lia. }
    { repeat split; [congruence | congruence | auto]. }
    { intros r Hr. destruct (Nat.eq_dec r a0) as [->|Hne].
      - exists (mii * bij + sum1)%Q.
        split; [eapply Matrix_get_put_eq; eauto|].
        rewrite Hsum, Qsum_seq_snoc. simpl.
        rewrite (entry_get _ _ _ _ Emii), (Matrix_entry_get _ _ _ _ Ebij).
        ring.
      - destruct (Hin1 r) as (c & Ec & Ec1); [lia|].
        destruct (Hdone r) as (c' & Ec' & Hc'); [lia|].
        rewrite Ec in Ec'. injection Ec' as <-.
        exists (c + entry M a0 r * Matrix_entry B a0 j)%Q. split.
        + rewrite <- Ec1. eapply Matrix_get_put_ne; [exact E2|].
          intros [= ->]. lia.
        + rewrite Qsum_seq_snoc, Hc'. simpl. rewrite (entry_sym M r a0).
          reflexivity. }
    exists C'. split; [exact E|]. split; [exact Hs'|]. split.
    + intros r Hr. replace (a0 + Datatypes.S t) with (Datatypes.S a0 + t) by lia.
      apply Hin. lia.
    + intros a b Hb. rewrite Hout by exact Hb.
      rewrite (Matrix_get_put_ne _ _ _ _ _ a b E2) by (intros [= _ ->]; lia).
      apply Hout1. lia.
Qed.

(** The loop over the columns. *)
Lemma mult_Matrix_cols (t : nat) : forall (a0 : nat) (C : Matrix.t),
  a0 + t <= Matrix.ncol B -> shape C ->
  exists C',
    foldlM (fun C j =>
              foldlM (fun C i =>
                        '(C, sum) ← foldlM (fun '(C, sum) k =>
                                              mik ← SymMatrix.get M i k;
                                              bij ← Matrix.get B i j;
                                              C ← sink_add C k j (mik * bij)%Q;
                                              bkj ← Matrix.get B k j;
                                              Some (C, (sum + mik * bkj)%Q))
                                           (seq 0 i) (C, 0%Q);
                        mii ← SymMatrix.get M i i;
                        bij ← Matrix.get B i j;
                        Matrix.put C i j (mii * bij + sum)%Q)
                     (seq 0 (SymMatrix.nlin M)) C)
           (seq a0 t) C = Some C'
    /\ shape C'
    /\ (forall i j, i < SymMatrix.nlin M -> a0 <= j < a0 + t ->
          exists c, Matrix.get C' i j = Some c
                    /\ (c == prod i j (SymMatrix.nlin M))%Q)
    /\ forall a b, ~ a0 <= b < a0 + t -> Matrix.get C' a b = Matrix.get C a b.
Proof.
  induction t as [|t IH]; intros a0 C Ha Hs.
  - exists C. split; [reflexivity|]. split; [exact Hs|].
    split; [intros i j _; lia | reflexivity].
  - destruct (mult_Matrix_rows a0 ltac:(lia) (SymMatrix.nlin M) 0 C
                               ltac:(lia) Hs)
      as (C1 & E1 & Hs1 & Hin1 & Hout1); [intros r; lia|].
    cbn [seq foldlM]. rewrite E1.
    destruct (IH (Datatypes.S a0) C1) as (C' & E & Hs' & Hin & Hout);
      [lia | exact Hs1 |].
    exists C'. split; [exact E|]. split; [exact Hs'|]. split.
    + intros i j Hi Hj. destruct (Nat.eq_dec j a0) as [->|Hne].
      * rewrite Hout by lia. apply Hin1. simpl. exact Hi.
      * apply Hin; [exact Hi | lia].
    + intros a b Hb. rewrite Hout by lia. apply Hout1. lia.
Qed.

End MultMatrix.

(** X12. The product of a packed symmetric matrix by a dense matrix fails
    when the number of lines of the dense matrix is not the dimension;
    otherwise it is the dense matrix of the same shape whose entry at (i,j)
    is the sum over k of the entry (i,k) of the symmetric matrix times the
    entry (k,j) of the dense one.  The result is allocated and never
    initialised, and entries of it are added to, but each one only after
    it has been assigned: what the storage held does not reach the
    result. *)
Theorem mult_Matrix_is_the_product (M : SymMatrix.t) (B : Matrix.t)
        (junk : nat -> Q) :
  SymMatrix.wf M -> Matrix.wf B ->
  (SymMatrix.nlin M <> Matrix.nlin B ->
   SymMatrixOps.mult_Matrix M B junk = None)
  /\ (SymMatrix.nlin M = Matrix.nlin B ->
      exists C,
        SymMatrixOps.mult_Matrix M B junk = Some C
        /\ Matrix.nlin C = SymMatrix.nlin M
        /\ Matrix.ncol C = Matrix.ncol B
        /\ Matrix.wf C
        /\ forall i j, i < SymMatrix.nlin M -> j < Matrix.ncol B ->
             exists c,
               Matrix.get C i j = Some c
               /\ (c == Qsum (map (fun k => entry M i k * Matrix_entry B k j)
                                  (seq 0 (SymMatrix.nlin M))))%Q).
Proof.
  intros Hwf HwB. split.
  - intros Hne. unfold SymMatrixOps.mult_Matrix.
    destruct (Nat.eqb_spec (SymMatrix.nlin M) (Matrix.nlin B));
      [contradiction | reflexivity].
  - intros Hn. unfold SymMatrixOps.mult_Matrix.
    destruct (Nat.eqb_spec (SymMatrix.nlin M) (Matrix.nlin B)); [|lia].
    cbn [negb]. cbv zeta.
    destruct (mult_Matrix_cols M B Hwf HwB Hn (Matrix.ncol B) 0
                (Matrix.new (SymMatrix.nlin M) (Matrix.ncol B) junk))
      as (C & E & (HnC & HcC & HwC) & Hin & _).
    { lia. }
    { apply Matrix_set_new_shape. }
    exists C. split; [exact E|]. split; [exact HnC|]. split; [exact HcC|].
    split; [exact HwC|]. intros i j Hi Hj. apply Hin; [exact Hi | lia].
Qed.

(** ** What [info] reports *)

Section Info.

Context (M : SymMatrix.t) (Hwf : SymMatrix.wf M).

Local Abbreviation extrema_step :=
  (fun (r : SymMatrixOps.Report) (p : nat * nat) =>
     value ← SymMatrix.get M (fst p) (snd p);
     if SymMatrixOps.Qgt_bool (SymMatrixOps.minv r) value then
       Some {| SymMatrixOps.minv := value; SymMatrixOps.mini := fst p;
               SymMatrixOps.minj := snd p;
               SymMatrixOps.maxv := SymMatrixOps.maxv r;
               SymMatrixOps.maxi := SymMatrixOps.maxi r;
               SymMatrixOps.maxj := SymMatrixOps.maxj r;
               SymMatrixOps.first_values := SymMatrixOps.first_values r |}
     else if SymMatrixOps.Qgt_bool value (SymMatrixOps.maxv r) then
       Some {| SymMatrixOps.minv := SymMatrixOps.minv r;
               SymMatrixOps.mini := SymMatrixOps.mini r;
               SymMatrixOps.minj := SymMatrixOps.minj r;
               SymMatrixOps.maxv := value; SymMatrixOps.maxi := fst p;
               SymMatrixOps.maxj := snd p;
               SymMatrixOps.first_values := SymMatrixOps.first_values r |}
     else Some r).

Lemma Qgt_bool_true (a b : Q) :
  SymMatrixOps.Qgt_bool a b = true -> (b < a)%Q.
Proof.
  unfold SymMatrixOps.Qgt_bool. intros H. apply negb_true_iff in H.
  apply Qnot_le_lt. intros Hle. apply Qle_bool_iff in Hle. congruence.
Qed.

Lemma Qgt_bool_false (a b : Q) :
  SymMatrixOps.Qgt_bool a b = false -> (a <= b)%Q.
Proof.
  unfold SymMatrixOps.Qgt_bool. intros H. apply negb_false_iff in H.
  apply Qle_bool_iff. exact H.
Qed.

Lemma info_extrema_loop (l : list (nat * nat)) :
  forall r : SymMatrixOps.Report,
  attained M r ->
  (forall p, In p l -> fst p < SymMatrix.nlin M /\ snd p < SymMatrix.nlin M) ->
  exists r',
    foldlM extrema_step l r = Some r'
    /\ attained M r'
    /\ (SymMatrixOps.minv r' <= SymMatrixOps.minv r)%Q
    /\ (SymMatrixOps.maxv r <= SymMatrixOps.maxv r')%Q
    /\ SymMatrixOps.first_values r' = SymMatrixOps.first_values r
    /\ forall p, In p l ->
         exists x, SymMatrix.get M (fst p) (snd p) = Some x
                   /\ (SymMatrixOps.minv r' <= x <= SymMatrixOps.maxv r')%Q.
Proof.
  induction l as [|p l IH]; intros r (Hle & Hmin & Hmax) Hl.
  - exists r. split; [reflexivity|].
    split; [unfold attained; auto|].
    split; [apply Qle_refl|]. split; [apply Qle_refl|].
    split; [reflexivity | intros p []].
  - destruct (Hl p (or_introl eq_refl)) as [Hi Hj].
    destruct (get_total M _ _ Hwf Hi Hj) as [x Ex].
    assert (Hstep : exists r1,
               extrema_step r p = Some r1
               /\ attained M r1
               /\ (SymMatrixOps.minv r1 <= SymMatrixOps.minv r)%Q
               /\ (SymMatrixOps.maxv r <= SymMatrixOps.maxv r1)%Q
               /\ SymMatrixOps.first_values r1 = SymMatrixOps.first_values r
               /\ (SymMatrixOps.minv r1 <= x <= SymMatrixOps.maxv r1)%Q).
    { rewrite Ex. cbn [mbind option_bind].
      destruct (SymMatrixOps.Qgt_bool (SymMatrixOps.minv r) x) eqn:E1.
      - apply Qgt_bool_true in E1. eexists. split; [reflexivity|]. simpl.
        assert (x <= SymMatrixOps.maxv r)%Q
          by (eapply Qle_trans; [apply Qlt_le_weak; exact E1 | exact Hle]).
        unfold attained. simpl.
        repeat split; auto using Qle_refl, Qlt_le_weak.
      - apply Qgt_bool_false in E1.
        destruct (SymMatrixOps.Qgt_bool x (SymMatrixOps.maxv r)) eqn:E2.
        + apply Qgt_bool_true in E2. eexists. split; [reflexivity|]. simpl.
          assert (SymMatrixOps.minv r <= x)%Q by exact E1.
          unfold attained. simpl.
          repeat split; auto using Qle_refl, Qlt_le_weak.
        + apply Qgt_bool_false in E2. exists r. split; [reflexivity|].
          unfold attained. repeat split; auto using Qle_refl. }
    destruct Hstep as (r1 & E1 & Hatt1 & Hmin1 & Hmax1 & Hfv1 & Hx1 & Hx2).
    destruct (IH r1 Hatt1) as (r' & E & Hatt & Hmin' & Hmax' & Hfv & Hall).
    { intros q Hq. apply Hl. right. exact Hq. }
    exists r'. split.
    { cbn [foldlM]. rewrite E1. exact E. }
    split; [exact Hatt|].
    split; [eapply Qle_trans; eassumption|].
    split; [eapply Qle_trans; eassumption|].
    split; [congruence|].
    intros q [<-|Hq]; [|apply Hall; exact Hq].
    exists x. split; [exact Ex|]. split; eapply Qle_trans; eassumption.
Qed.

Lemma info_line_loop (i : nat) (l : list nat) : forall line : list Q,
  i < SymMatrix.nlin M -> (forall j, In j l -> j < SymMatrix.nlin M) ->
  foldlM (fun line j => x ← SymMatrix.get M i j; Some (line ++ [x])) l line
  = Some (line ++ map (entry M i) l).
Proof.
  induction l as [|j l IH]; intros line Hi Hl; simpl.
  - rewrite app_nil_r. reflexivity.
  - destruct (get_total M i j Hwf Hi) as [x Ex]; [apply Hl; left; reflexivity|].
    rewrite Ex. simpl. rewrite IH; [|exact Hi|].
    + rewrite (entry_get _ _ _ _ Ex), <- app_assoc. reflexivity.
    + intros k Hk. apply Hl. right. exact Hk.
Qed.

Lemma info_lines_loop (m : nat) (l : list nat) : forall lines : list (list Q),
  m <= SymMatrix.nlin M -> (forall i, In i l -> i < m) ->
  foldlM (fun lines i =>
            line ← foldlM (fun line j =>
                             x ← SymMatrix.get M i j; Some (line ++ [x]))
                          (seq i (m - i)) [];
            Some (lines ++ [line])) l lines
  = Some (lines ++ map (fun i => map (entry M i) (seq i (m - i))) l).
Proof.
  induction l as [|i l IH]; intros lines Hm Hl; simpl.
  - rewrite app_nil_r. reflexivity.
  - assert (Hi : i < m) by (apply Hl; left; reflexivity).
    rewrite info_line_loop; [|lia|].
    + simpl. rewrite IH; [|exact Hm|].
      * rewrite <- app_assoc. reflexivity.
      * intros k Hk. apply Hl. right. exact Hk.
    + intros j Hj. apply in_seq in Hj. lia.
Qed.

End Info.

(** X13. Of an empty matrix [info] reports that it is empty.  Of another
    it reports a least and a greatest value that are entries of the matrix
    at the places it gives, and between which every entry of the matrix
    lies, and as first values the entries (i,j) for i <= j below 5 and
    below the dimension, line after line. *)
Theorem info_reports_extrema (M : SymMatrix.t) :
  SymMatrix.wf M ->
  (SymMatrix.nlin M = 0 -> SymMatrixOps.info M = Some None)
  /\ (0 < SymMatrix.nlin M ->
      exists r,
        SymMatrixOps.info M = Some (Some r)
        /\ SymMatrix.get M (SymMatrixOps.mini r) (SymMatrixOps.minj r)
           = Some (SymMatrixOps.minv r)
        /\ SymMatrix.get M (SymMatrixOps.maxi r) (SymMatrixOps.maxj r)
           = Some (SymMatrixOps.maxv r)
        /\ (forall i j, i < SymMatrix.nlin M -> j < SymMatrix.nlin M ->
              exists x, SymMatrix.get M i j = Some x
                        /\ (SymMatrixOps.minv r <= x
                            <= SymMatrixOps.maxv r)%Q)
        /\ SymMatrixOps.first_values r
           = map (fun i => map (entry M i)
                               (seq i (Nat.min (SymMatrix.nlin M) 5 - i)))
                 (seq 0 (Nat.min (SymMatrix.nlin M) 5))).
Proof.
  intros Hwf. split.
  - intros H0. unfold SymMatrixOps.info. rewrite H0. reflexivity.
  - intros Hpos. unfold SymMatrixOps.info.
    destruct (Nat.eqb_spec (SymMatrix.nlin M) 0) as [H0|_]; [lia|].
    destruct (get_total M 0 0 Hwf Hpos Hpos) as [first Efirst].
    rewrite Efirst. cbn [mbind option_bind].
    set (n := SymMatrix.nlin M) in *.
    set (r0 := {| SymMatrixOps.minv := first; SymMatrixOps.mini := 0;
                  SymMatrixOps.minj := 0; SymMatrixOps.maxv := first;
                  SymMatrixOps.maxi := 0; SymMatrixOps.maxj := 0;
                  SymMatrixOps.first_values := [] |}).
    set (l := flat_map (fun i => map (pair i) (seq i (n - i))) (seq 0 n)).
    destruct (info_extrema_loop M Hwf l r0)
      as (r & E & (Hle & Hmin & Hmax) & _ & _ & _ & Hall).
    { unfold attained. simpl. split; [apply Qle_refl|]. split; exact Efirst. }
    { intros p Hp. apply in_pairs_from in Hp. fold n. lia. }
    match goal with
    | |- exists r', ?X ≫= _ = _ /\ _ =>
        assert (EX : X = Some r)
          by (rewrite <- E;
              exact (foldlM_nested _ (fun i => seq i (n - i)) (seq 0 n) r0))
    end.
    rewrite EX. cbn [mbind option_bind].
    rewrite (info_lines_loop M Hwf (Nat.min n 5) (seq 0 (Nat.min n 5)) []);
      [|fold n; lia | intros i Hi; apply in_seq in Hi; lia].
    cbn [mbind option_bind app].
    eexists. split; [reflexivity|]. simpl.
    split; [exact Hmin|]. split; [exact Hmax|]. split; [|reflexivity].
    intros i j Hi Hj.
    destruct (Nat.le_ge_cases i j) as [Hij|Hij].
    + destruct (Hall (i, j)) as (x & Ex & Hx);
        [apply in_pairs_from; simpl; lia|]. exists x. auto.
    + destruct (Hall (j, i)) as (x & Ex & Hx);
        [apply in_pairs_from; simpl; lia|]. exists x. simpl in Ex.
      rewrite get_sym. auto.
Qed.

(** ** The S blocks *)

Lemma NoDup_map_eq {A B : Type} (f : A -> B) (l : list A) (a b : A) :
  List.NoDup (map f l) -> In a l -> In b l -> f a = f b -> a = b.
Proof.
  induction l as [|x l IH]; intros Hnd Ha Hb E; [destruct Ha|].
  simpl in Hnd. apply List.NoDup_cons_iff in Hnd as [Hx Hnd].
  destruct Ha as [->|Ha], Hb as [->|Hb].
  - reflexivity.
  - exfalso. apply Hx. rewrite E. apply in_map. exact Hb.
  - exfalso. apply Hx. rewrite <- E. apply in_map. exact Ha.
  - apply IH; assumption.
Qed.

Lemma NoDup_app_inv {A : Type} (l1 l2 : list A) :
  List.NoDup (l1 ++ l2) ->
  List.NoDup l1 /\ List.NoDup l2 /\ forall a, In a l1 -> ~ In a l2.
Proof.
  intros Hnd. split; [eapply List.NoDup_app_remove_r; exact Hnd|].
  split; [eapply List.NoDup_app_remove_l; exact Hnd|].
  induction l1 as [|x l1 IH]; intros a Ha; [destruct Ha|].
  simpl in Hnd. apply List.NoDup_cons_iff in Hnd as [Hx Hnd].
  destruct Ha as [->|Ha].
  - intros H2. apply Hx. apply in_or_app. right. exact H2.
  - apply IH; assumption.
Qed.

Section SBlocks.

Context (env : Env).

Lemma Diagonal_S_rows_pairs (blk : DiagonalBlock.t) (coeff : Q)
      (ts : list Triangle.t) : forall M : SymMatrix.t,
  DiagonalBlock.S_rows env blk coeff ts M
  = foldlM (put_step triangle_pos
              (fun p => Some (S_value env (DiagonalBlock.integrator blk)
                                      coeff p)))
           (upper_pairs ts) M.
Proof.
  induction ts as [|T1 ts IH]; intros M; [reflexivity|].
  cbn [DiagonalBlock.S_rows upper_pairs]. rewrite foldlM_app, foldlM_map.
  rewrite (foldlM_ext _
             (fun s x => put_step triangle_pos
                           (fun p => Some (S_value env
                                             (DiagonalBlock.integrator blk)
                                             coeff p)) s (T1, x)))
    by reflexivity.
  destruct (foldlM _ (T1 :: ts) M); simpl; [apply IH | reflexivity].
Qed.

Lemma NonDiagonal_S_pairs (blk : NonDiagonalBlock.t) (coeff : Q)
      (M : SymMatrix.t) :
  NonDiagonalBlock.S env blk coeff M
  = foldlM (put_step triangle_pos
              (fun p => Some (S_value env (NonDiagonalBlock.integrator blk)
                                      coeff p)))
           (all_pairs (Mesh.triangles (NonDiagonalBlock.mesh1 blk))
                      (Mesh.triangles (NonDiagonalBlock.mesh2 blk))) M.
Proof.
  exact (foldlM_nested
           (put_step triangle_pos
              (fun p => Some (S_value env (NonDiagonalBlock.integrator blk)
                                      coeff p)))
           (fun _ => Mesh.triangles (NonDiagonalBlock.mesh2 blk))
           (Mesh.triangles (NonDiagonalBlock.mesh1 blk)) M).
Qed.

(** A loop of writes at pairs of triangles whose cells are pairwise
    different. *)
Lemma S_loop_spec (intg : Integrator) (coeff : Q)
      (l : list (Triangle.t * Triangle.t)) (M : SymMatrix.t) :
  SymMatrix.wf M ->
  (forall p, In p l -> Triangle.index (fst p) < SymMatrix.nlin M
                       /\ Triangle.index (snd p) < SymMatrix.nlin M) ->
  List.NoDup (map (pair_cell Triangle.index) l) ->
  exists M',
    foldlM (put_step triangle_pos (fun p => Some (S_value env intg coeff p)))
           l M = Some M'
    /\ SymMatrix.nlin M' = SymMatrix.nlin M /\ SymMatrix.wf M'
    /\ (forall p, In p l ->
          SymMatrix.get M' (Triangle.index (fst p)) (Triangle.index (snd p))
          = Some (S_value env intg coeff p)
          /\ SymMatrix.get M' (Triangle.index (snd p)) (Triangle.index (fst p))
             = Some (S_value env intg coeff p))
    /\ forall a b,
        (forall p, In p l ->
                   SymMatrix.index a b
                   <> SymMatrix.index (Triangle.index (fst p))
                                      (Triangle.index (snd p))) ->
        SymMatrix.get M' a b = SymMatrix.get M a b.
Proof.
  intros Hwf Hr Hnd.
  destruct (put_loop_total triangle_pos
              (fun p => Some (S_value env intg coeff p)) l M Hwf) as [M' E].
  { intros p Hp. destruct (Hr p Hp). simpl. eauto. }
  destruct (put_loop_frame _ _ _ _ _ Hwf E) as (Hn & Hw & _ & Hf).
  exists M'. split; [exact E|]. split; [exact Hn|]. split; [auto|].
  split; [|exact Hf].
  intros p Hp.
  assert (G : SymMatrix.get M' (Triangle.index (fst p))
                            (Triangle.index (snd p))
              = Some (S_value env intg coeff p)).
  { refine (put_loop_value triangle_pos _ l M M' Hwf _ E p Hp).
    intros x y Hx Hy Ec.
    rewrite (NoDup_map_eq (pair_cell Triangle.index) l x y Hnd Hx Hy Ec).
    reflexivity. }
  split; [exact G | rewrite get_sym; exact G].
Qed.

(** X14. The S block of the same-mesh engine, written into a packed
    symmetric matrix that covers the indices of the triangles of the mesh,
    these being pairwise different: for every pair of triangles (T1,T2) of
    the mesh with T2 not before T1, the entries at (T1,T2) and at (T2,T1)
    both hold the integral over T2 of the kernel of T1 times the
    coefficient, so that the integral over T1 of the kernel of T2 is never
    computed; the entries that pair no two triangles of the mesh are
    unchanged. *)
Theorem Diagonal_S_entries (blk : DiagonalBlock.t) (coeff : Q)
        (M : SymMatrix.t) :
  SymMatrix.wf M ->
  (forall T, In T (Mesh.triangles (DiagonalBlock.mesh blk)) ->
             Triangle.index T < SymMatrix.nlin M) ->
  List.NoDup (map Triangle.index (Mesh.triangles (DiagonalBlock.mesh blk))) ->
  exists M',
    DiagonalBlock.S env blk coeff M = Some M'
    /\ SymMatrix.nlin M' = SymMatrix.nlin M /\ SymMatrix.wf M'
    /\ (forall T1 T2,
          In (T1, T2) (upper_pairs (Mesh.triangles (DiagonalBlock.mesh blk))) ->
          SymMatrix.get M' (Triangle.index T1) (Triangle.index T2)
          = Some (integrate (DiagonalBlock.integrator blk)
                            (analyticS env T1) T2 * coeff)%Q
          /\ SymMatrix.get M' (Triangle.index T2) (Triangle.index T1)
             = Some (integrate (DiagonalBlock.integrator blk)
                               (analyticS env T1) T2 * coeff)%Q)
    /\ (forall T1 T2,
          In T1 (Mesh.triangles (DiagonalBlock.mesh blk)) ->
          In T2 (Mesh.triangles (DiagonalBlock.mesh blk)) ->
          In (T1, T2) (upper_pairs (Mesh.triangles (DiagonalBlock.mesh blk)))
          \/ In (T2, T1)
                (upper_pairs (Mesh.triangles (DiagonalBlock.mesh blk))))
    /\ forall a b,
        (forall T1 T2,
            In T1 (Mesh.triangles (DiagonalBlock.mesh blk)) ->
            In T2 (Mesh.triangles (DiagonalBlock.mesh blk)) ->
            SymMatrix.index a b
            <> SymMatrix.index (Triangle.index T1) (Triangle.index T2)) ->
        SymMatrix.get M' a b = SymMatrix.get M a b.
Proof.
  intros Hwf Hr Hnd. unfold DiagonalBlock.S. rewrite Diagonal_S_rows_pairs.
  destruct (S_loop_spec (DiagonalBlock.integrator blk) coeff
              (upper_pairs (Mesh.triangles (DiagonalBlock.mesh blk))) M Hwf)
    as (M' & E & Hn & Hw & Hv & Hf).
  { intros p Hp. apply in_upper_pairs in Hp as [H1 H2]. auto. }
  { apply upper_pairs_NoDup. exact Hnd. }
  exists M'. split; [exact E|]. split; [exact Hn|]. split; [exact Hw|].
  split; [|split].
  - intros T1 T2 Hp. exact (Hv (T1, T2) Hp).
  - intros T1 T2 H1 H2. apply upper_pairs_cover; assumption.
  - intros a b Hab. apply Hf. intros p Hp.
    apply in_upper_pairs in Hp as [H1 H2]. apply Hab; assumption.
Qed.

(** X15. The S block of the different-mesh engine, written into a packed
    symmetric matrix that covers the indices of the triangles of the two
    meshes, these being pairwise different: for every triangle T1 of the
    first mesh and T2 of the second, the entries at (T1,T2) and at (T2,T1)
    both hold the integral over T2 of the kernel of T1 times the
    coefficient; the entries that pair no triangle of the first mesh with
    one of the second are unchanged. *)
Theorem NonDiagonal_S_entries (blk : NonDiagonalBlock.t) (coeff : Q)
        (M : SymMatrix.t) :
  SymMatrix.wf M ->
  (forall T, In T (Mesh.triangles (NonDiagonalBlock.mesh1 blk))
             \/ In T (Mesh.triangles (NonDiagonalBlock.mesh2 blk)) ->
             Triangle.index T < SymMatrix.nlin M) ->
  List.NoDup (map Triangle.index
                  (Mesh.triangles (NonDiagonalBlock.mesh1 blk)
                   ++ Mesh.triangles (NonDiagonalBlock.mesh2 blk))) ->
  exists M',
    NonDiagonalBlock.S env blk coeff M = Some M'
    /\ SymMatrix.nlin M' = SymMatrix.nlin M /\ SymMatrix.wf M'
    /\ (forall T1 T2,
          In T1 (Mesh.triangles (NonDiagonalBlock.mesh1 blk)) ->
          In T2 (Mesh.triangles (NonDiagonalBlock.mesh2 blk)) ->
          SymMatrix.get M' (Triangle.index T1) (Triangle.index T2)
          = Some (integrate (NonDiagonalBlock.integrator blk)
                            (analyticS env T1) T2 * coeff)%Q
          /\ SymMatrix.get M' (Triangle.index T2) (Triangle.index T1)
             = Some (integrate (NonDiagonalBlock.integrator blk)
                               (analyticS env T1) T2 * coeff)%Q)
    /\ forall a b,
        (forall T1 T2,
            In T1 (Mesh.triangles (NonDiagonalBlock.mesh1 blk)) ->
            In T2 (Mesh.triangles (NonDiagonalBlock.mesh2 blk)) ->
            SymMatrix.index a b
            <> SymMatrix.index (Triangle.index T1) (Triangle.index T2)) ->
        SymMatrix.get M' a b = SymMatrix.get M a b.
Proof.
  intros Hwf Hr Hnd. rewrite NonDiagonal_S_pairs.
  rewrite map_app in Hnd. apply NoDup_app_inv in Hnd as (Hnd1 & Hnd2 & Hdis).
  destruct (S_loop_spec (NonDiagonalBlock.integrator blk) coeff
              (all_pairs (Mesh.triangles (NonDiagonalBlock.mesh1 blk))
                         (Mesh.triangles (NonDiagonalBlock.mesh2 blk)))
              M Hwf)
    as (M' & E & Hn & Hw & Hv & Hf).
  { intros p Hp. unfold all_pairs in Hp.
    apply in_flat_map in Hp as (T1 & H1 & Hp).
    apply in_map_iff in Hp as (T2 & <- & H2). simpl. auto. }
  { apply all_pairs_NoDup; [exact Hnd1 | exact Hnd2|].
    intros T1 T2 H1 H2 Ei. apply (Hdis (Triangle.index T1)).
    - apply in_map. exact H1.
    - rewrite Ei. apply in_map. exact H2. }
  exists M'. split; [exact E|]. split; [exact Hn|]. split; [exact Hw|].
  split.
  - intros T1 T2 H1 H2. apply (Hv (T1, T2)). unfold all_pairs.
    apply in_flat_map. exists T1. split; [exact H1|].
    apply in_map. exact H2.
  - intros a b Hab. apply Hf. intros p Hp. unfold all_pairs in Hp.
    apply in_flat_map in Hp as (T1 & H1 & Hp).
    apply in_map_iff in Hp as (T2 & <- & H2). simpl. apply Hab; assumption.
Qed.

End SBlocks.

(** ** The identity operator *)

Lemma NoDup_map_inj_on {A B : Type} (f : A -> B) (l : list A) :
  List.NoDup l ->
  (forall a b, In a l -> In b l -> f a = f b -> a = b) ->
  List.NoDup (map f l).
Proof.
  induction 1 as [|x l Hx Hnd IH]; intros Hinj; simpl; constructor.
  - intros Hin. apply in_map_iff in Hin as (y & E & Hy).
    apply Hinj in E; [subst; contradiction | right; exact Hy | left; reflexivity].
  - apply IH. intros a b Ha Hb. apply Hinj; right; assumption.
Qed.

Lemma NoDup_of_map {A B : Type} (f : A -> B) (l : list A) :
  List.NoDup (map f l) -> List.NoDup l.
Proof.
  induction l as [|x l IH]; intros Hnd; constructor;
    simpl in Hnd; apply List.NoDup_cons_iff in Hnd as [Hx Hnd].
  - intros Hin. apply Hx. apply in_map. exact Hin.
  - apply IH. exact Hnd.
Qed.

Lemma in_Id_visits (ts : list Triangle.t) (p : Triangle.t * nat) :
  In p (Id_visits ts) <-> In (fst p) ts /\ snd p < 3.
Proof.
  unfold Id_visits. rewrite in_flat_map. split.
  - intros (T & HT & Hp). apply in_map_iff in Hp as (i & <- & Hi).
    apply in_seq in Hi. simpl. split; [exact HT | lia].
  - intros [HT Hi]. exists (fst p). split; [exact HT|].
    apply in_map_iff. exists (snd p).
    split; [symmetry; apply surjective_pairing | apply in_seq; lia].
Qed.

Lemma Id_visits_NoDup (ts : list Triangle.t) :
  List.NoDup ts -> List.NoDup (Id_visits ts).
Proof.
  induction 1 as [|T ts HT Hnd IH]; [constructor|].
  unfold Id_visits in *. cbn [flat_map]. apply List.NoDup_app.
  - apply NoDup_map_injective; [intros a b [= ->]; reflexivity|].
    apply seq_NoDup.
  - exact IH.
  - intros p Hp Hq. apply in_map_iff in Hp as (i & <- & _).
    apply in_flat_map in Hq as (T' & HT' & Hq).
    apply in_map_iff in Hq as (j & [= -> _] & _). contradiction.
Qed.

(** A vertex of a triangle is contained in it: the second branch of [Id]
    is not taken by [addId]. *)
Lemma Id_of_own_vertex (T : Triangle.t) (i : nat) :
  DiagonalBlock.Id T (Triangle.vertex T i) = (Triangle.area T / 3)%Q.
Proof.
  unfold DiagonalBlock.Id, Triangle.contains, Triangle.vertex, Vertex.eqb.
  destruct i as [|[|i]]; rewrite Nat.eqb_refl, ?orb_true_r; reflexivity.
Qed.

(** X16. [addId], on a packed symmetric matrix that covers the indices
    involved, when the triangles of the mesh have pairwise different
    indices, each of them three vertices of pairwise different indices, and
    no triangle has the index of a vertex: for every triangle of the mesh
    and each of its three vertices, the entry at (triangle, vertex) is
    increased by the coefficient times a third of the area of the
    triangle, and no other entry changes. *)
Theorem addId_adds_a_third_of_the_area (blk : DiagonalBlock.t) (coeff : Q)
        (M : SymMatrix.t) :
  SymMatrix.wf M ->
  (forall T i, In T (Mesh.triangles (DiagonalBlock.mesh blk)) ->
               Triangle.index T < SymMatrix.nlin M
               /\ Vertex.index (Triangle.vertex T i) < SymMatrix.nlin M) ->
  List.NoDup (map Triangle.index (Mesh.triangles (DiagonalBlock.mesh blk))) ->
  (forall T i j, In T (Mesh.triangles (DiagonalBlock.mesh blk)) ->
                 i < 3 -> j < 3 ->
                 Vertex.index (Triangle.vertex T i)
                 = Vertex.index (Triangle.vertex T j) -> i = j) ->
  (forall T T' i, In T (Mesh.triangles (DiagonalBlock.mesh blk)) ->
                  In T' (Mesh.triangles (DiagonalBlock.mesh blk)) ->
                  Triangle.index T <> Vertex.index (Triangle.vertex T' i)) ->
  exists M',
    DiagonalBlock.addId blk coeff M = Some M'
    /\ SymMatrix.nlin M' = SymMatrix.nlin M
    /\ (forall T i, In T (Mesh.triangles (DiagonalBlock.mesh blk)) -> i < 3 ->
          exists old,
            SymMatrix.get M (Triangle.index T)
                          (Vertex.index (Triangle.vertex T i)) = Some old
            /\ SymMatrix.get M' (Triangle.index T)
                             (Vertex.index (Triangle.vertex T i))
               = Some (old + Triangle.area T / 3 * coeff)%Q)
    /\ forall a b,
        (forall T i, In T (Mesh.triangles (DiagonalBlock.mesh blk)) ->
                     SymMatrix.index a b
                     <> SymMatrix.index (Triangle.index T)
                          (Vertex.index (Triangle.vertex T i))) ->
        SymMatrix.get M' a b = SymMatrix.get M a b.
Proof.
  intros Hwf Hr Hnd Hv Hapart.
  set (ts := Mesh.triangles (DiagonalBlock.mesh blk)) in *.
  set (amount := fun (_ : SymMatrix.t) (p : Triangle.t * nat) =>
                   Some (DiagonalBlock.Id (fst p)
                           (Triangle.vertex (fst p) (snd p)) * coeff)%Q).
  assert (E : DiagonalBlock.addId blk coeff M
              = foldlM (add_step Id_pos amount) (Id_visits ts) M)
    by exact (foldlM_nested (add_step Id_pos amount)
                            (fun _ => seq 0 3) ts M).
  assert (Hcells : List.NoDup (map (fun p => cell (Id_pos p)) (Id_visits ts))).
  { apply NoDup_map_inj_on.
    - apply Id_visits_NoDup. eapply NoDup_of_map. exact Hnd.
    - intros [T i] [T' j] Hp Hq Ec.
      apply in_Id_visits in Hp as [HT Hi]. apply in_Id_visits in Hq as [HT' Hj].
      simpl in *. unfold Id_pos in Ec. apply cell_eq_iff in Ec. simpl in Ec.
      destruct Ec as [[Et Ev]|[Et _]].
      + assert (T = T') by (eapply NoDup_map_eq; eauto). subst T'.
        f_equal. eapply Hv; eauto.
      + exfalso. eapply Hapart; [exact HT | exact HT' | exact Et]. }
  destruct (add_loop_total Id_pos amount (fun _ => True) (Id_visits ts) M Hwf I)
    as [M' EM].
  { intros p Hp. apply in_Id_visits in Hp as [HT _]. apply Hr. exact HT. }
  { intros M1 p _ _. eexists. reflexivity. }
  { auto. }
  destruct (add_loop_frame _ _ _ _ _ Hwf EM) as (Hn & _ & Hf).
  exists M'. split; [rewrite E; exact EM|]. split; [exact Hn|]. split.
  - intros T i HT Hi.
    destruct (add_loop_hit Id_pos amount (Id_visits ts) (T, i) M M' Hwf Hcells)
      as (_ & _ & M1 & d & old & _ & _ & Hd & Hold & Hnew);
      [apply in_Id_visits; simpl; auto | exact EM |].
    unfold Id_pos in Hold, Hnew. simpl in Hold, Hnew.
    exists old. split; [exact Hold|]. rewrite Hnew. unfold amount in Hd.
    simpl in Hd. rewrite Id_of_own_vertex in Hd. injection Hd as <-.
    reflexivity.
  - intros a b Hab. apply Hf. intros p Hp.
    apply in_Id_visits in Hp as [HT _]. apply Hab. exact HT.
Qed.

(** ** Deflation of a geometry without outermost mesh *)

Lemma deflate_part_idle (M : SymMatrix.t) (part : list Mesh.t) :
  SymMatrix.wf M ->
  (forall m, In m part -> Mesh.outermost m = false) ->
  Details.deflate_part M part
  = if 0 <? SymMatrix.nlin M then Some M else None.
Proof.
  intros Hwf Hno.
  assert (Hf : List.filter Mesh.outermost part = []).
  { induction part as [|m part IH]; [reflexivity|]. simpl.
    rewrite (Hno m (or_introl eq_refl)). apply IH.
    intros m' Hm'. apply Hno. right. exact Hm'. }
  unfold Details.deflate_part.
  assert (E : Details.first_loop part = Some (0, 0))
    by exact (first_loop_idle part (0, 0) Hf).
  rewrite E. cbn [mbind option_bind].
  destruct (Nat.ltb_spec 0 (SymMatrix.nlin M)) as [Hpos|Hz].
  - destruct (get_total M 0 0 Hwf Hpos Hpos) as [d Ed].
    change (sink_get M 0 0) with (SymMatrix.get M 0 0). rewrite Ed.
    cbn [mbind option_bind].
    clear E Hf. induction part as [|m part IH]; [reflexivity|].
    cbn [foldlM]. rewrite (Hno m (or_introl eq_refl)). apply IH.
    intros m' Hm'. apply Hno. right. exact Hm'.
  - change (sink_get M 0 0) with (SymMatrix.get M 0 0).
    unfold SymMatrix.get.
    destruct (Nat.ltb_spec 0 (SymMatrix.nlin M)); [lia | reflexivity].
Qed.

(** X17. When no mesh of the isolated parts is outermost, deflation returns
    the matrix as it was, provided the matrix has an entry (0,0): for each
    part the coefficient is computed, as that entry divided by a count of
    zero vertices, and is never added.  On a matrix of dimension zero the
    read of that entry fails as soon as there is a part. *)
Theorem deflate_without_outermost (geo : Geometry.t) (M : SymMatrix.t) :
  SymMatrix.wf M ->
  (forall part m, In part (Geometry.isolated_parts geo) -> In m part ->
                  Mesh.outermost m = false) ->
  (0 < SymMatrix.nlin M -> Details.deflate M geo = Some M)
  /\ (SymMatrix.nlin M = 0 -> Geometry.isolated_parts geo <> [] ->
      Details.deflate M geo = None).
Proof.
  intros Hwf Hno. unfold Details.deflate.
  induction (Geometry.isolated_parts geo) as [|part parts IH].
  - split; [reflexivity | intros _ H; contradiction].
  - cbn [foldlM]. rewrite deflate_part_idle;
      [|exact Hwf | intros m Hm; apply (Hno part); [left; reflexivity | exact Hm]].
    destruct IH as [IH _];
      [intros p m Hp Hm; apply (Hno p); [right; exact Hp | exact Hm]|].
    split.
    + intros Hpos. destruct (Nat.ltb_spec 0 (SymMatrix.nlin M)); [|lia].
      apply IH. exact Hpos.
    + intros Hz _. destruct (Nat.ltb_spec 0 (SymMatrix.nlin M)); [lia|].
      reflexivity.
Qed.

(** ** The scaling loop of [CorticalMat2] *)

Lemma Qpower_succ (q : Q) (n : nat) :
  (q ^ Z.of_nat (S n) == q ^ Z.of_nat n * q)%Q.
Proof.
  rewrite Nat2Z.inj_succ. unfold Z.succ.
  rewrite Qpower_plus' by lia. rewrite Qpower_1_r. reflexivity.
Qed.

Section ScaleLoop.

Context (gamma : Q).

Implicit Types (G : SymMatrix.t).

(** The innermost loop multiplies one diagonal entry once for every
    element of the list it runs over, which it does not look at. *)
Lemma scale_inner {A : Type} (i : nat) (l : list A) : forall G,
  SymMatrix.wf G -> i < SymMatrix.nlin G ->
  exists G' g g',
    foldlM (fun G (_ : A) =>
              g ← SymMatrix.get G i i; SymMatrix.put G i i (g * gamma)%Q)
           l G = Some G'
    /\ SymMatrix.nlin G' = SymMatrix.nlin G /\ SymMatrix.wf G'
    /\ SymMatrix.get G i i = Some g /\ SymMatrix.get G' i i = Some g'
    /\ (g' == g * gamma ^ Z.of_nat (length l))%Q
    /\ forall a b, ~ (a = i /\ b = i) ->
                   SymMatrix.get G' a b = SymMatrix.get G a b.
Proof.
  induction l as [|x l IH]; intros G Hwf Hi.
  - destruct (get_total G i i Hwf Hi Hi) as [g Eg].
    exists G, g, g. split; [reflexivity|]. split; [reflexivity|].
    split; [exact Hwf|]. split; [exact Eg|]. split; [exact Eg|].
    split; [simpl; ring | reflexivity].
  - destruct (get_total G i i Hwf Hi Hi) as [g Eg].
    assert (E1 := put_total G i i (g * gamma)%Q Hwf Hi Hi).
    set (G1 := SymMatrix.Make (SymMatrix.nlin G)
                 (<[SymMatrix.index i i := (g * gamma)%Q]> (SymMatrix.value G)))
      in *.
    assert (Hw1 : SymMatrix.wf G1) by exact (put_wf G i i _ G1 E1 Hwf).
    destruct (IH G1 Hw1 Hi) as (G' & g1 & g' & E & Hn & Hw & Eg1 & Eg' & Hp & Hf).
    assert (Hg1 : SymMatrix.get G1 i i = Some (g * gamma)%Q)
      by exact (get_put_eq G i i _ G1 i i Hwf E1 eq_refl Hi Hi).
    rewrite Hg1 in Eg1. injection Eg1 as <-.
    exists G', g, g'. split.
    { cbn [foldlM]. rewrite Eg. cbn [mbind option_bind]. rewrite E1. exact E. }
    split; [exact Hn|]. split; [exact Hw|]. split; [exact Eg|].
    split; [exact Eg'|]. split.
    + rewrite Hp. cbn [length]. rewrite Qpower_succ. ring.
    + intros a b Hab. rewrite Hf by exact Hab.
      eapply get_put_ne; [exact Hwf | exact E1|]. intros Ec.
      apply index_eq_iff in Ec. tauto.
Qed.

(** The loops over the triangles of one mesh. *)
Lemma scale_mesh (n : nat) (inner : list Triangle.t) (ts : list Triangle.t) :
  forall G,
  SymMatrix.wf G -> SymMatrix.nlin G = n ->
  (forall T, In T ts -> Triangle.index T < n) ->
  List.NoDup (map Triangle.index ts) ->
  exists G',
    foldlM (fun G triangle1 =>
              foldlM (fun G (triangle2 : Triangle.t) =>
                        g ← SymMatrix.get G (Triangle.index triangle1)
                                          (Triangle.index triangle1);
                        SymMatrix.put G (Triangle.index triangle1)
                                      (Triangle.index triangle1)
                                      (g * gamma)%Q)
                     inner G)
           ts G = Some G'
    /\ SymMatrix.nlin G' = n /\ SymMatrix.wf G'
    /\ (forall T, In T ts ->
          exists g g',
            SymMatrix.get G (Triangle.index T) (Triangle.index T) = Some g
            /\ SymMatrix.get G' (Triangle.index T) (Triangle.index T) = Some g'
            /\ (g' == g * gamma ^ Z.of_nat (length inner))%Q)
    /\ forall a b, (forall T, In T ts -> ~ (a = Triangle.index T
                                             /\ b = Triangle.index T)) ->
                   SymMatrix.get G' a b = SymMatrix.get G a b.
Proof.
  induction ts as [|T1 ts IH]; intros G Hwf Hn Hr Hnd.
  - exists G. split; [reflexivity|]. split; [exact Hn|]. split; [exact Hwf|].
    split; [intros T [] | reflexivity].
  - simpl in Hnd. apply List.NoDup_cons_iff in Hnd as [Hx Hnd].
    destruct (scale_inner (Triangle.index T1) inner G Hwf)
      as (G1 & g & g1 & E1 & Hn1 & Hw1 & Eg & Eg1 & Hp1 & Hf1).
    { rewrite Hn. apply Hr. left. reflexivity. }
    destruct (IH G1 Hw1) as (G' & E & Hn' & Hw' & Hin & Hf).
    { congruence. }
    { intros T HT. apply Hr. right. exact HT. }
    { exact Hnd. }
    exists G'. split.
    { cbn [foldlM]. rewrite E1. exact E. }
    split; [exact Hn'|]. split; [exact Hw'|]. split.
    + intros T [<-|HT].
      * exists g, g1. split; [exact Eg|]. split; [|exact Hp1].
        rewrite Hf; [exact Eg1|].
        intros T HT [Ea _]. apply Hx. rewrite Ea. apply in_map. exact HT.
      * destruct (Hin T HT) as (g0 & g' & Eg0 & Eg' & Hp).
        exists g0, g'. split; [|split; [exact Eg' | exact Hp]].
        rewrite <- Eg0. symmetry. apply Hf1.
        intros [Ea _]. apply Hx. rewrite <- Ea. apply in_map. exact HT.
    + intros a b Hab. rewrite Hf by (intros T HT; apply Hab; right; exact HT).
      apply Hf1. apply Hab. left. reflexivity.
Qed.

End ScaleLoop.

(** X18. The loop of [CorticalMat2] that scales the gradient norms, on a
    matrix that covers the indices of the triangles of the meshes that are
    not current barriers, these indices being pairwise different: the
    diagonal entry of every such triangle is multiplied by gamma once for
    each triangle of its mesh, that is by gamma to the power of the number
    of triangles of the mesh, and no other entry changes. *)
Theorem CorticalMat2_scale_by_power (geo : Geometry.t) (gamma : Q)
        (G : SymMatrix.t) :
  SymMatrix.wf G ->
  (forall T, In T (current_triangles geo) ->
             Triangle.index T < SymMatrix.nlin G) ->
  List.NoDup (map Triangle.index (current_triangles geo)) ->
  exists G',
    CorticalMat2_scale geo gamma G = Some G'
    /\ SymMatrix.nlin G' = SymMatrix.nlin G
    /\ (forall mesh T,
          In mesh (Geometry.meshes geo) ->
          Mesh.current_barrier mesh = false ->
          In T (Mesh.triangles mesh) ->
          exists g g',
            SymMatrix.get G (Triangle.index T) (Triangle.index T) = Some g
            /\ SymMatrix.get G' (Triangle.index T) (Triangle.index T) = Some g'
            /\ (g' == g * gamma ^ Z.of_nat (length (Mesh.triangles mesh)))%Q)
    /\ forall a b,
        (forall T, In T (current_triangles geo) ->
                   ~ (a = Triangle.index T /\ b = Triangle.index T)) ->
        SymMatrix.get G' a b = SymMatrix.get G a b.
Proof.
  unfold CorticalMat2_scale, current_triangles.
  set (n := SymMatrix.nlin G).
  assert (Hn0 : SymMatrix.nlin G = n) by reflexivity. clearbody n.
  revert G Hn0.
  induction (Geometry.meshes geo) as [|m ms IH]; intros G Hn0 Hwf Hr Hnd.
  - exists G. split; [reflexivity|]. split; [exact Hn0|].
    split; [intros mesh T [] | reflexivity].
  - cbn [List.filter flat_map foldlM] in *.
    destruct (Mesh.current_barrier m) eqn:Ecb; cbn [negb] in *.
    + destruct (IH G Hn0 Hwf Hr Hnd) as (G' & E & Hn' & Hin & Hf).
      exists G'. split; [exact E|]. split; [exact Hn'|]. split; [|exact Hf].
      intros mesh T [<-|Hm] Hcb HT; [congruence|]. eapply Hin; eauto.
    + cbn [flat_map] in Hr, Hnd. rewrite map_app in Hnd.
      apply NoDup_app_inv in Hnd as (Hnd1 & Hnd2 & Hdis).
      destruct (scale_mesh gamma n (Mesh.triangles m) (Mesh.triangles m) G
                           Hwf Hn0)
        as (G1 & E1 & Hn1 & Hw1 & Hin1 & Hf1).
      { intros T HT. apply Hr. apply in_or_app. left. exact HT. }
      { exact Hnd1. }
      destruct (IH G1 Hn1 Hw1) as (G' & E & Hn' & Hin & Hf).
      { intros T HT. apply Hr. apply in_or_app. right. exact HT. }
      { exact Hnd2. }
      exists G'. split; [rewrite E1; exact E|].
      split; [congruence|]. split.
      * intros mesh T [<-|Hm] Hcb HT.
        -- destruct (Hin1 T HT) as (g & g1 & Eg & Eg1 & Hp).
           exists g, g1. split; [exact Eg|]. split; [|exact Hp].
           rewrite Hf; [exact Eg1|].
           intros T' HT' [Ea _]. apply (Hdis (Triangle.index T)).
           ++ apply in_map. exact HT.
           ++ rewrite Ea. apply in_map. exact HT'.
        -- destruct (Hin mesh T Hm Hcb HT) as (g1 & g' & Eg1 & Eg' & Hp).
           exists g1, g'. split; [|split; [exact Eg' | exact Hp]].
           rewrite <- Eg1. symmetry. apply Hf1.
           intros T' HT' [Ea _]. apply (Hdis (Triangle.index T')).
           ++ apply in_map. exact HT'.
           ++ rewrite <- Ea. apply in_map. apply in_flat_map.
              exists mesh. split; [|exact HT].
              apply filter_In. rewrite Hcb. split; [exact Hm | reflexivity].
      * intros a b Hab. rewrite Hf.
        -- apply Hf1. intros T HT. apply Hab. apply in_or_app. left. exact HT.
        -- intros T HT. apply Hab. apply in_or_app. right. exact HT.
Qed.

(** ** The entries of [DipSource2InternalPotMat] *)

Lemma Matrix_get_set_new (n m : nat) (junk : nat -> Q) (x : Q) (i j : nat) :
  i < n -> j < m ->
  Matrix.get (Matrix.set (Matrix.new n m junk) x) i j = Some x.
Proof.
  intros Hi Hj. unfold Matrix.get, Matrix.set. simpl.
  destruct (Nat.ltb_spec i n); [|lia]. destruct (Nat.ltb_spec j m); [|lia].
  simpl.
  destruct (fill_spec x (Matrix.size (Matrix.new n m junk)) 0
                      (map junk (seq 0 (n * m)))) as [_ Hk].
  unfold Matrix.index. simpl. unfold Matrix.size in Hk. simpl in Hk.
  apply Hk; [nia|]. rewrite length_map, length_seq. nia.
Qed.

Section InternalPotential.

Context (env : Env) (geo : Geometry.t).

(** The points kept are those of the rows kept, in the order of the rows,
    each with the domain it lies in. *)
Lemma DipSource2InternalPotMat_points_content (points : Matrix.t) :
  Matrix.wf points -> 3 <= Matrix.ncol points ->
  exists st,
    DipSource2InternalPotMat_points geo points = Some st
    /\ map Some (pts st)
       = map (point_of_row points) (kept_rows geo points)
    /\ points_domain st = map (Geometry.domain_at geo) (pts st)
    /\ outside st = dropped_rows geo points.
Proof.
  intros Hwf Hc.
  unfold DipSource2InternalPotMat_points, kept_rows, dropped_rows.
  match goal with |- context [foldlM ?f _ _] => set (body := f) end.
  assert (G : forall rows st,
             (forall i, In i rows -> i < Matrix.nlin points) ->
             points_domain st = map (Geometry.domain_at geo) (pts st) ->
             exists st',
               foldlM body rows st = Some st'
               /\ map Some (pts st')
                  = map Some (pts st)
                    ++ map (point_of_row points)
                           (List.filter (kept geo points) rows)
               /\ points_domain st' = map (Geometry.domain_at geo) (pts st')
               /\ outside st'
                  = outside st
                    ++ List.filter (fun i => negb (kept geo points i)) rows).
  { induction rows as [|i rows IH]; intros st Hr Hdom; simpl.
    - exists st. rewrite !app_nil_r. auto.
    - destruct (point_of_row_total points i Hwf Hc (Hr i (or_introl eq_refl)))
        as [p Ep].
      assert (Hk : kept geo points i
                   = negb (Qeq_bool
                             (conductivity (Geometry.domain_at geo p)) 0))
        by (unfold kept; rewrite Ep; reflexivity).
      rewrite !Hk. unfold body at 1. rewrite Ep. simpl.
      destruct (Qeq_bool (conductivity (Geometry.domain_at geo p)) 0); simpl.
      + destruct (IH {| points_domain := points_domain st; pts := pts st;
                        outside := outside st ++ [i] |})
          as (st' & E & Hp & Hl & Ho).
        { intros j Hj. apply Hr. right. exact Hj. }
        { exact Hdom. }
        exists st'. split; [exact E|]. simpl in Hp, Ho.
        split; [exact Hp|]. split; [exact Hl|].
        rewrite Ho, <- app_assoc. reflexivity.
      + destruct (IH {| points_domain :=
                          points_domain st ++ [Geometry.domain_at geo p];
                        pts := pts st ++ [p];
                        outside := outside st |})
          as (st' & E & Hp & Hl & Ho).
        { intros j Hj. apply Hr. right. exact Hj. }
        { simpl. rewrite map_app, Hdom. reflexivity. }
        exists st'. split; [exact E|]. simpl in Hp, Ho.
        split; [|split; [exact Hl | exact Ho]].
        rewrite Hp, map_app, <- app_assoc, Ep. reflexivity. }
  destruct (G (seq 0 (Matrix.nlin points))
              {| points_domain := []; pts := []; outside := [] |})
    as (st & E & Hp & Hl & Ho).
  - intros i Hi. apply in_seq in Hi. lia.
  - reflexivity.
  - exists st. auto.
Qed.

(** The loop over the points for one dipole: every point of the domain
    [domain] gets the amount of the dipole added in the column of the
    dipole, and nothing else changes. *)
Lemma InternalPot_column (ps : list Vect3) (domain : Domain)
      (amount : Vect3 -> Q) (nd iDIP : nat) (HiDIP : iDIP < nd) (t : nat) :
  forall (a0 : nat) (mat : Matrix.t),
  a0 + t <= length ps -> Matrix_shape (length ps) nd mat ->
  exists mat',
    foldlM (fun mat iPTS =>
              d ← map (Geometry.domain_at geo) ps !! iPTS;
              p ← ps !! iPTS;
              if dom_ident d =? dom_ident domain
              then sink_add mat iPTS iDIP (amount p)
              else Some mat)
           (seq a0 t) mat = Some mat'
    /\ Matrix_shape (length ps) nd mat'
    /\ (forall iPTS p, a0 <= iPTS < a0 + t -> ps !! iPTS = Some p ->
          exists old,
            Matrix.get mat iPTS iDIP = Some old
            /\ Matrix.get mat' iPTS iDIP
               = Some (if dom_ident (Geometry.domain_at geo p)
                          =? dom_ident domain
                       then old + amount p else old)%Q)
    /\ forall a b, ~ (b = iDIP /\ a0 <= a < a0 + t) ->
                   Matrix.get mat' a b = Matrix.get mat a b.
Proof.
  induction t as [|t IH]; intros a0 mat Ha (Hn & Hc & Hw).
  - exists mat. split; [reflexivity|]. split; [repeat split; assumption|].
    split; [intros iPTS p; lia | reflexivity].
  - destruct (lookup_lt_is_Some_2 ps a0) as [p0 Ep0]; [lia|].
    destruct (Matrix_get_total mat a0 iDIP Hw) as [old0 Eold0]; [lia | lia |].
    set (body := fun mat iPTS =>
                   d ← map (Geometry.domain_at geo) ps !! iPTS;
                   p ← ps !! iPTS;
                   if dom_ident d =? dom_ident domain
                   then sink_add mat iPTS iDIP (amount p)
                   else Some mat).
    assert (Hstep : exists mat1,
               body mat a0 = Some mat1
               /\ Matrix_shape (length ps) nd mat1
               /\ Matrix.get mat1 a0 iDIP
                  = Some (if dom_ident (Geometry.domain_at geo p0)
                             =? dom_ident domain
                          then old0 + amount p0 else old0)%Q
               /\ forall a b, (a, b) <> (a0, iDIP) ->
                              Matrix.get mat1 a b = Matrix.get mat a b).
    { unfold body. rewrite list_lookup_fmap, Ep0. simpl.
      destruct (dom_ident (Geometry.domain_at geo p0) =? dom_ident domain).
      - destruct (Matrix_add_spec mat a0 iDIP (amount p0) Hw)
          as (old & mat1 & Eold & E1 & Hn1 & Hc1 & Hw1 & Hg1 & Hf1);
          [lia | lia |].
        rewrite Eold0 in Eold. injection Eold as <-.
        exists mat1. split; [exact E1|].
        split; [repeat split; [congruence | congruence | exact Hw1]|].
        split; [exact Hg1 | exact Hf1].
      - exists mat. split; [reflexivity|].
        split; [repeat split; assumption|]. split; [exact Eold0 | reflexivity]. }
    destruct Hstep as (mat1 & E1 & Hs1 & Hg1 & Hf1).
    destruct (IH (Datatypes.S a0) mat1) as (mat' & E & Hs' & Hin & Hout);
      [lia | exact Hs1 |].
    exists mat'. split.
    { cbn [seq foldlM]. fold body. rewrite E1. exact E. }
    split; [exact Hs'|]. split.
    + intros iPTS p Hi Ep. destruct (Nat.eq_dec iPTS a0) as [->|Hne].
      * rewrite Ep0 in Ep. injection Ep as <-. exists old0.
        split; [exact Eold0|]. rewrite Hout by lia. exact Hg1.
      * destruct (Hin iPTS p) as (old & Eold & Enew); [lia | exact Ep |].
        exists old. split; [|exact Enew].
        rewrite <- Eold. symmetry. apply Hf1. intros [= ->]. lia.
    + intros a b Hab. rewrite Hout by lia. apply Hf1. intros [= -> ->]. lia.
Qed.

(** The lines and the entries of the result, point by point. *)
Lemma InternalPot_entries_by_point (dipoles points : Matrix.t)
        (domain_name : string) :
  Matrix.wf points -> 3 <= Matrix.ncol points ->
  exists st mat,
    DipSource2InternalPotMat_points geo points = Some st
    /\ map Some (pts st) = map (point_of_row points) (kept_rows geo points)
    /\ DipSource2InternalPotMat env geo dipoles points domain_name
       = Some (dropped_rows geo points, mat)
    /\ Matrix_shape (length (pts st)) (Matrix.nlin dipoles) mat
    /\ forall iPTS iDIP p domain,
        pts st !! iPTS = Some p -> iDIP < Matrix.nlin dipoles ->
        domain = (if String.eqb domain_name EmptyString
                  then Geometry.domain_at geo
                         (dipole_position env dipoles iDIP)
                  else Geometry.domain_named geo domain_name) ->
        exists c,
          Matrix.get mat iPTS iDIP = Some c
          /\ (dom_ident (Geometry.domain_at geo p) <> dom_ident domain ->
              (c == 0)%Q)
          /\ (dom_ident (Geometry.domain_at geo p) = dom_ident domain ->
              ~ (conductivity domain == 0)%Q ->
              (c == K env / conductivity domain
                    * dipole_potential env dipoles iDIP p)%Q).
Proof.
  intros Hwf Hc.
  destruct (DipSource2InternalPotMat_points_content points Hwf Hc)
    as (st & Est & Hpts & Hdom & Hout).
  unfold DipSource2InternalPotMat. rewrite Est. cbn [mbind option_bind].
  set (n := length (pts st)). set (nd := Matrix.nlin dipoles).
  set (domain_of := fun iDIP =>
                      if String.eqb domain_name EmptyString
                      then Geometry.domain_at geo
                             (dipole_position env dipoles iDIP)
                      else Geometry.domain_named geo domain_name).
  assert (G : forall t a0 mat,
             a0 + t <= nd -> Matrix_shape n nd mat ->
             exists mat',
               foldlM (fun mat iDIP =>
                         let domain := domain_of iDIP in
                         let coeff := (K env / conductivity domain)%Q in
                         foldlM (fun mat iPTS =>
                                   d ← points_domain st !! iPTS;
                                   p ← pts st !! iPTS;
                                   if dom_ident d =? dom_ident domain
                                   then sink_add mat iPTS iDIP
                                          (coeff * dipole_potential env dipoles
                                                     iDIP p)%Q
                                   else Some mat)
                                (seq 0 n) mat)
                      (seq a0 t) mat = Some mat'
               /\ Matrix_shape n nd mat'
               /\ (forall iPTS iDIP p,
                      pts st !! iPTS = Some p -> a0 <= iDIP < a0 + t ->
                      exists old,
                        Matrix.get mat iPTS iDIP = Some old
                        /\ Matrix.get mat' iPTS iDIP
                           = Some (if dom_ident (Geometry.domain_at geo p)
                                      =? dom_ident (domain_of iDIP)
                                   then old
                                        + K env / conductivity (domain_of iDIP)
                                          * dipole_potential env dipoles iDIP p
                                   else old)%Q)
               /\ forall a b, ~ a0 <= b < a0 + t ->
                              Matrix.get mat' a b = Matrix.get mat a b).
  { induction t as [|t IH]; intros a0 mat Ha Hs.
    - exists mat. split; [reflexivity|]. split; [exact Hs|].
      split; [intros iPTS iDIP p _; lia | reflexivity].
    - destruct (InternalPot_column (pts st) (domain_of a0)
                  (fun p => (K env / conductivity (domain_of a0)
                             * dipole_potential env dipoles a0 p)%Q)
                  nd a0 ltac:(lia) n 0 mat ltac:(unfold n; lia) Hs)
        as (mat1 & E1 & Hs1 & Hin1 & Hout1).
      rewrite <- Hdom in E1.
      destruct (IH (Datatypes.S a0) mat1) as (mat' & E & Hs' & Hin & Hout');
        [lia | exact Hs1 |].
      exists mat'. split.
      { cbn [seq foldlM]. cbv zeta. fold n. rewrite E1. exact E. }
      split; [exact Hs'|]. split.
      + intros iPTS iDIP p Ep Hi.
        assert (HiPTS : iPTS < n) by (apply lookup_lt_Some in Ep; exact Ep).
        destruct (Nat.eq_dec iDIP a0) as [->|Hne].
        * destruct (Hin1 iPTS p) as (old & Eold & Enew); [lia | exact Ep |].
          exists old. split; [exact Eold|]. rewrite Hout' by lia. exact Enew.
        * destruct (Hin iPTS iDIP p Ep) as (old & Eold & Enew); [lia|].
          exists old. split; [|exact Enew].
          rewrite <- Eold. symmetry. apply Hout1. lia.
      + intros a b Hb. rewrite Hout' by lia. apply Hout1. lia. }
  destruct (G nd 0 (Matrix.set (Matrix.new n nd (uninit env)) 0%Q))
    as (mat & E & Hs & Hin & _).
  { lia. }
  { apply Matrix_set_new. }
  exists st, mat. split; [reflexivity|]. split; [exact Hpts|].
  match goal with
  | |- context [foldlM ?f (seq 0 nd) ?m0] =>
      replace (foldlM f (seq 0 nd) m0) with (Some mat) by (symmetry; exact E)
  end.
  cbn [mbind option_bind]. rewrite Hout.
  split; [reflexivity|]. split; [exact Hs|].
  intros iPTS iDIP p domain Ep Hi ->.
  destruct (Hin iPTS iDIP p Ep) as (old & Eold & Enew); [lia|].
  rewrite Matrix_get_set_new in Eold
    by (try lia; apply lookup_lt_Some in Ep; exact Ep).
  injection Eold as <-.
  eexists. split; [exact Enew|]. fold (domain_of iDIP).
  destruct (Nat.eqb_spec (dom_ident (Geometry.domain_at geo p))
                         (dom_ident (domain_of iDIP))) as [Heq|Hne].
  - split; [intros H; contradiction | intros _ _; apply Qplus_0_l].
  - split; [intros _; reflexivity | intros H; contradiction].
Qed.

(** X19. [DipSource2InternalPotMat], for points given as the rows of a
    matrix of at least three columns: the lines of the result are those of
    the points kept, in the order of their rows; the entry of the line of
    a point and of the column of a dipole is zero when the point does not
    lie in the domain of the dipole (the domain named, or else the one of
    the position of the dipole), and otherwise, the conductivity of that
    domain not being zero, K times the potential of the dipole at the
    point, divided by that conductivity. *)
Theorem DipSource2InternalPotMat_entries (dipoles points : Matrix.t)
        (domain_name : string) :
  Matrix.wf points -> 3 <= Matrix.ncol points ->
  exists st mat,
    DipSource2InternalPotMat_points geo points = Some st
    /\ map Some (pts st) = map (point_of_row points) (kept_rows geo points)
    /\ DipSource2InternalPotMat env geo dipoles points domain_name
       = Some (dropped_rows geo points, mat)
    /\ Matrix_shape (length (pts st)) (Matrix.nlin dipoles) mat
    /\ forall iPTS iDIP p domain,
        pts st !! iPTS = Some p -> iDIP < Matrix.nlin dipoles ->
        domain = (if String.eqb domain_name EmptyString
                  then Geometry.domain_at geo
                         (dipole_position env dipoles iDIP)
                  else Geometry.domain_named geo domain_name) ->
        exists c,
          Matrix.get mat iPTS iDIP = Some c
          /\ (dom_ident (Geometry.domain_at geo p) <> dom_ident domain ->
              (c == 0)%Q)
          /\ (dom_ident (Geometry.domain_at geo p) = dom_ident domain ->
              ~ (conductivity domain == 0)%Q ->
              (c == K env / conductivity domain
                    * dipole_potential env dipoles iDIP p)%Q).
Proof. exact (InternalPot_entries_by_point dipoles points domain_name). Qed.

End InternalPotential.

(** ** Loops of additions that visit a cell more than once *)

Section AddLoopSum.

Context {A : Type} (pos : A -> nat * nat) (amt : A -> Q).

(** The entry at (a,b) is increased by the sum of the amounts of the visits
    of its cell. *)
Lemma add_loop_sum (l : list A) : forall (M M' : SymMatrix.t) (a b : nat),
  SymMatrix.wf M -> a < SymMatrix.nlin M -> b < SymMatrix.nlin M ->
  foldlM (add_step pos (fun _ x => Some (amt x))) l M = Some M' ->
  exists old new,
    SymMatrix.get M a b = Some old /\ SymMatrix.get M' a b = Some new
    /\ (new == old
               + Qsum (map amt
                           (List.filter
                              (fun x => cell (pos x) =? SymMatrix.index a b)
                              l)))%Q.
Proof.
  induction l as [|x l IH]; intros M M' a b Hwf Ha Hb H.
  - injection H as <-. destruct (get_total M a b Hwf Ha Hb) as [old E].
    exists old, old. split; [exact E|]. split; [exact E|]. simpl. ring.
  - cbn [foldlM] in H.
    destruct (add_step pos (fun _ x => Some (amt x)) M x) as [M1|] eqn:E1;
      [|discriminate].
    destruct (add_step_frame _ _ _ _ _ Hwf E1) as (Hn1 & Hw1 & Hf1).
    apply add_step_inv in E1 as (d & old0 & Ed & Eold0 & Eput).
    injection Ed as <-.
    destruct (IH M1 M' a b Hw1) as (old1 & new & Eold1 & Enew & Hsum);
      [congruence | congruence | exact H |].
    destruct (get_total M a b Hwf Ha Hb) as [old Eold].
    exists old, new. split; [exact Eold|]. split; [exact Enew|].
    cbn [List.filter].
    destruct (Nat.eqb_spec (cell (pos x)) (SymMatrix.index a b)) as [Ec|Ec].
    + assert (Eg : SymMatrix.get M1 a b = Some (old0 + amt x)%Q)
        by (eapply get_put_eq; [exact Hwf | exact Eput | symmetry; exact Ec
                               | exact Ha | exact Hb]).
      rewrite Eg in Eold1. injection Eold1 as <-.
      assert (old0 = old).
      { destruct (put_range _ _ _ _ _ Eput) as (Hi & Hj).
        assert (Hfit := wf_fits M Hwf).
        rewrite get_value in Eold0, Eold by assumption.
        unfold cell in Ec. rewrite Ec in Eold0. congruence. }
      subst old0. rewrite Hsum. simpl. ring.
    + rewrite Hf1 in Eold1 by (intros E'; apply Ec; symmetry; exact E').
      rewrite Eold in Eold1. injection Eold1 as <-. exact Hsum.
Qed.

End AddLoopSum.

(** ** The double-layer operator *)

Lemma Qsum_cons (x : Q) (l : list Q) : Qsum (x :: l) = (x + Qsum l)%Q.
Proof. reflexivity. Qed.

Section DoubleLayer.

Context (env : Env) (intg : Integrator) (coeff : Q).

Lemma D_as_additions (ts1 ts2 : list Triangle.t) (M : SymMatrix.t) :
  BlocksBase.D env intg ts1 ts2 coeff M
  = foldlM (add_step D_pos (fun _ v => Some (D_amount env intg coeff v)))
           (D_visits ts1 ts2) M.
Proof.
  unfold BlocksBase.D, D_visits.
  rewrite <- (foldlM_nested
                (add_step D_pos (fun _ v => Some (D_amount env intg coeff v)))
                (fun _ => Id_visits ts2) ts1 M).
  apply foldlM_ext. intros M1 T1 _. unfold Id_visits.
  rewrite <- (foldlM_nested
                (fun s q => add_step D_pos
                              (fun _ v => Some (D_amount env intg coeff v))
                              s (T1, q))
                (fun _ => seq 0 3) ts2 M1).
  reflexivity.
Qed.

Lemma in_D_visits (ts1 ts2 : list Triangle.t)
      (v : Triangle.t * (Triangle.t * nat)) :
  In v (D_visits ts1 ts2)
  <-> In (fst v) ts1 /\ In (fst (snd v)) ts2 /\ snd (snd v) < 3.
Proof.
  unfold D_visits. rewrite in_flat_map. split.
  - intros (T1 & H1 & Hv). apply in_map_iff in Hv as (q & <- & Hq).
    apply in_Id_visits in Hq. simpl. tauto.
  - intros (H1 & H2 & H3). exists (fst v). split; [exact H1|].
    apply in_map_iff. exists (snd v).
    split; [symmetry; apply surjective_pairing|].
    apply in_Id_visits. auto.
Qed.

(** The visits of the cell of (T1,v) among those of the triangle T1. *)
Lemma D_row_sum (T1 : Triangle.t) (v : nat) (ts2 : list Triangle.t) :
  Triangle.index T1 <> v ->
  (Qsum (map (D_amount env intg coeff)
             (List.filter
                (fun x => cell (D_pos x)
                          =? SymMatrix.index (Triangle.index T1) v)
                (map (pair T1) (Id_visits ts2))))
   == coeff * Qsum (map (fun T2 => D_share env intg T1 T2 v) ts2))%Q.
Proof.
  intros Hne.
  assert (Hcell : forall T2 i,
             (cell (D_pos (T1, (T2, i)))
              =? SymMatrix.index (Triangle.index T1) v)
             = (Vertex.index (Triangle.vertex T2 i) =? v)).
  { intros T2 i. unfold D_pos, cell. simpl.
    destruct (Nat.eqb_spec (Vertex.index (Triangle.vertex T2 i)) v) as [->|Hv].
    - apply Nat.eqb_refl.
    - apply Nat.eqb_neq. intros Ec. apply index_eq_iff in Ec. lia. }
  induction ts2 as [|T2 ts2 IH]; [simpl; ring|].
  unfold Id_visits in *. cbn [flat_map].
  rewrite map_app, List.filter_app, map_app.
  rewrite Qsum_app, IH. cbn [map Qsum]. unfold D_share at 2.
  cbn [seq map List.filter]. rewrite !Hcell.
  unfold D_amount.
  destruct (Vertex.index (Triangle.vertex T2 0) =? v),
           (Vertex.index (Triangle.vertex T2 1) =? v),
           (Vertex.index (Triangle.vertex T2 2) =? v);
    cbn [map fst snd]; unfold Qsum; cbn [fold_right]; ring.
Qed.

(** The visits of the cell of (T1,v) among all the visits: those of the
    triangles that have the index of T1. *)
Lemma D_sum (T1 : Triangle.t) (v : nat) (ts2 : list Triangle.t)
      (ts1 : list Triangle.t) :
  (forall T, In T ts1 -> Triangle.index T <> v) ->
  (Qsum (map (D_amount env intg coeff)
             (List.filter
                (fun x => cell (D_pos x)
                          =? SymMatrix.index (Triangle.index T1) v)
                (D_visits ts1 ts2)))
   == Qsum (map (fun T =>
                   if Triangle.index T =? Triangle.index T1
                   then coeff * Qsum (map (fun T2 => D_share env intg T T2 v)
                                          ts2)
                   else 0)
                ts1))%Q.
Proof.
  intros Hv. unfold D_visits.
  induction ts1 as [|T ts1 IH]; [reflexivity|].
  cbn [flat_map]. rewrite List.filter_app, map_app, Qsum_app.
  rewrite IH by (intros T' HT'; apply Hv; right; exact HT').
  cbn [map]. rewrite Qsum_cons. apply Qplus_comp; [|reflexivity].
  destruct (Nat.eqb_spec (Triangle.index T) (Triangle.index T1)) as [Et|Et].
  - rewrite <- Et. apply D_row_sum. apply Hv. left. reflexivity.
  - assert (Enone :
             List.filter
               (fun x => cell (D_pos x)
                         =? SymMatrix.index (Triangle.index T1) v)
               (map (pair T) (Id_visits ts2)) = []).
    { clear IH. induction (Id_visits ts2) as [|q qs IHq]; [reflexivity|].
      cbn [map List.filter]. rewrite IHq.
      destruct (Nat.eqb_spec (cell (D_pos (T, q)))
                             (SymMatrix.index (Triangle.index T1) v))
        as [Ec|_]; [|reflexivity].
      exfalso. unfold cell, D_pos in Ec. simpl in Ec.
      apply index_eq_iff in Ec. destruct Ec as [[E1 _]|[E1 _]];
        [apply Et; exact E1 | apply (Hv T); [left; reflexivity | exact E1]]. }
    rewrite Enone. reflexivity.
Qed.

(** Among triangles of pairwise different indices, one triangle has the
    index of T1. *)
Lemma Qsum_only (f : Triangle.t -> Q) (T1 : Triangle.t)
      (ts : list Triangle.t) :
  List.NoDup (map Triangle.index ts) -> In T1 ts ->
  (Qsum (map (fun T => if Triangle.index T =? Triangle.index T1
                       then f T else 0) ts) == f T1)%Q.
Proof.
  induction ts as [|T ts IH]; intros Hnd Hin; [destruct Hin|].
  simpl in Hnd. apply List.NoDup_cons_iff in Hnd as [Hx Hnd].
  cbn [map]. rewrite Qsum_cons. destruct Hin as [->|Hin].
  - rewrite Nat.eqb_refl.
    assert (Hz : (Qsum (map (fun T => if Triangle.index T
                                         =? Triangle.index T1
                                      then f T else 0) ts) == 0)%Q).
    { rewrite <- (Qsum_map_zero ts). apply Qsum_map_ext.
      intros T HT.
      destruct (Nat.eqb_spec (Triangle.index T) (Triangle.index T1))
        as [E|_]; [|reflexivity].
      exfalso. apply Hx. rewrite <- E. apply in_map. exact HT. }
    rewrite Hz. ring.
  - destruct (Nat.eqb_spec (Triangle.index T) (Triangle.index T1)) as [E|_].
    + exfalso. apply Hx. rewrite E. apply in_map. exact Hin.
    + rewrite IH by assumption. ring.
Qed.

End DoubleLayer.

(** X20. The double-layer operator [D] of two lists of triangles, on a
    packed symmetric matrix that covers the indices of the triangles of the
    first list and of the vertices of the triangles of the second, returns
    a matrix of the same dimension.  When the triangles of the first list
    have pairwise different indices, the entry at a triangle T1 of the first
    list and an index v that is not the index of a triangle of that list is
    increased by the coefficient times the sum, over the triangles T2 of
    the second list, of the components of the integral over T1 of the
    kernel of T2 at the ranks at which T2 has the vertex of index v. *)
Theorem D_entries (env : Env) (intg : Integrator) (coeff : Q)
        (ts1 ts2 : list Triangle.t) (M : SymMatrix.t) :
  SymMatrix.wf M ->
  (forall T1, In T1 ts1 -> Triangle.index T1 < SymMatrix.nlin M) ->
  (forall T2 i, In T2 ts2 ->
                Vertex.index (Triangle.vertex T2 i) < SymMatrix.nlin M) ->
  List.NoDup (map Triangle.index ts1) ->
  exists M',
    BlocksBase.D env intg ts1 ts2 coeff M = Some M'
    /\ SymMatrix.nlin M' = SymMatrix.nlin M
    /\ (forall T1 v,
          In T1 ts1 -> v < SymMatrix.nlin M ->
          (forall T, In T ts1 -> Triangle.index T <> v) ->
          exists old new,
            SymMatrix.get M (Triangle.index T1) v = Some old
            /\ SymMatrix.get M' (Triangle.index T1) v = Some new
            /\ (new == old
                       + coeff * Qsum (map (fun T2 => D_share env intg T1 T2 v)
                                           ts2))%Q)
    /\ forall a b,
        (forall T1 T2 i, In T1 ts1 -> In T2 ts2 ->
                         SymMatrix.index a b
                         <> SymMatrix.index (Triangle.index T1)
                              (Vertex.index (Triangle.vertex T2 i))) ->
        SymMatrix.get M' a b = SymMatrix.get M a b.
Proof.
  intros Hwf Hr1 Hr2 Hnd. rewrite D_as_additions.
  destruct (add_loop_total D_pos
              (fun _ v => Some (D_amount env intg coeff v))
              (fun _ => True) (D_visits ts1 ts2) M Hwf I) as [M' E].
  { intros x Hx. apply in_D_visits in Hx as (H1 & H2 & _). simpl. auto. }
  { intros M1 x _ _. eexists. reflexivity. }
  { auto. }
  destruct (add_loop_frame _ _ _ _ _ Hwf E) as (Hn & _ & Hf).
  exists M'. split; [exact E|]. split; [exact Hn|]. split.
  - intros T1 v H1 Hv Hapart.
    destruct (add_loop_sum D_pos (D_amount env intg coeff) (D_visits ts1 ts2)
                           M M' (Triangle.index T1) v Hwf (Hr1 T1 H1) Hv E)
      as (old & new & Eold & Enew & Hsum).
    exists old, new. split; [exact Eold|]. split; [exact Enew|].
    rewrite Hsum, (D_sum env intg coeff T1 v ts2 ts1 Hapart).
    rewrite (Qsum_only
               (fun T => (coeff * Qsum (map (fun T2 => D_share env intg T T2 v)
                                            ts2))%Q) T1 ts1 Hnd H1).
    reflexivity.
  - intros a b Hab. apply Hf. intros x Hx.
    apply in_D_visits in Hx as (H1 & H2 & _). apply Hab; assumption.
Qed.

(** ** The N block and the S values it is derived from *)

Section CachedS.

Context (env : Env).

(** The S loops of the same-mesh engine, for any sink. *)
Lemma Diagonal_S_rows_sink {T : Type} `{Sink T} (blk : DiagonalBlock.t)
      (coeff : Q) (ts : list Triangle.t) : forall m : T,
  DiagonalBlock.S_rows env blk coeff ts m
  = foldlM (fun m p =>
              sink_put m (fst (triangle_pos p)) (snd (triangle_pos p))
                       (S_value env (DiagonalBlock.integrator blk) coeff p))
           (upper_pairs ts) m.
Proof.
  induction ts as [|T1 ts IH]; intros m; [reflexivity|].
  cbn [DiagonalBlock.S_rows upper_pairs]. rewrite foldlM_app, foldlM_map.
  rewrite (foldlM_ext _
             (fun s x =>
                sink_put s (fst (triangle_pos (T1, x)))
                         (snd (triangle_pos (T1, x)))
                         (S_value env (DiagonalBlock.integrator blk) coeff
                                  (T1, x))))
    by reflexivity.
  destruct (foldlM _ (T1 :: ts) m); simpl; [apply IH | reflexivity].
Qed.

(** A loop of writes into a block addressed with an offset is the loop of
    the writes into its matrix at the subscripts less the offset. *)
Lemma SymBloc_put_loop {A : Type} (pos : A -> nat * nat) (val : A -> Q)
      (l : list A) : forall b : DiagonalBlock.SymBloc,
  (forall x, In x l -> DiagonalBlock.offset b <= fst (pos x)
                       /\ DiagonalBlock.offset b <= snd (pos x)) ->
  foldlM (fun m x => sink_put m (fst (pos x)) (snd (pos x)) (val x)) l b
  = base' ← foldlM (put_step
                      (fun x => (fst (pos x) - DiagonalBlock.offset b,
                                 snd (pos x) - DiagonalBlock.offset b))
                      (fun x => Some (val x)))
                   l (DiagonalBlock.base b);
    Some (DiagonalBlock.MakeSymBloc (DiagonalBlock.offset b) base').
Proof.
  induction l as [|x l IH]; intros b Hl.
  - destruct b. reflexivity.
  - destruct (Hl x (or_introl eq_refl)) as [Hi Hj].
    assert (E1 : sink_put b (fst (pos x)) (snd (pos x)) (val x)
                 = base1 ← SymMatrix.put (DiagonalBlock.base b)
                             (fst (pos x) - DiagonalBlock.offset b)
                             (snd (pos x) - DiagonalBlock.offset b) (val x);
                   Some (DiagonalBlock.MakeSymBloc (DiagonalBlock.offset b)
                                                   base1)).
    { change (sink_put b (fst (pos x)) (snd (pos x)) (val x))
        with (DiagonalBlock.SymBloc_put b (fst (pos x)) (snd (pos x))
                                        (val x)).
      unfold DiagonalBlock.SymBloc_put.
      destruct (Nat.ltb_spec (fst (pos x)) (DiagonalBlock.offset b)); [lia|].
      destruct (Nat.ltb_spec (snd (pos x)) (DiagonalBlock.offset b)); [lia|].
      reflexivity. }
    set (F := fun (m : DiagonalBlock.SymBloc) (y : A) =>
                sink_put m (fst (pos y)) (snd (pos y)) (val y)) in *.
    set (G := put_step
                (fun y => (fst (pos y) - DiagonalBlock.offset b,
                           snd (pos y) - DiagonalBlock.offset b))
                (fun y => Some (val y))).
    assert (E2 : G (DiagonalBlock.base b) x
                 = SymMatrix.put (DiagonalBlock.base b)
                     (fst (pos x) - DiagonalBlock.offset b)
                     (snd (pos x) - DiagonalBlock.offset b) (val x))
      by reflexivity.
    change (foldlM F (x :: l) b)
      with (match F b x with Some s' => foldlM F l s' | None => None end).
    change (foldlM G (x :: l) (DiagonalBlock.base b))
      with (match G (DiagonalBlock.base b) x with
            | Some s' => foldlM G l s' | None => None end).
    change (F b x) with (sink_put b (fst (pos x)) (snd (pos x)) (val x)).
    rewrite E1, E2.
    destruct (SymMatrix.put (DiagonalBlock.base b) _ _ (val x)) as [base1|];
      [|reflexivity].
    cbn [mbind option_bind].
    rewrite (IH (DiagonalBlock.MakeSymBloc (DiagonalBlock.offset b) base1));
      [reflexivity|].
    intros y Hy. simpl. apply Hl. right. exact Hy.
Qed.

End CachedS.

(** A loop of additions at cells that are pairwise different, whose amounts
    depend on the matrix only through entries that the loop does not
    write. *)
Section AddLoopEntries.

Context {A : Type} (pos : A -> nat * nat)
        (amount : SymMatrix.t -> A -> option Q).

Lemma add_loop_entries (l : list A) (M : SymMatrix.t) (d : A -> Q) :
  SymMatrix.wf M ->
  List.NoDup (map (fun y => cell (pos y)) l) ->
  (forall x, In x l -> fst (pos x) < SymMatrix.nlin M
                       /\ snd (pos x) < SymMatrix.nlin M) ->
  (forall M1 x,
      In x l -> SymMatrix.wf M1 -> SymMatrix.nlin M1 = SymMatrix.nlin M ->
      (forall a b, (forall y, In y l -> SymMatrix.index a b <> cell (pos y)) ->
                   SymMatrix.get M1 a b = SymMatrix.get M a b) ->
      exists dx, amount M1 x = Some dx /\ (dx == d x)%Q) ->
  exists M',
    foldlM (add_step pos amount) l M = Some M'
    /\ SymMatrix.nlin M' = SymMatrix.nlin M /\ SymMatrix.wf M'
    /\ (forall x, In x l ->
          exists old dx,
            SymMatrix.get M (fst (pos x)) (snd (pos x)) = Some old
            /\ SymMatrix.get M' (fst (pos x)) (snd (pos x))
               = Some (old + dx)%Q
            /\ (dx == d x)%Q)
    /\ forall a b, (forall y, In y l -> SymMatrix.index a b <> cell (pos y)) ->
                   SymMatrix.get M' a b = SymMatrix.get M a b.
Proof.
  intros Hwf Hnd Hr Hd.
  set (P := fun M1 : SymMatrix.t =>
              SymMatrix.wf M1 /\ SymMatrix.nlin M1 = SymMatrix.nlin M
              /\ forall a b,
                  (forall y, In y l -> SymMatrix.index a b <> cell (pos y)) ->
                  SymMatrix.get M1 a b = SymMatrix.get M a b).
  assert (HP : P M) by (unfold P; auto).
  destruct (add_loop_total pos amount P l M Hwf HP Hr) as [M' E].
  { intros M1 x Hx (Hw1 & Hn1 & Hf1).
    destruct (Hd M1 x Hx Hw1 Hn1 Hf1) as (dx & Edx & _). eauto. }
  { intros M1 x M2 Hx (Hw1 & Hn1 & Hf1) E2.
    destruct (add_step_frame _ _ _ _ _ Hw1 E2) as (Hn2 & Hw2 & Hf2).
    split; [exact Hw2|]. split; [congruence|].
    intros a b Hab. rewrite Hf2 by (apply Hab; exact Hx). apply Hf1, Hab. }
  destruct (add_loop_frame _ _ _ _ _ Hwf E) as (Hn & Hw & Hf).
  exists M'. split; [exact E|]. split; [exact Hn|]. split; [exact Hw|].
  split; [|exact Hf].
  intros x Hx.
  destruct (add_loop_hit pos amount l x M M' Hwf Hnd Hx E)
    as (pre & post & M1 & dx & old & El & Epre & Edx & Eold & Enew).
  destruct (add_loop_frame _ _ _ _ _ Hwf Epre) as (Hn1 & Hw1 & Hf1).
  destruct (Hd M1 x Hx Hw1 Hn1) as (dx' & Edx' & Hdx).
  { intros a b Hab. apply Hf1. intros y Hy. apply Hab. rewrite El.
    apply in_or_app. left. exact Hy. }
  rewrite Edx in Edx'. injection Edx' as <-.
  exists old, dx. auto.
Qed.

End AddLoopEntries.

Section NBlocks.

Context (env : Env).

Lemma triangles_of_in (m : Mesh.t) (V : Vertex.t) (T : Triangle.t) :
  In T (Mesh.triangles_of m V) -> In T (Mesh.triangles m).
Proof.
  unfold Mesh.triangles_of. intros H. apply filter_In in H. tauto.
Qed.

Lemma S_block_is_computed_iff (sc : Q) :
  negb (Qeq_bool sc 0) = true <-> ~ (sc == 0)%Q.
Proof.
  rewrite negb_true_iff. split.
  - intros E H. apply Qeq_bool_iff in H. congruence.
  - intros H. destruct (Qeq_bool sc 0) eqn:E; [|reflexivity].
    apply Qeq_bool_iff in E. contradiction.
Qed.

(** The N loop of the same-mesh engine that reads the S values in the
    matrix it writes. *)
Lemma Diagonal_N_from_stored (blk : DiagonalBlock.t) (c : Q)
      (M : SymMatrix.t) :
  SymMatrix.wf M ->
  (forall V, In V (Mesh.vertices (DiagonalBlock.mesh blk)) ->
             Vertex.index V < SymMatrix.nlin M) ->
  List.NoDup (map Vertex.index (Mesh.vertices (DiagonalBlock.mesh blk))) ->
  (forall T, In T (Mesh.triangles (DiagonalBlock.mesh blk)) ->
             Triangle.index T < SymMatrix.nlin M) ->
  (forall T V, In T (Mesh.triangles (DiagonalBlock.mesh blk)) ->
               In V (Mesh.vertices (DiagonalBlock.mesh blk)) ->
               Triangle.index T <> Vertex.index V) ->
  exists M',
    DiagonalBlock.N_from blk c SymMatrix.get M = Some M'
    /\ N_block_added (lower_pairs [] (Mesh.vertices (DiagonalBlock.mesh blk)))
                     (Diagonal_N_amount c (DiagonalBlock.mesh blk)
                                        (stored_S M)) M M'.
Proof.
  intros Hwf Hrv Hndv Hrt Hapart.
  set (mesh := DiagonalBlock.mesh blk) in *.
  set (pairs := lower_pairs [] (Mesh.vertices mesh)).
  destruct (add_loop_entries vertex_pos
              (diagonal_amount blk c (fun M0 => SymMatrix.get M0))
              pairs M (Diagonal_N_amount c mesh (stored_S M)) Hwf)
    as (M' & E & Hn & _ & Hent & Hf).
  - apply (lower_pairs_NoDup Vertex.index (Mesh.vertices mesh) []).
    exact Hndv.
  - intros p Hp. apply in_lower_pairs in Hp as [H1 H2]. simpl in H2.
    split; apply Hrv; assumption.
  - intros M1 p Hp Hw1 Hn1 Hf1.
    unfold diagonal_amount, BlocksBase.N_mesh. fold mesh.
    destruct (N_value (1 # 4) (fst p) (snd p) mesh mesh (SymMatrix.get M1)
                      (stored_S M)) as (n & En & Hn').
    { intros T1 T2 H1 H2. apply triangles_of_in in H1, H2.
      rewrite Hf1.
      - unfold stored_S, entry.
        destruct (get_total M (Triangle.index T1) (Triangle.index T2) Hwf)
          as [x ->]; [apply Hrt; exact H1 | apply Hrt; exact H2 |].
        reflexivity.
      - intros q Hq Ec. apply in_lower_pairs in Hq as [Hq1 Hq2].
        simpl in Hq2. unfold cell, vertex_pos in Ec. simpl in Ec.
        apply index_eq_iff in Ec. destruct Ec as [[Ea _]|[Ea _]].
        + exact (Hapart T1 (fst q) H1 Hq1 Ea).
        + exact (Hapart T1 (snd q) H1 Hq2 Ea). }
    rewrite En. simpl. eexists. split; [reflexivity|].
    unfold Diagonal_N_amount. rewrite Hn'. ring.
  - exists M'. split.
    + unfold DiagonalBlock.N_from. rewrite Diagonal_N_rows_pairs.
      exact E.
    + split; [exact Hn|]. split; [exact Hent | exact Hf].
Qed.

(** The S block that the same-mesh engine computes at coefficient 1 in a
    block of its own. *)
Lemma Diagonal_S_unit_block (blk : DiagonalBlock.t) (front : Triangle.t)
      (rest : list Triangle.t) (junk : nat -> Q) :
  Mesh.triangles (DiagonalBlock.mesh blk) = front :: rest ->
  triangles_in_block (front :: rest) ->
  List.NoDup (map Triangle.index (front :: rest)) ->
  SymMatrix.fits (length (front :: rest)) ->
  exists Sbloc s,
    DiagonalBlock.S env blk 1
      (DiagonalBlock.SymBloc_new (Triangle.index front)
                                 (length (front :: rest)) junk)
    = Some Sbloc
    /\ unit_S_block env (DiagonalBlock.integrator blk) (front :: rest) s
    /\ forall T1 T2, In T1 (front :: rest) -> In T2 (front :: rest) ->
          DiagonalBlock.SymBloc_get Sbloc (Triangle.index T1)
                                    (Triangle.index T2)
          = Some (s T1 T2).
Proof.
  intros Ets Hblock Hndt Hfit.
  set (ts := front :: rest) in *. set (intg := DiagonalBlock.integrator blk).
  assert (Hfront : forall T, In T ts ->
                             Triangle.index front <= Triangle.index T
                             < Triangle.index front + length ts)
    by exact Hblock.
  set (off := Triangle.index front) in *.
  set (shifted := fun p : Triangle.t * Triangle.t =>
                    (fst (triangle_pos p) - off, snd (triangle_pos p) - off)).
  assert (Hnew : SymMatrix.wf (SymMatrix.new (length ts) junk))
    by (apply new_wf; exact Hfit).
  destruct (put_loop_total shifted
              (fun p => Some (S_value env intg 1 p)) (upper_pairs ts)
              (SymMatrix.new (length ts) junk) Hnew) as [base EB].
  { intros p Hp. apply in_upper_pairs in Hp as [H1 H2].
    apply Hfront in H1, H2. unfold shifted, triangle_pos.
    cbn [fst snd SymMatrix.nlin SymMatrix.new].
    split; [lia|]. split; [lia|]. eauto. }
  destruct (put_loop_frame _ _ _ _ _ Hnew EB) as (HnB & HwB & _ & _).
  simpl in HnB.
  assert (HvB : forall p, In p (upper_pairs ts) ->
                  SymMatrix.get base (fst (shifted p)) (snd (shifted p))
                  = Some (S_value env intg 1 p)).
  { intros p Hp.
    refine (put_loop_value shifted _ (upper_pairs ts) _ base
                           Hnew _ EB p Hp).
    intros x y Hx Hy Ec.
    assert (Hnds : List.NoDup (map (pair_cell
                                      (fun T => Triangle.index T - off))
                                   (upper_pairs ts))).
    { apply upper_pairs_NoDup. apply NoDup_map_inj_on.
      - eapply NoDup_of_map. exact Hndt.
      - intros a b Ha Hb Eab. apply Hfront in Ha as Ha', Hb as Hb'.
        apply (NoDup_map_eq Triangle.index ts a b Hndt Ha Hb). lia. }
    rewrite (NoDup_map_eq _ _ x y Hnds Hx Hy Ec). reflexivity. }
  set (Sbloc := DiagonalBlock.MakeSymBloc off base).
  set (s := fun T1 T2 : Triangle.t =>
              default 0%Q (DiagonalBlock.SymBloc_get Sbloc
                             (Triangle.index T1) (Triangle.index T2))).
  assert (G : forall p, In p (upper_pairs ts) ->
             DiagonalBlock.SymBloc_get Sbloc (Triangle.index (fst p))
                                       (Triangle.index (snd p))
             = Some (S_value env intg 1 p)
             /\ DiagonalBlock.SymBloc_get Sbloc (Triangle.index (snd p))
                                          (Triangle.index (fst p))
                = Some (S_value env intg 1 p)).
  { intros p Hp. specialize (HvB p Hp).
    apply in_upper_pairs in Hp as [Hp1 Hp2].
    apply Hfront in Hp1 as Hf1, Hp2 as Hf2.
    unfold shifted in HvB. simpl in HvB.
    unfold DiagonalBlock.SymBloc_get, Sbloc. simpl.
    destruct (Nat.ltb_spec (Triangle.index (fst p)) off); [lia|].
    destruct (Nat.ltb_spec (Triangle.index (snd p)) off); [lia|].
    simpl. split; [exact HvB | rewrite get_sym; exact HvB]. }
  exists Sbloc, s. split; [|split].
  - unfold DiagonalBlock.S. rewrite Ets. fold ts.
    rewrite (Diagonal_S_rows_sink env blk 1 ts).
    rewrite (SymBloc_put_loop triangle_pos (S_value env intg 1)
                              (upper_pairs ts)).
    + unfold DiagonalBlock.SymBloc_new.
      cbn [DiagonalBlock.offset DiagonalBlock.base]. fold shifted.
      rewrite EB. reflexivity.
    + intros p Hp. apply in_upper_pairs in Hp as [H1 H2].
      apply Hfront in H1, H2. simpl. lia.
  - intros T1 T2 Hp. destruct (G _ Hp) as [G1 G2]. simpl in G1, G2.
    unfold s. rewrite G1, G2. simpl. unfold unit_S, S_value. simpl. auto.
  - intros T1 T2 H1 H2. unfold s.
    destruct (upper_pairs_cover ts T1 T2 H1 H2) as [Hp|Hp];
      destruct (G _ Hp) as [G1 G2]; simpl in G1, G2.
    + rewrite G1. reflexivity.
    + rewrite G2. reflexivity.
Qed.

(** The N loop of the same-mesh engine that reads the S values in a block
    of their own. *)
Lemma Diagonal_N_from_block (blk : DiagonalBlock.t) (coeff : Q)
      (rd : nat -> nat -> option Q) (s : Triangle.t -> Triangle.t -> Q)
      (M : SymMatrix.t) :
  SymMatrix.wf M ->
  (forall V, In V (Mesh.vertices (DiagonalBlock.mesh blk)) ->
             Vertex.index V < SymMatrix.nlin M) ->
  List.NoDup (map Vertex.index (Mesh.vertices (DiagonalBlock.mesh blk))) ->
  (forall T1 T2, In T1 (Mesh.triangles (DiagonalBlock.mesh blk)) ->
                 In T2 (Mesh.triangles (DiagonalBlock.mesh blk)) ->
                 rd (Triangle.index T1) (Triangle.index T2)
                 = Some (s T1 T2)) ->
  exists M',
    DiagonalBlock.N_from blk coeff (fun _ => rd) M = Some M'
    /\ N_block_added (lower_pairs [] (Mesh.vertices (DiagonalBlock.mesh blk)))
                     (Diagonal_N_amount coeff (DiagonalBlock.mesh blk) s)
                     M M'.
Proof.
  intros Hwf Hrv Hndv Hrd.
  set (mesh := DiagonalBlock.mesh blk) in *.
  destruct (add_loop_entries vertex_pos
              (diagonal_amount blk coeff (fun _ => rd))
              (lower_pairs [] (Mesh.vertices mesh)) M
              (Diagonal_N_amount coeff mesh s) Hwf)
    as (M' & E & Hn & _ & Hent & Hf).
  - apply (lower_pairs_NoDup Vertex.index (Mesh.vertices mesh) []).
    exact Hndv.
  - intros p Hp. apply in_lower_pairs in Hp as [H1 H2]. simpl in H2.
    split; apply Hrv; assumption.
  - intros M1 p Hp _ _ _.
    unfold diagonal_amount, BlocksBase.N_mesh. fold mesh.
    destruct (N_value (1 # 4) (fst p) (snd p) mesh mesh rd s)
      as (n & En & Hn').
    { intros T1 T2 H1 H2. apply triangles_of_in in H1, H2. auto. }
    rewrite En. simpl. eexists. split; [reflexivity|].
    unfold Diagonal_N_amount. rewrite Hn'. ring.
  - exists M'. split.
    + unfold DiagonalBlock.N_from. rewrite Diagonal_N_rows_pairs. exact E.
    + split; [exact Hn|]. split; [exact Hent | exact Hf].
Qed.

(** The N block of the same-mesh engine. *)
Lemma Diagonal_N_entries (blk : DiagonalBlock.t) (coeff : Q)
      (M : SymMatrix.t) :
  Diagonal_N_inputs blk M ->
  exists M',
    DiagonalBlock.N env blk coeff M = Some M'
    /\ Diagonal_N_accumulated env blk coeff M M'.
Proof.
  unfold Diagonal_N_inputs, Diagonal_N_accumulated, DiagonalBlock.N.
  cbv zeta. intros (Hwf & Hrv & Hndv & Hbranch).
  destruct (DiagonalBlock.S_block_is_computed blk).
  - destruct Hbranch as [Hrt Hapart].
    apply Diagonal_N_from_stored; assumption.
  - destruct Hbranch as (Hblock & Hndt & Hfit).
    destruct (Mesh.triangles (DiagonalBlock.mesh blk)) as [|front rest] eqn:Ets;
      [destruct Hblock|].
    destruct (Diagonal_S_unit_block blk front rest (uninit env) Ets Hblock
                                    Hndt Hfit) as (Sbloc & s & ES & Hs & Hrd).
    rewrite ES. cbn [mbind option_bind].
    destruct (Diagonal_N_from_block blk coeff
                (DiagonalBlock.SymBloc_get Sbloc) s M Hwf Hrv Hndv)
      as (M' & E & Hadd).
    { rewrite Ets. exact Hrd. }
    exists M'. split; [exact E|]. exists s. split; [exact Hs | exact Hadd].
Qed.

(** *** The different-mesh engine *)

Lemma NoDup_map_app_inv {A : Type} (f : A -> nat) (l1 l2 : list A) :
  List.NoDup (map f (l1 ++ l2)) ->
  List.NoDup (map f l1) /\ List.NoDup (map f l2)
  /\ forall a b, In a l1 -> In b l2 -> f a <> f b.
Proof.
  rewrite map_app. intros H. apply NoDup_app_inv in H as (H1 & H2 & H3).
  split; [exact H1|]. split; [exact H2|].
  intros a b Ha Hb E. apply (H3 (f a)); [apply in_map; exact Ha|].
  rewrite E. apply in_map. exact Hb.
Qed.

Lemma in_all_pairs {A B : Type} (l1 : list A) (l2 : list B) (p : A * B) :
  In p (all_pairs l1 l2) <-> In (fst p) l1 /\ In (snd p) l2.
Proof.
  unfold all_pairs. rewrite in_flat_map. split.
  - intros (x & Hx & Hp). apply in_map_iff in Hp as (y & <- & Hy). auto.
  - intros [H1 H2]. exists (fst p). split; [exact H1|].
    apply in_map_iff. exists (snd p). split; [|exact H2].
    destruct p. reflexivity.
Qed.

(** The N loop of the different-mesh engine, from S values that the loop
    does not write. *)
Lemma NonDiagonal_N_from_values (blk : NonDiagonalBlock.t) (c : Q)
      (S : SymMatrix.t -> nat -> nat -> option Q)
      (s : Triangle.t -> Triangle.t -> Q) (M : SymMatrix.t) :
  SymMatrix.wf M ->
  (forall V, In V (Mesh.vertices (NonDiagonalBlock.mesh1 blk)
                   ++ Mesh.vertices (NonDiagonalBlock.mesh2 blk)) ->
             Vertex.index V < SymMatrix.nlin M) ->
  List.NoDup (map Vertex.index
                  (Mesh.vertices (NonDiagonalBlock.mesh1 blk)
                   ++ Mesh.vertices (NonDiagonalBlock.mesh2 blk))) ->
  (forall M1 T1 T2,
      SymMatrix.wf M1 -> SymMatrix.nlin M1 = SymMatrix.nlin M ->
      (forall a b,
          (forall p, In p (all_pairs
                             (Mesh.vertices (NonDiagonalBlock.mesh1 blk))
                             (Mesh.vertices (NonDiagonalBlock.mesh2 blk))) ->
                     SymMatrix.index a b <> cell (vertex_pos p)) ->
          SymMatrix.get M1 a b = SymMatrix.get M a b) ->
      In T1 (Mesh.triangles (NonDiagonalBlock.mesh1 blk)) ->
      In T2 (Mesh.triangles (NonDiagonalBlock.mesh2 blk)) ->
      S M1 (Triangle.index T1) (Triangle.index T2) = Some (s T1 T2)) ->
  exists M',
    NonDiagonalBlock.N_from blk c S M = Some M'
    /\ N_block_added
         (all_pairs (Mesh.vertices (NonDiagonalBlock.mesh1 blk))
                    (Mesh.vertices (NonDiagonalBlock.mesh2 blk)))
         (NonDiagonal_N_amount c (NonDiagonalBlock.mesh1 blk)
                               (NonDiagonalBlock.mesh2 blk) s) M M'.
Proof.
  intros Hwf Hrv Hndv HS.
  set (m1 := NonDiagonalBlock.mesh1 blk) in *.
  set (m2 := NonDiagonalBlock.mesh2 blk) in *.
  apply NoDup_map_app_inv in Hndv as (Hnd1 & Hnd2 & Hdis).
  destruct (add_loop_entries vertex_pos (nondiagonal_amount blk c S)
              (all_pairs (Mesh.vertices m1) (Mesh.vertices m2)) M
              (NonDiagonal_N_amount c m1 m2 s) Hwf)
    as (M' & E & Hn & _ & Hent & Hf).
  - apply (all_pairs_NoDup Vertex.index); assumption.
  - intros p Hp. apply in_all_pairs in Hp as [H1 H2]. simpl.
    split; apply Hrv; apply in_or_app; auto.
  - intros M1 p Hp Hw1 Hn1 Hf1.
    unfold nondiagonal_amount, BlocksBase.N_meshes. fold m1 m2.
    destruct (N_value (if Vertex.eqb (fst p) (snd p) then 1 # 2 else 1 # 4)
                      (fst p) (snd p) m1 m2 (S M1) s) as (n & En & Hn').
    { intros T1 T2 H1 H2. apply triangles_of_in in H1, H2.
      apply HS; assumption. }
    rewrite En. simpl. eexists. split; [reflexivity|].
    unfold NonDiagonal_N_amount. rewrite Hn'. ring.
  - exists M'. split.
    + rewrite NonDiagonal_N_from_pairs. exact E.
    + split; [exact Hn|]. split; [exact Hent | exact Hf].
Qed.

(** The S loops of the different-mesh engine, for any sink. *)
Lemma NonDiagonal_S_sink {T : Type} `{Sink T} (blk : NonDiagonalBlock.t)
      (coeff : Q) (m : T) :
  NonDiagonalBlock.S env blk coeff m
  = foldlM (fun m p =>
              sink_put m (fst (triangle_pos p)) (snd (triangle_pos p))
                       (S_value env (NonDiagonalBlock.integrator blk)
                                coeff p))
           (all_pairs (Mesh.triangles (NonDiagonalBlock.mesh1 blk))
                      (Mesh.triangles (NonDiagonalBlock.mesh2 blk))) m.
Proof.
  exact (foldlM_nested
           (fun m p =>
              sink_put m (fst (triangle_pos p)) (snd (triangle_pos p))
                       (S_value env (NonDiagonalBlock.integrator blk)
                                coeff p))
           (fun _ => Mesh.triangles (NonDiagonalBlock.mesh2 blk))
           (Mesh.triangles (NonDiagonalBlock.mesh1 blk)) m).
Qed.

(** A loop of writes into a dense block addressed with two offsets. *)
Lemma Bloc_put_loop {A : Type} (pos : A -> nat * nat) (val : A -> Q)
      (l : list A) : forall b : NonDiagonalBlock.Bloc,
  (forall x, In x l -> NonDiagonalBlock.i0 b <= fst (pos x)
                       /\ NonDiagonalBlock.j0 b <= snd (pos x)) ->
  foldlM (fun m x => sink_put m (fst (pos x)) (snd (pos x)) (val x)) l b
  = base' ← foldlM (Matrix_put_step
                      (fun x => (fst (pos x) - NonDiagonalBlock.i0 b,
                                 snd (pos x) - NonDiagonalBlock.j0 b))
                      (fun x => Some (val x)))
                   l (NonDiagonalBlock.base b);
    Some (NonDiagonalBlock.MakeBloc (NonDiagonalBlock.i0 b)
                                    (NonDiagonalBlock.j0 b) base').
Proof.
  induction l as [|x l IH]; intros b Hl.
  - destruct b. reflexivity.
  - destruct (Hl x (or_introl eq_refl)) as [Hi Hj].
    assert (E1 : sink_put b (fst (pos x)) (snd (pos x)) (val x)
                 = base1 ← Matrix.put (NonDiagonalBlock.base b)
                             (fst (pos x) - NonDiagonalBlock.i0 b)
                             (snd (pos x) - NonDiagonalBlock.j0 b) (val x);
                   Some (NonDiagonalBlock.MakeBloc (NonDiagonalBlock.i0 b)
                           (NonDiagonalBlock.j0 b) base1)).
    { change (sink_put b (fst (pos x)) (snd (pos x)) (val x))
        with (NonDiagonalBlock.Bloc_put b (fst (pos x)) (snd (pos x))
                                        (val x)).
      unfold NonDiagonalBlock.Bloc_put.
      destruct (Nat.ltb_spec (fst (pos x)) (NonDiagonalBlock.i0 b)); [lia|].
      destruct (Nat.ltb_spec (snd (pos x)) (NonDiagonalBlock.j0 b)); [lia|].
      reflexivity. }
    set (F := fun (m : NonDiagonalBlock.Bloc) (y : A) =>
                sink_put m (fst (pos y)) (snd (pos y)) (val y)) in *.
    set (G := Matrix_put_step
                (fun y => (fst (pos y) - NonDiagonalBlock.i0 b,
                           snd (pos y) - NonDiagonalBlock.j0 b))
                (fun y => Some (val y))).
    assert (E2 : G (NonDiagonalBlock.base b) x
                 = Matrix.put (NonDiagonalBlock.base b)
                     (fst (pos x) - NonDiagonalBlock.i0 b)
                     (snd (pos x) - NonDiagonalBlock.j0 b) (val x))
      by reflexivity.
    change (foldlM F (x :: l) b)
      with (match F b x with Some s' => foldlM F l s' | None => None end).
    change (foldlM G (x :: l) (NonDiagonalBlock.base b))
      with (match G (NonDiagonalBlock.base b) x with
            | Some s' => foldlM G l s' | None => None end).
    change (F b x) with (sink_put b (fst (pos x)) (snd (pos x)) (val x)).
    rewrite E1, E2.
    destruct (Matrix.put (NonDiagonalBlock.base b) _ _ (val x)) as [base1|];
      [|reflexivity].
    cbn [mbind option_bind].
    rewrite (IH (NonDiagonalBlock.MakeBloc (NonDiagonalBlock.i0 b)
                   (NonDiagonalBlock.j0 b) base1));
      [reflexivity|].
    intros y Hy. simpl. apply Hl. right. exact Hy.
Qed.

(** The S block that the different-mesh engine computes at coefficient 1
    in a block of its own. *)
Lemma NonDiagonal_S_unit_block (blk : NonDiagonalBlock.t)
      (front1 front2 : Triangle.t) (rest1 rest2 : list Triangle.t)
      (junk : nat -> Q) :
  Mesh.triangles (NonDiagonalBlock.mesh1 blk) = front1 :: rest1 ->
  Mesh.triangles (NonDiagonalBlock.mesh2 blk) = front2 :: rest2 ->
  triangles_in_block (front1 :: rest1) ->
  triangles_in_block (front2 :: rest2) ->
  List.NoDup (map Triangle.index (front1 :: rest1)) ->
  List.NoDup (map Triangle.index (front2 :: rest2)) ->
  exists Sbloc,
    NonDiagonalBlock.S env blk 1
      (NonDiagonalBlock.Bloc_new (Triangle.index front1)
         (Triangle.index front2) (length (front1 :: rest1))
         (length (front2 :: rest2)) junk)
    = Some Sbloc
    /\ forall T1 T2, In T1 (front1 :: rest1) -> In T2 (front2 :: rest2) ->
          NonDiagonalBlock.Bloc_get Sbloc (Triangle.index T1)
                                    (Triangle.index T2)
          = Some (unit_S env (NonDiagonalBlock.integrator blk) T1 T2).
Proof.
  intros E1 E2 Hb1 Hb2 Hnd1 Hnd2.
  set (ts1 := front1 :: rest1) in *. set (ts2 := front2 :: rest2) in *.
  set (intg := NonDiagonalBlock.integrator blk).
  assert (Hf1 : forall T, In T ts1 ->
                          Triangle.index front1 <= Triangle.index T
                          < Triangle.index front1 + length ts1)
    by exact Hb1.
  assert (Hf2 : forall T, In T ts2 ->
                          Triangle.index front2 <= Triangle.index T
                          < Triangle.index front2 + length ts2)
    by exact Hb2.
  set (o1 := Triangle.index front1) in *.
  set (o2 := Triangle.index front2) in *.
  set (shifted := fun p : Triangle.t * Triangle.t =>
                    (fst (triangle_pos p) - o1, snd (triangle_pos p) - o2)).
  set (l := all_pairs ts1 ts2).
  set (B0 := Matrix.new (length ts1) (length ts2) junk).
  assert (HB0 : Matrix_shape (length ts1) (length ts2) B0)
    by apply Matrix_set_new_shape.
  destruct HB0 as (HB0n & HB0c & HB0w).
  destruct (Matrix_put_loop_total shifted
              (fun p => Some (S_value env intg 1 p)) l B0) as [base EB].
  { intros p Hp. apply in_all_pairs in Hp as [H1 H2].
    apply Hf1 in H1. apply Hf2 in H2. unfold shifted, triangle_pos.
    cbn [fst snd]. rewrite HB0n, HB0c.
    split; [lia|]. split; [lia|]. eauto. }
  assert (HvB : forall p, In p l ->
                  Matrix.get base (fst (shifted p)) (snd (shifted p))
                  = Some (S_value env intg 1 p)).
  { intros p Hp.
    refine (Matrix_put_loop_value shifted _ l B0 base HB0w _ EB p Hp).
    intros [a1 a2] [b1 b2] Ha Hb Ec.
    apply in_all_pairs in Ha as [Ha1 Ha2]. apply in_all_pairs in Hb as [Hb1' Hb2'].
    simpl in Ha1, Ha2, Hb1', Hb2'.
    unfold shifted, triangle_pos in Ec. cbn [fst snd] in Ec.
    injection Ec as Ec1 Ec2.
    apply Hf1 in Ha1 as Ha1', Hb1' as Hb1''.
    apply Hf2 in Ha2 as Ha2', Hb2' as Hb2''.
    assert (a1 = b1)
      by (apply (NoDup_map_eq Triangle.index ts1 a1 b1 Hnd1 Ha1 Hb1'); lia).
    assert (a2 = b2)
      by (apply (NoDup_map_eq Triangle.index ts2 a2 b2 Hnd2 Ha2 Hb2'); lia).
    subst. reflexivity. }
  exists (NonDiagonalBlock.MakeBloc o1 o2 base). split.
  - rewrite (NonDiagonal_S_sink blk 1). rewrite E1, E2. fold ts1 ts2 l.
    rewrite (Bloc_put_loop triangle_pos (S_value env intg 1) l).
    + unfold NonDiagonalBlock.Bloc_new.
      cbn [NonDiagonalBlock.i0 NonDiagonalBlock.j0 NonDiagonalBlock.base].
      fold B0. fold shifted. rewrite EB. reflexivity.
    + intros p Hp. apply in_all_pairs in Hp as [H1 H2].
      apply Hf1 in H1. apply Hf2 in H2. simpl. lia.
  - intros T1 T2 H1 H2.
    assert (Hp : In (T1, T2) l) by (apply in_all_pairs; auto).
    specialize (HvB _ Hp). unfold shifted, triangle_pos in HvB.
    cbn [fst snd] in HvB.
    apply Hf1 in H1. apply Hf2 in H2.
    unfold NonDiagonalBlock.Bloc_get.
    cbn [NonDiagonalBlock.i0 NonDiagonalBlock.j0 NonDiagonalBlock.base].
    destruct (Nat.ltb_spec (Triangle.index T1) o1); [lia|].
    destruct (Nat.ltb_spec (Triangle.index T2) o2); [lia|].
    cbn [orb]. rewrite HvB. reflexivity.
Qed.

(** The N block of the different-mesh engine. *)
Lemma NonDiagonal_N_entries (blk : NonDiagonalBlock.t) (coeff : Q)
      (M : SymMatrix.t) :
  NonDiagonal_N_inputs blk M ->
  exists M',
    NonDiagonalBlock.N env blk coeff M = Some M'
    /\ NonDiagonal_N_accumulated env blk coeff M M'.
Proof.
  unfold NonDiagonal_N_inputs, NonDiagonal_N_accumulated, NonDiagonalBlock.N.
  cbv zeta. intros (Hwf & Hrv & Hndv & Hbranch).
  destruct (NonDiagonalBlock.S_block_is_computed blk).
  - destruct Hbranch as [Hrt Hapart].
    apply NonDiagonal_N_from_values; try assumption.
    intros M1 T1 T2 Hw1 Hn1 Hf1 H1 H2.
    change (sink_get M1 (Triangle.index T1) (Triangle.index T2))
      with (SymMatrix.get M1 (Triangle.index T1) (Triangle.index T2)).
    rewrite Hf1.
    + unfold stored_S, entry.
      destruct (get_total M (Triangle.index T1) (Triangle.index T2) Hwf)
        as [x ->]; [apply Hrt, in_or_app; auto | apply Hrt, in_or_app; auto |].
      reflexivity.
    + intros q Hq Ec. apply in_all_pairs in Hq as [Hq1 Hq2].
      unfold cell, vertex_pos in Ec. simpl in Ec.
      apply index_eq_iff in Ec. destruct Ec as [[Ea _]|[Ea _]].
      * apply (Hapart T1 (fst q)); [| |exact Ea]; apply in_or_app; auto.
      * apply (Hapart T1 (snd q)); [| |exact Ea]; apply in_or_app; auto.
  - destruct Hbranch as (Hb1 & Hb2 & Hnd1 & Hnd2).
    destruct (Mesh.triangles (NonDiagonalBlock.mesh1 blk))
      as [|front1 rest1] eqn:E1; [destruct Hb1|].
    destruct (Mesh.triangles (NonDiagonalBlock.mesh2 blk))
      as [|front2 rest2] eqn:E2; [destruct Hb2|].
    destruct (NonDiagonal_S_unit_block blk front1 front2 rest1 rest2
                (uninit env) E1 E2 Hb1 Hb2 Hnd1 Hnd2) as (Sbloc & ES & Hrd).
    rewrite ES. cbn [mbind option_bind].
    apply NonDiagonal_N_from_values; try assumption.
    intros M1 T1 T2 _ _ _ H1 H2. rewrite E1 in H1. rewrite E2 in H2.
    apply Hrd; assumption.
Qed.

End NBlocks.

(** ** The selector of [HeadMatrix] *)

(** The loop over the pairs skips the disabled ones. *)
Lemma HeadMatrix_pairs_enabled (env : Env) (geo geo' : Geometry.t)
      (integrator : Integrator) (disableBlock : Mesh.t -> Mesh.t -> bool)
      (pairs : list Geometry.MeshPair) :
  Geometry.sigma geo' = Geometry.sigma geo ->
  Geometry.sigma_inv geo' = Geometry.sigma_inv geo ->
  Geometry.indicator geo' = Geometry.indicator geo ->
  forall symmatrix,
    foldlM (Details.HeadMatrix_pair env geo integrator disableBlock)
           pairs symmatrix
    = foldlM (Details.HeadMatrix_pair env geo' integrator Details.AllBlocks)
             (enabled_pairs disableBlock pairs) symmatrix.
Proof.
  intros Hs Hi Hd. induction pairs as [|mp pairs IH]; intros symmatrix;
    [reflexivity|].
  unfold enabled_pairs. cbn [foldlM List.filter].
  fold (enabled_pairs disableBlock pairs).
  unfold Details.HeadMatrix_pair at 1.
  destruct (disableBlock (Geometry.first mp) (Geometry.second mp)) eqn:Ed;
    cbn [negb].
  - apply IH.
  - cbn [foldlM]. unfold Details.HeadMatrix_pair at 2.
    unfold Details.AllBlocks at 1. rewrite Hs, Hi, Hd.
    match goal with
    | |- match ?a with _ => _ end = match ?b with _ => _ end =>
        change b with a; destruct a; [apply IH | reflexivity]
    end.
Qed.

(** X22. A head matrix assembled with a selector that disables some blocks
    is the head matrix, assembled with every block, of the geometry whose
    communicating mesh pairs are those that the selector does not disable;
    so is the failure of its assembly. *)
Theorem HeadMatrix_skips_disabled_pairs (env : Env) (geo : Geometry.t)
        (integrator : Integrator) (disableBlock : Mesh.t -> Mesh.t -> bool) :
  Details.HeadMatrix env geo integrator disableBlock
  = HeadMat env
      (with_pairs geo (enabled_pairs disableBlock
                         (Geometry.communicating_mesh_pairs geo)))
      integrator.
Proof.
  unfold HeadMat, Details.HeadMatrix.
  cbn [with_pairs Geometry.communicating_mesh_pairs].
  rewrite (HeadMatrix_pairs_enabled env geo
             (with_pairs geo (enabled_pairs disableBlock
                                (Geometry.communicating_mesh_pairs geo)))
             integrator disableBlock)
    by reflexivity.
  reflexivity.
Qed.
(** ** The N block of the two engines, and the guards *)

Section NClaims.

Context (env : Env).

Lemma nonzero_negb (c : Q) : ~ (c == 0)%Q -> negb (Qeq_bool c 0) = true.
Proof.
  intros Hc. apply negb_true_iff.
  destruct (Qeq_bool c 0) eqn:E; [|reflexivity].
  apply Qeq_bool_iff in E. contradiction.
Qed.

(** C7. In both engines the N computation returns a matrix whenever the
    matrix it is given covers the indices involved, and what it adds at
    every pair of vertices is computed from S values.  When
    [S_block_is_computed] holds, as it does after a [set_S_block] that ran
    on a mesh that is no current barrier with a nonzero coefficient, which
    the block then holds as [Scoeff], the S values are those that the
    result matrix holds, and the coefficient is coeff/Scoeff.  Otherwise
    the S values are those of an S block computed with coefficient 1, the
    integrals themselves, and the coefficient is coeff.  Either way the
    result has the dimension the matrix had, and every entry that does not
    pair two vertices of the mesh (a vertex of each mesh) is as it was: no
    value of the S block computed apart is written to the result. *)
Theorem N_reuses_or_recomputes_S (coeff : Q) (M : SymMatrix.t) :
  (forall blk : DiagonalBlock.t,
      (Diagonal_N_inputs blk M ->
       exists M', DiagonalBlock.N env blk coeff M = Some M'
                  /\ Diagonal_N_accumulated env blk coeff M M')
      /\ forall c blk' M1,
          DiagonalBlock.set_S_block env c blk M = Some (blk', M1) ->
          Mesh.current_barrier (DiagonalBlock.mesh blk) = false ->
          ~ (c == 0)%Q ->
          DiagonalBlock.S_block_is_computed blk' = true
          /\ DiagonalBlock.Scoeff blk' = c
          /\ DiagonalBlock.mesh blk' = DiagonalBlock.mesh blk
          /\ DiagonalBlock.integrator blk' = DiagonalBlock.integrator blk)
  /\ (forall blk : NonDiagonalBlock.t,
         (NonDiagonal_N_inputs blk M ->
          exists M', NonDiagonalBlock.N env blk coeff M = Some M'
                     /\ NonDiagonal_N_accumulated env blk coeff M M')
         /\ forall c blk' M1,
             NonDiagonalBlock.set_S_block env c blk M = Some (blk', M1) ->
             Mesh.current_barrier (NonDiagonalBlock.mesh1 blk) = false ->
             Mesh.current_barrier (NonDiagonalBlock.mesh2 blk) = false ->
             ~ (c == 0)%Q ->
             NonDiagonalBlock.S_block_is_computed blk' = true
             /\ NonDiagonalBlock.Scoeff blk' = c
             /\ NonDiagonalBlock.mesh1 blk' = NonDiagonalBlock.mesh1 blk
             /\ NonDiagonalBlock.mesh2 blk' = NonDiagonalBlock.mesh2 blk
             /\ NonDiagonalBlock.integrator blk'
                = NonDiagonalBlock.integrator blk).
Proof.
  split.
  - intros blk. split; [apply Diagonal_N_entries|].
    intros c blk' M1. unfold DiagonalBlock.set_S_block.
    intros H Hcb Hc. rewrite Hcb in H. simpl in H.
    destruct (DiagonalBlock.S env blk c M); simpl in H; [|discriminate].
    injection H as <- <-.
    unfold DiagonalBlock.S_block_is_computed. simpl.
    rewrite (nonzero_negb c Hc). repeat split.
  - intros blk. split; [apply NonDiagonal_N_entries|].
    intros c blk' M1. unfold NonDiagonalBlock.set_S_block.
    intros H Hcb1 Hcb2 Hc. rewrite Hcb1, Hcb2 in H. simpl in H.
    destruct (NonDiagonalBlock.S env blk c M); simpl in H; [|discriminate].
    injection H as <- <-.
    unfold NonDiagonalBlock.S_block_is_computed. simpl.
    rewrite (nonzero_negb c Hc). repeat split.
Qed.

(** C6. In the same-mesh and in the different-mesh engine, [set_S_block],
    [set_D_block] and [set_Dstar_block] return the sink (and the block) as
    they were when the mesh relevant to the operator is a current barrier:
    the mesh itself for the diagonal S and D blocks, either mesh for the
    non-diagonal S block, the first mesh for the non-diagonal D block, the
    second for the non-diagonal D* block (the diagonal D* block never
    writes).  [set_N_block] computes the N block and adds it to the matrix
    whatever the flags are: on every matrix that covers the indices
    involved it returns, for every value of the flags, the matrix to which
    the N block has been added. *)
Theorem barrier_guards (coeff : Q) :
  (forall (T : Type) (HT : Sink T) (matrix : T),
      (forall blk : DiagonalBlock.t,
          (Mesh.current_barrier (DiagonalBlock.mesh blk) = true ->
           DiagonalBlock.set_S_block env coeff blk matrix
           = Some (blk, matrix)
           /\ DiagonalBlock.set_D_block env coeff blk matrix = Some matrix)
          /\ DiagonalBlock.set_Dstar_block coeff blk matrix = Some matrix)
      /\ forall blk : NonDiagonalBlock.t,
          (Mesh.current_barrier (NonDiagonalBlock.mesh1 blk) = true
           \/ Mesh.current_barrier (NonDiagonalBlock.mesh2 blk) = true ->
           NonDiagonalBlock.set_S_block env coeff blk matrix
           = Some (blk, matrix))
          /\ (Mesh.current_barrier (NonDiagonalBlock.mesh1 blk) = true ->
              NonDiagonalBlock.set_D_block env coeff blk matrix
              = Some matrix)
          /\ (Mesh.current_barrier (NonDiagonalBlock.mesh2 blk) = true ->
              NonDiagonalBlock.set_Dstar_block env coeff blk matrix
              = Some matrix))
  /\ (forall (blk : DiagonalBlock.t) (M : SymMatrix.t),
         Diagonal_N_inputs blk M ->
         exists M',
           Diagonal_N_accumulated env blk coeff M M'
           /\ forall b : bool,
               DiagonalBlock.set_N_block env coeff
                 (DiagonalBlock.Make (DiagonalBlock.integrator blk)
                    (with_current_barrier b (DiagonalBlock.mesh blk))
                    (DiagonalBlock.Scoeff blk)) M
               = Some M')
  /\ forall (blk : NonDiagonalBlock.t) (M : SymMatrix.t),
      NonDiagonal_N_inputs blk M ->
      exists M',
        NonDiagonal_N_accumulated env blk coeff M M'
        /\ forall b1 b2 : bool,
            NonDiagonalBlock.set_N_block env coeff
              (NonDiagonalBlock.Make (NonDiagonalBlock.integrator blk)
                 (with_current_barrier b1 (NonDiagonalBlock.mesh1 blk))
                 (with_current_barrier b2 (NonDiagonalBlock.mesh2 blk))
                 (NonDiagonalBlock.Scoeff blk)) M
            = Some M'.
Proof.
  split; [|split].
  - intros T HT matrix. split.
    + intros blk. split; [|reflexivity].
      intros Hcb.
      unfold DiagonalBlock.set_S_block, DiagonalBlock.set_D_block.
      rewrite Hcb. split; reflexivity.
    + intros blk. split; [|split].
      * intros Hcb. unfold NonDiagonalBlock.set_S_block.
        destruct Hcb as [-> | ->]; simpl; [reflexivity|].
        rewrite andb_false_r. reflexivity.
      * intros Hcb. unfold NonDiagonalBlock.set_D_block. rewrite Hcb.
        reflexivity.
      * intros Hcb. unfold NonDiagonalBlock.set_Dstar_block. rewrite Hcb.
        rewrite andb_false_r. reflexivity.
  - intros blk M Hin.
    destruct (Diagonal_N_entries env blk coeff M Hin) as (M' & E & Hacc).
    exists M'. split; [exact Hacc|].
    intros b. unfold DiagonalBlock.set_N_block.
    rewrite Diagonal_N_ignores_barrier. exact E.
  - intros blk M Hin.
    destruct (NonDiagonal_N_entries env blk coeff M Hin) as (M' & E & Hacc).
    exists M'. split; [exact Hacc|].
    intros b1 b2. unfold NonDiagonalBlock.set_N_block.
    rewrite NonDiagonal_N_ignores_barrier. exact E.
Qed.

End NClaims.
(** ** The entries of [Surf2VolMat] *)

Lemma foldlM_flat_map {S A B : Type} (f : S -> B -> option S)
      (g : A -> list B) (l : list A) (s : S) :
  foldlM (fun s x => foldlM f (g x) s) l s = foldlM f (flat_map g l) s.
Proof.
  revert s. induction l as [|x l IH]; intros s; [reflexivity|].
  cbn [foldlM flat_map]. rewrite foldlM_app.
  destruct (foldlM f (g x) s); simpl; [apply IH | reflexivity].
Qed.

Lemma filter_flat_map {A B : Type} (P : B -> bool) (g : A -> list B)
      (l : list A) :
  List.filter P (flat_map g l) = flat_map (fun x => List.filter P (g x)) l.
Proof.
  induction l as [|x l IH]; [reflexivity|].
  cbn [flat_map]. rewrite List.filter_app, IH. reflexivity.
Qed.

Lemma flat_map_nil {A B : Type} (g : A -> list B) (l : list A) :
  (forall x, In x l -> g x = []) -> flat_map g l = [].
Proof.
  induction l as [|x l IH]; intros H; [reflexivity|].
  cbn [flat_map]. rewrite (H x (or_introl eq_refl)), IH; [reflexivity|].
  intros y Hy. apply H. right. exact Hy.
Qed.

(** *** A list of assignments and increments *)

Lemma run_ops_spec (n nc : nat) (ops : list cell_op) :
  forall mat : Matrix.t,
  Matrix_shape n nc mat ->
  Forall (fun o => op_row o < n /\ op_col o < nc) ops ->
  exists mat',
    foldlM run_op ops mat = Some mat'
    /\ Matrix_shape n nc mat'
    /\ forall a b x, Matrix.get mat a b = Some x ->
                     Matrix.get mat' a b = Some (replay a b ops x).
Proof.
  induction ops as [|o ops IH]; intros mat Hs Hr.
  - exists mat. split; [reflexivity|]. split; [exact Hs|]. auto.
  - inversion Hr as [|? ? [Hi Hj] Hr']; subst.
    destruct Hs as (Hn & Hc & Hw).
    assert (Hstep : exists mat1,
               run_op mat o = Some mat1 /\ Matrix_shape n nc mat1
               /\ forall a b x, Matrix.get mat a b = Some x ->
                    Matrix.get mat1 a b
                    = Some (if (op_row o =? a) && (op_col o =? b)
                            then (if op_put o then op_val o
                                  else x + op_val o)%Q
                            else x)).
    { unfold run_op. destruct (op_put o).
      - destruct (Matrix_put_total mat (op_row o) (op_col o) (op_val o))
          as (mat1 & E & Hn1 & Hc1 & Hw1); [lia | lia |].
        exists mat1. split; [exact E|].
        split; [repeat split; [congruence | congruence | auto]|].
        intros a b x Hx.
        destruct (Nat.eqb_spec (op_row o) a) as [<-|Ha];
          [destruct (Nat.eqb_spec (op_col o) b) as [<-|Hb]|]; cbn [andb].
        + apply (Matrix_get_put_eq mat _ _ _ mat1 Hw E).
        + rewrite (Matrix_get_put_ne mat _ _ _ mat1 _ _ E); [exact Hx|].
          intros [= ->]. contradiction.
        + rewrite (Matrix_get_put_ne mat _ _ _ mat1 _ _ E); [exact Hx|].
          intros [= -> _]. contradiction.
      - destruct (Matrix_add_spec mat (op_row o) (op_col o) (op_val o) Hw)
          as (old & mat1 & Eold & E & Hn1 & Hc1 & Hw1 & Hg & Hf);
          [lia | lia |].
        exists mat1. split; [exact E|].
        split; [repeat split; [congruence | congruence | auto]|].
        intros a b x Hx.
        destruct (Nat.eqb_spec (op_row o) a) as [<-|Ha];
          [destruct (Nat.eqb_spec (op_col o) b) as [<-|Hb]|]; cbn [andb].
        + rewrite Eold in Hx. injection Hx as <-. exact Hg.
        + rewrite Hf; [exact Hx|]. intros [= ->]. contradiction.
        + rewrite Hf; [exact Hx|]. intros [= -> _]. contradiction. }
    destruct Hstep as (mat1 & E1 & Hs1 & Hg1).
    destruct (IH mat1 Hs1 Hr') as (mat' & E & Hs' & Hg').
    exists mat'. split; [cbn [foldlM]; rewrite E1; exact E|].
    split; [exact Hs'|].
    intros a b x Hx. cbn [replay fold_left].
    apply Hg', Hg1, Hx.
Qed.

(** The operations on other lines do not count. *)
Lemma replay_row (a b : nat) (ops : list cell_op) :
  forall x, replay a b ops x
            = replay a b (List.filter (fun o => op_row o =? a) ops) x.
Proof.
  induction ops as [|o ops IH]; intros x; [reflexivity|].
  cbn [List.filter]. unfold replay in *. cbn [fold_left].
  destruct (op_row o =? a) eqn:E; cbn [andb fold_left].
  - rewrite E. cbn [andb]. apply IH.
  - apply IH.
Qed.

(** A cell that is only added to holds the sum of what is added. *)
Lemma replay_adds (a b : nat) (ops : list cell_op) :
  (forall o, In o ops -> op_row o = a) ->
  (forall o, In o ops -> op_put o = true -> op_col o <> b) ->
  forall x,
    (replay a b ops x
     == x + column_sum b
              (map (fun o => (op_col o, op_val o))
                   (List.filter (fun o => negb (op_put o)) ops)))%Q.
Proof.
  unfold column_sum.
  induction ops as [|o ops IH]; intros Hrow Hput x.
  - simpl. ring.
  - unfold replay. cbn [fold_left]. fold (replay a b ops).
    rewrite (Hrow o (or_introl eq_refl)), Nat.eqb_refl. cbn [andb].
    assert (Hrow' : forall o', In o' ops -> op_row o' = a)
      by (intros o' Ho'; apply Hrow; right; exact Ho').
    assert (Hput' : forall o', In o' ops -> op_put o' = true ->
                               op_col o' <> b)
      by (intros o' Ho'; apply Hput; right; exact Ho').
    cbn [List.filter].
    destruct (op_put o) eqn:Ep; cbn [negb].
    + destruct (Nat.eqb_spec (op_col o) b) as [Hc|Hc].
      * exfalso. exact (Hput o (or_introl eq_refl) Ep Hc).
      * apply IH; assumption.
    + cbn [map List.filter fst snd].
      destruct (Nat.eqb_spec (op_col o) b) as [Hc|Hc].
      * etransitivity; [apply IH; assumption|].
        unfold Qsum. cbn [map fold_right snd].
        set (rest := fold_right Qplus 0%Q _). ring.
      * apply IH; assumption.
Qed.

(** A cell that is only assigned one value holds it, once assigned. *)
Lemma replay_puts (a b : nat) (y : Q) (ops : list cell_op) :
  (forall o, In o ops -> op_row o = a -> op_col o = b ->
             op_put o = true /\ op_val o = y) ->
  forall x,
    (replay a b ops x = y
     \/ (replay a b ops x = x
         /\ forall o, In o ops -> ~ (op_row o = a /\ op_col o = b))).
Proof.
  induction ops as [|o ops IH]; intros Hall x.
  - right. split; [reflexivity|]. intros o [].
  - assert (Hall' : forall o', In o' ops -> op_row o' = a -> op_col o' = b ->
                               op_put o' = true /\ op_val o' = y)
      by (intros o' Ho'; apply Hall; right; exact Ho').
    unfold replay. cbn [fold_left]. fold (replay a b ops).
    destruct (Nat.eqb_spec (op_row o) a) as [Ha|Ha];
      [destruct (Nat.eqb_spec (op_col o) b) as [Hb|Hb]|]; cbn [andb].
    + destruct (Hall o (or_introl eq_refl) Ha Hb) as [-> ->].
      destruct (IH Hall' y) as [E|[E _]]; left; exact E.
    + destruct (IH Hall' x) as [E|[E Hno]]; [left; exact E|].
      right. split; [exact E|].
      intros o' [<-|Ho']; [tauto | apply Hno; exact Ho'].
    + destruct (IH Hall' x) as [E|[E Hno]]; [left; exact E|].
      right. split; [exact E|].
      intros o' [<-|Ho']; [tauto | apply Hno; exact Ho'].
Qed.

(** *** The second loop of [Surf2VolMat] as a list of operations *)

Section Surf2VolOps.

Context (env : Env).

Lemma addD_as_ops (mesh : Mesh.t) (coeff : Q) (points : list Vertex.t)
      (mat : Matrix.t) :
  PartialBlock.addD env mesh coeff points mat
  = foldlM run_op (addD_ops env mesh coeff points) mat.
Proof.
  unfold PartialBlock.addD, addD_ops.
  rewrite <- foldlM_flat_map. apply foldlM_ext. intros m1 T _.
  rewrite <- foldlM_flat_map. apply foldlM_ext. intros m2 v _.
  rewrite foldlM_map. reflexivity.
Qed.

Lemma S_as_ops (mesh : Mesh.t) (coeff : Q) (points : list Vertex.t)
      (mat : Matrix.t) :
  PartialBlock.S env mesh coeff points mat
  = foldlM run_op (S_ops env mesh coeff points) mat.
Proof.
  unfold PartialBlock.S, S_ops.
  rewrite <- foldlM_flat_map. apply foldlM_ext. intros m1 T _.
  rewrite foldlM_map. reflexivity.
Qed.

Lemma Surf2VolMat_loop_as_ops
      (m_points : list (Domain * list Vertex.t)) (mat : Matrix.t) :
  foldlM (fun mat '(domainptr, pts) =>
            foldlM (fun mat boundary =>
                      foldlM (fun mat omesh =>
                                let mesh := om_mesh omesh in
                                let coeff :=
                                  (inject_Z (mesh_orientation env boundary omesh)
                                   * K env)%Q in
                                mat ← PartialBlock.addD env mesh (- coeff)%Q
                                                        pts mat;
                                if negb (Mesh.current_barrier mesh)
                                then PartialBlock.S env mesh
                                       (coeff / conductivity domainptr)%Q
                                       pts mat
                                else Some mat)
                             (oriented_meshes (interface boundary)) mat)
                   (boundaries domainptr) mat)
         m_points mat
  = foldlM run_op (flat_map (domain_ops env) m_points) mat.
Proof.
  rewrite <- foldlM_flat_map. apply foldlM_ext. intros m1 [d pts] _.
  unfold domain_ops, meshes_around. cbn [fst snd].
  rewrite <- foldlM_flat_map.
  rewrite <- (foldlM_nested
                (fun m (bm : Boundary * OrientedMesh) =>
                   foldlM run_op (mesh_ops env d pts bm) m)
                (fun b => oriented_meshes (interface b))).
  apply foldlM_ext. intros m2 b _. apply foldlM_ext. intros m3 om _.
  unfold mesh_ops, Surf2Vol_coeff. cbn [fst snd]. cbv zeta.
  rewrite foldlM_app, addD_as_ops.
  destruct (foldlM run_op (addD_ops _ _ _ _) m3) as [m4|]; simpl;
    [|reflexivity].
  destruct (Mesh.current_barrier (om_mesh om)); simpl;
    [reflexivity | apply S_as_ops].
Qed.

Lemma in_meshes_around (d : Domain) (bm : Boundary * OrientedMesh) :
  In bm (meshes_around d)
  <-> In (fst bm) (boundaries d)
      /\ In (snd bm) (oriented_meshes (interface (fst bm))).
Proof.
  unfold meshes_around. rewrite in_flat_map. split.
  - intros (b & Hb & Hbm). apply in_map_iff in Hbm as (om & <- & Hom).
    auto.
  - intros [Hb Hom]. exists (fst bm). split; [exact Hb|].
    apply in_map_iff. exists (snd bm). split; [|exact Hom].
    destruct bm. reflexivity.
Qed.

Lemma domain_ops_in_range (nc n : nat) (e : Domain * list Vertex.t) :
  domain_in_range nc (fst e) ->
  Forall (fun v => Vertex.index v < n) (snd e) ->
  Forall (fun o => op_row o < n /\ op_col o < nc) (domain_ops env e).
Proof.
  intros Hd Hp. rewrite List.Forall_forall in Hp.
  apply List.Forall_forall. intros o Ho.
  unfold domain_ops in Ho. apply in_flat_map in Ho as (bm & Hbm & Ho).
  apply in_meshes_around in Hbm as [Hb Hom].
  unfold mesh_ops in Ho. apply in_app_or in Ho as [Ho|Ho].
  - unfold addD_ops in Ho. apply in_flat_map in Ho as (T & HT & Ho).
    apply in_flat_map in Ho as (v & Hv & Ho).
    apply in_map_iff in Ho as (i & <- & _). cbn [op_row op_col].
    split; [apply Hp; exact Hv|]. apply (Hd _ _ T Hb Hom HT).
  - destruct (Mesh.current_barrier (om_mesh (snd bm))) eqn:Ecb;
      cbn [negb] in Ho; [destruct Ho|].
    unfold S_ops in Ho. apply in_flat_map in Ho as (T & HT & Ho).
    apply in_map_iff in Ho as (v & <- & Hv). cbn [op_row op_col].
    split; [apply Hp; exact Hv|]. apply (Hd _ _ T Hb Hom HT). exact Ecb.
Qed.

Lemma Surf2Vol_ops_in_range (nc n : nat)
      (m_points : list (Domain * list Vertex.t)) :
  m_points_in_range nc n m_points ->
  Forall (fun o => op_row o < n /\ op_col o < nc)
         (flat_map (domain_ops env) m_points).
Proof.
  unfold m_points_in_range. intros Hm.
  rewrite List.Forall_forall in Hm.
  apply List.Forall_forall. intros o Ho.
  apply in_flat_map in Ho as (e & He & Ho).
  destruct (Hm e He) as [Hd Hp].
  pose proof (domain_ops_in_range nc n e Hd Hp) as H.
  rewrite List.Forall_forall in H. apply H. exact Ho.
Qed.

(** The operations on the line [k] are those of the points of index [k]. *)
Lemma domain_ops_row (k : nat) (d : Domain) (points : list Vertex.t) :
  List.filter (fun o => op_row o =? k) (domain_ops env (d, points))
  = domain_ops env
      (d, List.filter (fun v => Vertex.index v =? k) points).
Proof.
  unfold domain_ops. cbn [fst snd]. rewrite filter_flat_map.
  apply flat_map_ext. intros bm. unfold mesh_ops.
  rewrite List.filter_app. f_equal.
  - unfold addD_ops. rewrite filter_flat_map. apply flat_map_ext. intros T.
    induction points as [|v points IH]; [reflexivity|].
    cbn [flat_map List.filter]. rewrite List.filter_app, IH.
    cbn [seq map List.filter op_row].
    destruct (Vertex.index v =? k); reflexivity.
  - destruct (negb (Mesh.current_barrier (om_mesh (snd bm))));
      [|reflexivity].
    unfold S_ops. rewrite filter_flat_map. apply flat_map_ext. intros T.
    induction points as [|v points IH]; [reflexivity|].
    cbn [map List.filter op_row].
    destruct (Vertex.index v =? k); cbn [map]; rewrite IH; reflexivity.
Qed.

Lemma domain_ops_no_point (d : Domain) : domain_ops env (d, []) = [].
Proof.
  unfold domain_ops. apply flat_map_nil. intros bm _.
  unfold mesh_ops, addD_ops, S_ops. cbn [fst snd].
  rewrite (flat_map_nil _ (Mesh.triangles (om_mesh (snd bm))))
    by reflexivity.
  destruct (negb _); [|reflexivity].
  apply flat_map_nil. reflexivity.
Qed.

Lemma Surf2Vol_ops_row (k : nat) (d : Domain) (v : Vertex.t) :
  forall m_points : list (Domain * list Vertex.t),
  points_of_index k m_points = [(d, v)] ->
  List.filter (fun o => op_row o =? k) (flat_map (domain_ops env) m_points)
  = domain_ops env (d, [v]).
Proof.
  assert (Hnone : forall m : list (Domain * list Vertex.t),
             points_of_index k m = [] ->
             List.filter (fun o => op_row o =? k)
                         (flat_map (domain_ops env) m) = []).
  { induction m as [|[d' pts] m IH]; intros H; [reflexivity|].
    unfold points_of_index in H. cbn [flat_map fst snd] in H.
    apply app_eq_nil in H as [H1 H2]. apply map_eq_nil in H1.
    cbn [flat_map]. rewrite List.filter_app, domain_ops_row, H1.
    rewrite domain_ops_no_point. apply IH. exact H2. }
  intros m. induction m as [|[d' pts] m IH]; intros H; [discriminate|].
  unfold points_of_index in H. cbn [flat_map fst snd] in H.
  cbn [flat_map]. rewrite List.filter_app, domain_ops_row.
  destruct (List.filter (fun v0 => Vertex.index v0 =? k) pts)
    as [|v' rest] eqn:Ef.
  - rewrite domain_ops_no_point. apply IH. exact H.
  - cbn [map app] in H. injection H as -> -> H.
    apply app_eq_nil in H as [H1 H2]. apply map_eq_nil in H1. subst rest.
    rewrite (Hnone m H2), app_nil_r. reflexivity.
Qed.

(** The operations for one point. *)
Lemma domain_ops_point (d : Domain) (p : Vect3) (k : nat) :
  let ops := domain_ops env (d, [Vertex.Make p k]) in
  (forall o, In o ops -> op_row o = k)
  /\ map (fun o => (op_col o, op_val o))
         (List.filter (fun o => negb (op_put o)) ops)
     = Surf2Vol_D_entries env d p
  /\ map (fun o => (op_col o, op_val o)) (List.filter op_put ops)
     = Surf2Vol_S_entries env d p.
Proof.
  cbv zeta. split; [|split].
  - intros o Ho. unfold domain_ops in Ho.
    apply in_flat_map in Ho as (bm & _ & Ho).
    unfold mesh_ops in Ho. apply in_app_or in Ho as [Ho|Ho].
    + unfold addD_ops in Ho. apply in_flat_map in Ho as (T & _ & Ho).
      apply in_flat_map in Ho as (v & [<-|[]] & Ho).
      apply in_map_iff in Ho as (i & <- & _). reflexivity.
    + destruct (negb _); [|destruct Ho].
      unfold S_ops in Ho. apply in_flat_map in Ho as (T & _ & Ho).
      apply in_map_iff in Ho as (v & <- & [<-|[]]). reflexivity.
  - unfold domain_ops, Surf2Vol_D_entries. cbn [fst snd].
    induction (meshes_around d) as [|bm l IH]; [reflexivity|].
    cbn [flat_map]. rewrite List.filter_app, map_app, IH. f_equal.
    unfold mesh_ops. rewrite List.filter_app, map_app.
    assert (ES : List.filter (fun o => negb (op_put o))
                   (if negb (Mesh.current_barrier (om_mesh (snd bm)))
                    then S_ops env (om_mesh (snd bm))
                           (Surf2Vol_coeff env bm / conductivity d)%Q
                           [Vertex.Make p k]
                    else []) = []).
    { destruct (negb _); [|reflexivity]. unfold S_ops.
      induction (Mesh.triangles (om_mesh (snd bm))) as [|T ts IHt];
        [reflexivity|].
      cbn [flat_map map app List.filter op_put negb]. exact IHt. }
    rewrite ES, app_nil_r. unfold addD_ops.
    induction (Mesh.triangles (om_mesh (snd bm))) as [|T ts IHt];
      [reflexivity|].
    cbn [flat_map] in IHt |- *.
    rewrite List.filter_app, !map_app, IHt. f_equal.
  - unfold domain_ops, Surf2Vol_S_entries. cbn [fst snd].
    induction (meshes_around d) as [|bm l IH]; [reflexivity|].
    cbn [flat_map]. rewrite List.filter_app, map_app, IH. f_equal.
    unfold mesh_ops. rewrite List.filter_app, map_app.
    assert (ED : List.filter op_put
                   (addD_ops env (om_mesh (snd bm))
                             (- Surf2Vol_coeff env bm)%Q [Vertex.Make p k])
                 = []).
    { unfold addD_ops.
      induction (Mesh.triangles (om_mesh (snd bm))) as [|T ts IHt];
        [reflexivity|].
      cbn [flat_map] in IHt |- *. rewrite List.filter_app, IHt.
      reflexivity. }
    rewrite ED. cbn [map app].
    destruct (negb _); [|reflexivity]. unfold S_ops.
    induction (Mesh.triangles (om_mesh (snd bm))) as [|T ts IHt];
      [reflexivity|].
    cbn [flat_map map app List.filter op_put]. rewrite <- IHt.
    reflexivity.
Qed.

End Surf2VolOps.

(** *** The first loop of [Surf2VolMat]: where the points are filed *)

Lemma points_of_index_push_other (k : nat) (d : Domain) (v : Vertex.t) :
  Vertex.index v <> k ->
  forall m : list (Domain * list Vertex.t),
    points_of_index k (m_points_push m d v) = points_of_index k m.
Proof.
  intros Hv.
  assert (Hf : List.filter (fun v0 => Vertex.index v0 =? k) [v] = []).
  { cbn [List.filter]. destruct (Nat.eqb_spec (Vertex.index v) k);
      [contradiction | reflexivity]. }
  unfold points_of_index.
  induction m as [|[d' pts] m IH]; cbn [m_points_push].
  - cbn [flat_map fst snd]. rewrite Hf. reflexivity.
  - destruct (dom_ident d =? dom_ident d').
    + cbn [flat_map fst snd]. rewrite List.filter_app, Hf, app_nil_r.
      reflexivity.
    + destruct (dom_ident d <? dom_ident d').
      * cbn [flat_map fst snd]. rewrite Hf. reflexivity.
      * cbn [flat_map fst snd]. cbn [flat_map fst snd] in IH.
        rewrite IH. reflexivity.
Qed.

Lemma points_of_index_push_fresh (k : nat) (d : Domain) (v : Vertex.t) :
  Vertex.index v = k ->
  forall m : list (Domain * list Vertex.t),
    points_of_index k m = [] ->
    Forall (fun e => dom_ident d = dom_ident (fst e) -> fst e = d) m ->
    points_of_index k (m_points_push m d v) = [(d, v)].
Proof.
  intros Hv.
  assert (Hf : List.filter (fun v0 => Vertex.index v0 =? k) [v] = [v]).
  { cbn [List.filter]. destruct (Nat.eqb_spec (Vertex.index v) k);
      [reflexivity | contradiction]. }
  unfold points_of_index.
  induction m as [|[d' pts] m IH]; intros Hk Hd; cbn [m_points_push].
  - cbn [flat_map fst snd]. rewrite Hf. reflexivity.
  - cbn [flat_map fst snd] in Hk. apply app_eq_nil in Hk as [Hk1 Hk2].
    apply map_eq_nil in Hk1.
    apply List.Forall_cons_iff in Hd as [Hd1 Hd2]. cbn [fst] in Hd1.
    destruct (Nat.eqb_spec (dom_ident d) (dom_ident d')) as [Ei|Ei].
    + cbn [flat_map fst snd]. rewrite List.filter_app, Hf, Hk1.
      fold (points_of_index k m). unfold points_of_index. rewrite Hk2.
      rewrite (Hd1 Ei). reflexivity.
    + destruct (dom_ident d <? dom_ident d').
      * cbn [flat_map fst snd]. rewrite Hf, Hk1, Hk2. reflexivity.
      * cbn [flat_map fst snd]. rewrite Hk1. cbn [map app].
        apply IH; assumption.
Qed.

Lemma m_points_push_domains (P : Domain -> Prop) (d : Domain)
      (v : Vertex.t) :
  P d ->
  forall m : list (Domain * list Vertex.t),
    Forall (fun e => P (fst e)) m ->
    Forall (fun e => P (fst e)) (m_points_push m d v).
Proof.
  intros Hd. induction m as [|[d' pts] m IH]; intros Hm; cbn [m_points_push].
  - constructor; [exact Hd | constructor].
  - apply List.Forall_cons_iff in Hm as [H1 H2].
    destruct (dom_ident d =? dom_ident d').
    + constructor; [exact H1 | exact H2].
    + destruct (dom_ident d <? dom_ident d').
      * constructor; [exact Hd | constructor; [exact H1 | exact H2]].
      * constructor; [exact H1 | apply IH; exact H2].
Qed.

Lemma points_of_index_above (nc n k : nat)
      (m : list (Domain * list Vertex.t)) :
  m_points_in_range nc n m -> n <= k -> points_of_index k m = [].
Proof.
  unfold m_points_in_range, points_of_index. intros Hm Hk.
  apply flat_map_nil. intros e He.
  rewrite List.Forall_forall in Hm. destruct (Hm e He) as [_ Hp].
  rewrite List.Forall_forall in Hp.
  assert (Hf : List.filter (fun v => Vertex.index v =? k) (snd e) = []).
  { induction (snd e) as [|v l IH]; [reflexivity|].
    cbn [List.filter].
    destruct (Nat.eqb_spec (Vertex.index v) k) as [E|E].
    - specialize (Hp v (or_introl eq_refl)). simpl in Hp. lia.
    - apply IH. intros w Hw. apply Hp. right. exact Hw. }
  rewrite Hf. reflexivity.
Qed.

Section Surf2VolPoints.

Context (geo : Geometry.t).

(** The points kept are filed under their domains, each with the rank of
    its row among the rows kept. *)
Lemma Surf2VolMat_points_content (points : Matrix.t) (nc : nat) :
  Matrix.wf points -> 3 <= Matrix.ncol points ->
  (forall p, domain_in_range nc (Geometry.domain_at geo p)) ->
  (forall p q,
      dom_ident (Geometry.domain_at geo p)
      = dom_ident (Geometry.domain_at geo q) ->
      Geometry.domain_at geo p = Geometry.domain_at geo q) ->
  exists st,
    Surf2VolMat_points geo points = Some st
    /\ index st = length (kept_rows geo points)
    /\ dropped st = dropped_rows geo points
    /\ m_points_in_range nc (index st) (m_points st)
    /\ forall k i p,
        kept_rows geo points !! k = Some i ->
        point_of_row points i = Some p ->
        points_of_index k (m_points st)
        = [(Geometry.domain_at geo p, Vertex.Make p k)].
Proof.
  intros Hwf Hc Hgeo Hid.
  unfold Surf2VolMat_points, kept_rows, dropped_rows.
  match goal with |- context [foldlM ?f _ _] => set (body := f) end.
  set (Inv := fun (st : Surf2Vol_state) (done : list nat) =>
                index st = length (List.filter (kept geo points) done)
                /\ dropped st
                   = List.filter (fun i => negb (kept geo points i)) done
                /\ m_points_in_range nc (index st) (m_points st)
                /\ Forall (fun e => exists q,
                               fst e = Geometry.domain_at geo q)
                          (m_points st)
                /\ forall k i p,
                    List.filter (kept geo points) done !! k = Some i ->
                    point_of_row points i = Some p ->
                    points_of_index k (m_points st)
                    = [(Geometry.domain_at geo p, Vertex.Make p k)]).
  assert (G : forall rows done st,
             (forall i, In i rows -> i < Matrix.nlin points) ->
             Inv st done ->
             exists st', foldlM body rows st = Some st'
                         /\ Inv st' (done ++ rows)).
  { induction rows as [|i rows IH]; intros done st Hr HI.
    - exists st. rewrite app_nil_r. split; [reflexivity | exact HI].
    - destruct (point_of_row_total points i Hwf Hc (Hr i (or_introl eq_refl)))
        as [p Ep].
      assert (Hk : kept geo points i
                   = negb (Qeq_bool
                             (conductivity (Geometry.domain_at geo p)) 0))
        by (unfold kept; rewrite Ep; reflexivity).
      destruct HI as (Hi & Hd & Hok & Hdom & Hat).
      replace (done ++ i :: rows) with ((done ++ [i]) ++ rows)
        by (rewrite <- app_assoc; reflexivity).
      cbn [foldlM]. unfold body at 1. rewrite Ep. cbn [mbind option_bind].
      destruct (Qeq_bool (conductivity (Geometry.domain_at geo p)) 0) eqn:Eq;
        cbn [negb] in Hk.
      + apply IH; [intros j Hj; apply Hr; right; exact Hj|].
        unfold Inv. cbn [index dropped m_points].
        rewrite !List.filter_app. cbn [List.filter]. rewrite Hk.
        cbn [negb]. rewrite app_nil_r.
        split; [exact Hi|]. split; [rewrite Hd; reflexivity|].
        split; [exact Hok|]. split; [exact Hdom | exact Hat].
      + apply IH; [intros j Hj; apply Hr; right; exact Hj|].
        unfold Inv. cbn [index dropped m_points].
        rewrite !List.filter_app. cbn [List.filter]. rewrite Hk.
        cbn [negb]. rewrite app_nil_r, length_app. cbn [length].
        split; [lia|]. split; [exact Hd|]. split.
        { apply m_points_push_in_range; [|apply Hgeo | simpl; lia].
          eapply m_points_in_range_mono; [|exact Hok]. lia. }
        split.
        { apply (m_points_push_domains
                   (fun d => exists q, d = Geometry.domain_at geo q));
            [exists p; reflexivity | exact Hdom]. }
        intros k j q Hj Eq'.
        destruct (Nat.lt_ge_cases k
                    (length (List.filter (kept geo points) done)))
          as [Hlt|Hge].
        * rewrite lookup_app_l in Hj by exact Hlt.
          rewrite points_of_index_push_other by (simpl; lia).
          apply (Hat k j q Hj Eq').
        * rewrite lookup_app_r in Hj by exact Hge.
          destruct (k - length (List.filter (kept geo points) done))
            as [|r] eqn:Er; [|destruct r; discriminate].
          cbn in Hj. injection Hj as <-.
          rewrite Ep in Eq'. injection Eq' as <-.
          assert (k = index st) by lia. subst k.
          apply points_of_index_push_fresh; [reflexivity | |].
          -- apply (points_of_index_above nc (index st)); [exact Hok | lia].
          -- eapply List.Forall_impl; [|exact Hdom].
             intros e [q ->] Hq. symmetry. apply Hid. exact Hq. }
  destruct (G (seq 0 (Matrix.nlin points)) []
              {| m_points := []; index := 0; dropped := [] |})
    as (st & E & Hi & Hd & Hok & _ & Hat).
  - intros i Hi. apply in_seq in Hi. lia.
  - unfold Inv. cbn. split; [reflexivity|]. split; [reflexivity|].
    split; [constructor|]. split; [constructor|]. intros k i p H.
    discriminate.
  - exists st. cbn [app] in *. auto.
Qed.

End Surf2VolPoints.

(** *** Points outside the conductive domains *)

Section PointEvaluation.

Context (env : Env) (geo : Geometry.t).

Lemma kept_row_iff (points : Matrix.t) (i : nat) (p : Vect3) :
  i < Matrix.nlin points -> point_of_row points i = Some p ->
  (In i (dropped_rows geo points)
   <-> (conductivity (Geometry.domain_at geo p) == 0)%Q)
  /\ (In i (kept_rows geo points)
      <-> ~ (conductivity (Geometry.domain_at geo p) == 0)%Q).
Proof.
  intros Hi Ep.
  assert (Hk : kept geo points i
               = negb (Qeq_bool
                         (conductivity (Geometry.domain_at geo p)) 0))
    by (unfold kept; rewrite Ep; reflexivity).
  assert (Hseq : In i (seq 0 (Matrix.nlin points)))
    by (apply in_seq; lia).
  unfold dropped_rows, kept_rows. rewrite !filter_In, Hk, negb_involutive.
  rewrite negb_true_iff, <- not_true_iff_false, Qeq_bool_iff. tauto.
Qed.

(** The line of a point that [Surf2VolMat] keeps. *)
Lemma Surf2VolMat_line (nc n k : nat) (d : Domain) (p : Vect3)
      (m : list (Domain * list Vertex.t)) (mat0 mat : Matrix.t) :
  Matrix_shape n nc mat0 ->
  (forall a b, a < n -> b < nc -> Matrix.get mat0 a b = Some 0%Q) ->
  m_points_in_range nc n m -> k < n ->
  points_of_index k m = [(d, Vertex.Make p k)] ->
  foldlM run_op (flat_map (domain_ops env) m) mat0 = Some mat ->
  (forall c, c < nc -> ~ In c (map fst (Surf2Vol_S_entries env d p)) ->
             exists x, Matrix.get mat k c = Some x
                       /\ (x == column_sum c (Surf2Vol_D_entries env d p))%Q)
  /\ (List.NoDup (map fst (Surf2Vol_S_entries env d p)) ->
      (forall c, In c (map fst (Surf2Vol_D_entries env d p)) ->
                 ~ In c (map fst (Surf2Vol_S_entries env d p))) ->
      forall c y, In (c, y) (Surf2Vol_S_entries env d p) ->
                  Matrix.get mat k c = Some y).
Proof.
  intros Hs Hzero Hm Hk Hat E.
  pose proof (Surf2Vol_ops_in_range env nc n m Hm) as Hr.
  destruct (run_ops_spec n nc _ mat0 Hs Hr) as (mat' & E' & _ & Hg).
  rewrite E in E'. injection E' as <-.
  pose proof (Surf2Vol_ops_row env k d _ m Hat) as Hrow.
  destruct (domain_ops_point env d p k) as (Hrk & HD & HS).
  set (ops1 := domain_ops env (d, [Vertex.Make p k])) in *.
  assert (Hget : forall c, c < nc ->
             Matrix.get mat k c = Some (replay k c ops1 0%Q)).
  { intros c Hc. rewrite (Hg k c 0%Q (Hzero k c Hk Hc)).
    rewrite replay_row, Hrow. reflexivity. }
  assert (HinS : forall o, In o ops1 -> op_put o = true ->
                           In (op_col o, op_val o)
                              (Surf2Vol_S_entries env d p)).
  { intros o Ho Hp. rewrite <- HS.
    apply (in_map (fun o => (op_col o, op_val o))).
    apply filter_In. auto. }
  assert (HinD : forall o, In o ops1 -> op_put o = false ->
                           In (op_col o, op_val o)
                              (Surf2Vol_D_entries env d p)).
  { intros o Ho Hp. rewrite <- HD.
    apply (in_map (fun o => (op_col o, op_val o))).
    apply filter_In. rewrite Hp. auto. }
  split.
  - intros c Hc HnS. eexists. split; [apply Hget; exact Hc|].
    rewrite (replay_adds k c ops1 Hrk).
    + rewrite HD. apply Qplus_0_l.
    + intros o Ho Hp Ec. apply HnS. rewrite <- Ec.
      apply (in_map fst _ _ (HinS o Ho Hp)).
  - intros Hnd Hapart c y Hcy.
    assert (Ho : exists o, In o ops1 /\ op_put o = true
                           /\ op_col o = c /\ op_val o = y).
    { rewrite <- HS in Hcy. apply in_map_iff in Hcy as (o & Eo & Ho).
      apply filter_In in Ho as [Ho Hp]. injection Eo as <- <-.
      exists o. auto. }
    destruct Ho as (o & Ho & Hp & Eoc & Eov).
    assert (Hc : c < nc).
    { rewrite List.Forall_forall in Hr.
      assert (Hin : In o (flat_map (domain_ops env) m)).
      { assert (H : In o (List.filter (fun o => op_row o =? k)
                                      (flat_map (domain_ops env) m)))
          by (rewrite Hrow; exact Ho).
        apply filter_In in H. tauto. }
      destruct (Hr o Hin) as [_ H]. rewrite Eoc in H. exact H. }
    rewrite (Hget c Hc).
    destruct (replay_puts k c y ops1) with (x := 0%Q) as [Ey|[_ Hno]].
    + intros o' Ho' _ Eoc'. destruct (op_put o') eqn:Ep'.
      * split; [reflexivity|].
        pose proof (HinS o' Ho' Ep') as Hin'. rewrite Eoc' in Hin'.
        pose proof (NoDup_map_eq fst _ _ _ Hnd Hin' Hcy eq_refl) as Eq.
        injection Eq as ->. reflexivity.
      * exfalso. apply (Hapart c).
        -- rewrite <- Eoc'. apply (in_map fst _ _ (HinD o' Ho' Ep')).
        -- apply (in_map fst _ _ Hcy).
    + rewrite Ey. reflexivity.
    + exfalso. apply (Hno o Ho). split; [apply Hrk; exact Ho | exact Eoc].
Qed.

(** C9. Let the points be the rows of a matrix of at least three columns.
    The rows of the points that lie in a domain of zero conductivity are
    dropped, the other rows are kept, and neither builder fails for a point
    that is dropped.
    [Surf2VolMat], when the meshes around the domains index their vertices,
    and their triangles when they are not current barriers, below the
    number of columns: the result has a line per row kept, in the order of
    the rows, and nb_parameters − nb_current_barrier_triangles columns;
    when the domains are told apart by their identity, the line of a point
    holds, in a column that [S] does not write, the sum of what [addD] adds
    for the point in that column (zero when it adds nothing), and in the
    column of a triangle, no two triangles sharing a column and no vertex
    having the column of a triangle, the value that [S] writes for the
    point and the triangle.
    [DipSource2InternalPotMat]: the result has a line per row kept, in the
    order of the rows, and a column per dipole; the entry of the line of a
    point and of the column of a dipole is zero when the point does not lie
    in the domain of the dipole, and otherwise, the conductivity of that
    domain not being zero, K times the potential of the dipole at the
    point, divided by that conductivity. *)
Theorem degenerate_points_are_dropped (points : Matrix.t) :
  Matrix.wf points -> 3 <= Matrix.ncol points ->
  (forall i p, i < Matrix.nlin points -> point_of_row points i = Some p ->
               (In i (dropped_rows geo points)
                <-> (conductivity (Geometry.domain_at geo p) == 0)%Q)
               /\ (In i (kept_rows geo points)
                   <-> ~ (conductivity (Geometry.domain_at geo p) == 0)%Q))
  /\ length (kept_rows geo points) + length (dropped_rows geo points)
     = Matrix.nlin points
  /\ ((forall p,
          domain_in_range (Geometry.nb_parameters geo
                           - Geometry.nb_current_barrier_triangles geo)
                          (Geometry.domain_at geo p)) ->
      exists mat,
        Surf2VolMat env geo points = Some (dropped_rows geo points, mat)
        /\ Matrix_shape (length (kept_rows geo points))
                        (Geometry.nb_parameters geo
                         - Geometry.nb_current_barrier_triangles geo) mat
        /\ ((forall p q,
                dom_ident (Geometry.domain_at geo p)
                = dom_ident (Geometry.domain_at geo q) ->
                Geometry.domain_at geo p = Geometry.domain_at geo q) ->
            forall k i p,
              kept_rows geo points !! k = Some i ->
              point_of_row points i = Some p ->
              let d := Geometry.domain_at geo p in
              (forall c,
                  c < Geometry.nb_parameters geo
                      - Geometry.nb_current_barrier_triangles geo ->
                  ~ In c (map fst (Surf2Vol_S_entries env d p)) ->
                  exists x,
                    Matrix.get mat k c = Some x
                    /\ (x == column_sum c (Surf2Vol_D_entries env d p))%Q)
              /\ (List.NoDup (map fst (Surf2Vol_S_entries env d p)) ->
                  (forall c, In c (map fst (Surf2Vol_D_entries env d p)) ->
                             ~ In c (map fst (Surf2Vol_S_entries env d p))) ->
                  forall c y, In (c, y) (Surf2Vol_S_entries env d p) ->
                              Matrix.get mat k c = Some y)))
  /\ forall (dipoles : Matrix.t) (domain_name : string),
      exists mat,
        DipSource2InternalPotMat env geo dipoles points domain_name
        = Some (dropped_rows geo points, mat)
        /\ Matrix_shape (length (kept_rows geo points))
                        (Matrix.nlin dipoles) mat
        /\ forall k i p iDIP domain,
            kept_rows geo points !! k = Some i ->
            point_of_row points i = Some p ->
            iDIP < Matrix.nlin dipoles ->
            domain = (if String.eqb domain_name EmptyString
                      then Geometry.domain_at geo
                             (dipole_position env dipoles iDIP)
                      else Geometry.domain_named geo domain_name) ->
            exists c,
              Matrix.get mat k iDIP = Some c
              /\ (dom_ident (Geometry.domain_at geo p) <> dom_ident domain ->
                  (c == 0)%Q)
              /\ (dom_ident (Geometry.domain_at geo p) = dom_ident domain ->
                  ~ (conductivity domain == 0)%Q ->
                  (c == K env / conductivity domain
                        * dipole_potential env dipoles iDIP p)%Q).
Proof.
  intros Hwf Hc.
  split; [intros i p; apply kept_row_iff|].
  split; [apply kept_or_dropped|]. split.
  - intros Hgeo.
    set (nc := Geometry.nb_parameters geo
               - Geometry.nb_current_barrier_triangles geo) in *.
    destruct (Surf2VolMat_points_spec geo points nc Hwf Hc Hgeo)
      as (st & Est & Hi & Hd & Hok).
    unfold Surf2VolMat. rewrite Est. cbn [mbind option_bind]. cbv zeta.
    fold nc. rewrite Surf2VolMat_loop_as_ops.
    set (mat0 := Matrix.set (Matrix.new (index st) nc (uninit env)) 0%Q).
    assert (Hs0 : Matrix_shape (index st) nc mat0) by apply Matrix_set_new.
    destruct (run_ops_spec (index st) nc _ mat0 Hs0
                (Surf2Vol_ops_in_range env nc (index st) _ Hok))
      as (mat & E & Hs & _).
    exists mat. rewrite E. cbn [mbind option_bind]. rewrite Hd.
    split; [reflexivity|]. rewrite <- Hi. split; [exact Hs|].
    intros Hid k i p Hk Ep.
    destruct (Surf2VolMat_points_content geo points nc Hwf Hc Hgeo Hid)
      as (st' & Est' & _ & _ & _ & Hat).
    rewrite Est in Est'. injection Est' as <-.
    apply (Surf2VolMat_line nc (index st) k _ p (m_points st) mat0 mat Hs0).
    + intros a b Ha Hb. apply Matrix_get_set_new; assumption.
    + exact Hok.
    + rewrite Hi. apply lookup_lt_Some in Hk. exact Hk.
    + apply (Hat k i p Hk Ep).
    + exact E.
  - intros dipoles domain_name.
    destruct (InternalPot_entries_by_point env geo dipoles points domain_name
                Hwf Hc)
      as (st & mat & _ & Hpts & E & Hs & Hent).
    assert (Hlen : length (pts st) = length (kept_rows geo points)).
    { rewrite <- (length_map Some (pts st)), Hpts. apply length_map. }
    exists mat. split; [exact E|]. rewrite <- Hlen. split; [exact Hs|].
    intros k i p iDIP domain Hk Ep HiDIP Edom.
    apply (Hent k iDIP p domain); [|exact HiDIP | exact Edom].
    assert (H : map Some (pts st) !! k = Some (Some p)).
    { rewrite Hpts, list_lookup_fmap, Hk. cbn. rewrite Ep. reflexivity. }
    rewrite list_lookup_fmap in H.
    destruct (pts st !! k) as [p'|]; [|discriminate].
    cbn in H. injection H as ->. reflexivity.
Qed.

End PointEvaluation.

(** ** The theorems above on concrete inputs *)

Ltac single_triangle H := simpl in H; destruct H as [<-|[]].

Lemma add_assign_entrywise_witness :
  SymMatrix.wf Examples.M3 /\ SymMatrix.wf Samples.I3
  /\ exists C D,
      SymMatrixOps.add_assign Examples.M3 Samples.I3 = Some C
      /\ SymMatrixOps.sub_assign Examples.M3 Samples.I3 = Some D
      /\ SymMatrix.wf C /\ SymMatrix.wf D.
Proof.
  assert (H1 : SymMatrix.wf Examples.M3) by reflexivity.
  assert (H2 : SymMatrix.wf Samples.I3) by reflexivity.
  split; [exact H1|]. split; [exact H2|].
  destruct (add_assign_entrywise Examples.M3 Samples.I3 H1 H2) as [_ H].
  destruct (H eq_refl) as (C & D & EC & ED & _ & WC & _ & WD & _).
  exists C, D. auto.
Defined.

Lemma scale_entrywise_witness :
  SymMatrix.wf Examples.M3
  /\ exists C,
      SymMatrixOps.scale Examples.M3 2 Examples.zeros = Some C
      /\ SymMatrixOps.scale_assign Examples.M3 2 = Some C
      /\ SymMatrix.nlin C = SymMatrix.nlin Examples.M3 /\ SymMatrix.wf C.
Proof.
  assert (H1 : SymMatrix.wf Examples.M3) by reflexivity.
  split; [exact H1|].
  destruct (scale_entrywise Examples.M3 2 Examples.zeros H1)
    as (C & E1 & E2 & Hn & Hw & _).
  exists C. auto.
Defined.

Lemma submat_block_entries_witness :
  SymMatrix.wf Examples.M3 /\ 0 < 2
  /\ 1 + 2 <= SymMatrix.nlin Examples.M3
  /\ 0 + 2 <= SymMatrix.nlin Examples.M3
  /\ exists R,
      SymMatrixOps.submat_block Examples.M3 1 2 0 2 Examples.zeros = Some R
      /\ Matrix.nlin R = 2 /\ Matrix.ncol R = 2 /\ Matrix.wf R.
Proof.
  assert (H1 : SymMatrix.wf Examples.M3) by reflexivity.
  assert (H2 : 0 < 2) by lia.
  assert (H3 : 1 + 2 <= SymMatrix.nlin Examples.M3) by (simpl; lia).
  assert (H4 : 0 + 2 <= SymMatrix.nlin Examples.M3) by (simpl; lia).
  split; [exact H1|]. split; [exact H2|]. split; [exact H3|].
  split; [exact H4|].
  destruct (submat_block_entries Examples.M3 1 2 0 2 Examples.zeros
                                 H1 H2 H2 H3 H4)
    as (R & E & _ & Hn & Hc & Hw & _).
  exists R. auto.
Defined.

Lemma getlin_reads_line_and_column_witness :
  SymMatrix.wf Examples.M3 /\ 1 < SymMatrix.nlin Examples.M3
  /\ exists v,
      SymMatrixOps.getlin Examples.M3 1 Examples.zeros = Some v
      /\ Vector.size v = SymMatrix.nlin Examples.M3.
Proof.
  assert (H1 : SymMatrix.wf Examples.M3) by reflexivity.
  assert (H2 : 1 < SymMatrix.nlin Examples.M3) by (simpl; lia).
  split; [exact H1|]. split; [exact H2|].
  destruct (getlin_reads_line_and_column Examples.M3 1 Examples.zeros H1)
    as [_ H].
  destruct (H H2) as (v & E & Hs & _).
  exists v. auto.
Defined.

Lemma setlin_writes_line_and_column_witness :
  SymMatrix.wf Examples.M3
  /\ Vector.size Samples.u3 = SymMatrix.nlin Examples.M3
  /\ 1 < SymMatrix.nlin Examples.M3
  /\ exists M',
      SymMatrixOps.setlin Examples.M3 1 Samples.u3 = Some M'
      /\ SymMatrix.wf M'
      /\ SymMatrixOps.getlin M' 1 Examples.zeros = Some Samples.u3.
Proof.
  assert (H1 : SymMatrix.wf Examples.M3) by reflexivity.
  assert (H2 : Vector.size Samples.u3 = SymMatrix.nlin Examples.M3)
    by reflexivity.
  assert (H3 : 1 < SymMatrix.nlin Examples.M3) by (simpl; lia).
  split; [exact H1|]. split; [exact H2|]. split; [exact H3|].
  destruct (setlin_writes_line_and_column Examples.M3 1 Samples.u3 H1)
    as [_ H].
  destruct (H H2 H3) as (M' & E & _ & Hw & _ & _ & Hg).
  exists M'. auto.
Defined.

Lemma mult_Vector_is_the_product_witness :
  SymMatrix.wf Examples.M3
  /\ SymMatrix.nlin Examples.M3 = Vector.size Samples.u3
  /\ exists y,
      SymMatrixOps.mult_Vector Examples.M3 Samples.u3 Examples.zeros = Some y
      /\ Vector.size y = SymMatrix.nlin Examples.M3.
Proof.
  assert (H1 : SymMatrix.wf Examples.M3) by reflexivity.
  assert (H2 : SymMatrix.nlin Examples.M3 = Vector.size Samples.u3)
    by reflexivity.
  split; [exact H1|]. split; [exact H2|].
  destruct (mult_Vector_is_the_product Examples.M3 Samples.u3 Examples.zeros
                                       H1) as [_ H].
  destruct (H H2) as (y & E & Hs & _).
  exists y. auto.
Defined.

Lemma mult_Matrix_is_the_product_witness :
  SymMatrix.wf Examples.M3 /\ Matrix.wf Samples.A32
  /\ SymMatrix.nlin Examples.M3 = Matrix.nlin Samples.A32
  /\ exists C,
      SymMatrixOps.mult_Matrix Examples.M3 Samples.A32 Examples.zeros = Some C
      /\ Matrix.nlin C = SymMatrix.nlin Examples.M3
      /\ Matrix.ncol C = Matrix.ncol Samples.A32
      /\ Matrix.wf C.
Proof.
  assert (H1 : SymMatrix.wf Examples.M3) by reflexivity.
  assert (H2 : Matrix.wf Samples.A32) by reflexivity.
  assert (H3 : SymMatrix.nlin Examples.M3 = Matrix.nlin Samples.A32)
    by reflexivity.
  split; [exact H1|]. split; [exact H2|]. split; [exact H3|].
  destruct (mult_Matrix_is_the_product Examples.M3 Samples.A32 Examples.zeros
                                       H1 H2) as [_ H].
  destruct (H H3) as (C & E & Hn & Hc & Hw & _).
  exists C. auto.
Defined.

Lemma info_reports_extrema_witness :
  SymMatrix.wf Examples.M3 /\ 0 < SymMatrix.nlin Examples.M3
  /\ exists r,
      SymMatrixOps.info Examples.M3 = Some (Some r)
      /\ SymMatrix.get Examples.M3 (SymMatrixOps.mini r) (SymMatrixOps.minj r)
         = Some (SymMatrixOps.minv r)
      /\ SymMatrix.get Examples.M3 (SymMatrixOps.maxi r) (SymMatrixOps.maxj r)
         = Some (SymMatrixOps.maxv r).
Proof.
  assert (H1 : SymMatrix.wf Examples.M3) by reflexivity.
  assert (H2 : 0 < SymMatrix.nlin Examples.M3) by (simpl; lia).
  split; [exact H1|]. split; [exact H2|].
  destruct (info_reports_extrema Examples.M3 H1) as [_ H].
  destruct (H H2) as (r & E & Hmin & Hmax & _).
  exists r. auto.
Defined.

Lemma Diagonal_S_entries_witness :
  SymMatrix.wf Examples.Z4
  /\ exists M',
      DiagonalBlock.S Examples.env0
        (DiagonalBlock.new Examples.mesh0 Examples.integrator0) 2 Examples.Z4
      = Some M'
      /\ SymMatrix.nlin M' = SymMatrix.nlin Examples.Z4 /\ SymMatrix.wf M'.
Proof.
  assert (H1 : SymMatrix.wf Examples.Z4) by reflexivity.
  split; [exact H1|].
  destruct (Diagonal_S_entries Examples.env0
              (DiagonalBlock.new Examples.mesh0 Examples.integrator0) 2
              Examples.Z4 H1) as (M' & E & Hn & Hw & _).
  - intros T H. single_triangle H. simpl. lia.
  - simpl. constructor; [simpl; tauto | constructor].
  - exists M'. auto.
Defined.

Lemma NonDiagonal_S_entries_witness :
  SymMatrix.wf Samples.Z5
  /\ exists M',
      NonDiagonalBlock.S Examples.env0
        (NonDiagonalBlock.new Examples.mesh0 Samples.mesh1
                              Examples.integrator0) 2 Samples.Z5
      = Some M'
      /\ SymMatrix.nlin M' = SymMatrix.nlin Samples.Z5 /\ SymMatrix.wf M'.
Proof.
  assert (H1 : SymMatrix.wf Samples.Z5) by reflexivity.
  split; [exact H1|].
  destruct (NonDiagonal_S_entries Examples.env0
              (NonDiagonalBlock.new Examples.mesh0 Samples.mesh1
                                    Examples.integrator0) 2
              Samples.Z5 H1) as (M' & E & Hn & Hw & _).
  - intros T [H|H]; single_triangle H; simpl; lia.
  - simpl. constructor; [simpl; lia | constructor; [simpl; tauto|constructor]].
  - exists M'. auto.
Defined.

Lemma addId_adds_a_third_of_the_area_witness :
  SymMatrix.wf Examples.Z4
  /\ exists M',
      DiagonalBlock.addId
        (DiagonalBlock.new Examples.mesh0 Examples.integrator0) 1 Examples.Z4
      = Some M'
      /\ SymMatrix.nlin M' = SymMatrix.nlin Examples.Z4.
Proof.
  assert (H1 : SymMatrix.wf Examples.Z4) by reflexivity.
  split; [exact H1|].
  destruct (addId_adds_a_third_of_the_area
              (DiagonalBlock.new Examples.mesh0 Examples.integrator0) 1
              Examples.Z4 H1) as (M' & E & Hn & _).
  - intros T i H. single_triangle H.
    destruct i as [|[|i]]; simpl; lia.
  - simpl. constructor; [simpl; tauto | constructor].
  - intros T i j H Hi Hj. single_triangle H.
    destruct i as [|[|[|i]]]; destruct j as [|[|[|j]]]; simpl; lia.
  - intros T T' i H H'. single_triangle H. single_triangle H'.
    destruct i as [|[|i]]; simpl; lia.
  - exists M'. auto.
Defined.

Lemma deflate_without_outermost_witness :
  SymMatrix.wf Examples.M3 /\ 0 < SymMatrix.nlin Examples.M3
  /\ Details.deflate Examples.M3 Samples.no_outermost = Some Examples.M3.
Proof.
  assert (H1 : SymMatrix.wf Examples.M3) by reflexivity.
  assert (H2 : 0 < SymMatrix.nlin Examples.M3) by (simpl; lia).
  split; [exact H1|]. split; [exact H2|].
  destruct (deflate_without_outermost Samples.no_outermost Examples.M3 H1)
    as [H _].
  - intros part m Hp Hm. simpl in Hp. destruct Hp as [<-|[]].
    simpl in Hm. destruct Hm as [<-|[]]. reflexivity.
  - exact (H H2).
Defined.

Lemma CorticalMat2_scale_by_power_witness :
  SymMatrix.wf Examples.Z4
  /\ exists G',
      CorticalMat2_scale Examples.head0 2 Examples.Z4 = Some G'
      /\ SymMatrix.nlin G' = SymMatrix.nlin Examples.Z4.
Proof.
  assert (H1 : SymMatrix.wf Examples.Z4) by reflexivity.
  split; [exact H1|].
  destruct (CorticalMat2_scale_by_power Examples.head0 2 Examples.Z4 H1)
    as (G' & E & Hn & _).
  - intros T H. single_triangle H. simpl. lia.
  - simpl. constructor; [simpl; tauto | constructor].
  - exists G'. auto.
Defined.

Lemma DipSource2InternalPotMat_entries_witness :
  Matrix.wf Examples.two_points /\ 3 <= Matrix.ncol Examples.two_points
  /\ exists mat,
      DipSource2InternalPotMat Examples.env0 Examples.head0
        Samples.one_dipole Examples.two_points EmptyString
      = Some (dropped_rows Examples.head0 Examples.two_points, mat)
      /\ Matrix.ncol mat = Matrix.nlin Samples.one_dipole.
Proof.
  assert (H1 : Matrix.wf Examples.two_points) by reflexivity.
  assert (H2 : 3 <= Matrix.ncol Examples.two_points) by (simpl; lia).
  split; [exact H1|]. split; [exact H2|].
  destruct (DipSource2InternalPotMat_entries Examples.env0 Examples.head0
              Samples.one_dipole Examples.two_points EmptyString H1 H2)
    as (st & mat & _ & _ & E & (_ & Hc & _) & _).
  exists mat. auto.
Defined.

Lemma D_entries_witness :
  SymMatrix.wf Examples.Z4
  /\ exists M',
      BlocksBase.D Examples.env0 Examples.integrator0 [Examples.t0]
                   [Examples.t0] 1 Examples.Z4 = Some M'
      /\ SymMatrix.nlin M' = SymMatrix.nlin Examples.Z4.
Proof.
  assert (H1 : SymMatrix.wf Examples.Z4) by reflexivity.
  split; [exact H1|].
  destruct (D_entries Examples.env0 Examples.integrator0 1 [Examples.t0]
                      [Examples.t0] Examples.Z4 H1) as (M' & E & Hn & _).
  - intros T H. single_triangle H. simpl. lia.
  - intros T i H. single_triangle H. destruct i as [|[|i]]; simpl; lia.
  - simpl. constructor; [simpl; tauto | constructor].
  - exists M'. auto.
Defined.

Lemma put_changes_one_entry_witness :
  SymMatrix.wf Examples.M3
  /\ SymMatrix.put Examples.M3 0 1 7 = Some Samples.M3_put
  /\ ~ (2 = 0 /\ 2 = 1) /\ ~ (2 = 1 /\ 2 = 0)
  /\ SymMatrix.nlin Samples.M3_put = SymMatrix.nlin Examples.M3
  /\ SymMatrix.wf Samples.M3_put
  /\ SymMatrix.get Samples.M3_put 0 1 = Some 7%Q
  /\ SymMatrix.get Samples.M3_put 1 0 = Some 7%Q
  /\ SymMatrix.get Samples.M3_put 2 2 = SymMatrix.get Examples.M3 2 2.
Proof.
  assert (H0 : SymMatrix.wf Examples.M3) by reflexivity.
  assert (H1 : SymMatrix.put Examples.M3 0 1 7 = Some Samples.M3_put)
    by reflexivity.
  assert (H2 : ~ (2 = 0 /\ 2 = 1)) by lia.
  assert (H3 : ~ (2 = 1 /\ 2 = 0)) by lia.
  split; [exact H0|]. split; [exact H1|]. split; [exact H2|].
  split; [exact H3|].
  exact (put_changes_one_entry Examples.M3 Samples.M3_put 0 1 7 2 2
                               H0 H1 H2 H3).
Defined.

Lemma add_and_sub_entrywise_witness :
  SymMatrix.wf Examples.M3 /\ SymMatrix.wf Samples.I3
  /\ exists C D,
      SymMatrixOps.add Examples.M3 Samples.I3 = Some C
      /\ SymMatrixOps.sub Examples.M3 Samples.I3 = Some D
      /\ SymMatrix.wf C /\ SymMatrix.wf D.
Proof.
  assert (H1 : SymMatrix.wf Examples.M3) by reflexivity.
  assert (H2 : SymMatrix.wf Samples.I3) by reflexivity.
  split; [exact H1|]. split; [exact H2|].
  destruct (add_and_sub_entrywise Examples.M3 Samples.I3 H1 H2) as [_ H].
  destruct (H eq_refl) as (C & D & EC & ED & _ & WC & _ & WD & _).
  exists C, D. auto.
Defined.

Lemma div_multiplies_by_inverse_witness :
  SymMatrix.wf Examples.M3 /\ ~ (2 == 0)%Q
  /\ exists D,
      SymMatrixOps.div Examples.M3 2 Examples.zeros = Some D
      /\ SymMatrixOps.div_assign Examples.M3 2 = Some D
      /\ SymMatrix.nlin D = SymMatrix.nlin Examples.M3 /\ SymMatrix.wf D.
Proof.
  assert (H1 : SymMatrix.wf Examples.M3) by reflexivity.
  assert (H2 : ~ (2 == 0)%Q) by (unfold Qeq; simpl; lia).
  split; [exact H1|]. split; [exact H2|].
  destruct (div_multiplies_by_inverse Examples.M3 2 Examples.zeros H1 H2)
    as (D & E1 & E2 & Hn & Hw & _).
  exists D. auto.
Defined.

Lemma of_Matrix_takes_upper_triangle_witness :
  Matrix.wf Samples.A33 /\ SymMatrix.fits (Matrix.nlin Samples.A33)
  /\ exists S,
      SymMatrixOps.of_Matrix Samples.A33 Examples.zeros = Some S
      /\ SymMatrix.nlin S = Matrix.nlin Samples.A33 /\ SymMatrix.wf S.
Proof.
  assert (H1 : Matrix.wf Samples.A33) by reflexivity.
  assert (H2 : SymMatrix.fits (Matrix.nlin Samples.A33)) by reflexivity.
  split; [exact H1|]. split; [exact H2|].
  destruct (of_Matrix_takes_upper_triangle Samples.A33 Examples.zeros H1 H2)
    as [_ H].
  destruct (H ltac:(simpl; lia)) as (S & E & Hn & Hw & _).
  exists S. auto.
Defined.

(** The inputs of the N blocks: the mesh of one triangle with a matrix of
    dimension 4, and the pair it makes with the second mesh of one triangle
    with a matrix of dimension 8. *)
Lemma Diagonal_N_inputs_sample (b : bool) (c : Q) :
  Diagonal_N_inputs
    (DiagonalBlock.Make Examples.integrator0
                        (with_current_barrier b Examples.mesh0) c)
    Examples.Z4.
Proof.
  unfold Diagonal_N_inputs. cbv zeta.
  cbn [DiagonalBlock.mesh with_current_barrier Mesh.vertices Mesh.triangles
       Examples.mesh0].
  split; [reflexivity|]. split.
  { intros V H. simpl in H. destruct H as [<-|[<-|[<-|[]]]]; simpl; lia. }
  split.
  { simpl. repeat (constructor; [simpl; lia|]). constructor. }
  destruct (DiagonalBlock.S_block_is_computed _).
  - split.
    + intros T H. single_triangle H. simpl. lia.
    + intros T V H HV. single_triangle H.
      simpl in HV. destruct HV as [<-|[<-|[<-|[]]]]; simpl; lia.
  - split; [|split].
    + simpl. intros T H. single_triangle H. simpl. lia.
    + simpl. constructor; [simpl; tauto | constructor].
    + reflexivity.
Defined.

Lemma NonDiagonal_N_inputs_sample (b1 b2 : bool) (c : Q) :
  NonDiagonal_N_inputs
    (NonDiagonalBlock.Make Examples.integrator0
                           (with_current_barrier b1 Examples.mesh0)
                           (with_current_barrier b2 Samples.mesh2) c)
    Samples.Z8.
Proof.
  unfold NonDiagonal_N_inputs. cbv zeta.
  cbn [NonDiagonalBlock.mesh1 NonDiagonalBlock.mesh2 with_current_barrier
       Mesh.vertices Mesh.triangles Examples.mesh0 Samples.mesh2].
  split; [reflexivity|]. split.
  { intros V H. simpl in H.
    destruct H as [<-|[<-|[<-|[<-|[<-|[<-|[]]]]]]]; simpl; lia. }
  split.
  { simpl. repeat (constructor; [simpl; lia|]). constructor. }
  destruct (NonDiagonalBlock.S_block_is_computed _).
  - split.
    + intros T H. simpl in H. destruct H as [<-|[<-|[]]]; simpl; lia.
    + intros T V H HV. simpl in H, HV.
      destruct H as [<-|[<-|[]]];
        destruct HV as [<-|[<-|[<-|[<-|[<-|[<-|[]]]]]]]; simpl; lia.
  - split; [|split; [|split]].
    + simpl. intros T H. single_triangle H. simpl. lia.
    + simpl. intros T H. single_triangle H. simpl. lia.
    + simpl. constructor; [simpl; tauto | constructor].
    + simpl. constructor; [simpl; tauto | constructor].
Defined.

Lemma N_reuses_or_recomputes_S_witness :
  (exists M',
      DiagonalBlock.N Examples.env0
        (DiagonalBlock.Make Examples.integrator0
           (with_current_barrier false Examples.mesh0) 2) 1 Examples.Z4
      = Some M'
      /\ Diagonal_N_accumulated Examples.env0
           (DiagonalBlock.Make Examples.integrator0
              (with_current_barrier false Examples.mesh0) 2) 1
           Examples.Z4 M')
  /\ exists M',
      NonDiagonalBlock.N Examples.env0
        (NonDiagonalBlock.Make Examples.integrator0
           (with_current_barrier false Examples.mesh0)
           (with_current_barrier false Samples.mesh2) 0) 1 Samples.Z8
      = Some M'
      /\ NonDiagonal_N_accumulated Examples.env0
           (NonDiagonalBlock.Make Examples.integrator0
              (with_current_barrier false Examples.mesh0)
              (with_current_barrier false Samples.mesh2) 0) 1
           Samples.Z8 M'.
Proof.
  split.
  - destruct (N_reuses_or_recomputes_S Examples.env0 1 Examples.Z4)
      as [H _].
    destruct (H (DiagonalBlock.Make Examples.integrator0
                   (with_current_barrier false Examples.mesh0) 2))
      as [HN _].
    exact (HN (Diagonal_N_inputs_sample false 2)).
  - destruct (N_reuses_or_recomputes_S Examples.env0 1 Samples.Z8)
      as [_ H].
    destruct (H (NonDiagonalBlock.Make Examples.integrator0
                   (with_current_barrier false Examples.mesh0)
                   (with_current_barrier false Samples.mesh2) 0))
      as [HN _].
    exact (HN (NonDiagonal_N_inputs_sample false false 0)).
Defined.

Lemma barrier_guards_witness :
  (exists M',
      Diagonal_N_accumulated Examples.env0
        (DiagonalBlock.Make Examples.integrator0
           (with_current_barrier true Examples.mesh0) 0) 1 Examples.Z4 M'
      /\ DiagonalBlock.set_N_block Examples.env0 1
           (DiagonalBlock.Make Examples.integrator0
              (with_current_barrier true Examples.mesh0) 0) Examples.Z4
         = Some M')
  /\ exists M',
      NonDiagonal_N_accumulated Examples.env0
        (NonDiagonalBlock.Make Examples.integrator0
           (with_current_barrier true Examples.mesh0)
           (with_current_barrier true Samples.mesh2) 2) 1 Samples.Z8 M'
      /\ NonDiagonalBlock.set_N_block Examples.env0 1
           (NonDiagonalBlock.Make Examples.integrator0
              (with_current_barrier true Examples.mesh0)
              (with_current_barrier true Samples.mesh2) 2) Samples.Z8
         = Some M'.
Proof.
  destruct (barrier_guards Examples.env0 1) as (_ & HD & HN).
  split.
  - destruct (HD _ _ (Diagonal_N_inputs_sample true 0)) as (M' & Hacc & E).
    exists M'. split; [exact Hacc|]. exact (E true).
  - destruct (HN _ _ (NonDiagonal_N_inputs_sample true true 2))
      as (M' & Hacc & E).
    exists M'. split; [exact Hacc|]. exact (E true true).
Defined.

Lemma head0_in_range (p : Vect3) :
  domain_in_range (Geometry.nb_parameters Examples.head0
                   - Geometry.nb_current_barrier_triangles Examples.head0)
                  (Geometry.domain_at Examples.head0 p).
Proof.
  intros b om T Hb Hom HT. simpl in Hb.
  destruct (Qeq_bool (vx p) 0); simpl in Hb; [destruct Hb|].
  destruct Hb as [<-|[]]. simpl in Hom. destruct Hom as [<-|[]].
  simpl in HT. destruct HT as [<-|[]]. simpl. split.
  - intros [|[|i]]; simpl; lia.
  - intros _. lia.
Defined.

Lemma degenerate_points_are_dropped_witness :
  exists mat,
    Surf2VolMat Examples.env0 Examples.head0 Examples.two_points
    = Some ([0], mat)
    /\ Matrix.nlin mat = 1 /\ Matrix.ncol mat = 4
    /\ (exists x, Matrix.get mat 0 0 = Some x /\ (x == 0)%Q)
    /\ exists y, Matrix.get mat 0 3 = Some y /\ (y == 1)%Q.
Proof.
  destruct (degenerate_points_are_dropped Examples.env0 Examples.head0
                                          Examples.two_points)
    as (_ & _ & Hsurf & _).
  - reflexivity.
  - simpl. lia.
  - destruct (Hsurf head0_in_range) as (mat & E & (Hn & Hc & _) & Hent).
    exists mat. split; [exact E|]. split; [exact Hn|]. split; [exact Hc|].
    destruct (Hent ltac:(intros p q; simpl;
                         destruct (Qeq_bool (vx p) 0), (Qeq_bool (vx q) 0);
                         simpl; intros H; (reflexivity || discriminate))
                   0 1 (mkVect3 1 0 0) eq_refl eq_refl) as [HD HS].
    split.
    + destruct (HD 0) as (x & Ex & Hx);
        [simpl; lia | simpl; intros [H|[]]; discriminate |].
      exists x. split; [exact Ex|]. rewrite Hx. reflexivity.
    + eexists. split.
      * apply HS.
        -- simpl. constructor; [simpl; tauto | constructor].
        -- simpl. intros c [<-|[<-|[<-|[]]]] [H|[]]; discriminate.
        -- simpl. left. reflexivity.
      * reflexivity.
Defined.
